(** * DB2 SQL language support: validation, CTE extraction, completion

    A shallow embedding of the analysis functions of
    [src/languages/db2sql/db2sql.config.ts]: [validateDB2SQL] with its helper
    [stripCommentsAndStrings], [parseCTEs], [getPositionFromOffset],
    [getAllTablesForValidation], [getSQLContext], and [provideCompletionItems]
    of the provider that [createDB2SQLCompletionProvider] returns; then the
    validator that [createDB2SQLValidator] returns, [provideHover] of the
    provider that [createDB2SQLHoverProvider] returns, the language
    configuration [db2sqlLanguageConfiguration], and [registerDB2SQL] of
    [src/languages/db2sql/index.ts].

    Text is a list of UTF-16 code units, as a JavaScript string is.  The
    regular expressions of the source are kept as regular expressions: they
    are values of the type [regex] below, run by a backtracking matcher with
    the priorities of the JavaScript one.  Where a comment quotes a pattern
    of the source, a star before a closing parenthesis is followed by a
    space. *)

From Stdlib Require Import String Ascii.
From Stdlib Require Import List NArith ZArith Arith Bool Lia.
Import ListNotations.

Set Implicit Arguments.

(** ** Text *)

Definition char := N.
Definition str := list char.

(** A literal of the source, written as a Rocq string. *)
Definition lit (s : string) : str := map N_of_ascii (list_ascii_of_string s).
Arguments lit s%_string.

Definition c_nl : char := 10%N.
Definition c_quote : char := 39%N.      (* ' *)
Definition c_dquote : char := 34%N.     (* the double quote *)
Definition c_lparen : char := 40%N.
Definition c_rparen : char := 41%N.
Definition c_star : char := 42%N.
Definition c_comma : char := 44%N.
Definition c_minus : char := 45%N.
Definition c_dot : char := 46%N.
Definition c_slash : char := 47%N.
Definition c_semi : char := 59%N.
Definition c_space : char := 32%N.

Fixpoint str_eqb (a b : str) : bool :=
  match a, b with
  | [], [] => true
  | x :: a', y :: b' => N.eqb x y && str_eqb a' b'
  | _, _ => false
  end.

Definition is_upper (c : char) : bool := (N.leb 65 c && N.leb c 90)%bool.
Definition is_lower (c : char) : bool := (N.leb 97 c && N.leb c 122)%bool.

(** [String.prototype.toUpperCase], on the ASCII letters.  Every string the
    source upper-cases that comes from the text was matched by an identifier
    class [[A-Za-z0-9_#@$.]], where this is exact.  The names of the schema
    description and the word under the cursor of the hover provider can be
    any string: there it is exact when they are ASCII, and the theorems
    about them say so ([is_ascii], [ascii_schema]). *)
Definition upper_char (c : char) : char := if is_lower c then (c - 32)%N else c.
Definition toUpperCase (s : str) : str := map upper_char s.

(** The other case of an ASCII letter; any other code unit is left alone. *)
Definition swapcase (c : char) : char :=
  if is_lower c then (c - 32)%N else if is_upper c then (c + 32)%N else c.

(** [s.substring(a, b)]: both ends are clamped to the string, and swapped
    when [a > b]. *)
Definition substring (s : str) (a b : nat) : str :=
  let lo := Nat.min a b in
  let hi := Nat.max a b in
  firstn (hi - lo) (skipn lo s).

(** [s.substring(a)]. *)
Definition substring_from (s : str) (a : nat) : str := skipn a s.

Fixpoint starts_with (p s : str) : bool :=
  match p, s with
  | [], _ => true
  | x :: p', y :: s' => N.eqb x y && starts_with p' s'
  | _ :: _, [] => false
  end.

(** [s.indexOf(p)]: [None] stands for [-1]. *)
Fixpoint indexOf_from (p s : str) (i : nat) : option nat :=
  if starts_with p s then Some i
  else match s with
       | [] => None
       | _ :: s' => indexOf_from p s' (S i)
       end.
Definition indexOf (s p : str) : option nat := indexOf_from p s 0.

(** [s.lastIndexOf(c)] for a one-character [c]. *)
Fixpoint lastIndexOf_from (c : char) (s : str) (i : nat) (acc : option nat)
  : option nat :=
  match s with
  | [] => acc
  | x :: s' => lastIndexOf_from c s' (S i) (if N.eqb x c then Some i else acc)
  end.
Definition lastIndexOf (s : str) (c : char) : option nat :=
  lastIndexOf_from c s 0 None.

(** [s.split(c)] for a one-character separator. *)
Fixpoint split_on (c : char) (s : str) : list str :=
  match s with
  | [] => [[]]
  | x :: s' =>
      if N.eqb x c then [] :: split_on c s'
      else match split_on c s' with
           | cur :: rest => (x :: cur) :: rest
           | [] => [[x]]
           end
  end.

(** [arr.join(sep)]. *)
Fixpoint join (sep : str) (l : list str) : str :=
  match l with
  | [] => []
  | [x] => x
  | x :: rest => x ++ sep ++ join sep rest
  end.

(** [arr.indexOf(x) >= 0] for an array of strings. *)
Definition str_mem (x : str) (l : list str) : bool := existsb (str_eqb x) l.

(** ** Regular expressions *)

(** A character class is a list of inclusive ranges of code units. *)
Definition class := list (char * char).

Definition in_ranges (rs : class) (c : char) : bool :=
  existsb (fun r => (N.leb (fst r) c && N.leb c (snd r))%bool) rs.

(** Membership with the [i] flag: a member of the class has the same
    canonical form as [c].  The classes of the source hold ASCII letters and
    caseless characters only, for which this is the other case of [c]. *)
Definition in_class (ic : bool) (rs : class) (c : char) : bool :=
  (in_ranges rs c || (ic && in_ranges rs (swapcase c)))%bool.

Definition chr_eq (ic : bool) (x c : char) : bool :=
  (N.eqb x c || (ic && N.eqb (swapcase x) c))%bool.

(** [\s]: white space and line terminators. *)
Definition cls_space : class :=
  [(9, 13); (32, 32); (160, 160); (5760, 5760); (8192, 8202); (8232, 8233);
   (8239, 8239); (8287, 8287); (12288, 12288); (65279, 65279)]%N.
(** [\w], as [\b] reads it. *)
Definition cls_word : class := [(48, 57); (65, 90); (95, 95); (97, 122)]%N.
(** [[A-Za-z0-9_#@$]] and [[A-Za-z_#@$]]. *)
Definition cls_id : class :=
  [(65, 90); (97, 122); (48, 57); (95, 95); (35, 35); (64, 64); (36, 36)]%N.
Definition cls_id0 : class :=
  [(65, 90); (97, 122); (95, 95); (35, 35); (64, 64); (36, 36)]%N.

Definition is_space (c : char) : bool := in_ranges cls_space c.

Inductive regex : Type :=
| REps
| RChr (c : char)                      (* a literal character *)
| RSet (neg : bool) (rs : class)       (* [...] and [^...] *)
| RSeq (r1 r2 : regex)
| RAlt (r1 r2 : regex)                 (* r1|r2, r1 tried first *)
| RStar (greedy : bool) (r : regex)    (* r* and r*? *)
| RGrp (n : nat) (r : regex)           (* the n-th capturing group *)
| RAhead (neg : bool) (r : regex)      (* (?=r) and (?!r) *)
| RBehind (neg : bool) (rs : class)    (* (?<=[...]) and (?<![...]) *)
| RBol                                 (* ^ without the m flag *)
| REol                                 (* $ without the m flag *)
| RWordB.                              (* \b *)

Definition RPlus (g : bool) (r : regex) : regex := RSeq r (RStar g r).
Definition ROpt (r : regex) : regex := RAlt r REps.
Fixpoint RCat (l : list regex) : regex :=
  match l with
  | [] => REps
  | [r] => r
  | r :: l' => RSeq r (RCat l')
  end.
Fixpoint ROr (l : list regex) : regex :=
  match l with
  | [] => RSet false []
  | [r] => r
  | r :: l' => RAlt r (ROr l')
  end.
(** A word of the pattern, character by character. *)
Definition RStr (s : str) : regex := RCat (map RChr s).
Definition RLit (s : string) : regex := RStr (lit s).
Arguments RLit s%_string.
Definition RAny : regex := RSet true [].          (* [\s\S] *)
Definition RSp : regex := RSet false cls_space.   (* \s *)
Definition RNsp : regex := RSet true cls_space.   (* \S *)

(** The matcher runs over a split of the subject: the characters before the
    current position, nearest first, and those after it. *)
Record mstate : Type := MState {
  before : str;
  after : str;
  caps : list (nat * (nat * nat))
}.

Definition set_cap (n : nat) (a b : nat) (st : mstate) : mstate :=
  MState (before st) (after st) ((n, (a, b)) :: caps st).

Definition word_at (l : str) : bool :=
  match l with
  | c :: _ => in_ranges cls_word c
  | [] => false
  end.

Definition orelse {A : Type} (x : option A) (y : option A) : option A :=
  match x with
  | Some _ => x
  | None => y
  end.

(** Backtracking matcher in continuation-passing style.  An iteration of a
    star that consumes nothing is rejected, as in JavaScript; the counter of
    the star is the number of characters left, which no run of non-empty
    iterations can exceed. *)
Fixpoint rmatch (ic : bool) (r : regex) (st : mstate)
  (k : mstate -> option mstate) {struct r} : option mstate :=
  match r with
  | REps => k st
  | RChr c =>
      match after st with
      | x :: rest =>
          if chr_eq ic x c then k (MState (x :: before st) rest (caps st))
          else None
      | [] => None
      end
  | RSet neg rs =>
      match after st with
      | x :: rest =>
          if xorb neg (in_class ic rs x)
          then k (MState (x :: before st) rest (caps st))
          else None
      | [] => None
      end
  | RSeq r1 r2 => rmatch ic r1 st (fun st1 => rmatch ic r2 st1 k)
  | RAlt r1 r2 => orelse (rmatch ic r1 st k) (rmatch ic r2 st k)
  | RStar g r1 =>
      (fix loop (fuel : nat) (st0 : mstate) {struct fuel} : option mstate :=
         match fuel with
         | O => k st0
         | S fuel' =>
             let iter :=
               rmatch ic r1 st0
                 (fun st1 =>
                    if Nat.ltb (length (after st1)) (length (after st0))
                    then loop fuel' st1 else None) in
             if g then orelse iter (k st0) else orelse (k st0) iter
         end) (length (after st)) st
  | RGrp n r1 =>
      rmatch ic r1 st
        (fun st1 => k (set_cap n (length (before st)) (length (before st1)) st1))
  | RAhead neg r1 =>
      match rmatch ic r1 st Some with
      | Some st1 =>
          if neg then None else k (MState (before st) (after st) (caps st1))
      | None => if neg then k st else None
      end
  | RBehind neg rs =>
      let ok := match before st with
                | c :: _ => in_class ic rs c
                | [] => false
                end in
      if xorb neg ok then k st else None
  | RBol => match before st with [] => k st | _ :: _ => None end
  | REol => match after st with [] => k st | _ :: _ => None end
  | RWordB =>
      if xorb (word_at (before st)) (word_at (after st)) then k st else None
  end.

Definition match_at (ic : bool) (r : regex) (bef aft : str) : option mstate :=
  rmatch ic r (MState bef aft []) Some.

(** The first position, from the split on, at which the pattern matches. *)
Fixpoint search (ic : bool) (r : regex) (bef aft : str)
  : option (nat * mstate) :=
  match match_at ic r bef aft with
  | Some st => Some (length bef, st)
  | None =>
      match aft with
      | [] => None
      | c :: aft' => search ic r (c :: bef) aft'
      end
  end.

(** What [exec] and [match] return: the index, the end of the match, the
    matched text and the captured groups. *)
Record rx_match : Type := RxMatch {
  m_index : nat;
  m_end : nat;
  m_text : str;
  m_groups : list (nat * str)
}.

Fixpoint cap_lookup (n : nat) (l : list (nat * (nat * nat)))
  : option (nat * nat) :=
  match l with
  | [] => None
  | (m, p) :: l' => if Nat.eqb n m then Some p else cap_lookup n l'
  end.

Definition mk_match (text : str) (i : nat) (st : mstate) : rx_match :=
  RxMatch i (length (before st)) (substring text i (length (before st)))
    (map (fun e => (fst e, substring text (fst (snd e)) (snd (snd e))))
       (caps st)).

(** [m[n]]; [None] is [undefined]. *)
Definition group (m : rx_match) (n : nat) : option str :=
  (fix look (l : list (nat * str)) : option str :=
     match l with
     | [] => None
     | (k, s) :: l' => if Nat.eqb n k then Some s else look l'
     end) (m_groups m).

Definition group_or_empty (m : rx_match) (n : nat) : str :=
  match group m n with
  | Some s => s
  | None => []
  end.

(** [text.match(re)] without the [g] flag, and [re.exec(text)] from index 0. *)
Definition str_match (ic : bool) (r : regex) (text : str) : option rx_match :=
  match search ic r [] text with
  | Some (i, st) => Some (mk_match text i st)
  | None => None
  end.

(** [re.test(text)]. *)
Definition test (ic : bool) (r : regex) (text : str) : bool :=
  match search ic r [] text with
  | Some _ => true
  | None => false
  end.

(** The matches of [while ((m = re.exec(text)) !== null)] for a pattern with
    the [g] flag: each search starts where the previous match ended.  Every
    pattern the source runs this way consumes at least one character; the
    model stops at an empty match, where the source would not terminate. *)
Fixpoint exec_loop (fuel : nat) (ic : bool) (r : regex) (text : str)
  (bef aft : str) : list rx_match :=
  match fuel with
  | O => []
  | S fuel' =>
      match search ic r bef aft with
      | None => []
      | Some (i, st) =>
          mk_match text i st ::
          (if Nat.ltb (length (after st)) (length aft)
           then exec_loop fuel' ic r text (before st) (after st)
           else [])
      end
  end.

Definition exec_all (ic : bool) (r : regex) (text : str) : list rx_match :=
  exec_loop (S (length text)) ic r text [] text.

(** [text.replace(re, f)] for a pattern with the [g] flag: the text between
    two matches is copied, each match is replaced by [f] of it, and the search
    goes on from the end of the match (one character further after an empty
    match). *)
Fixpoint replace_loop (fuel : nat) (ic : bool) (r : regex) (f : str -> str)
  (bef aft : str) : str :=
  match fuel with
  | O => aft
  | S fuel' =>
      match search ic r bef aft with
      | None => aft
      | Some (i, st) =>
          let skip := i - length bef in
          let mlen := length (before st) - i in
          let rest := skipn (skip + mlen) aft in
          firstn skip aft ++ f (firstn mlen (skipn skip aft)) ++
          (if Nat.eqb mlen 0
           then match rest with
                | [] => []
                | c :: rest' =>
                    c :: replace_loop fuel' ic r f (c :: before st) rest'
                end
           else replace_loop fuel' ic r f (before st) rest)
      end
  end.

Definition replace_all (ic : bool) (r : regex) (f : str -> str) (text : str)
  : str :=
  replace_loop (S (length text)) ic r f [] text.

(** [text.replace(re, f)] for a pattern without the [g] flag: the first
    match only. *)
Definition replace_first (ic : bool) (r : regex) (f : rx_match -> str)
  (text : str) : str :=
  match str_match ic r text with
  | None => text
  | Some m => firstn (m_index m) text ++ f m ++ skipn (m_end m) text
  end.

(** [s.trim()]. *)
Fixpoint trim_start (s : str) : str :=
  match s with
  | c :: s' => if is_space c then trim_start s' else s
  | [] => []
  end.
Definition trim_end (s : str) : str := rev (trim_start (rev s)).
Definition trim (s : str) : str := trim_end (trim_start s).

(** [new Array(n + 1).join(' ')]. *)
Definition spaces (n : nat) : str := repeat c_space n.

(** The loop of the star in [rmatch], by its name. *)
Definition star_loop (ic : bool) (r : regex) (g : bool)
  (k : mstate -> option mstate) : nat -> mstate -> option mstate :=
  fix loop (fuel : nat) (st0 : mstate) {struct fuel} : option mstate :=
    match fuel with
    | O => k st0
    | S fuel' =>
        let iter :=
          rmatch ic r st0
            (fun st1 =>
               if Nat.ltb (length (after st1)) (length (after st0))
               then loop fuel' st1 else None) in
        if g then orelse iter (k st0) else orelse (k st0) iter
    end.

(** ** What a match of a pattern consumes *)

(** [rm ic r b w a]: with the characters [b] before the current position
    (nearest first), the pattern [r] can consume the word [w] in front of
    [a].  A negative lookahead is not constrained: the relation states what
    every match of the matcher satisfies. *)
Inductive rm (ic : bool) : regex -> str -> str -> str -> Prop :=
| rm_eps : forall b a, rm ic REps b [] a
| rm_chr : forall c x b a, chr_eq ic x c = true -> rm ic (RChr c) b [x] a
| rm_set : forall neg rs x b a,
    xorb neg (in_class ic rs x) = true -> rm ic (RSet neg rs) b [x] a
| rm_seq : forall r1 r2 b w1 w2 a,
    rm ic r1 b w1 (w2 ++ a) -> rm ic r2 (rev w1 ++ b) w2 a ->
    rm ic (RSeq r1 r2) b (w1 ++ w2) a
| rm_alt_l : forall r1 r2 b w a, rm ic r1 b w a -> rm ic (RAlt r1 r2) b w a
| rm_alt_r : forall r1 r2 b w a, rm ic r2 b w a -> rm ic (RAlt r1 r2) b w a
| rm_star_nil : forall g r b a, rm ic (RStar g r) b [] a
| rm_star_cons : forall g r b w1 w2 a,
    w1 <> [] -> rm ic r b w1 (w2 ++ a) ->
    rm ic (RStar g r) (rev w1 ++ b) w2 a ->
    rm ic (RStar g r) b (w1 ++ w2) a
| rm_grp : forall n r b w a, rm ic r b w a -> rm ic (RGrp n r) b w a
| rm_ahead : forall r b w a, rm ic r b w a -> rm ic (RAhead false r) b [] (w ++ a)
| rm_ahead_neg : forall r b a, rm ic (RAhead true r) b [] a
| rm_behind : forall neg rs b a,
    xorb neg (match b with
              | c :: _ => in_class ic rs c
              | [] => false
              end) = true ->
    rm ic (RBehind neg rs) b [] a
| rm_bol : forall a, rm ic RBol [] [] a
| rm_eol : forall b, rm ic REol b [] []
| rm_wordb : forall b a,
    xorb (word_at b) (word_at a) = true -> rm ic RWordB b [] a.

(** ** Occurrences of a word in a text *)

(** [p] is at the head of [s], letter case apart. *)
Fixpoint starts_with_ci (p s : str) : bool :=
  match p, s with
  | [], _ => true
  | x :: p', y :: s' =>
      (N.eqb (upper_char y) (upper_char x) && starts_with_ci p' s')%bool
  | _ :: _, [] => false
  end.

(** [p] occurs in [s], letter case apart. *)
Fixpoint contains_ci (p s : str) : bool :=
  (starts_with_ci p s ||
   match s with
   | [] => false
   | _ :: s' => contains_ci p s'
   end)%bool.

(** [p] occurs in [s]. *)
Fixpoint contains (p s : str) : bool :=
  (starts_with p s ||
   match s with
   | [] => false
   | _ :: s' => contains p s'
   end)%bool.

(** ** The patterns shared by several functions *)

(** [[A-Za-z_#@$][A-Za-z0-9_#@$]*] *)
Definition rx_ident : regex :=
  RSeq (RSet false cls_id0) (RStar true (RSet false cls_id)).
(** [[A-Za-z0-9_#@$]+] *)
Definition rx_idchars : regex := RPlus true (RSet false cls_id).
(** [[A-Za-z0-9_#@$]+(?:\.[A-Za-z0-9_#@$]+)?] *)
Definition rx_tableref : regex :=
  RSeq rx_idchars (ROpt (RSeq (RChr c_dot) rx_idchars)).
Definition rx_sp_plus : regex := RPlus true RSp.    (* \s+ *)
Definition rx_sp_star : regex := RStar true RSp.    (* \s* *)
(** [(?:FROM|JOIN)] *)
Definition rx_from_join : regex := RAlt (RLit "FROM") (RLit "JOIN").

(** [/--[^\n]*/g] *)
Definition rx_line_comment : regex :=
  RCat [RChr c_minus; RChr c_minus; RStar true (RSet true [(c_nl, c_nl)])].
(** [/\/\*[\s\S]*?\*\//g] *)
Definition rx_block_comment : regex :=
  RCat [RChr c_slash; RChr c_star; RStar false RAny; RChr c_star; RChr c_slash].
(** [/'[^']*'/g] *)
Definition rx_string_literal : regex :=
  RCat [RChr c_quote; RStar true (RSet true [(c_quote, c_quote)]); RChr c_quote].

(** [match.replace(/[^\n]/g, ' ')] *)
Definition blank_keep_newlines (m : str) : str :=
  map (fun c => if N.eqb c c_nl then c_nl else c_space) m.
Definition blank (m : str) : str := spaces (length m).

(** The helper [stripCommentsAndStrings] of [validateDB2SQL]. *)
Definition stripCommentsAndStrings (expr : str) : str :=
  let result := replace_all false rx_line_comment blank expr in
  let result := replace_all false rx_block_comment blank_keep_newlines result in
  let result := replace_all false rx_string_literal blank result in
  result.

Definition stripComments := stripCommentsAndStrings.

(** ** Positions *)

Record position : Type := Position { line : nat; column : nat }.

(** [getPositionFromOffset]: the loop runs over the first [offset]
    characters of the text. *)
Fixpoint position_loop (s : str) (offset : nat) (ln col : nat) : position :=
  match offset, s with
  | S offset', c :: s' =>
      if N.eqb c c_nl then position_loop s' offset' (S ln) 1
      else position_loop s' offset' ln (S col)
  | _, _ => Position ln col
  end.

Definition getPositionFromOffset (text : str) (offset : nat) : position :=
  position_loop text offset 1 1.

(** ** The schema description *)

Inductive table_type : Type := TABLE | VIEW | ALIAS | PHYSICAL | LOGICAL.

Record DB2Column : Type := mkColumn {
  col_name : str;
  col_dataType : option str;
  col_description : option str;
  col_nullable : option bool;
  col_isPrimaryKey : option bool
}.

Record DB2Table : Type := mkTable {
  tbl_name : str;
  tbl_schema : option str;
  tbl_description : option str;
  tbl_columns : option (list DB2Column);
  tbl_type : option table_type
}.

Record DB2Schema : Type := mkSchema {
  sch_name : str;
  sch_description : option str;
  sch_tables : option (list DB2Table)
}.

Record DB2SchemaConfig : Type := mkConfig {
  cfg_schemas : option (list DB2Schema);
  cfg_tables : option (list DB2Table);
  cfg_defaultSchema : option str;
  cfg_showSchemaPrefix : option bool
}.

(** An optional string in a condition: absent and empty are both false. *)
Definition truthy (o : option str) : option str :=
  match o with
  | Some (_ :: _) => o
  | _ => None
  end.

Definition opt_list {A : Type} (o : option (list A)) : list A :=
  match o with
  | Some l => l
  | None => []
  end.

(** [getAllTablesForValidation] *)
Definition getAllTablesForValidation (schemaConfig : DB2SchemaConfig)
  : list DB2Table :=
  opt_list (cfg_tables schemaConfig) ++
  flat_map
    (fun schema =>
       map (fun table =>
              mkTable (tbl_name table)
                (match truthy (tbl_schema table) with
                 | Some s => Some s
                 | None => Some (sch_name schema)
                 end)
                (tbl_description table) (tbl_columns table) (tbl_type table))
         (opt_list (sch_tables schema)))
    (opt_list (cfg_schemas schemaConfig)).

(** [(t.schema + '.' + t.name).toUpperCase()] when the table has a schema. *)
Definition qualified_upper (t : DB2Table) : option str :=
  match truthy (tbl_schema t) with
  | Some s => Some (toUpperCase (s ++ [c_dot] ++ tbl_name t))
  | None => None
  end.

(** [name.indexOf('.') >= 0 ? name.split('.')[1] : name] *)
Definition short_name (name : str) : str :=
  match indexOf name [c_dot] with
  | Some _ => nth 1 (split_on c_dot name) []
  | None => name
  end.

(** ** Common table expressions *)

Record CTEColumn : Type := mkCTEColumn {
  cc_name : str;
  cc_expression : option str;
  cc_sourceTable : option str;
  cc_sourceColumn : option str
}.

Record ParsedCTEWithContext : Type := mkCTE {
  name : str;
  columns : list CTEColumn;
  startOffset : nat;
  endOffset : nat;
  bodyStartOffset : nat;
  bodyEndOffset : nat;
  fromTables : list str
}.

(** [/\bWITH\s+/i] *)
Definition rx_with : regex := RCat [RWordB; RLit "WITH"; rx_sp_plus].
(** [/([A-Za-z_#@$][A-Za-z0-9_#@$]* )\s+AS\s*\(/gi] *)
Definition ctePattern : regex :=
  RCat [RGrp 1 rx_ident; rx_sp_plus; RLit "AS"; rx_sp_star; RChr c_lparen].
(** [/SELECT\s+([\s\S]*?)(?=\s+FROM\s+)/i] *)
Definition rx_select_clause : regex :=
  RCat [RLit "SELECT"; rx_sp_plus; RGrp 1 (RStar false RAny);
        RAhead false (RCat [rx_sp_plus; RLit "FROM"; rx_sp_plus])].
(** [/^\s*(DISTINCT|ALL)\s+/i] *)
Definition rx_distinct_all : regex :=
  RCat [RBol; rx_sp_star; RGrp 1 (RAlt (RLit "DISTINCT") (RLit "ALL"));
        rx_sp_plus].
(** [/^([\s\S]+?)\s+AS\s+([A-Za-z_#@$][A-Za-z0-9_#@$]* )\s*$/i] *)
Definition rx_as_alias : regex :=
  RCat [RBol; RGrp 1 (RPlus false RAny); rx_sp_plus; RLit "AS"; rx_sp_plus;
        RGrp 2 rx_ident; rx_sp_star; REol].
(** [/^([A-Za-z_#@$][A-Za-z0-9_#@$]* )\.([A-Za-z_#@$][A-Za-z0-9_#@$]* )$/] *)
Definition rx_simple_ref : regex :=
  RCat [RBol; RGrp 1 rx_ident; RChr c_dot; RGrp 2 rx_ident; REol].
(** [/^([A-Za-z_#@$][A-Za-z0-9_#@$]* )$/] *)
Definition rx_bare_ident : regex := RCat [RBol; RGrp 1 rx_ident; REol].
(** [/(?:FROM|JOIN)\s+([A-Za-z0-9_#@$]+(?:\.[A-Za-z0-9_#@$]+)?)/gi] *)
Definition tableRefRegex : regex :=
  RCat [rx_from_join; rx_sp_plus; RGrp 1 rx_tableref].

(** The loop of [parseCTEs] that looks for the closing parenthesis: [s] is
    the text from [pos] on. *)
Fixpoint find_close (s : str) (pos depth : nat) (inString : bool) : nat :=
  match s with
  | [] => pos
  | c :: s' =>
      if Nat.eqb depth 0 then pos
      else if (N.eqb c c_quote && negb inString)%bool
           then find_close s' (S pos) depth true
      else if (N.eqb c c_quote && inString)%bool
           then find_close s' (S pos) depth false
      else if negb inString then
             if N.eqb c c_lparen then find_close s' (S pos) (S depth) inString
             else if N.eqb c c_rparen
                  then find_close s' (S pos) (depth - 1) inString
                  else find_close s' (S pos) depth inString
           else find_close s' (S pos) depth inString
  end.

(** The loop of [parseCTEs] that splits the select list at the commas outside
    parentheses and strings. *)
Fixpoint split_columns (s : str) (columnExprs : list str) (currentExpr : str)
  (parenDepth : Z) (inStr : bool) : list str :=
  match s with
  | [] =>
      match trim currentExpr with
      | [] => columnExprs
      | _ :: _ => columnExprs ++ [trim currentExpr]
      end
  | c :: s' =>
      if (N.eqb c c_quote && negb inStr)%bool
      then split_columns s' columnExprs (currentExpr ++ [c]) parenDepth true
      else if (N.eqb c c_quote && inStr)%bool
      then split_columns s' columnExprs (currentExpr ++ [c]) parenDepth false
      else if negb inStr then
        if N.eqb c c_lparen
        then split_columns s' columnExprs (currentExpr ++ [c])
               (parenDepth + 1)%Z inStr
        else if N.eqb c c_rparen
        then split_columns s' columnExprs (currentExpr ++ [c])
               (parenDepth - 1)%Z inStr
        else if (N.eqb c c_comma && Z.eqb parenDepth 0)%bool
        then split_columns s' (columnExprs ++ [trim currentExpr]) []
               parenDepth inStr
        else split_columns s' columnExprs (currentExpr ++ [c]) parenDepth inStr
      else split_columns s' columnExprs (currentExpr ++ [c]) parenDepth inStr
  end.

(** The body of [columnExprs.forEach] in [parseCTEs]: the column an
    expression of the select list declares, if any. *)
Definition parse_column (expr : str) : list CTEColumn :=
  let cleanExpr := trim (replace_first true rx_distinct_all (fun _ => []) expr) in
  if (str_eqb cleanExpr [] || str_eqb cleanExpr [c_star])%bool then []
  else
    match str_match true rx_as_alias cleanExpr with
    | Some asMatch =>
        [mkCTEColumn (toUpperCase (group_or_empty asMatch 2))
           (Some (trim (group_or_empty asMatch 1))) None None]
    | None =>
        match str_match false rx_simple_ref cleanExpr with
        | Some simpleMatch =>
            [mkCTEColumn (toUpperCase (group_or_empty simpleMatch 2)) None
               (Some (toUpperCase (group_or_empty simpleMatch 1)))
               (Some (toUpperCase (group_or_empty simpleMatch 2)))]
        | None =>
            match str_match false rx_bare_ident cleanExpr with
            | Some colMatch =>
                [mkCTEColumn (toUpperCase (group_or_empty colMatch 1)) None
                   None (Some (toUpperCase (group_or_empty colMatch 1)))]
            | None => []
            end
        end
    end.

(** The body of the [while] loop of [parseCTEs], for one match of
    [ctePattern]. *)
Definition parse_one_cte (text : str) (m : rx_match) : ParsedCTEWithContext :=
  let cteName := toUpperCase (group_or_empty m 1) in
  let startOffset := m_index m in
  let openParenPos := m_index m + length (m_text m) - 1 in
  let pos := find_close (skipn (openParenPos + 1) text) (openParenPos + 1) 1
               false in
  let cteBody := substring text (openParenPos + 1) (pos - 1) in
  let endOffset := pos in
  let columns :=
    match str_match true rx_select_clause cteBody with
    | Some selectMatch =>
        flat_map parse_column
          (split_columns (group_or_empty selectMatch 1) [] [] 0%Z false)
    | None => []
    end in
  let fromTables :=
    map (fun fromMatch => toUpperCase (group_or_empty fromMatch 1))
      (exec_all true tableRefRegex cteBody) in
  mkCTE cteName columns startOffset endOffset (openParenPos + 1) (pos - 1)
    fromTables.

(** [parseCTEs] *)
Definition parseCTEs (text : str) : list ParsedCTEWithContext :=
  match str_match true rx_with text with
  | None => []
  | Some _ => map (parse_one_cte text) (exec_all true ctePattern text)
  end.

(** ** Diagnostics *)

Inductive severity_t : Type := error | warning | info | hint.

Record DB2SQLDiagnostic : Type := mkDiag {
  startLineNumber : nat;
  startColumn : nat;
  endLineNumber : nat;
  endColumn : nat;
  message : str;
  severity : severity_t
}.

(** The diagnostic of width [len] that starts at a position. *)
Definition diag_at (p : position) (len : nat) (msg : str) (sev : severity_t)
  : DB2SQLDiagnostic :=
  mkDiag (line p) (column p) (line p) (column p + len) msg sev.

(** *** Unclosed string literals *)

Record quote_state : Type := QuoteState {
  inString : bool;
  stringStartLine : nat;
  stringStartCol : nat
}.

(** The inner loop over one line; [prev] is [line[col - 1]], absent at
    column 0. *)
Fixpoint quote_scan_line (l : str) (prev : option char) (col lineNum : nat)
  (st : quote_state) : quote_state :=
  match l with
  | [] => st
  | c :: rest =>
      let toggles :=
        (N.eqb c c_quote &&
         match prev with
         | None => true
         | Some p => negb (N.eqb p c_quote)
         end)%bool in
      let st' :=
        if toggles then
          if negb (inString st) then QuoteState true lineNum col
          else QuoteState false (stringStartLine st) (stringStartCol st)
        else st in
      quote_scan_line rest (Some c) (S col) lineNum st'
  end.

Fixpoint quote_scan (lines : list str) (lineNum : nat) (st : quote_state)
  : quote_state :=
  match lines with
  | [] => st
  | l :: rest => quote_scan rest (S lineNum) (quote_scan_line l None 0 lineNum st)
  end.

Definition check_unclosed_string (lines : list str) : list DB2SQLDiagnostic :=
  let st := quote_scan lines 0 (QuoteState false 0 0) in
  if inString st then
    [mkDiag (stringStartLine st + 1) (stringStartCol st + 1)
       (stringStartLine st + 1) (stringStartCol st + 2)
       (lit "Unclosed string literal") error]
  else [].

(** *** Unmatched parentheses *)

Record paren_state : Type := ParenState {
  parenDepth : Z;
  parenStack : list (nat * nat);
  parenDiags : list DB2SQLDiagnostic
}.

Fixpoint paren_scan_line (l : str) (pCol pLineNum : nat) (inStr : bool)
  (st : paren_state) : paren_state :=
  match l with
  | [] => st
  | pChar :: rest =>
      if (N.eqb pChar c_quote && negb inStr)%bool
      then paren_scan_line rest (S pCol) pLineNum true st
      else if (N.eqb pChar c_quote && inStr)%bool
      then paren_scan_line rest (S pCol) pLineNum false st
      else if negb inStr then
        if N.eqb pChar c_lparen then
          paren_scan_line rest (S pCol) pLineNum inStr
            (ParenState (parenDepth st + 1)
               (parenStack st ++ [(pLineNum, pCol)]) (parenDiags st))
        else if N.eqb pChar c_rparen then
          if Z.ltb (parenDepth st - 1) 0 then
            paren_scan_line rest (S pCol) pLineNum inStr
              (ParenState 0 (parenStack st)
                 (parenDiags st ++
                  [mkDiag (pLineNum + 1) (pCol + 1) (pLineNum + 1) (pCol + 2)
                     (lit "Unexpected closing parenthesis") error]))
          else
            paren_scan_line rest (S pCol) pLineNum inStr
              (ParenState (parenDepth st - 1) (removelast (parenStack st))
                 (parenDiags st))
        else paren_scan_line rest (S pCol) pLineNum inStr st
      else paren_scan_line rest (S pCol) pLineNum inStr st
  end.

Fixpoint paren_scan (lines : list str) (pLineNum : nat) (st : paren_state)
  : paren_state :=
  match lines with
  | [] => st
  | l :: rest =>
      paren_scan rest (S pLineNum) (paren_scan_line l 0 pLineNum false st)
  end.

Definition unclosed_diag (p : nat * nat) : DB2SQLDiagnostic :=
  mkDiag (fst p + 1) (snd p + 1) (fst p + 1) (snd p + 2)
    (lit "Unclosed parenthesis") error.

Definition check_parens (lines : list str) : list DB2SQLDiagnostic :=
  let st := paren_scan lines 0 (ParenState 0 [] []) in
  parenDiags st ++ map unclosed_diag (parenStack st).

(** *** The checks that run a pattern over the text *)

Definition rx_kw (l : list string) : regex := ROr (map RLit l).

(** [/,\s*\n?\s*(FROM|WHERE|GROUP\s+BY|ORDER\s+BY|HAVING|UNION|EXCEPT|INTERSECT|FETCH|LIMIT|FOR|;|\))/gi] *)
Definition trailingCommaRegex : regex :=
  RCat [RChr c_comma; rx_sp_star; ROpt (RChr c_nl); rx_sp_star;
        RGrp 1 (ROr [RLit "FROM"; RLit "WHERE";
                     RCat [RLit "GROUP"; rx_sp_plus; RLit "BY"];
                     RCat [RLit "ORDER"; rx_sp_plus; RLit "BY"];
                     RLit "HAVING"; RLit "UNION"; RLit "EXCEPT";
                     RLit "INTERSECT"; RLit "FETCH"; RLit "LIMIT"; RLit "FOR";
                     RChr c_semi; RChr c_rparen])].

Definition check_trailing_comma (text : str) : list DB2SQLDiagnostic :=
  map (fun commaMatch =>
         diag_at (getPositionFromOffset text (m_index commaMatch)) 1
           (lit "Unexpected comma before " ++
            toUpperCase (trim (group_or_empty commaMatch 1))) error)
    (exec_all true trailingCommaRegex text).

(** [(?:\/\*[\s\S]*?\*\/|--[^\n]*\n|\s)*] *)
Definition rx_skip_comments : regex :=
  RStar true
    (ROr [rx_block_comment;
          RCat [RChr c_minus; RChr c_minus;
                RStar true (RSet true [(c_nl, c_nl)]); RChr c_nl];
          RSp]).

(** [/WITH\s+(?:\/\*[\s\S]*?\*\/|--[^\n]*\n|\s)*([A-Za-z_#@$][A-Za-z0-9_#@$]* )\s+AS\s*\(/gi] *)
Definition cteRegex : regex :=
  RCat [RLit "WITH"; rx_sp_plus; rx_skip_comments; RGrp 1 rx_ident;
        rx_sp_plus; RLit "AS"; rx_sp_star; RChr c_lparen].
(** [/\)\s*,\s*(?:\/\*[\s\S]*?\*\/|--[^\n]*\n|\s)*([A-Za-z_#@$][A-Za-z0-9_#@$]* )\s+AS\s*\(/gi] *)
Definition subsequentCteRegex : regex :=
  RCat [RChr c_rparen; rx_sp_star; RChr c_comma; rx_sp_star; rx_skip_comments;
        RGrp 1 rx_ident; rx_sp_plus; RLit "AS"; rx_sp_star; RChr c_lparen].

Definition cteNames (text : str) : list str :=
  map (fun cteMatch => toUpperCase (group_or_empty cteMatch 1))
    (exec_all true cteRegex text) ++
  map (fun cteMatch => toUpperCase (group_or_empty cteMatch 1))
    (exec_all true subsequentCteRegex text).

(** [/SELECT\s+(FROM|WHERE)/gi] *)
Definition emptySelectRegex : regex :=
  RCat [RLit "SELECT"; rx_sp_plus; RGrp 1 (RAlt (RLit "FROM") (RLit "WHERE"))].

Definition check_empty_select (text : str) : list DB2SQLDiagnostic :=
  map (fun emptyMatch =>
         diag_at (getPositionFromOffset text (m_index emptyMatch)) 6
           (lit "SELECT requires at least one column or expression") error)
    (exec_all true emptySelectRegex text).

(** [/,\s*,/g] *)
Definition doubleCommaRegex : regex :=
  RCat [RChr c_comma; rx_sp_star; RChr c_comma].

Definition check_double_comma (text : str) : list DB2SQLDiagnostic :=
  map (fun dblCommaMatch =>
         diag_at (getPositionFromOffset text (m_index dblCommaMatch))
           (length (m_text dblCommaMatch)) (lit "Duplicate comma") error)
    (exec_all false doubleCommaRegex text).

(** [/\bSELECT\s+([\s\S]*?)(?=\s+FROM\b)/gi] *)
Definition selectClauseRegex : regex :=
  RCat [RWordB; RLit "SELECT"; rx_sp_plus; RGrp 1 (RStar false RAny);
        RAhead false (RCat [rx_sp_plus; RLit "FROM"; RWordB])].
(** [/(?<![A-Za-z0-9_#@$])([A-Za-z_#@$][A-Za-z0-9_#@$]* )\s*\n\s*([A-Za-z_#@$][A-Za-z0-9_#@$]* )(?![A-Za-z0-9_#@$])/g] *)
Definition missingCommaPattern : regex :=
  RCat [RBehind true cls_id; RGrp 1 rx_ident; rx_sp_star; RChr c_nl;
        rx_sp_star; RGrp 2 rx_ident; RAhead true (RSet false cls_id)].

Definition sqlKeywordsUpper : list str :=
  map lit
    ["SELECT"; "FROM"; "WHERE"; "AND"; "OR"; "AS"; "ON"; "JOIN"; "LEFT";
     "RIGHT"; "INNER"; "OUTER"; "FULL"; "CROSS"; "GROUP"; "BY"; "ORDER";
     "HAVING"; "UNION"; "EXCEPT"; "INTERSECT"; "CASE"; "WHEN"; "THEN"; "ELSE";
     "END"; "NULL"; "NOT"; "IN"; "BETWEEN"; "LIKE"; "EXISTS"; "IS"; "ASC";
     "DESC"; "DISTINCT"; "ALL"]%string.

(** The body of the inner loop, for one match of [missingCommaPattern]. *)
Definition missing_comma_diag (text : str) (selectStartPos : nat)
  (mcMatch : rx_match) : list DB2SQLDiagnostic :=
  let firstId := toUpperCase (group_or_empty mcMatch 1) in
  let secondId := toUpperCase (group_or_empty mcMatch 2) in
  if str_eqb firstId (lit "AS") then []
  else if str_mem secondId sqlKeywordsUpper then []
  else if str_mem firstId sqlKeywordsUpper then []
  else
    [diag_at
       (getPositionFromOffset text
          (selectStartPos + m_index mcMatch +
           length (group_or_empty mcMatch 1))) 1
       (lit "Missing comma between " ++ [c_dquote] ++ group_or_empty mcMatch 1
        ++ [c_dquote] ++ lit " and " ++ [c_dquote] ++ group_or_empty mcMatch 2
        ++ [c_dquote]) error].

Definition check_missing_comma (text : str) : list DB2SQLDiagnostic :=
  flat_map
    (fun selectClauseMatch =>
       let selectContent := group_or_empty selectClauseMatch 1 in
       let selectStartPos :=
         m_index selectClauseMatch + length (m_text selectClauseMatch)
         - length selectContent in
       let strippedContent :=
         replace_all false rx_line_comment blank selectContent in
       let strippedContent :=
         replace_all false rx_block_comment blank_keep_newlines
           strippedContent in
       flat_map (missing_comma_diag text selectStartPos)
         (exec_all false missingCommaPattern strippedContent))
    (exec_all true selectClauseRegex text).

(** [/([A-Za-z0-9_#@$]+)\.\s*(\n|,|FROM|WHERE|AND|OR|ORDER|GROUP|HAVING|UNION|EXCEPT|INTERSECT|;|\))/gi] *)
Definition incompleteDotRegex : regex :=
  RCat [RGrp 1 rx_idchars; RChr c_dot; rx_sp_star;
        RGrp 2 (ROr [RChr c_nl; RChr c_comma; RLit "FROM"; RLit "WHERE";
                     RLit "AND"; RLit "OR"; RLit "ORDER"; RLit "GROUP";
                     RLit "HAVING"; RLit "UNION"; RLit "EXCEPT";
                     RLit "INTERSECT"; RChr c_semi; RChr c_rparen])].

Definition check_incomplete_dot (text : str) : list DB2SQLDiagnostic :=
  map (fun dotMatch =>
         diag_at
           (getPositionFromOffset text
              (m_index dotMatch + length (group_or_empty dotMatch 1))) 1
           (lit "Incomplete reference: expected column name after " ++
            [c_dquote] ++ group_or_empty dotMatch 1 ++ [c_dot; c_dquote])
           error)
    (exec_all true incompleteDotRegex text).

(** The diagnostics [validateDB2SQL] pushes before it looks at the schema,
    in the order of the source. *)
Definition structural_diagnostics (text : str) : list DB2SQLDiagnostic :=
  let lines := split_on c_nl text in
  check_unclosed_string lines ++
  check_trailing_comma text ++
  check_parens lines ++
  check_empty_select text ++
  check_double_comma text ++
  check_missing_comma text ++
  check_incomplete_dot text.

(** ** Checks against the schema *)

Definition sqlKeywords : list str :=
  map lit
    ["SELECT"; "FROM"; "WHERE"; "AND"; "OR"; "AS"; "ON"; "JOIN"; "LEFT";
     "RIGHT"; "INNER"; "OUTER"; "FULL"; "CROSS"; "GROUP"; "BY"; "ORDER";
     "HAVING"; "UNION"; "EXCEPT"; "INTERSECT"; "CASE"; "WHEN"; "THEN"; "ELSE";
     "END"; "NULL"; "NOT"; "IN"; "BETWEEN"; "LIKE"; "EXISTS"; "IS"; "TRUE";
     "FALSE"; "DISTINCT"; "ALL"; "ASC"; "DESC"; "FETCH"; "FIRST"; "ROWS";
     "ONLY"; "LIMIT"; "OFFSET"; "MAX"; "MIN"; "SUM"; "AVG"; "COUNT"; "CAST";
     "COALESCE"; "NULLIF"; "TRIM"; "UPPER"; "LOWER"; "SUBSTRING"; "SUBSTR";
     "LENGTH"; "CONCAT"; "DATE"; "TIME"; "TIMESTAMP"; "CHAR"; "VARCHAR";
     "INTEGER"; "DECIMAL"; "NUMERIC"; "DIGITS"; "FLOAT"; "DOUBLE"; "REAL";
     "SMALLINT"; "BIGINT"; "CLOB"; "BLOB"; "DBCLOB"; "DECFLOAT"; "XML";
     "BOOLEAN"; "TIMESTAMPDIFF"; "LPAD"; "RPAD"; "ROW_NUMBER"; "OVER";
     "PARTITION"; "LAG"; "LEAD"; "RANK"; "DENSE_RANK"; "NTILE"; "VALUES";
     "INSERT"; "UPDATE"; "DELETE"; "SET"; "INTO"; "CREATE"; "ALTER"; "DROP";
     "TABLE"; "VIEW"; "INDEX"; "WITH"; "RECURSIVE"]%string.

(** [s.indexOf(p)] as a number: [-1] when [p] does not occur. *)
Definition indexOfZ (s p : str) : Z :=
  match indexOf s p with
  | Some i => Z.of_nat i
  | None => (-1)%Z
  end.

(** An offset computed with a result of [indexOf]; a negative offset runs
    the loop of [getPositionFromOffset] no more than offset 0 does. *)
Definition offsetZ (z : Z) : nat := Z.to_nat z.

(** [for (...) if (l[i].name === x) { found = l[i]; break; }] *)
Definition find_cte (p : ParsedCTEWithContext -> bool)
  (l : list ParsedCTEWithContext) : option ParsedCTEWithContext := find p l.

Definition cte_has_column (cte : ParsedCTEWithContext) (columnName : str)
  : bool :=
  existsb (fun c => str_eqb (cc_name c) columnName) (columns cte).

Definition table_has_column (t : DB2Table) (columnName : str) : bool :=
  existsb (fun c => str_eqb (toUpperCase (col_name c)) columnName)
    (opt_list (tbl_columns t)).

Definition cte_column_names (cte : ParsedCTEWithContext) : str :=
  join (lit ", ") (map cc_name (columns cte)).

(** *** Unknown tables *)

Definition unknown_table_diag (text : str) (tableNames fullTableNames : list str)
  (ctes : list str) (m : rx_match) : list DB2SQLDiagnostic :=
  let tableName := toUpperCase (group_or_empty m 1) in
  let shortName := short_name tableName in
  let tableExists :=
    (str_mem shortName tableNames || str_mem tableName fullTableNames ||
     str_mem shortName ctes || str_mem tableName ctes)%bool in
  if tableExists then []
  else
    let pos :=
      getPositionFromOffset text
        (offsetZ (Z.of_nat (m_index m)
                  + indexOfZ (m_text m) (group_or_empty m 1))) in
    [diag_at pos (length (group_or_empty m 1))
       (lit "Unknown table: " ++ group_or_empty m 1) warning].

(** *** Unknown columns of a qualified reference *)

(** [/([A-Za-z0-9_#@$]+)\.([A-Za-z0-9_#@$]+)(?!\s*\()/g] *)
Definition columnRefRegex : regex :=
  RCat [RGrp 1 rx_idchars; RChr c_dot; RGrp 2 rx_idchars;
        RAhead true (RSeq rx_sp_star (RChr c_lparen))].

(** The text of [tableOrAlias] read as a pattern: a dollar sign in it is the
    end-of-input assertion, every other character of an identifier stands
    for itself. *)
Definition rx_of_identifier (s : str) : regex :=
  RCat (map (fun c => if N.eqb c 36 then REol else RChr c) s).

(** [new RegExp('(?:FROM|JOIN)\\s+([A-Za-z0-9_#@$]+(?:\\.[A-Za-z0-9_#@$]+)?)\\s+(?:AS\\s+)?' + tableOrAlias + '\\b', 'i')] *)
Definition aliasRegex (tableOrAlias : str) : regex :=
  RCat [rx_from_join; rx_sp_plus; RGrp 1 rx_tableref; rx_sp_plus;
        ROpt (RSeq (RLit "AS") rx_sp_plus); rx_of_identifier tableOrAlias;
        RWordB].

(** The largest [endOffset] of the parsed CTEs. *)
Definition last_cte_end (parsedCTEs : list ParsedCTEWithContext) : nat :=
  fold_left (fun lastCteEnd c =>
               if Nat.ltb lastCteEnd (endOffset c) then endOffset c
               else lastCteEnd) parsedCTEs 0.

(** The text in which an alias of the reference at [columnRefOffset] is
    looked for. *)
Definition scope_text (text : str) (parsedCTEs : list ParsedCTEWithContext)
  (columnRefOffset : nat) : str :=
  let scopeText :=
    match find (fun scopeCte =>
                  (Nat.leb (bodyStartOffset scopeCte) columnRefOffset &&
                   Nat.leb columnRefOffset (bodyEndOffset scopeCte))%bool)
            parsedCTEs with
    | Some scopeCte =>
        substring text (bodyStartOffset scopeCte) (bodyEndOffset scopeCte)
    | None => text
    end in
  if (str_eqb scopeText text && Nat.ltb 0 (length parsedCTEs))%bool then
    let lastCteEnd := last_cte_end parsedCTEs in
    if Nat.ltb lastCteEnd columnRefOffset
    then substring_from text lastCteEnd
    else scopeText
  else scopeText.

Definition unknown_cte_column_diag (text : str) (m : rx_match)
  (cte : ParsedCTEWithContext) (columnName : str) : list DB2SQLDiagnostic :=
  if cte_has_column cte columnName then []
  else
    [diag_at
       (getPositionFromOffset text
          (m_index m + length (group_or_empty m 1) + 1))
       (length columnName)
       (lit "Unknown column " ++ [c_dquote] ++ group_or_empty m 2 ++
        [c_dquote] ++ lit " in CTE " ++ [c_dquote] ++ name cte ++ [c_dquote]
        ++ lit ". Available columns: " ++ cte_column_names cte) warning].

Definition unknown_table_column_diag (text : str) (m : rx_match)
  (foundTable : option DB2Table) (columnName : str) : list DB2SQLDiagnostic :=
  match foundTable with
  | Some t =>
      match tbl_columns t with
      | Some _ =>
          if table_has_column t columnName then []
          else
            [diag_at
               (getPositionFromOffset text
                  (m_index m + length (group_or_empty m 1) + 1))
               (length columnName)
               (lit "Unknown column " ++ [c_dquote] ++ group_or_empty m 2 ++
                [c_dquote] ++ lit " in table " ++ [c_dquote] ++ tbl_name t ++
                [c_dquote]) warning]
      | None => []
      end
  | None => []
  end.

(** The body of the loop over the matches of [columnRefRegex]. *)
Definition column_ref_diag (text : str) (allTables : list DB2Table)
  (tableNames : list str) (parsedCTEs : list ParsedCTEWithContext)
  (m : rx_match) : list DB2SQLDiagnostic :=
  let tableOrAlias := toUpperCase (group_or_empty m 1) in
  let columnName := toUpperCase (group_or_empty m 2) in
  if str_mem columnName tableNames then []
  else
    match find_cte (fun c => str_eqb (name c) tableOrAlias) parsedCTEs with
    | Some foundCTE => unknown_cte_column_diag text m foundCTE columnName
    | None =>
        let foundTable :=
          find (fun t =>
                  (str_eqb (toUpperCase (tbl_name t)) tableOrAlias ||
                   match qualified_upper t with
                   | Some q => str_eqb q tableOrAlias
                   | None => false
                   end)%bool) allTables in
        let scopeText := scope_text text parsedCTEs (m_index m) in
        match str_match true (aliasRegex tableOrAlias) scopeText with
        | Some aliasMatch =>
            let aliasedTableName := toUpperCase (group_or_empty aliasMatch 1) in
            let aliasedShortName := short_name aliasedTableName in
            match find_cte (fun c =>
                              (str_eqb (name c) aliasedShortName ||
                               str_eqb (name c) aliasedTableName)%bool)
                    parsedCTEs with
            | Some aliasedCTE =>
                unknown_cte_column_diag text m aliasedCTE columnName
            | None =>
                let foundTable :=
                  match find (fun t => str_eqb (toUpperCase (tbl_name t))
                                         aliasedShortName) allTables with
                  | Some t => Some t
                  | None => foundTable
                  end in
                unknown_table_column_diag text m foundTable columnName
            end
        | None => unknown_table_column_diag text m foundTable columnName
        end
    end.

(** *** Unqualified columns *)

(** An entry of [colExprs] and of [mainColExprs]. *)
Record col_expr : Type := ColExpr {
  ce_expr : str;
  ce_untrimmed : str;
  ce_offset : Z
}.

(** The splitting loop over the select list of a CTE body; [si] is the index
    of the head of [s]. *)
Fixpoint split_col_exprs (s : str) (si : nat) (selectStartOffset : Z)
  (colExprs : list col_expr) (currentExpr : str) (exprStartOffset : Z)
  (depth : Z) (inStr : bool) : list col_expr :=
  match s with
  | [] =>
      match trim currentExpr with
      | [] => colExprs
      | _ :: _ =>
          colExprs ++ [ColExpr (trim currentExpr) currentExpr exprStartOffset]
      end
  | c :: s' =>
      let next := split_col_exprs s' (S si) selectStartOffset in
      if (N.eqb c c_quote && negb inStr)%bool
      then next colExprs (currentExpr ++ [c]) exprStartOffset depth true
      else if (N.eqb c c_quote && inStr)%bool
      then next colExprs (currentExpr ++ [c]) exprStartOffset depth false
      else if negb inStr then
        if N.eqb c c_lparen
        then next colExprs (currentExpr ++ [c]) exprStartOffset (depth + 1)%Z
               inStr
        else if N.eqb c c_rparen
        then next colExprs (currentExpr ++ [c]) exprStartOffset (depth - 1)%Z
               inStr
        else if (N.eqb c c_comma && Z.eqb depth 0)%bool
        then next
               (colExprs ++
                [ColExpr (trim currentExpr) currentExpr exprStartOffset])
               [] (selectStartOffset + Z.of_nat si + 1)%Z depth inStr
        else next colExprs (currentExpr ++ [c]) exprStartOffset depth inStr
      else next colExprs (currentExpr ++ [c]) exprStartOffset depth inStr
  end.

(** The splitting loop over the select list of the main query: the quote
    test is not chained to the rest, and an empty expression is dropped. *)
Fixpoint split_main_col_exprs (s : str) (msi : nat) (mainSelectOffset : Z)
  (mainColExprs : list col_expr) (mainCurrentExpr : str) (mainExprStart : Z)
  (mainParenDepth : Z) (mainInStr : bool) : list col_expr :=
  match s with
  | [] =>
      match trim mainCurrentExpr with
      | [] => mainColExprs
      | _ :: _ =>
          mainColExprs ++
          [ColExpr (trim mainCurrentExpr) mainCurrentExpr mainExprStart]
      end
  | mc :: s' =>
      let next := split_main_col_exprs s' (S msi) mainSelectOffset in
      let mainInStr :=
        if (N.eqb mc c_quote && negb mainInStr)%bool then true
        else if (N.eqb mc c_quote && mainInStr)%bool then false
        else mainInStr in
      if negb mainInStr then
        if N.eqb mc c_lparen
        then next mainColExprs (mainCurrentExpr ++ [mc]) mainExprStart
               (mainParenDepth + 1)%Z mainInStr
        else if N.eqb mc c_rparen
        then next mainColExprs (mainCurrentExpr ++ [mc]) mainExprStart
               (mainParenDepth - 1)%Z mainInStr
        else if (N.eqb mc c_comma && Z.eqb mainParenDepth 0)%bool
        then next
               (match trim mainCurrentExpr with
                | [] => mainColExprs
                | _ :: _ =>
                    mainColExprs ++
                    [ColExpr (trim mainCurrentExpr) mainCurrentExpr
                       mainExprStart]
                end)
               [] (mainSelectOffset + Z.of_nat msi + 1)%Z mainParenDepth
               mainInStr
        else next mainColExprs (mainCurrentExpr ++ [mc]) mainExprStart
               mainParenDepth mainInStr
      else next mainColExprs (mainCurrentExpr ++ [mc]) mainExprStart
             mainParenDepth mainInStr
  end.

(** [/(?<![A-Za-z0-9_#@$])([A-Za-z_#@$][A-Za-z0-9_#@$]* )(?![A-Za-z0-9_#@$])/g] *)
Definition identifierPattern : regex :=
  RCat [RBehind true cls_id; RGrp 1 rx_ident; RAhead true (RSet false cls_id)].
(** [/^\s*\(/] and [/^\s*\./] *)
Definition rx_call_follows : regex := RCat [RBol; rx_sp_star; RChr c_lparen].
Definition rx_dot_follows : regex := RCat [RBol; rx_sp_star; RChr c_dot].
(** [/^['0-9]/] *)
Definition rx_literal_start : regex :=
  RSeq RBol (RSet false [(c_quote, c_quote); (48, 57)]%N).
(** [/\bSELECT\s+\*/i] *)
Definition rx_select_star : regex :=
  RCat [RWordB; RLit "SELECT"; rx_sp_plus; RChr c_star].
(** [/(?<![A-Za-z0-9_#@$])([A-Za-z_#@$][A-Za-z0-9_#@$]*(?:\.[A-Za-z_#@$][A-Za-z0-9_#@$]* )?)\.\*/g] *)
Definition wildcardRegex : regex :=
  RCat [RBehind true cls_id;
        RGrp 1 (RSeq rx_ident (ROpt (RSeq (RChr c_dot) rx_ident)));
        RChr c_dot; RChr c_star].
(** [/(?:FROM|JOIN)\s+([A-Za-z0-9_#@$]+(?:\.[A-Za-z0-9_#@$]+)?)(?:\s+(?:AS\s+)?(?!(?:ON|WHERE|JOIN|LEFT|RIGHT|INNER|OUTER|CROSS|FULL|AND|OR|GROUP|ORDER|HAVING|UNION|LIMIT|FETCH)\b)([A-Za-z_#@$][A-Za-z0-9_#@$]* ))?/gi] *)
Definition cteFromJoinRegex : regex :=
  RCat [rx_from_join; rx_sp_plus; RGrp 1 rx_tableref;
        ROpt (RCat [rx_sp_plus; ROpt (RSeq (RLit "AS") rx_sp_plus);
                    RAhead true
                      (RSeq (rx_kw ["ON"; "WHERE"; "JOIN"; "LEFT"; "RIGHT";
                                    "INNER"; "OUTER"; "CROSS"; "FULL"; "AND";
                                    "OR"; "GROUP"; "ORDER"; "HAVING"; "UNION";
                                    "LIMIT"; "FETCH"]%string) RWordB);
                    RGrp 2 rx_ident])].

(** An object used as a map from strings to strings: the entry written
    last comes first. *)
Definition str_map := list (str * str).
Fixpoint map_get (m : str_map) (k : str) : option str :=
  match m with
  | [] => None
  | (k', v) :: m' => if str_eqb k k' then Some v else map_get m' k
  end.
Definition map_set (m : str_map) (k v : str) : str_map := (k, v) :: m.

(** The alias map of a CTE body, as both copies of the loop over
    [cteFromJoinRegex] build it. *)
Definition cte_alias_map (refCteBody : str) : str_map :=
  fold_left
    (fun m fjMatch =>
       let tblName := toUpperCase (group_or_empty fjMatch 1) in
       let m :=
         match group fjMatch 2 with
         | Some ((_ :: _) as a) => map_set m (toUpperCase a) tblName
         | _ => m
         end in
       let tblShort := short_name tblName in
       map_set (map_set m tblShort tblName) tblName tblName)
    (exec_all true cteFromJoinRegex refCteBody) [].

(** Whether the first table of the schema that answers to [tbl] (by short
    name, or by its qualified name) has the column. *)
Definition source_table_has_column (allTables : list DB2Table) (tbl : str)
  (potentialCol : str) : bool :=
  let tblShort := short_name tbl in
  match find (fun st =>
                (str_eqb (toUpperCase (tbl_name st)) tblShort ||
                 match qualified_upper st with
                 | Some q => str_eqb q tbl
                 | None => false
                 end)%bool) allTables with
  | Some st => table_has_column st potentialCol
  | None => false
  end.

(** The columns a CTE takes from its source tables through [SELECT *] or
    [table.*]; the text is the same in the check of the CTE bodies and in
    the check of the main query. *)
Definition found_via_wildcard (text : str) (allTables : list DB2Table)
  (refCTE : ParsedCTEWithContext) (potentialCol : str) : bool :=
  let refCteBody :=
    substring text (bodyStartOffset refCTE) (bodyEndOffset refCTE) in
  let hasSelectStar := test true rx_select_star refCteBody in
  let wildcardPatterns :=
    map (fun wcMatch => toUpperCase (group_or_empty wcMatch 1))
      (exec_all false wildcardRegex refCteBody) in
  let cteAliasMap := cte_alias_map refCteBody in
  if hasSelectStar then
    existsb (fun srcTbl => source_table_has_column allTables srcTbl potentialCol)
      (fromTables refCTE)
  else
    existsb
      (fun wcPattern =>
         let resolvedTable :=
           match map_get cteAliasMap wcPattern with
           | Some ((_ :: _) as v) => v
           | _ => wcPattern
           end in
         source_table_has_column allTables resolvedTable potentialCol)
      wildcardPatterns.

Definition found_in_ctes (text : str) (allTables : list DB2Table)
  (referenced : list ParsedCTEWithContext) (potentialCol : str) : bool :=
  existsb (fun refCTE =>
             (cte_has_column refCTE potentialCol ||
              found_via_wildcard text allTables refCTE potentialCol)%bool)
    referenced.

(** The tests that make the loop over the identifiers go on to the next
    one: a keyword, a function call, a qualified name or a qualifier. *)
Definition skip_identifier (exprToCheck : str) (idMatch : rx_match) : bool :=
  let potentialCol := toUpperCase (group_or_empty idMatch 1) in
  let matchIndex := m_index idMatch in
  let afterMatch :=
    substring_from exprToCheck (matchIndex + length (group_or_empty idMatch 1))
  in
  (str_mem potentialCol sqlKeywords ||
   test false rx_call_follows afterMatch ||
   (Nat.ltb 0 matchIndex &&
    match nth_error exprToCheck (matchIndex - 1) with
    | Some c => N.eqb c c_dot
    | None => false
    end) ||
   test false rx_dot_follows afterMatch)%bool.

(** The offset of an identifier of an expression of the select list. *)
Definition identifier_offset (ce : col_expr) (matchIndex : nat) : nat :=
  let contentStart := indexOfZ (ce_untrimmed ce) (ce_expr ce) in
  offsetZ (ce_offset ce + (if Z.ltb 0 contentStart then contentStart else 0)
           + Z.of_nat matchIndex)%Z.

(** The check of the unqualified columns of one CTE body that reads from
    other CTEs. *)
Definition cte_body_diags (text : str) (allTables : list DB2Table)
  (parsedCTEs : list ParsedCTEWithContext) (currentCTE : ParsedCTEWithContext)
  : list DB2SQLDiagnostic :=
  let cteBody :=
    substring text (bodyStartOffset currentCTE) (bodyEndOffset currentCTE) in
  let referencedCTEsInBody :=
    flat_map (fun fromTable =>
                match find_cte (fun c => str_eqb (name c) fromTable)
                        parsedCTEs with
                | Some c => [c]
                | None => []
                end) (fromTables currentCTE) in
  match referencedCTEsInBody with
  | [] => []
  | _ :: _ =>
      match str_match true rx_select_clause cteBody with
      | None => []
      | Some selectMatch =>
          let selectClause := group_or_empty selectMatch 1 in
          let selectKeywordPos := indexOfZ cteBody (m_text selectMatch) in
          let selectStartOffset :=
            (Z.of_nat (bodyStartOffset currentCTE) + selectKeywordPos +
             Z.of_nat (length (m_text selectMatch) - length selectClause))%Z in
          let colExprs :=
            split_col_exprs selectClause 0 selectStartOffset [] []
              selectStartOffset 0 false in
          flat_map
            (fun ce =>
               let colExpr := stripComments (ce_expr ce) in
               let exprToCheck :=
                 match str_match true rx_as_alias colExpr with
                 | Some asMatch => trim (group_or_empty asMatch 1)
                 | None => colExpr
                 end in
               if (test false rx_literal_start exprToCheck ||
                   str_eqb exprToCheck [c_star])%bool then []
               else
                 flat_map
                   (fun idMatch =>
                      let potentialCol :=
                        toUpperCase (group_or_empty idMatch 1) in
                      if skip_identifier exprToCheck idMatch then []
                      else
                        let foundInCTE :=
                          found_in_ctes text allTables referencedCTEsInBody
                            potentialCol in
                        let foundInTable :=
                          existsb
                            (fun ftName =>
                               if existsb (fun c => str_eqb (name c) ftName)
                                    parsedCTEs
                               then false
                               else
                                 match find
                                         (fun t =>
                                            str_eqb (toUpperCase (tbl_name t))
                                              (short_name ftName))
                                         allTables with
                                 | Some t => table_has_column t potentialCol
                                 | None => false
                                 end) (fromTables currentCTE) in
                        if (negb foundInCTE && negb foundInTable)%bool then
                          [diag_at
                             (getPositionFromOffset text
                                (identifier_offset ce (m_index idMatch)))
                             (length potentialCol)
                             (lit "Unknown column " ++ [c_dquote] ++
                              group_or_empty idMatch 1 ++ [c_dquote] ++
                              lit ". Available columns from CTEs: " ++
                              join (lit ", ")
                                (map cte_column_names referencedCTEsInBody))
                             warning]
                        else [])
                   (exec_all false identifierPattern exprToCheck))
            colExprs
      end
  end.

(** [/FROM\s+([A-Za-z_#@$][A-Za-z0-9_#@$]* )/i] *)
Definition rx_main_from : regex :=
  RCat [RLit "FROM"; rx_sp_plus; RGrp 1 rx_ident].
(** [/^[A-Za-z_#@$][A-Za-z0-9_#@$]*\.\*$/] *)
Definition rx_qualified_star : regex :=
  RCat [RBol; rx_ident; RChr c_dot; RChr c_star; REol].
(** [/\bAS\b/i] *)
Definition rx_as_word : regex := RCat [RWordB; RLit "AS"; RWordB].
(** [/^([\s\S]+?)\s+AS\s+[A-Za-z_#@$][A-Za-z0-9_#@$]*$/i] *)
Definition rx_strip_alias : regex :=
  RCat [RBol; RGrp 1 (RPlus false RAny); rx_sp_plus; RLit "AS"; rx_sp_plus;
        rx_ident; REol].

(** The check of the unqualified columns of the main query, after the last
    CTE. *)
Definition main_query_diags (text : str) (allTables : list DB2Table)
  (parsedCTEs : list ParsedCTEWithContext) : list DB2SQLDiagnostic :=
  match parsedCTEs with
  | [] => []
  | _ :: _ =>
      let lastCTEEnd := last_cte_end parsedCTEs in
      let mainQueryText := substring_from text lastCTEEnd in
      match str_match true rx_select_clause mainQueryText with
      | None => []
      | Some mainSelectMatch =>
          let mainSelectClause := group_or_empty mainSelectMatch 1 in
          let mainSelectOffset :=
            (Z.of_nat lastCTEEnd +
             indexOfZ mainQueryText (m_text mainSelectMatch) +
             Z.of_nat (length (m_text mainSelectMatch)
                       - length mainSelectClause))%Z in
          let mainReferencedCTEs :=
            match str_match true rx_main_from mainQueryText with
            | Some mainFromMatch =>
                let mainFromTable :=
                  toUpperCase (group_or_empty mainFromMatch 1) in
                match find_cte (fun c => str_eqb (name c) mainFromTable)
                        parsedCTEs with
                | Some c => [c]
                | None => []
                end
            | None => []
            end in
          match mainReferencedCTEs with
          | [] => []
          | first :: _ =>
              let mainColExprs :=
                split_main_col_exprs mainSelectClause 0 mainSelectOffset [] []
                  mainSelectOffset 0 false in
              flat_map
                (fun ce =>
                   let mainExprToCheck := stripComments (ce_expr ce) in
                   if str_eqb (trim mainExprToCheck) [c_star] then []
                   else if test false rx_qualified_star (trim mainExprToCheck)
                   then []
                   else
                     let mainExprToCheck :=
                       if test true rx_as_word mainExprToCheck
                       then replace_first true rx_strip_alias
                              (fun m => group_or_empty m 1) mainExprToCheck
                       else mainExprToCheck in
                     flat_map
                       (fun mainIdMatch =>
                          let mainPotentialCol :=
                            toUpperCase (group_or_empty mainIdMatch 1) in
                          if skip_identifier mainExprToCheck mainIdMatch
                          then []
                          else if found_in_ctes text allTables
                                    mainReferencedCTEs mainPotentialCol
                          then []
                          else
                            [diag_at
                               (getPositionFromOffset text
                                  (identifier_offset ce (m_index mainIdMatch)))
                               (length mainPotentialCol)
                               (lit "Unknown column " ++ [c_dquote] ++
                                group_or_empty mainIdMatch 1 ++ [c_dquote] ++
                                lit ". Available columns from CTE " ++
                                [c_dquote] ++ name first ++ [c_dquote] ++
                                lit ": " ++ cte_column_names first)
                               warning])
                       (exec_all false identifierPattern mainExprToCheck))
                mainColExprs
          end
      end
  end.

(** The diagnostics of the block [if (schemaConfig) { ... }]. *)
Definition schema_diagnostics (text : str) (schemaConfig : DB2SchemaConfig)
  : list DB2SQLDiagnostic :=
  let parsedCTEs := parseCTEs text in
  let allTables := getAllTablesForValidation schemaConfig in
  let tableNames := map (fun t => toUpperCase (tbl_name t)) allTables in
  let fullTableNames :=
    map (fun t => match qualified_upper t with
                  | Some q => q
                  | None => toUpperCase (tbl_name t)
                  end) allTables in
  flat_map (unknown_table_diag text tableNames fullTableNames (cteNames text))
    (exec_all true tableRefRegex text) ++
  flat_map (column_ref_diag text allTables tableNames parsedCTEs)
    (exec_all false columnRefRegex text) ++
  flat_map (cte_body_diags text allTables parsedCTEs) parsedCTEs ++
  main_query_diags text allTables parsedCTEs.

(** [validateDB2SQL] *)
Definition validateDB2SQL (text : str) (schemaConfig : option DB2SchemaConfig)
  : list DB2SQLDiagnostic :=
  structural_diagnostics text ++
  match schemaConfig with
  | Some cfg => schema_diagnostics text cfg
  | None => []
  end.

(** ** The editor's text model *)

(** The operations of the text model the providers call, for a document
    whose lines end with a line feed: the model is the list of its lines,
    and a position is a line number and a column, both counted from 1.
    [getValue_eol], further down, is the text of a document with another
    end of line. *)
Module Monaco.

Record Position : Type := mkPosition { lineNumber : nat; column : nat }.

Definition ITextModel := list str.

Definition getLineContent (m : ITextModel) (n : nat) : str := nth (n - 1) m [].

Definition getValue (m : ITextModel) : str := join [c_nl] m.

(** [getValueInRange] from the start of the document to a position. *)
Definition getValueUntil (m : ITextModel) (p : Position) : str :=
  join [c_nl]
    (firstn (lineNumber p - 1) m ++
     [firstn (column p - 1) (getLineContent m (lineNumber p))]).

End Monaco.

(** ** The completion context *)

Inductive context_kind : Type :=
| ctx_table | ctx_column | ctx_schema | ctx_general.

Record SQLContext : Type := mkContext {
  context : context_kind;
  tableAlias : option str;
  schemaName : option str;
  referencedTables : list str;
  aliasToTable : str_map
}.

(** [/(?:FROM|JOIN)\s+([A-Za-z0-9_#@$]+(?:\.[A-Za-z0-9_#@$]+)?)(?:\s+(?:AS\s+)?([A-Za-z_#@$][A-Za-z0-9_#@$]* ))?/gi] *)
Definition tableAliasRegex : regex :=
  RCat [rx_from_join; rx_sp_plus; RGrp 1 rx_tableref;
        ROpt (RCat [rx_sp_plus; ROpt (RSeq (RLit "AS") rx_sp_plus);
                    RGrp 2 rx_ident])].
(** [/([A-Za-z0-9_#@$]+)\.\s*$/] *)
Definition rx_dot_before : regex :=
  RCat [RGrp 1 rx_idchars; RChr c_dot; rx_sp_star; REol].
(** [/(\S+)\s*$/] *)
Definition rx_last_word : regex :=
  RCat [RGrp 1 (RPlus true RNsp); rx_sp_star; REol].
(** [/\s+$/] *)
Definition rx_trailing_space : regex := RSeq rx_sp_plus REol.
(** [/(?:FROM|JOIN|INTO|UPDATE|TABLE|TRUNCATE)\s*$/i] *)
Definition tableKeywords : regex :=
  RCat [rx_kw ["FROM"; "JOIN"; "INTO"; "UPDATE"; "TABLE"; "TRUNCATE"]%string;
        rx_sp_star; REol].
(** [/(?:SELECT|WHERE|AND|OR|ON|SET|ORDER\s+BY|GROUP\s+BY|HAVING|,)\s*$/i] *)
Definition columnKeywords : regex :=
  RCat [ROr [RLit "SELECT"; RLit "WHERE"; RLit "AND"; RLit "OR"; RLit "ON";
             RLit "SET"; RCat [RLit "ORDER"; rx_sp_plus; RLit "BY"];
             RCat [RLit "GROUP"; rx_sp_plus; RLit "BY"]; RLit "HAVING";
             RChr c_comma];
        rx_sp_star; REol].
(** [/\bSELECT\b/i], [/\bFROM\b/i], [/\bWHERE\b/i], [/\bGROUP\b/i] and
    [/\bORDER\b/i] *)
Definition rx_word (w : string) : regex := RCat [RWordB; RLit w; RWordB].

(** The references and aliases of the statement: the loop over the matches
    of [tableAliasRegex]. *)
Definition statement_tables (fullStatement : str) : list str * str_map :=
  fold_left
    (fun acc m =>
       let tableName := toUpperCase (group_or_empty m 1) in
       let aliases :=
         match group m 2 with
         | Some ((_ :: _) as a) => map_set (snd acc) (toUpperCase a) tableName
         | _ => snd acc
         end in
       let shortName := short_name tableName in
       let aliases :=
         match map_get aliases shortName with
         | Some (_ :: _) => aliases
         | _ => map_set aliases shortName tableName
         end in
       (fst acc ++ [tableName], aliases))
    (exec_all true tableAliasRegex fullStatement) ([], []).

(** [s.replace(/\s+$/, '')] *)
Definition trim_trailing (s : str) : str :=
  replace_first false rx_trailing_space (fun _ => []) s.

(** The statement the cursor is in, up to the cursor: the text after the
    last semicolon before the cursor. *)
Definition current_statement (textUntilPosition : str) : str :=
  match lastIndexOf textUntilPosition c_semi with
  | Some lastSemicolon => substring_from textUntilPosition (lastSemicolon + 1)
  | None => textUntilPosition
  end.

(** The whole statement the cursor is in, up to the next semicolon. *)
Definition full_statement (fullText textUntilPosition : str) : str :=
  let statementStart :=
    match lastIndexOf textUntilPosition c_semi with
    | Some lastSemicolon => lastSemicolon + 1
    | None => 0
    end in
  let textAfterStart := substring_from fullText statementStart in
  match indexOf textAfterStart [c_semi] with
  | Some nextSemicolon => substring textAfterStart 0 nextSemicolon
  | None => textAfterStart
  end.

(** The text of the cursor's line before the word the cursor is in or
    after. *)
Definition text_before_word (textBeforeCursor : str) : str :=
  match str_match false rx_last_word textBeforeCursor with
  | Some wordMatch =>
      substring textBeforeCursor 0
        (length textBeforeCursor - length (m_text wordMatch))
  | None => textBeforeCursor
  end.

(** The text of the cursor's line up to the cursor. *)
Definition text_before_cursor (model : Monaco.ITextModel)
  (position : Monaco.Position) : str :=
  substring (Monaco.getLineContent model (Monaco.lineNumber position)) 0
    (Monaco.column position - 1).

(** [getSQLContext] *)
Definition getSQLContext (model : Monaco.ITextModel) (position : Monaco.Position)
  : SQLContext :=
  let fullText := Monaco.getValue model in
  let textUntilPosition := Monaco.getValueUntil model position in
  let fullStatement := full_statement fullText textUntilPosition in
  let currentStatement := current_statement textUntilPosition in
  let tables := statement_tables fullStatement in
  let referencedTables := fst tables in
  let aliasToTable := snd tables in
  let textBeforeCursor := text_before_cursor model position in
  match str_match false rx_dot_before textBeforeCursor with
  | Some dotMatch =>
      let prefix := toUpperCase (group_or_empty dotMatch 1) in
      mkContext ctx_column (Some prefix) None referencedTables aliasToTable
  | None =>
      let textBeforeWord := text_before_word textBeforeCursor in
      let trimmedBeforeWord := trim_trailing textBeforeWord in
      let trimmedStatement := trim_trailing currentStatement in
      if (test true tableKeywords (trimmedStatement ++ [c_space]) ||
          test true tableKeywords (trimmedBeforeWord ++ [c_space]))%bool
      then mkContext ctx_table None None referencedTables aliasToTable
      else if (test true columnKeywords (trimmedStatement ++ [c_space]) ||
               test true columnKeywords (trimmedBeforeWord ++ [c_space]))%bool
      then mkContext ctx_column None None referencedTables aliasToTable
      else
        let hasSelectBefore := test true (rx_word "SELECT") currentStatement in
        let hasFromBefore := test true (rx_word "FROM") currentStatement in
        if (hasSelectBefore && negb hasFromBefore)%bool
        then mkContext ctx_column None None referencedTables aliasToTable
        else
          let hasWhereBefore := test true (rx_word "WHERE") currentStatement in
          let hasGroupBefore := test true (rx_word "GROUP") currentStatement in
          let hasOrderBefore := test true (rx_word "ORDER") currentStatement in
          if (hasFromBefore && negb hasWhereBefore && negb hasGroupBefore &&
              negb hasOrderBefore &&
              negb (test true tableKeywords (trimmedBeforeWord ++ [c_space])))%bool
          then mkContext ctx_column None None referencedTables aliasToTable
          else mkContext ctx_general None None referencedTables aliasToTable
  end.

(** ** The completion provider: suppression inside comments *)

(** The loop that counts the quotes before the first [--] of the line. *)
Definition quotes_open (s : str) : bool :=
  fold_left (fun inString c => if N.eqb c c_quote then negb inString
                               else inString) s false.

(** The scan for an open block comment.  The loop stops one character
    before the end of the text, and steps over the second character of a
    comment delimiter. *)
Fixpoint block_comment_scan (s : str) (blockCommentDepth : Z) (inStr : bool)
  : Z :=
  match s with
  | ch :: rest =>
      match rest with
      | [] => blockCommentDepth
      | next :: rest' =>
          if (N.eqb ch c_quote && negb inStr)%bool
          then block_comment_scan rest blockCommentDepth true
          else if (N.eqb ch c_quote && inStr)%bool
          then block_comment_scan rest blockCommentDepth false
          else if negb inStr then
            if (N.eqb ch c_slash && N.eqb next c_star)%bool
            then block_comment_scan rest' (blockCommentDepth + 1)%Z inStr
            else if (N.eqb ch c_star && N.eqb next c_slash)%bool
            then block_comment_scan rest' (blockCommentDepth - 1)%Z inStr
            else block_comment_scan rest blockCommentDepth inStr
          else block_comment_scan rest blockCommentDepth inStr
      end
  | [] => blockCommentDepth
  end.

(** The first test of [provideCompletionItems]: the cursor is after a [--]
    of its line that no string is open at. *)
Definition in_line_comment (model : Monaco.ITextModel)
  (position : Monaco.Position) : bool :=
  let textBeforeCursor := text_before_cursor model position in
  match indexOf textBeforeCursor [c_minus; c_minus] with
  | Some lineCommentIndex =>
      negb (quotes_open (firstn lineCommentIndex textBeforeCursor))
  | None => false
  end.

(** The second test: the scan finds more openers than closers. *)
Definition in_block_comment (model : Monaco.ITextModel)
  (position : Monaco.Position) : bool :=
  let fullTextToCursor := Monaco.getValueUntil model position in
  Z.ltb 0 (block_comment_scan fullTextToCursor 0 false).

(** ** The completion provider *)

Inductive CompletionItemKind : Type :=
| KField | KStruct | KClass | KKeyword | KModule | KConstant | KFunction
| KTypeParameter | KSnippet.

Inductive CompletionItemInsertTextRule : Type := InsertAsSnippet.

Record IRange : Type := mkRange {
  rg_startLineNumber : nat;
  rg_endLineNumber : nat;
  rg_startColumn : nat;
  rg_endColumn : nat
}.

Record CompletionItem : Type := mkItem {
  label : str;
  kind : CompletionItemKind;
  insertText : str;
  insertTextRules : option CompletionItemInsertTextRule;
  range : IRange;
  detail : str;
  documentation : option str;
  sortText : str;
  filterText : option str
}.

(** The word lists of [./db2sql.keywords].  That module is not among the
    source files; the provider is modelled for any content of its lists. *)
Record Catalogs : Type := mkCatalogs {
  SQL_KEYWORDS : list str;
  DB2_IBM_I_KEYWORDS : list str;
  IBM_I_75_KEYWORDS : list str;
  IBM_I_74_KEYWORDS : list str;
  IBM_I_73_KEYWORDS : list str;
  QSYS2_SERVICES : list str;
  SYSIBM_CATALOG : list str;
  IBM_I_SYSTEM_OBJECTS : list str;
  DB2_FUNCTIONS : list str;
  DB2_DATA_TYPES : list str
}.

Record Snippet : Type := mkSnippet {
  sn_label : str;
  sn_insertText : str;
  sn_documentation : str;
  sn_filterText : option str
}.

Definition c_tab : char := 9%N.

(** [SQL_SNIPPETS] *)
Definition SQL_SNIPPETS : list Snippet :=
  [
   mkSnippet (lit "~select-statement")
     (lit "SELECT ${1:columns}" ++ [c_nl] ++ lit "FROM ${2:table}" ++
      [c_nl] ++ lit "WHERE ${3:condition};")
     (lit "Basic SELECT statement template")
     (Some (lit "select statement template"));
   mkSnippet (lit "~select-all")
     (lit "SELECT *" ++ [c_nl] ++ lit "FROM ${1:table};")
     (lit "Select all columns from a table")
     (Some (lit "select all star"));
   mkSnippet (lit "~select-top")
     (lit "SELECT ${1:columns}" ++ [c_nl] ++ lit "FROM ${2:table}" ++
      [c_nl] ++ lit "FETCH FIRST ${3:n} ROWS ONLY;")
     (lit "Select with row limit (DB2 syntax)")
     (Some (lit "select top fetch first"));
   mkSnippet (lit "~insert-values")
     (lit "INSERT INTO ${1:table} (${2:columns})" ++ [c_nl] ++
      lit "VALUES (${3:values});")
     (lit "Insert a single row")
     (Some (lit "insert into values"));
   mkSnippet (lit "~insert-select")
     (lit "INSERT INTO ${1:target_table} (${2:columns})" ++ [c_nl] ++
      lit "SELECT ${3:columns}" ++ [c_nl] ++
      lit "FROM ${4:source_table};")
     (lit "Insert from SELECT")
     (Some (lit "insert select from"));
   mkSnippet (lit "~update-statement")
     (lit "UPDATE ${1:table}" ++ [c_nl] ++
      lit "SET ${2:column} = ${3:value}" ++ [c_nl] ++
      lit "WHERE ${4:condition};")
     (lit "Update rows in a table")
     (Some (lit "update set where"));
   mkSnippet (lit "~delete-statement")
     (lit "DELETE FROM ${1:table}" ++ [c_nl] ++
      lit "WHERE ${2:condition};")
     (lit "Delete rows from a table")
     (Some (lit "delete from where"));
   mkSnippet (lit "~create-table")
     (lit "CREATE TABLE ${1:table_name} (" ++ [c_nl] ++ [c_tab] ++
      lit "${2:column_name} ${3:data_type} ${4:constraints}" ++
      [c_nl] ++ lit ");")
     (lit "Create a new table")
     (Some (lit "create table"));
   mkSnippet (lit "~create-index")
     (lit "CREATE INDEX ${1:index_name}" ++ [c_nl] ++
      lit "ON ${2:table_name} (${3:column_name});")
     (lit "Create an index")
     (Some (lit "create index on"));
   mkSnippet (lit "~create-view")
     (lit "CREATE VIEW ${1:view_name} AS" ++ [c_nl] ++
      lit "SELECT ${2:columns}" ++ [c_nl] ++ lit "FROM ${3:table};")
     (lit "Create a view")
     (Some (lit "create view as select"));
   mkSnippet (lit "~create-procedure")
     (lit "CREATE PROCEDURE ${1:procedure_name} (${2:parameters})" ++
      [c_nl] ++ lit "LANGUAGE SQL" ++ [c_nl] ++ lit "BEGIN" ++
      [c_nl] ++ [c_tab] ++ lit "${3:-- statements}" ++ [c_nl] ++
      lit "END;")
     (lit "Create a stored procedure")
     (Some (lit "create procedure"));
   mkSnippet (lit "~alter-table-add")
     (lit "ALTER TABLE ${1:table_name}" ++ [c_nl] ++
      lit "ADD COLUMN ${2:column_name} ${3:data_type};")
     (lit "Add a column to a table")
     (Some (lit "alter table add column"));
   mkSnippet (lit "~drop-table")
     (lit "DROP TABLE ${1:table_name};")
     (lit "Drop a table")
     (Some (lit "drop table"));
   mkSnippet (lit "~join-statement")
     (lit "${1|INNER,LEFT,RIGHT,FULL OUTER|} JOIN ${2:table}" ++ [c_nl] ++
      [c_tab] ++ lit "ON ${3:condition}")
     (lit "Join clause")
     (Some (lit "join inner left right"));
   mkSnippet (lit "~group-by")
     (lit "GROUP BY ${1:columns}" ++ [c_nl] ++ lit "HAVING ${2:condition}")
     (lit "Group by with having clause")
     (Some (lit "group by having"));
   mkSnippet (lit "~order-by")
     (lit "ORDER BY ${1:column} ${2|ASC,DESC|}")
     (lit "Order by clause")
     (Some (lit "order by asc desc"));
   mkSnippet (lit "~case-when")
     (lit "CASE" ++ [c_nl] ++ [c_tab] ++
      lit "WHEN ${1:condition} THEN ${2:result}" ++ [c_nl] ++
      [c_tab] ++ lit "ELSE ${3:default}" ++ [c_nl] ++ lit "END")
     (lit "Case expression")
     (Some (lit "case when then else end"));
   mkSnippet (lit "~cte-with")
     (lit "WITH ${1:cte_name} AS (" ++ [c_nl] ++ [c_tab] ++
      lit "SELECT ${2:columns}" ++ [c_nl] ++ [c_tab] ++
      lit "FROM ${3:table}" ++ [c_nl] ++ lit ")" ++ [c_nl] ++
      lit "SELECT * FROM ${1:cte_name};")
     (lit "Common Table Expression")
     (Some (lit "with cte common table expression"));
   mkSnippet (lit "~merge-statement")
     (lit "MERGE INTO ${1:target_table} AS t" ++ [c_nl] ++
      lit "USING ${2:source_table} AS s" ++ [c_nl] ++ [c_tab] ++
      lit "ON ${3:t.id = s.id}" ++ [c_nl] ++
      lit "WHEN MATCHED THEN" ++ [c_nl] ++ [c_tab] ++
      lit "UPDATE SET ${4:t.col = s.col}" ++ [c_nl] ++
      lit "WHEN NOT MATCHED THEN" ++ [c_nl] ++ [c_tab] ++
      lit "INSERT (${5:columns}) VALUES (${6:values});")
     (lit "Merge (upsert) statement")
     (Some (lit "merge into using when matched"));
   mkSnippet (lit "~cursor-declare")
     (lit "DECLARE ${1:cursor_name} CURSOR FOR" ++ [c_nl] ++ [c_tab] ++
      lit "SELECT ${2:columns}" ++ [c_nl] ++ [c_tab] ++
      lit "FROM ${3:table};" ++ [c_nl] ++ [c_nl] ++
      lit "OPEN ${1:cursor_name};" ++ [c_nl] ++
      lit "FETCH ${1:cursor_name} INTO ${4:variables};" ++ [c_nl] ++
      lit "CLOSE ${1:cursor_name};")
     (lit "Cursor declaration and usage")
     (Some (lit "declare cursor fetch open close"));
   mkSnippet (lit "~fetch-first")
     (lit "FETCH FIRST ${1:n} ROWS ONLY")
     (lit "Limit result set (DB2 syntax)")
     (Some (lit "fetch first rows only limit"));
   mkSnippet (lit "~limit-offset")
     (lit "LIMIT ${1:n} OFFSET ${2:0}")
     (lit "Limit with offset (IBM i 7.2+)")
     (Some (lit "limit offset"));
   mkSnippet (lit "QSYS2.OBJECT_STATISTICS")
     (lit "SELECT * FROM " ++
      lit "TABLE(QSYS2.OBJECT_STATISTICS('${1:LIBRARY}', " ++
      lit "'${2:*ALL}')) AS X")
     (lit "List objects in a library")
     None;
   mkSnippet (lit "QSYS2.ACTIVE_JOB_INFO")
     (lit "SELECT * FROM TABLE(QSYS2.ACTIVE_JOB_INFO()) AS X")
     (lit "List active jobs on the system")
     None;
   mkSnippet (lit "QSYS2.SYSTEM_STATUS_INFO")
     (lit "SELECT * FROM QSYS2.SYSTEM_STATUS_INFO")
     (lit "System status information")
     None;
   mkSnippet (lit "QSYS2.USER_INFO")
     (lit "SELECT * FROM QSYS2.USER_INFO WHERE AUTHORIZATION_NAME " ++
      lit "= '${1:USERNAME}'")
     (lit "User profile information")
     None;
   mkSnippet (lit "QSYS2.JOBLOG_INFO")
     (lit "SELECT * FROM TABLE(QSYS2.JOBLOG_INFO(${1:JOB_NAME})) " ++
      lit "AS X")
     (lit "Job log messages")
     None;
   mkSnippet (lit "QSYS2.LIBRARY_LIST_INFO")
     (lit "SELECT * FROM QSYS2.LIBRARY_LIST_INFO")
     (lit "Current library list")
     None;
   mkSnippet (lit "QSYS2.PTF_INFO")
     (lit "SELECT * FROM QSYS2.PTF_INFO")
     (lit "PTF information")
     None;
   mkSnippet (lit "QSYS2.SYSTABLES")
     (lit "SELECT * FROM QSYS2.SYSTABLES WHERE TABLE_SCHEMA = " ++
      lit "'${1:LIBRARY}'")
     (lit "List tables in a library")
     None;
   mkSnippet (lit "QSYS2.SYSCOLUMNS")
     (lit "SELECT * FROM QSYS2.SYSCOLUMNS WHERE TABLE_SCHEMA = " ++
      lit "'${1:LIBRARY}' AND TABLE_NAME = '${2:TABLE}'")
     (lit "List columns in a table")
     None;
   mkSnippet (lit "QCMDEXC")
     (lit "CALL QSYS2.QCMDEXC('${1:COMMAND}')")
     (lit "Execute CL command via SQL")
     None;
   mkSnippet (lit "QCMDEXC DSPJOB")
     (lit "CALL QSYS2.QCMDEXC('DSPJOB OUTPUT(" ++ lit "*PRINT)')")
     (lit "Display job information")
     None;
   mkSnippet (lit "QCMDEXC WRKACTJOB")
     (lit "CALL QSYS2.QCMDEXC('WRKACTJOB OUTPUT(" ++ lit "*PRINT)')")
     (lit "Work with active jobs")
     None;
   mkSnippet (lit "RRN")
     (lit "RRN(${1:table_name})")
     (lit "Get relative record number (IBM i specific)")
     None;
   mkSnippet (lit "VARCHAR_FORMAT date")
     (lit "VARCHAR_FORMAT(${1:date_column}, '${2:YYYY-MM-DD}')")
     (lit "Format date as string")
     None;
   mkSnippet (lit "VARCHAR_FORMAT timestamp")
     (lit "VARCHAR_FORMAT(${1:timestamp_column}, '${2:YYYY-MM-DD " ++
      lit "HH24:MI:SS}')")
     (lit "Format timestamp as string")
     None;
   mkSnippet (lit "TIMESTAMP_FORMAT")
     (lit "TIMESTAMP_FORMAT('${1:string}', '${2:YYYY-MM-DD " ++
      lit "HH24:MI:SS}')")
     (lit "Convert string to timestamp")
     None;
   mkSnippet (lit "DIGITS")
     (lit "DIGITS(${1:numeric_column})")
     (lit "Convert number to character string without sign")
     None;
   mkSnippet (lit "DECODE")
     (lit "DECODE(${1:expression}, ${2:search1}, ${3:result1}, " ++
      lit "${4:default})")
     (lit "Oracle-compatible CASE expression")
     None;
   mkSnippet (lit "DISPLAY_JOURNAL")
     (lit "SELECT * FROM " ++
      lit "TABLE(QSYS2.DISPLAY_JOURNAL('${1:LIBRARY}', " ++
      lit "'${2:JOURNAL}', '${3:TABLE}')) AS X")
     (lit "Display journal entries for a table")
     None;
   mkSnippet (lit "IFS_OBJECT_STATISTICS")
     (lit "SELECT * FROM " ++
      lit "TABLE(QSYS2.IFS_OBJECT_STATISTICS('${1:/path}')) AS X")
     (lit "IFS object statistics")
     None;
   mkSnippet (lit "DATA_AREA_INFO")
     (lit "SELECT * FROM QSYS2.DATA_AREA_INFO WHERE " ++
      lit "DATA_AREA_LIBRARY = '${1:LIBRARY}'")
     (lit "Data area information")
     None
  ].

(** [String(n)] for a natural number. *)
Fixpoint digits_of (fuel n : nat) (acc : str) : str :=
  match fuel with
  | O => acc
  | S fuel' =>
      let acc' := (48 + N.of_nat (n mod 10))%N :: acc in
      if Nat.eqb (n / 10) 0 then acc' else digits_of fuel' (n / 10) acc'
  end.
Definition number_to_string (n : nat) : str := digits_of (S n) n [].

Definition table_type_name (t : table_type) : str :=
  match t with
  | TABLE => lit "TABLE"
  | VIEW => lit "VIEW"
  | ALIAS => lit "ALIAS"
  | PHYSICAL => lit "PHYSICAL"
  | LOGICAL => lit "LOGICAL"
  end.

(** [x || d] for an optional string. *)
Definition str_or (x : option str) (d : str) : str :=
  match truthy x with
  | Some s => s
  | None => d
  end.

(** [getAllTables] *)
Definition getAllTables (schemaConfig : option DB2SchemaConfig)
  : list DB2Table :=
  match schemaConfig with
  | None => []
  | Some cfg =>
      opt_list (cfg_tables cfg) ++
      flat_map
        (fun schema =>
           map (fun table =>
                  mkTable (tbl_name table)
                    (match truthy (tbl_schema table) with
                     | Some s => Some s
                     | None => Some (sch_name schema)
                     end)
                    (tbl_description table) (tbl_columns table)
                    (tbl_type table))
             (opt_list (sch_tables schema)))
        (opt_list (cfg_schemas cfg))
  end.

(** [getColumnsForTable] *)
Definition getColumnsForTable (tableName : str)
  (schemaConfig : option DB2SchemaConfig) : list DB2Column :=
  match schemaConfig with
  | None => []
  | Some _ =>
      let upperTableName := toUpperCase tableName in
      match find (fun t =>
                    let fullName :=
                      match qualified_upper t with
                      | Some q => q
                      | None => toUpperCase (tbl_name t)
                      end in
                    (str_eqb fullName upperTableName ||
                     str_eqb (toUpperCase (tbl_name t)) upperTableName)%bool)
              (getAllTables schemaConfig) with
      | Some t => opt_list (tbl_columns t)
      | None => []
      end
  end.

(** [/\b(WHERE|AND|OR|ON|HAVING)\s+[^;]*$/i] *)
Definition rx_after_where : regex :=
  RCat [RWordB; RGrp 1 (rx_kw ["WHERE"; "AND"; "OR"; "ON"; "HAVING"]%string);
        rx_sp_plus; RStar true (RSet true [(c_semi, c_semi)]); REol].
(** [/\bFROM\s+([A-Za-z_#@$][A-Za-z0-9_#@$]* )/i] *)
Definition rx_from_ident : regex :=
  RCat [RWordB; RLit "FROM"; rx_sp_plus; RGrp 1 rx_ident].

(** [col.expression ? a : b] *)
Definition if_expression {A : Type} (col : CTEColumn) (a b : A) : A :=
  match truthy (cc_expression col) with
  | Some _ => a
  | None => b
  end.

Section Provider.

Variable catalogs : Catalogs.
(** [model.getWordUntilPosition(position)]: the start and the end column
    of the word before the cursor, as the editor finds it. *)
Variable getWordUntilPosition :
  Monaco.ITextModel -> Monaco.Position -> nat * nat.
Variable schemaConfig : option DB2SchemaConfig.

(** The column suggestion of a CTE, as three places of the source build
    it: they differ by the documentation of a column that is not an
    expression. *)
Definition cte_column_item (range : IRange) (cte : ParsedCTEWithContext)
  (plainDoc : str) (col : CTEColumn) : CompletionItem :=
  mkItem (cc_name col) KField (cc_name col) None range
    (name cte ++ lit " (CTE) | " ++
     if_expression col (lit "Computed") (lit "Column"))
    (Some (match truthy (cc_expression col) with
           | Some e => lit "Expression: " ++ e
           | None => plainDoc
           end))
    ([48%N] ++ cc_name col) None.

(** The suggestions in the main query after the CTEs: the columns of the
    CTE the query reads from, then its name.  [None] when the provider
    goes on. *)
Definition main_query_items (range : IRange) (fullTextForCTE : str)
  (parsedCTEsForCompletion : list ParsedCTEWithContext)
  (lastCTEEndOffset cursorOffsetForCTE : nat) : option (list CompletionItem) :=
  let mainQueryText :=
    substring fullTextForCTE lastCTEEndOffset cursorOffsetForCTE in
  let hasSelectInMain := test true (rx_word "SELECT") mainQueryText in
  let hasFromInMain := test true (rx_word "FROM") mainQueryText in
  let isColumnContextInMain := (hasSelectInMain && negb hasFromInMain)%bool in
  let afterWhereInMain := test true rx_after_where mainQueryText in
  if (isColumnContextInMain || afterWhereInMain)%bool then
    let mainQueryFull := substring_from fullTextForCTE lastCTEEndOffset in
    match str_match true rx_from_ident mainQueryFull with
    | Some fromMatch =>
        let mainFromTable := toUpperCase (group_or_empty fromMatch 1) in
        match find_cte (fun c => str_eqb (name c) mainFromTable)
                parsedCTEsForCompletion with
        | Some cte =>
            Some (map (cte_column_item range cte
                         (lit "Column from CTE " ++ name cte)) (columns cte)
                  ++ [mkItem (name cte) KStruct (name cte) None range
                        (lit "CTE") (Some (lit "Type . to see columns"))
                        ([49%N] ++ name cte) None])
        | None => None
        end
    | None => None
    end
  else None.

(** The columns a CTE takes from its source tables through a wildcard,
    added when no suggestion has their label yet. *)
Definition wildcard_items (range : IRange) (fullTextForCTE : str)
  (srcCte : ParsedCTEWithContext) (suggestions : list CompletionItem)
  : list CompletionItem :=
  let cteBody :=
    substring fullTextForCTE (bodyStartOffset srcCte) (bodyEndOffset srcCte)
  in
  let hasSelectStarComp := test true rx_select_star cteBody in
  let wildcardPatternsComp :=
    map (fun wcMatchComp => toUpperCase (group_or_empty wcMatchComp 1))
      (exec_all false wildcardRegex cteBody) in
  let cteAliasMapComp := cte_alias_map cteBody in
  let tablesToInclude :=
    if hasSelectStarComp then map toUpperCase (fromTables srcCte)
    else map (fun wc => match map_get cteAliasMapComp wc with
                        | Some ((_ :: _) as v) => v
                        | _ => wc
                        end) wildcardPatternsComp in
  match schemaConfig with
  | None => suggestions
  | Some _ =>
      fold_left
        (fun acc srcFromTable =>
           let srcFromShort := short_name srcFromTable in
           fold_left
             (fun acc t =>
                if (str_eqb (toUpperCase (tbl_name t)) srcFromShort ||
                    match qualified_upper t with
                    | Some q => str_eqb q srcFromTable
                    | None => false
                    end)%bool
                then
                  fold_left
                    (fun acc col =>
                       if existsb (fun s => str_eqb (label s) (col_name col))
                            acc
                       then acc
                       else
                         acc ++
                         [mkItem (col_name col) KField (col_name col) None
                            range
                            (tbl_name t ++ lit " (via " ++ name srcCte ++
                             lit " CTE *) | " ++
                             str_or (col_dataType col) (lit "Column"))
                            (Some (str_or (col_description col)
                                     (lit "Column from " ++ tbl_name t ++
                                      lit " via CTE " ++ name srcCte)))
                            ([48%N] ++ col_name col) None])
                    (opt_list (tbl_columns t)) acc
                else acc)
             (getAllTables schemaConfig) acc)
        tablesToInclude suggestions
  end.

(** The body of the loop over the source tables of the CTE the cursor is
    in; the state is the suggestion list and [cteSuggestionsAdded]. *)
Definition inside_cte_step (range : IRange) (fullTextForCTE : str)
  (parsedCTEsForCompletion : list ParsedCTEWithContext)
  (state : list CompletionItem * bool) (fromTableName : str)
  : list CompletionItem * bool :=
  let fromShortName := short_name fromTableName in
  let state :=
    match find_cte (fun srcCte =>
                      (str_eqb (name srcCte) fromShortName ||
                       str_eqb (name srcCte) fromTableName)%bool)
            parsedCTEsForCompletion with
    | Some srcCte =>
        (wildcard_items range fullTextForCTE srcCte
           (fst state ++
            map (cte_column_item range srcCte
                   (lit "Column from CTE " ++ name srcCte)) (columns srcCte)),
         true)
    | None => state
    end in
  if (negb (snd state) &&
      match schemaConfig with Some _ => true | None => false end)%bool
  then
    match find (fun t =>
                  (str_eqb (toUpperCase (tbl_name t)) fromShortName ||
                   match qualified_upper t with
                   | Some q => str_eqb q fromTableName
                   | None => false
                   end)%bool) (getAllTables schemaConfig) with
    | Some t =>
        (fst state ++
         map (fun col =>
                mkItem (col_name col) KField (col_name col) None range
                  (tbl_name t ++ lit " | " ++
                   str_or (col_dataType col) (lit "Column"))
                  (col_description col) ([48%N] ++ col_name col) None)
           (opt_list (tbl_columns t)),
         true)
    | None => state
    end
  else state.

(** The suggestions inside the body of a CTE; [None] when the provider
    goes on. *)
Definition inside_cte_items (range : IRange) (fullTextForCTE : str)
  (parsedCTEsForCompletion : list ParsedCTEWithContext)
  (insideCTEForCompletion : ParsedCTEWithContext) (cursorOffsetForCTE : nat)
  (ctx : SQLContext) : option (list CompletionItem) :=
  let cteBodyBeforeCursor :=
    substring fullTextForCTE (bodyStartOffset insideCTEForCompletion)
      cursorOffsetForCTE in
  let hasSelectInCTE := test true (rx_word "SELECT") cteBodyBeforeCursor in
  let hasFromInCTE := test true (rx_word "FROM") cteBodyBeforeCursor in
  let isColumnContext := (hasSelectInCTE && negb hasFromInCTE)%bool in
  let afterWhereKeyword := test true rx_after_where cteBodyBeforeCursor in
  if ((isColumnContext || afterWhereKeyword ||
       match context ctx with ctx_column => true | _ => false end) &&
      Nat.ltb 0 (length (fromTables insideCTEForCompletion)))%bool
  then
    let state :=
      fold_left
        (inside_cte_step range fullTextForCTE parsedCTEsForCompletion)
        (fromTables insideCTEForCompletion) ([], false) in
    if snd state then
      Some (fst state ++
            map (fun tblName =>
                   let shortTblName := short_name tblName in
                   mkItem shortTblName KStruct shortTblName None range
                     (lit "Table/CTE") (Some (lit "Type . to see columns"))
                     ([49%N] ++ shortTblName) None)
              (fromTables insideCTEForCompletion))
    else None
  else None.

(** The suggestions from the schema, in a table or column context;
    the flag tells whether the provider returns them as they are. *)
Definition schema_items (range : IRange) (cfg : DB2SchemaConfig)
  (fullTextForCTE : str) (ctx : SQLContext) : list CompletionItem * bool :=
  let allTables := getAllTables schemaConfig in
  let parsedCTEs := parseCTEs fullTextForCTE in
  match context ctx with
  | ctx_table =>
      (map (fun cte =>
              mkItem (name cte) KStruct (name cte) None range (lit "CTE")
                (Some (lit "Common Table Expression with " ++
                       number_to_string (length (columns cte)) ++
                       lit " columns"))
                ([48%N] ++ name cte) None) parsedCTEs ++
       map (fun table =>
              let displayName :=
                match truthy (schemaName ctx) with
                | Some _ => tbl_name table
                | None =>
                    match cfg_showSchemaPrefix cfg, truthy (tbl_schema table)
                    with
                    | Some true, Some s => s ++ [c_dot] ++ tbl_name table
                    | _, _ => tbl_name table
                    end
                end in
              mkItem displayName KClass displayName None range
                (match tbl_type table with
                 | Some ty => table_type_name ty
                 | None => lit "Table"
                 end)
                (tbl_description table) ([48%N] ++ displayName) None)
         allTables,
       true)
  | ctx_column =>
      match truthy (tableAlias ctx) with
      | Some alias =>
          match find_cte (fun cte => str_eqb (name cte) alias) parsedCTEs with
          | Some cte =>
              (map (fun col =>
                      let colDetail :=
                        match truthy (cc_expression col) with
                        | Some e =>
                            lit "Computed: " ++ substring e 0 30 ++
                            (if Nat.ltb 30 (length e) then lit "..." else [])
                        | None => lit "CTE column"
                        end in
                      mkItem (cc_name col) KField (cc_name col) None range
                        colDetail (Some (lit "Column from CTE " ++ name cte))
                        ([48%N] ++ cc_name col) None) (columns cte),
               true)
          | None =>
              let resolvedTableName :=
                match map_get (aliasToTable ctx) alias with
                | Some ((_ :: _) as v) => v
                | _ => alias
                end in
              let cols := getColumnsForTable resolvedTableName schemaConfig in
              match cols with
              | _ :: _ =>
                  (map (fun col =>
                          let detail :=
                            str_or (col_dataType col) (lit "Column") in
                          let detail :=
                            match truthy (col_description col) with
                            | Some d => detail ++ lit " - " ++ d
                            | None => detail
                            end in
                          mkItem (col_name col) KField (col_name col) None
                            range detail (col_description col)
                            ([48%N] ++ col_name col) None) cols,
                   true)
              | [] =>
                  let tablesInSchema :=
                    filter (fun t =>
                              match truthy (tbl_schema t) with
                              | Some s => str_eqb (toUpperCase s) alias
                              | None => false
                              end) allTables in
                  match tablesInSchema with
                  | _ :: _ =>
                      (map (fun table =>
                              mkItem (tbl_name table) KClass (tbl_name table)
                                None range
                                (match tbl_type table with
                                 | Some ty => table_type_name ty
                                 | None => lit "Table"
                                 end)
                                (tbl_description table)
                                ([48%N] ++ tbl_name table) None)
                         tablesInSchema,
                       true)
                  | [] => ([], false)
                  end
              end
          end
      | None =>
          (flat_map
             (fun tableName =>
                match find_cte (fun cte =>
                                  str_eqb (name cte) (toUpperCase tableName))
                        parsedCTEs with
                | Some cte =>
                    map (cte_column_item range cte (lit "Column from CTE"))
                      (columns cte)
                | None =>
                    map (fun col =>
                           let colDetail :=
                             str_or (col_dataType col) (lit "Column") in
                           let colDetail :=
                             match truthy (col_description col) with
                             | Some d => colDetail ++ lit " - " ++ d
                             | None => colDetail
                             end in
                           mkItem (col_name col) KField (col_name col) None
                             range (tableName ++ lit " | " ++ colDetail)
                             (col_description col) ([48%N] ++ col_name col)
                             None)
                      (getColumnsForTable tableName schemaConfig)
                end) (referencedTables ctx) ++
           map (fun cte =>
                  mkItem (name cte) KStruct (name cte) None range (lit "CTE")
                    (Some (lit "Type . to see CTE columns"))
                    ([49%N] ++ name cte) None) parsedCTEs ++
           map (fun table =>
                  mkItem (tbl_name table) KClass (tbl_name table) None range
                    (match tbl_type table with
                     | Some ty => table_type_name ty
                     | None => lit "Table"
                     end)
                    (Some (lit "Type . to see columns"))
                    ([49%N] ++ tbl_name table) None) allTables,
           false)
      end
  | _ => ([], false)
  end.

Definition word_item (range : IRange) (k : CompletionItemKind) (d : str)
  (prefix : char) (w : str) : CompletionItem :=
  mkItem w k w None range d None ([prefix] ++ w) None.

(** The suggestions every call that is not cut short ends with: the word
    lists, the functions as snippets, the data types and the snippet
    templates. *)
Definition catalog_items (range : IRange) : list CompletionItem :=
  map (word_item range KKeyword (lit "SQL Keyword") 50%N)
    (SQL_KEYWORDS catalogs) ++
  map (word_item range KKeyword (lit "IBM i Keyword") 50%N)
    (DB2_IBM_I_KEYWORDS catalogs) ++
  map (word_item range KKeyword (lit "IBM i Reserved Word") 50%N)
    (IBM_I_75_KEYWORDS catalogs ++ IBM_I_74_KEYWORDS catalogs ++
     IBM_I_73_KEYWORDS catalogs) ++
  map (word_item range KModule (lit "QSYS2 Service") 51%N)
    (QSYS2_SERVICES catalogs) ++
  map (word_item range KModule (lit "SYSIBM Catalog") 51%N)
    (SYSIBM_CATALOG catalogs) ++
  map (word_item range KConstant (lit "IBM i System Object") 51%N)
    (IBM_I_SYSTEM_OBJECTS catalogs) ++
  map (fun func =>
         mkItem func KFunction (func ++ lit "($0)") (Some InsertAsSnippet)
           range (lit "DB2 Function") None ([52%N] ++ func) None)
    (DB2_FUNCTIONS catalogs) ++
  map (word_item range KTypeParameter (lit "DB2 Data Type") 53%N)
    (DB2_DATA_TYPES catalogs) ++
  map (fun snippet =>
         mkItem (sn_label snippet) KSnippet (sn_insertText snippet)
           (Some InsertAsSnippet) range (lit "Snippet")
           (Some (sn_documentation snippet)) ([54%N] ++ sn_label snippet)
           (truthy (sn_filterText snippet)))
    SQL_SNIPPETS.

(** The offset of the cursor, summed over the lines before it. *)
Definition cursor_offset (model : Monaco.ITextModel)
  (position : Monaco.Position) : nat :=
  fold_left
    (fun acc cteLineIdx =>
       acc + length (Monaco.getLineContent model (cteLineIdx + 1)) + 1)
    (seq 0 (Monaco.lineNumber position - 1)) 0
  + (Monaco.column position - 1).

(** [provideCompletionItems] of the provider that
    [createDB2SQLCompletionProvider] returns: the list [suggestions] of
    its result. *)
Definition provideCompletionItems (model : Monaco.ITextModel)
  (position : Monaco.Position) : list CompletionItem :=
  if in_line_comment model position then []
  else if in_block_comment model position then []
  else
    let word := getWordUntilPosition model position in
    let range :=
      mkRange (Monaco.lineNumber position) (Monaco.lineNumber position)
        (fst word) (snd word) in
    let ctx := getSQLContext model position in
    let fullTextForCTE := Monaco.getValue model in
    let parsedCTEsForCompletion := parseCTEs fullTextForCTE in
    let cursorOffsetForCTE := cursor_offset model position in
    let insideCTEForCompletion :=
      find (fun cte =>
              (Nat.leb (bodyStartOffset cte) cursorOffsetForCTE &&
               Nat.leb cursorOffsetForCTE (bodyEndOffset cte))%bool)
        parsedCTEsForCompletion in
    let lastCTEEndOffset := last_cte_end parsedCTEsForCompletion in
    let inMainQueryAfterCTEs :=
      (Nat.ltb 0 (length parsedCTEsForCompletion) &&
       Nat.ltb lastCTEEndOffset cursorOffsetForCTE)%bool in
    let noAlias :=
      match truthy (tableAlias ctx) with Some _ => false | None => true end
    in
    match
      (if (inMainQueryAfterCTEs && noAlias)%bool
       then main_query_items range fullTextForCTE parsedCTEsForCompletion
              lastCTEEndOffset cursorOffsetForCTE
       else None)
    with
    | Some suggestions => suggestions
    | None =>
        match
          (match insideCTEForCompletion with
           | Some cte =>
               if noAlias
               then inside_cte_items range fullTextForCTE
                      parsedCTEsForCompletion cte cursorOffsetForCTE ctx
               else None
           | None => None
           end)
        with
        | Some suggestions => suggestions
        | None =>
            let fromSchema :=
              match schemaConfig with
              | Some cfg => schema_items range cfg fullTextForCTE ctx
              | None => ([], false)
              end in
            if snd fromSchema then fst fromSchema
            else fst fromSchema ++ catalog_items range
        end
    end.

End Provider.


(** The last letter of a word of [tableKeywords]: M, N, O or E, in either
    case. *)
Definition table_keyword_end (x : char) : bool :=
  (chr_eq true x 77%N || chr_eq true x 78%N || chr_eq true x 79%N ||
   chr_eq true x 69%N)%bool.

(** ** The schema and the findings of the examples *)

Definition plain_column (n : string) : DB2Column :=
  mkColumn (lit n) None None None None.

(** [{tables: [{name: "EMPLOYEES", columns: [{name: "EMP_ID"}, {name: "NAME"}]}]}] *)
Definition employees_schema : DB2SchemaConfig :=
  mkConfig None
    (Some [mkTable (lit "EMPLOYEES") None None
             (Some [plain_column "EMP_ID"; plain_column "NAME"]) None])
    None None.

(** The same schema with a table named [A] that has a column [NAME]. *)
Definition employees_and_a_schema : DB2SchemaConfig :=
  mkConfig None
    (Some [mkTable (lit "A") None None (Some [plain_column "NAME"]) None;
           mkTable (lit "EMPLOYEES") None None
             (Some [plain_column "EMP_ID"; plain_column "NAME"]) None])
    None None.

(** A finding about the schema: its message starts with [Unknown table] or
    [Unknown column]. *)
Definition is_unknown_finding (d : DB2SQLDiagnostic) : bool :=
  (starts_with (lit "Unknown table") (message d) ||
   starts_with (lit "Unknown column") (message d))%bool.

(** A structural finding: an error whose message is not one about the
    schema. *)
Definition structural_finding (d : DB2SQLDiagnostic) : Prop :=
  severity d = error /\ is_unknown_finding d = false.

(** A finding about the schema: a warning about an unknown table or column. *)
Definition schema_finding (d : DB2SQLDiagnostic) : Prop :=
  severity d = warning /\ is_unknown_finding d = true.

Definition quoted (s : string) : str := [c_dquote] ++ lit s ++ [c_dquote].

(** ** Positions inside a document *)

(** The lines of a text, as [text.split('\n')] gives them. *)
Definition lines_of (text : str) : list str := split_on c_nl text.

(** A line number and a column, both counted from 1, that designate a
    place of the text: a character of the line, or the end of the line. *)
Definition inside (text : str) (ln col : nat) : Prop :=
  1 <= ln <= length (lines_of text) /\
  1 <= col <= length (nth (ln - 1) (lines_of text) []) + 1.

(** A position of the editor's model: a line of the model and a column of
    that line, or the column after its last character. *)
Definition valid_position (m : Monaco.ITextModel) (p : Monaco.Position)
  : Prop :=
  1 <= Monaco.lineNumber p <= length m /\
  1 <= Monaco.column p
    <= length (Monaco.getLineContent m (Monaco.lineNumber p)) + 1.

(** The lines of a model hold no line feed. *)
Definition well_formed (m : Monaco.ITextModel) : Prop :=
  Forall (fun l => ~ In c_nl l) m.

(** The length of the lines before a line, each with its line feed. *)
Definition lines_length (ls : list str) : nat :=
  list_sum (map (fun l => S (length l)) ls).

(** The character at a line and a column, both counted from 1. *)
Definition char_at (text : str) (ln col : nat) : option char :=
  nth_error (nth (ln - 1) (lines_of text) []) (col - 1).

(** A diagnostic that starts at a place of the text and ends on the line
    it starts on, not before its start. *)
Definition starts_inside (text : str) (d : DB2SQLDiagnostic) : Prop :=
  inside text (startLineNumber d) (startColumn d) /\
  endLineNumber d = startLineNumber d /\
  startColumn d <= endColumn d.

(** A diagnostic that marks one character of the text, the character [c]. *)
Definition marks_char (text : str) (c : char) (d : DB2SQLDiagnostic) : Prop :=
  starts_inside text d /\
  char_at text (startLineNumber d) (startColumn d) = Some c /\
  endColumn d = startColumn d + 1.

(** The place a scan that counts lines and columns from 0 has recorded
    holds the character [c]. *)
Definition holds_char (all : list str) (c : char) (p : nat * nat) : Prop :=
  nth_error (nth (fst p) all []) (snd p) = Some c.

(** The character a diagnostic about a quote or a parenthesis is about. *)
Definition marked_char_of (msg : str) : option char :=
  if str_eqb msg (lit "Unclosed string literal") then Some c_quote
  else if str_eqb msg (lit "Unclosed parenthesis") then Some c_lparen
  else if str_eqb msg (lit "Unexpected closing parenthesis")
  then Some c_rparen
  else None.

(** A diagnostic that starts inside the text and, when it is about a quote
    or a parenthesis, marks such a character. *)
Definition well_placed (text : str) (d : DB2SQLDiagnostic) : Prop :=
  starts_inside text d /\
  match marked_char_of (message d) with
  | Some c => marks_char text c d
  | None => True
  end.

(** ** Counting *)

(** The occurrences of a character in a text. *)
Definition count_char (c : char) (s : str) : nat :=
  length (filter (N.eqb c) s).

(** The diagnostics of a list that have a given message. *)
Definition count_message (msg : str) (ds : list DB2SQLDiagnostic) : nat :=
  length (filter (fun d => str_eqb (message d) msg) ds).

(** A character of the sanitized text: the character of the input at the
    same place, or a space. *)
Definition kept_or_blank (c r : char) : Prop := r = c \/ r = c_space.

(** ** The validator attached to an editor *)

(** [monaco.MarkerSeverity] *)
Module MarkerSeverity.
Inductive t : Type := Hint | Info | Warning | Error.
End MarkerSeverity.

Record IMarkerData : Type := mkMarker {
  mk_startLineNumber : nat;
  mk_startColumn : nat;
  mk_endLineNumber : nat;
  mk_endColumn : nat;
  mk_message : str;
  mk_severity : MarkerSeverity.t
}.

(** The function that [createDB2SQLValidator] maps over the diagnostics. *)
Definition marker_of_diagnostic (d : DB2SQLDiagnostic) : IMarkerData :=
  let severity :=
    match severity d with
    | error => MarkerSeverity.Error
    | warning => MarkerSeverity.Warning
    | info => MarkerSeverity.Info
    | hint => MarkerSeverity.Hint
    end in
  mkMarker (startLineNumber d) (startColumn d) (endLineNumber d)
    (endColumn d) (message d) severity.

(** The markers of a model, by owner. *)
Definition marker_store : Type := str -> list IMarkerData.

(** [monaco.editor.setModelMarkers(model, owner, markers)]: the markers of
    the owner are replaced, those of the other owners stay. *)
Definition setModelMarkers (store : marker_store) (owner : str)
  (markers : list IMarkerData) : marker_store :=
  fun o => if str_eqb o owner then markers else store o.

(** The function that [createDB2SQLValidator] returns, on the markers of
    the model it is called with. *)
Definition createDB2SQLValidator (schemaConfig : option DB2SchemaConfig)
  (model : Monaco.ITextModel) (store : marker_store) : marker_store :=
  let text := Monaco.getValue model in
  let diagnostics := validateDB2SQL text schemaConfig in
  let markers := map marker_of_diagnostic diagnostics in
  setModelMarkers store (lit "db2sql") markers.

(** A marker that starts at a place of the text and ends on the line it
    starts on, not before its start. *)
Definition marker_inside (text : str) (m : IMarkerData) : Prop :=
  inside text (mk_startLineNumber m) (mk_startColumn m) /\
  mk_endLineNumber m = mk_startLineNumber m /\
  mk_startColumn m <= mk_endColumn m.

(** ** The hover provider *)

Record IWordAtPosition : Type := mkWord {
  word : str;
  word_startColumn : nat;
  word_endColumn : nat
}.

(** [{contents: [{value: markdown}], range: range}]: the markdown strings
    and the range of a hover. *)
Record Hover : Type := mkHover {
  contents : list str;
  hover_range : IRange
}.

(** A result of the provider, or a call this model does not follow. *)
Inductive outcome (A : Type) : Type :=
| Returned (a : A)
| Unmodelled.
Arguments Unmodelled {A}.

Definition c_backtick : char := 96%N.
Definition c_dollar : char := 36%N.

(** [(t.schema ? t.schema + '.' : '')] *)
Definition schema_prefix (t : DB2Table) : str :=
  match truthy (tbl_schema t) with
  | Some s => s ++ [c_dot]
  | None => []
  end.

(** [t.schema ? (t.schema + '.' + t.name).toUpperCase() : t.name.toUpperCase()] *)
Definition full_name_upper (t : DB2Table) : str :=
  match qualified_upper t with
  | Some q => q
  | None => toUpperCase (tbl_name t)
  end.

(** The markdown of a column of a CTE; three places of the source build
    it. *)
Definition cte_column_markdown (col : CTEColumn) (cteName : str) : str :=
  lit "**" ++ cc_name col ++ lit "**" ++ [c_nl; c_nl] ++
  lit "**From CTE:** " ++ cteName ++ [c_nl; c_nl] ++
  match truthy (cc_expression col) with
  | Some e =>
      lit "**Expression:**" ++ [c_nl] ++ [c_backtick; c_backtick; c_backtick]
      ++ lit "sql" ++ [c_nl] ++ e ++ [c_nl] ++
      [c_backtick; c_backtick; c_backtick] ++ [c_nl; c_nl]
  | None =>
      match truthy (cc_sourceColumn col) with
      | Some _ =>
          lit "_Column reference_" ++
          match truthy (cc_sourceTable col) with
          | Some st => lit " from " ++ st
          | None => []
          end ++ [c_nl; c_nl]
      | None => []
      end
  end.

(** The markdown of a column of a table; three places of the source build
    it. *)
Definition table_column_markdown (col : DB2Column) (t : DB2Table) : str :=
  lit "**" ++ col_name col ++ lit "**" ++
  match truthy (col_dataType col) with
  | Some dt => [c_space; c_backtick] ++ dt ++ [c_backtick]
  | None => []
  end ++ [c_nl; c_nl] ++
  lit "**Table:** " ++ schema_prefix t ++ tbl_name t ++ [c_nl; c_nl] ++
  match truthy (col_description col) with
  | Some d => d ++ [c_nl; c_nl]
  | None => []
  end ++
  match col_nullable col with
  | Some true => lit "_Nullable_"
  | Some false => lit "_Not Null_"
  | None => []
  end ++
  match col_isPrimaryKey col with
  | Some true => lit " | _Primary Key_"
  | _ => []
  end.

(** The markdown of a table. *)
Definition table_markdown (t : DB2Table) : str :=
  lit "**" ++ schema_prefix t ++ tbl_name t ++ lit "**" ++
  match tbl_type t with
  | Some ty => lit " _(" ++ table_type_name ty ++ lit ")_"
  | None => []
  end ++ [c_nl; c_nl] ++
  match truthy (tbl_description t) with
  | Some d => d ++ [c_nl; c_nl]
  | None => []
  end ++
  match tbl_columns t with
  | Some ((_ :: _) as cols) =>
      lit "**Columns:** " ++ number_to_string (length cols) ++ [c_nl; c_nl]
      ++
      join [c_nl]
        (map (fun c =>
                lit "- " ++ [c_backtick] ++ col_name c ++ [c_backtick] ++
                match truthy (col_dataType c) with
                | Some dt => [c_space] ++ dt
                | None => []
                end) (firstn 10 cols)) ++
      (if Nat.ltb 10 (length cols)
       then [c_nl] ++ lit "- _... and " ++
            number_to_string (length cols - 10) ++ lit " more_"
       else [])
  | _ => []
  end.

(** The markdown of a CTE. *)
Definition cte_markdown (cte : ParsedCTEWithContext) : str :=
  lit "**" ++ name cte ++ lit "** _(CTE)_" ++ [c_nl; c_nl] ++
  lit "_Common Table Expression_" ++ [c_nl; c_nl] ++
  match columns cte with
  | [] => []
  | _ :: _ =>
      lit "**Columns:**" ++ [c_nl; c_nl] ++
      concat
        (map (fun col =>
                lit "- " ++ [c_backtick] ++ cc_name col ++ [c_backtick] ++
                match truthy (cc_expression col) with
                | Some e =>
                    lit " = " ++ substring e 0 50 ++
                    (if Nat.ltb 50 (length e) then lit "..." else [])
                | None => []
                end ++ [c_nl]) (columns cte))
  end.

(** The characters that have a meaning of their own in a pattern. *)
Definition pattern_chars : str := lit "\^$.|?*+()[]{}".

(** The characters the dot of a pattern does not match. *)
Definition line_terminators : class :=
  [(10, 10); (13, 13); (8232, 8233)]%N.

(** The text of a word read as a pattern: a dollar sign is the
    end-of-input assertion, a dot stands for any character of a line, and a
    character without a meaning of its own stands for itself.  A word with
    another pattern character is not followed; the word pattern of the
    language gives no such word. *)
Fixpoint rx_of_word (w : str) : option (list regex) :=
  match w with
  | [] => Some []
  | c :: w' =>
      match rx_of_word w' with
      | None => None
      | Some rs =>
          if N.eqb c c_dollar then Some (REol :: rs)
          else if N.eqb c c_dot then Some (RSet true line_terminators :: rs)
          else if existsb (N.eqb c) pattern_chars then None
          else Some (RChr c :: rs)
      end
  end.

(** [new RegExp('(?:FROM|JOIN)\\s+([A-Za-z0-9_#@$]+(?:\\.[A-Za-z0-9_#@$]+)?)\\s+(?:AS\\s+)?' + wordText + '\\b', 'i')] *)
Definition aliasResolveRegex (wordText : str) : option regex :=
  match rx_of_word wordText with
  | Some rs =>
      Some (RCat [rx_from_join; rx_sp_plus; RGrp 1 rx_tableref; rx_sp_plus;
                  ROpt (RSeq (RLit "AS") rx_sp_plus); RCat rs; RWordB])
  | None => None
  end.

(** [/(?:FROM|JOIN)\s+([A-Za-z_#@$][A-Za-z0-9_#@$]* )/gi] *)
Definition cteRefRegex : regex :=
  RCat [rx_from_join; rx_sp_plus; RGrp 1 rx_ident].

(** The first result of a loop that returns from its body. *)
Fixpoint first_some {A B : Type} (f : A -> option B) (l : list A)
  : option B :=
  match l with
  | [] => None
  | x :: l' =>
      match f x with
      | Some y => Some y
      | None => first_some f l'
      end
  end.

(** [name.indexOf('.') >= 0 && name.split('.')[1] === shortName] *)
Definition second_part_is (name shortName : str) : bool :=
  match indexOf name [c_dot] with
  | Some _ => str_eqb (nth 1 (split_on c_dot name) []) shortName
  | None => false
  end.

Section Hover.

(** [model.getWordAtPosition(position)], as the editor finds the word. *)
Variable getWordAtPosition :
  Monaco.ITextModel -> Monaco.Position -> option IWordAtPosition.
Variable schemaConfig : option DB2SchemaConfig.

(** The hover every [return] of the provider builds: one markdown string,
    over the word. *)
Definition hover_over (position : Monaco.Position) (w : IWordAtPosition)
  (markdown : str) : Hover :=
  mkHover [markdown]
    (mkRange (Monaco.lineNumber position) (Monaco.lineNumber position)
       (word_startColumn w) (word_endColumn w)).

(** The column [wordText] of a CTE. *)
Definition cte_column_hover (position : Monaco.Position)
  (w : IWordAtPosition) (wordText : str) (cte : ParsedCTEWithContext)
  : option Hover :=
  match find (fun col => str_eqb (cc_name col) wordText) (columns cte) with
  | Some col =>
      Some (hover_over position w (cte_column_markdown col (name cte)))
  | None => None
  end.

(** The column [wordText] of a table. *)
Definition table_column_hover (position : Monaco.Position)
  (w : IWordAtPosition) (wordText : str) (t : DB2Table) : option Hover :=
  match find (fun col => str_eqb (toUpperCase (col_name col)) wordText)
          (opt_list (tbl_columns t)) with
  | Some col => Some (hover_over position w (table_column_markdown col t))
  | None => None
  end.

(** The word after [table.]: a column of a CTE or of a table of the
    schema. *)
Definition qualified_hover (position : Monaco.Position) (w : IWordAtPosition)
  (wordText fullText : str) (allTables : list DB2Table) (dotBefore : rx_match)
  : option Hover :=
  let tableOrAlias := toUpperCase (group_or_empty dotBefore 1) in
  let actualTableName :=
    match str_match true (aliasRegex tableOrAlias) fullText with
    | Some aliasMatch => toUpperCase (group_or_empty aliasMatch 1)
    | None => tableOrAlias
    end in
  let parsedCTEsForHover := parseCTEs fullText in
  match
    match find (fun cte => (str_eqb (name cte) tableOrAlias ||
                            str_eqb (name cte) actualTableName)%bool)
            parsedCTEsForHover with
    | Some cte => cte_column_hover position w wordText cte
    | None => None
    end
  with
  | Some h => Some h
  | None =>
      match find (fun t =>
                    let fullName := full_name_upper t in
                    let shortName := toUpperCase (tbl_name t) in
                    (str_eqb fullName actualTableName ||
                     str_eqb shortName actualTableName ||
                     second_part_is actualTableName shortName)%bool)
              allTables with
      | Some t => table_column_hover position w wordText t
      | None => None
      end
  end.

(** The word as a table of the schema, by its name or through an alias. *)
Definition table_hover (position : Monaco.Position) (w : IWordAtPosition)
  (wordText fullText : str) (allTables : list DB2Table)
  (aliasResolve : regex) : option Hover :=
  let resolvedTableName :=
    match str_match true aliasResolve fullText with
    | Some aliasResolveMatch =>
        toUpperCase (group_or_empty aliasResolveMatch 1)
    | None => wordText
    end in
  match find (fun t =>
                let fullTableName := full_name_upper t in
                let shortTableName := toUpperCase (tbl_name t) in
                (str_eqb shortTableName wordText ||
                 str_eqb shortTableName resolvedTableName ||
                 str_eqb fullTableName resolvedTableName ||
                 second_part_is resolvedTableName shortTableName)%bool)
          allTables with
  | Some t => Some (hover_over position w (table_markdown t))
  | None => None
  end.

(** The first table of the schema a name of a FROM clause refers to. *)
Definition table_of_reference (allTables : list DB2Table)
  (fullName shortName : str) : option DB2Table :=
  find (fun t => (str_eqb (full_name_upper t) fullName ||
                  str_eqb (toUpperCase (tbl_name t)) shortName)%bool)
    allTables.

(** The word inside the body of a CTE: a column of one of the sources of
    the CTE. *)
Definition inside_cte_hover (position : Monaco.Position)
  (w : IWordAtPosition) (wordText : str) (allTables : list DB2Table)
  (parsedCTEs : list ParsedCTEWithContext)
  (insideCTE : ParsedCTEWithContext) : option Hover :=
  first_some
    (fun fromTableName =>
       let fromShortName := short_name fromTableName in
       match find (fun c => (str_eqb (name c) fromShortName ||
                             str_eqb (name c) fromTableName)%bool)
               parsedCTEs with
       | Some sourceCTE => cte_column_hover position w wordText sourceCTE
       | None =>
           match table_of_reference allTables fromTableName fromShortName
           with
           | Some t => table_column_hover position w wordText t
           | None => None
           end
       end) (fromTables insideCTE).

(** The word outside the CTE bodies: the name of a CTE, or a column of a
    CTE that a FROM clause of the text reads. *)
Definition outside_cte_hover (position : Monaco.Position)
  (w : IWordAtPosition) (wordText fullText : str)
  (parsedCTEs : list ParsedCTEWithContext) : option Hover :=
  match find (fun cte => str_eqb (name cte) wordText) parsedCTEs with
  | Some cte => Some (hover_over position w (cte_markdown cte))
  | None =>
      first_some
        (fun cteRefMatch =>
           let refName := toUpperCase (group_or_empty cteRefMatch 1) in
           first_some
             (fun cte =>
                if str_eqb (name cte) refName
                then cte_column_hover position w wordText cte
                else None) parsedCTEs)
        (exec_all true cteRefRegex fullText)
  end.

(** The tables of the schema that the FROM clauses of the text read. *)
Definition referenced_tables (fullText : str) (allTables : list DB2Table)
  (parsedCTEs : list ParsedCTEWithContext) : list DB2Table :=
  flat_map
    (fun refMatch =>
       let refTableName := toUpperCase (group_or_empty refMatch 1) in
       let refShortName := short_name refTableName in
       if existsb (fun c => (str_eqb (name c) refTableName ||
                             str_eqb (name c) refShortName)%bool) parsedCTEs
       then []
       else
         match table_of_reference allTables refTableName refShortName with
         | Some t => [t]
         | None => []
         end)
    (exec_all true tableRefRegex fullText).

(** The word with no dot before or after it. *)
Definition unqualified_hover (model : Monaco.ITextModel)
  (position : Monaco.Position) (w : IWordAtPosition) (wordText : str)
  (allTables : list DB2Table) : option Hover :=
  let fullText := Monaco.getValue model in
  let parsedCTEs := parseCTEs fullText in
  let cursorOffset :=
    cursor_offset model
      (Monaco.mkPosition (Monaco.lineNumber position) (word_startColumn w)) in
  let insideCTE :=
    find (fun cte => (Nat.leb (bodyStartOffset cte) cursorOffset &&
                      Nat.leb cursorOffset (bodyEndOffset cte))%bool)
      parsedCTEs in
  match
    match insideCTE with
    | Some cte =>
        inside_cte_hover position w wordText allTables parsedCTEs cte
    | None => outside_cte_hover position w wordText fullText parsedCTEs
    end
  with
  | Some h => Some h
  | None =>
      first_some (table_column_hover position w wordText)
        (referenced_tables fullText allTables parsedCTEs)
  end.

(** [provideHover] of the provider that [createDB2SQLHoverProvider]
    returns; [None] is [null].  The word at the position is upper-cased as
    every other text is, on the ASCII letters. *)
Definition provideHover (model : Monaco.ITextModel)
  (position : Monaco.Position) : outcome (option Hover) :=
  match schemaConfig with
  | None => Returned None
  | Some cfg =>
      let allTables := getAllTablesForValidation cfg in
      match getWordAtPosition model position with
      | None => Returned None
      | Some w =>
          let wordText := toUpperCase (word w) in
          let lineContent :=
            Monaco.getLineContent model (Monaco.lineNumber position) in
          let beforeWord := substring lineContent 0 (word_startColumn w - 1) in
          let afterWord := substring_from lineContent (word_endColumn w - 1) in
          let dotBefore := str_match false rx_dot_before beforeWord in
          match
            match dotBefore with
            | Some m =>
                qualified_hover position w wordText (Monaco.getValue model)
                  allTables m
            | None => None
            end
          with
          | Some h => Returned (Some h)
          | None =>
              let dotAfter := test false rx_dot_follows afterWord in
              let isDotBefore :=
                match dotBefore with Some _ => true | None => false end in
              let rest :=
                if (negb isDotBefore && negb dotAfter)%bool
                then unqualified_hover model position w wordText allTables
                else None in
              if (dotAfter || negb isDotBefore)%bool then
                match aliasResolveRegex wordText with
                | None => Unmodelled
                | Some aliasResolve =>
                    match table_hover position w wordText
                            (Monaco.getValue model) allTables aliasResolve
                    with
                    | Some h => Returned (Some h)
                    | None => Returned rest
                    end
                end
              else Returned rest
          end
      end
  end.

End Hover.

(** A hover over the word [w] whose one markdown string starts with the
    name of what it describes, in bold. *)
Definition hover_shape (position : Monaco.Position) (w : IWordAtPosition)
  (h : Hover) : Prop :=
  exists markdown,
    h = hover_over position w markdown /\
    starts_with (lit "**") markdown = true.

(** ** The hovers of the examples *)

(** A word finder for the examples: the word [EMPLOYEES] at columns 15 to
    24, wherever it is asked. *)
Definition employees_word (_ : Monaco.ITextModel) (_ : Monaco.Position)
  : option IWordAtPosition :=
  Some (mkWord (lit "EMPLOYEES") 15 24).

(** A schema without tables. *)
Definition empty_schema : DB2SchemaConfig := mkConfig None None None None.

(** ** The language configuration *)

(** A pattern with its [i] flag. *)
Record pattern : Type := mkPattern {
  rx : regex;
  ignoreCase : bool
}.

(** [pattern.test(text)] *)
Definition matches (p : pattern) (text : str) : bool :=
  test (ignoreCase p) (rx p) text.

Record CommentRule : Type := mkCommentRule {
  lineComment : str;
  blockComment : str * str
}.

Inductive token_scope : Type := in_string | in_comment.

Record AutoClosingPair : Type := mkPair {
  pair_open : str;
  pair_close : str;
  notIn : list token_scope
}.

Record FoldingMarkers : Type := mkFoldingMarkers {
  markers_start : pattern;
  markers_end : pattern
}.

Record IndentationRule : Type := mkIndentationRule {
  increaseIndentPattern : pattern;
  decreaseIndentPattern : pattern
}.

(** A rule of [onEnterRules]; the action is the number the source
    writes. *)
Record OnEnterRule : Type := mkOnEnterRule {
  beforeText : pattern;
  indentAction : nat
}.

Record LanguageConfiguration : Type := mkLanguageConfiguration {
  comments : CommentRule;
  brackets : list (str * str);
  autoClosingPairs : list AutoClosingPair;
  surroundingPairs : list AutoClosingPair;
  folding : FoldingMarkers;
  wordPattern : pattern;
  indentationRules : IndentationRule;
  onEnterRules : list OnEnterRule
}.

Definition cls_digit : class := [(48, 57)]%N.

(** The characters that end a word: the punctuation the word pattern
    lists, and white space. *)
Definition cls_word_end : class :=
  map (fun c => (c, c)) (lit "`~!@#%^&*()-=+[{]}\|;:'" ++ [c_dquote] ++
                         lit ",.<>/?") ++ cls_space.

(** [/^\s*--\s*#?region\b/] and [/^\s*--\s*#?endregion\b/] *)
Definition rx_region (w : string) : regex :=
  RCat [RBol; rx_sp_star; RLit "--"; rx_sp_star; ROpt (RChr 35%N); RLit w;
        RWordB].

(** [/(-?\d*\.\d\w* )|([^...\s]+)/g] *)
Definition rx_word_pattern : regex :=
  RAlt
    (RGrp 1 (RCat [ROpt (RChr c_minus); RStar true (RSet false cls_digit);
                   RChr c_dot; RSet false cls_digit;
                   RStar true (RSet false cls_word)]))
    (RGrp 2 (RPlus true (RSet true cls_word_end))).

(** [/^\s*(BEGIN|CASE|IF|ELSE|ELSEIF|WHEN|LOOP|WHILE|FOR|REPEAT|DO|DECLARE)\b/i] *)
Definition rx_increase_indent : regex :=
  RCat [RBol; rx_sp_star;
        RGrp 1 (rx_kw ["BEGIN"; "CASE"; "IF"; "ELSE"; "ELSEIF"; "WHEN";
                       "LOOP"; "WHILE"; "FOR"; "REPEAT"; "DO";
                       "DECLARE"]%string);
        RWordB].

(** [/^\s*(END|ELSE|ELSEIF|WHEN|UNTIL)\b/i] *)
Definition rx_decrease_indent : regex :=
  RCat [RBol; rx_sp_star;
        RGrp 1 (rx_kw ["END"; "ELSE"; "ELSEIF"; "WHEN"; "UNTIL"]%string);
        RWordB].

(** [/^\s*BEGIN\s*$/i] and its like *)
Definition rx_alone (w : string) : regex :=
  RCat [RBol; rx_sp_star; RLit w; rx_sp_star; REol].

(** [/^\s*END\b/i] *)
Definition rx_end_first : regex := RCat [RBol; rx_sp_star; RLit "END"; RWordB].

(** [db2sqlLanguageConfiguration] *)
Definition db2sqlLanguageConfiguration : LanguageConfiguration :=
  mkLanguageConfiguration
    (mkCommentRule (lit "--") (lit "/*", lit "*/"))
    [(lit "[", lit "]"); (lit "(", lit ")")]
    [mkPair (lit "[") (lit "]") [];
     mkPair (lit "(") (lit ")") [];
     mkPair [c_quote] [c_quote] [in_string; in_comment];
     mkPair [c_dquote] [c_dquote] [in_string; in_comment];
     mkPair (lit "/*") (lit "*/") [in_string]]
    [mkPair (lit "[") (lit "]") [];
     mkPair (lit "(") (lit ")") [];
     mkPair [c_quote] [c_quote] [];
     mkPair [c_dquote] [c_dquote] []]
    (mkFoldingMarkers (mkPattern (rx_region "region") false)
       (mkPattern (rx_region "endregion") false))
    (mkPattern rx_word_pattern false)
    (mkIndentationRule (mkPattern rx_increase_indent true)
       (mkPattern rx_decrease_indent true))
    [mkOnEnterRule (mkPattern (rx_alone "BEGIN") true) 1;
     mkOnEnterRule (mkPattern (rx_alone "THEN") true) 1;
     mkOnEnterRule (mkPattern (rx_alone "ELSE") true) 1;
     mkOnEnterRule (mkPattern (rx_alone "LOOP") true) 1;
     mkOnEnterRule (mkPattern rx_end_first true) 2].

(** ** Registration *)

Definition DB2SQL_LANGUAGE_ID : str := lit "db2sql".

Record ILanguageExtensionPoint : Type := mkLanguage {
  lang_id : str;
  lang_extensions : list str;
  lang_aliases : list str;
  lang_mimetypes : list str
}.

(** The tokenizer of [./db2sql.monarch], which [registerDB2SQL] passes on
    as it is. *)
Inductive IMonarchLanguage : Type := db2sqlMonarchLanguage.

(** A completion provider: its trigger characters, and the schema that
    its [provideCompletionItems] reads. *)
Record CompletionItemProvider : Type := mkProvider {
  triggerCharacters : list str;
  provider_schema : option DB2SchemaConfig
}.

(** [createDB2SQLCompletionProvider] *)
Definition createDB2SQLCompletionProvider
  (schemaConfig : option DB2SchemaConfig) : CompletionItemProvider :=
  mkProvider [lit "."; lit " "] schemaConfig.

Record DB2SQLOptions : Type := mkOptions {
  opt_schema : option DB2SchemaConfig
}.

(** What the calls of [registerDB2SQL] act on: the languages
    [monaco.languages.getLanguages()] returns, what has been set or
    registered for a language id, in the order of the calls, and the lines
    of the console, each the list of the arguments of a [console.log]. *)
Record Editor : Type := mkEditor {
  languages : list ILanguageExtensionPoint;
  monarchTokensProviders : list (str * IMonarchLanguage);
  languageConfigurations : list (str * LanguageConfiguration);
  completionItemProviders : list (str * CompletionItemProvider);
  console : list (list str)
}.

Definition console_log (args : list str) (e : Editor) : Editor :=
  mkEditor (languages e) (monarchTokensProviders e)
    (languageConfigurations e) (completionItemProviders e)
    (console e ++ [args]).

(** [monaco.languages.register(language)] *)
Definition register (l : ILanguageExtensionPoint) (e : Editor) : Editor :=
  mkEditor (languages e ++ [l]) (monarchTokensProviders e)
    (languageConfigurations e) (completionItemProviders e) (console e).

(** [monaco.languages.setMonarchTokensProvider(languageId, languageDef)] *)
Definition setMonarchTokensProvider (languageId : str)
  (languageDef : IMonarchLanguage) (e : Editor) : Editor :=
  mkEditor (languages e)
    (monarchTokensProviders e ++ [(languageId, languageDef)])
    (languageConfigurations e) (completionItemProviders e) (console e).

(** [monaco.languages.setLanguageConfiguration(languageId, configuration)] *)
Definition setLanguageConfiguration (languageId : str)
  (configuration : LanguageConfiguration) (e : Editor) : Editor :=
  mkEditor (languages e) (monarchTokensProviders e)
    (languageConfigurations e ++ [(languageId, configuration)])
    (completionItemProviders e) (console e).

(** [monaco.languages.registerCompletionItemProvider(languageId, provider)] *)
Definition registerCompletionItemProvider (languageId : str)
  (provider : CompletionItemProvider) (e : Editor) : Editor :=
  mkEditor (languages e) (monarchTokensProviders e)
    (languageConfigurations e)
    (completionItemProviders e ++ [(languageId, provider)]) (console e).

(** [options?.schema] *)
Definition schema_of (options : option DB2SQLOptions)
  : option DB2SchemaConfig :=
  match options with
  | Some o => opt_schema o
  | None => None
  end.

(** [registerDB2SQL] of [index.ts] *)
Definition registerDB2SQL (options : option DB2SQLOptions) (e : Editor)
  : Editor :=
  let e := console_log [lit "registerDB2SQL called"] e in
  let alreadyRegistered :=
    existsb (fun lang => str_eqb (lang_id lang) DB2SQL_LANGUAGE_ID)
      (languages e) in
  if alreadyRegistered then
    console_log [lit "DB2SQL already registered, skipping"] e
  else
    let e :=
      register
        (mkLanguage DB2SQL_LANGUAGE_ID [lit ".sql"; lit ".db2"]
           [lit "DB2 SQL"; lit "db2sql"; lit "DB2"; lit "db2"]
           [lit "text/x-db2sql"]) e in
    let e := console_log [lit "DB2SQL language registered"] e in
    let e :=
      setMonarchTokensProvider DB2SQL_LANGUAGE_ID db2sqlMonarchLanguage e in
    let e := console_log [lit "DB2SQL tokenizer set"] e in
    let e :=
      setLanguageConfiguration DB2SQL_LANGUAGE_ID db2sqlLanguageConfiguration
        e in
    let e := console_log [lit "DB2SQL language config set"] e in
    let e :=
      registerCompletionItemProvider DB2SQL_LANGUAGE_ID
        (createDB2SQLCompletionProvider (schema_of options)) e in
    console_log
      [lit "DB2SQL completion provider registered";
       match schema_of options with
       | Some _ => lit "with schema config"
       | None => lit "without schema config"
       end] e.

(** An editor with nothing registered. *)
Definition fresh_editor : Editor := mkEditor [] [] [] [] [].

(** A character of a word that [rx_of_word] reads: a dollar sign, a dot,
    or a character without a meaning of its own in a pattern. *)
Definition word_char_ok (c : char) : bool :=
  (N.eqb c c_dollar || N.eqb c c_dot ||
   negb (existsb (N.eqb c) pattern_chars))%bool.

(** ** The suggestions of the provider *)

(** A suggestion that replaces the range [r] and sorts by a digit from 0
    to 6 followed by its label. *)
Definition item_ok (r : IRange) (it : CompletionItem) : Prop :=
  range it = r /\
  exists d, (48 <= d <= 54)%N /\ sortText it = d :: label it.

(** The range of the word before the cursor, as the provider builds it. *)
Definition word_range (gw : Monaco.ITextModel -> Monaco.Position -> nat * nat)
  (model : Monaco.ITextModel) (position : Monaco.Position) : IRange :=
  mkRange (Monaco.lineNumber position) (Monaco.lineNumber position)
    (fst (gw model position)) (snd (gw model position)).

(** ** The offsets of the parsed CTEs *)

(** The offsets of a CTE in the text: the opening parenthesis is just
    before the body, and the body ends at a closing parenthesis or with the
    text.  The names of the CTE, of its columns and of its source tables
    are in upper case. *)
Definition cte_in_text (text : str) (cte : ParsedCTEWithContext) : Prop :=
  startOffset cte < bodyStartOffset cte /\
  bodyStartOffset cte <= endOffset cte /\
  endOffset cte <= length text /\
  bodyEndOffset cte = endOffset cte - 1 /\
  nth_error text (bodyStartOffset cte - 1) = Some c_lparen /\
  (endOffset cte = length text \/
   nth_error text (endOffset cte - 1) = Some c_rparen) /\
  toUpperCase (name cte) = name cte /\
  Forall (fun c => toUpperCase (cc_name c) = cc_name c) (columns cte) /\
  Forall (fun t => toUpperCase t = t) (fromTables cte).

(** ** Words, keywords and plain names *)

(** The word [w] occurs in [s] as a word of its own, letter case apart:
    no letter, digit or underscore is next to it.  [b] holds the
    characters before [s], nearest first. *)
Fixpoint keyword_in (w b s : str) : bool :=
  (negb (word_at b) && starts_with_ci w s &&
   negb (word_at (skipn (length w) s)) ||
   match s with
   | [] => false
   | c :: s' => keyword_in w (c :: b) s'
   end)%bool.

Definition has_keyword (w text : str) : bool := keyword_in w [] text.

(** [s] ends with [w], letter case apart. *)
Definition ends_with_ci (w s : str) : bool := starts_with_ci (rev w) (rev s).

(** The words of the pattern [tableKeywords]. *)
Definition table_keywords : list str :=
  [lit "FROM"; lit "JOIN"; lit "INTO"; lit "UPDATE"; lit "TABLE";
   lit "TRUNCATE"].

Definition ends_with_table_keyword (s : str) : bool :=
  existsb (fun w => ends_with_ci w s) table_keywords.

(** A string of ASCII characters: on such a string [toUpperCase] is the
    [String.prototype.toUpperCase] of the source. *)
Definition is_ascii (s : str) : bool := forallb (fun c => N.ltb c 128) s.

(** A table whose name, schema name and column names are ASCII. *)
Definition ascii_table (t : DB2Table) : bool :=
  (is_ascii (tbl_name t) &&
   match tbl_schema t with
   | Some s => is_ascii s
   | None => true
   end &&
   forallb (fun c => is_ascii (col_name c)) (opt_list (tbl_columns t)))%bool.

(** A schema configuration whose tables are such. *)
Definition ascii_schema (cfg : DB2SchemaConfig) : bool :=
  forallb ascii_table (getAllTablesForValidation cfg).

(** ** The end of line of a document *)

(** [monaco.editor.EndOfLineSequence] *)
Inductive EndOfLineSequence : Type := LF | CRLF.

Definition c_cr : char := 13%N.

(** [model.getEOL()] *)
Definition getEOL (eol : EndOfLineSequence) : str :=
  match eol with
  | LF => [c_nl]
  | CRLF => [c_cr; c_nl]
  end.

(** [model.getValue()] of a document with the lines [m] and the end of
    line [eol]; with [LF] it is [Monaco.getValue]. *)
Definition getValue_eol (eol : EndOfLineSequence) (m : Monaco.ITextModel)
  : str :=
  join (getEOL eol) m.

(** [model.getValueInRange] from the start of such a document to a
    position. *)
Definition getValueUntil_eol (eol : EndOfLineSequence)
  (m : Monaco.ITextModel) (p : Monaco.Position) : str :=
  join (getEOL eol)
    (firstn (Monaco.lineNumber p - 1) m ++
     [firstn (Monaco.column p - 1)
        (Monaco.getLineContent m (Monaco.lineNumber p))]).

(** The lines of a document as a split at the line feeds gives them: with
    [CRLF], every line but the last keeps the carriage return. *)
Fixpoint lines_with_eol (eol : EndOfLineSequence) (m : list str) : list str :=
  match eol, m with
  | CRLF, x :: (_ :: _) as rest => (x ++ [c_cr]) :: lines_with_eol eol rest
  | _, _ => m
  end.

(** ** Theorems *)

(** *** The matcher *)

Lemma orelse_some {A : Type} (x y : option A) (v : A) :
  orelse x y = Some v -> x = Some v \/ (x = None /\ y = Some v).
Proof. destruct x; simpl; intros H; [left | right]; auto. Qed.

(** Every result of the matcher goes through the continuation at a state
    that a word of the pattern leads to. *)
Lemma rmatch_sound (ic : bool) (r : regex) :
  forall st k res,
    rmatch ic r st k = Some res ->
    exists w a' cs,
      after st = w ++ a' /\ rm ic r (before st) w a' /\
      k (MState (rev w ++ before st) a' cs) = Some res.
Proof.
  induction r as [ | c | neg rs | r1 IH1 r2 IH2 | r1 IH1 r2 IH2 | g r1 IH1
                 | n r1 IH1 | neg r1 IH1 | neg rs | | | ]; intros st k res H.
  - destruct st as [b a cs]. exists [], a, cs. simpl in *.
    repeat split; auto. constructor.
  - simpl in H. destruct (after st) as [ | x rest] eqn:Ea; [discriminate | ].
    destruct (chr_eq ic x c) eqn:Ec; [ | discriminate].
    exists [x], rest, (caps st). repeat split; auto. now constructor.
  - simpl in H. destruct (after st) as [ | x rest] eqn:Ea; [discriminate | ].
    destruct (xorb neg (in_class ic rs x)) eqn:Ec; [ | discriminate].
    exists [x], rest, (caps st). repeat split; auto. now constructor.
  - simpl in H. apply IH1 in H. destruct H as (w1 & a1 & cs1 & Ea & R1 & H).
    apply IH2 in H. destruct H as (w2 & a2 & cs2 & Ea2 & R2 & H).
    simpl in Ea2, R2. subst a1.
    exists (w1 ++ w2), a2, cs2. repeat split.
    + now rewrite <- app_assoc.
    + now constructor.
    + now rewrite rev_app_distr, <- app_assoc.
  - simpl in H. apply orelse_some in H. destruct H as [H | [_ H]].
    + apply IH1 in H. destruct H as (w & a' & cs & ? & ? & ?).
      exists w, a', cs. repeat split; auto. now apply rm_alt_l.
    + apply IH2 in H. destruct H as (w & a' & cs & ? & ? & ?).
      exists w, a', cs. repeat split; auto. now apply rm_alt_r.
  - simpl in H. revert H. generalize (length (after st)) as fuel.
    intros fuel. revert st. induction fuel as [ | fuel IHf]; intros st H.
    + destruct st as [b a cs]. exists [], a, cs. simpl in *.
      repeat split; auto. constructor.
    + assert (Hiter :
        rmatch ic r1 st
            (fun st1 =>
               if Nat.ltb (length (after st1)) (length (after st))
               then (fix loop (fuel0 : nat) (st0 : mstate) {struct fuel0} :
                       option mstate :=
                       match fuel0 with
                       | O => k st0
                       | S fuel' =>
                           let iter :=
                             rmatch ic r1 st0
                               (fun st2 =>
                                  if Nat.ltb (length (after st2))
                                       (length (after st0))
                                  then loop fuel' st2 else None) in
                           if g then orelse iter (k st0)
                           else orelse (k st0) iter
                       end) fuel st1
               else None) = Some res ->
          exists w a' cs,
            after st = w ++ a' /\ rm ic (RStar g r1) (before st) w a' /\
            k (MState (rev w ++ before st) a' cs) = Some res).
      { intros Hi. apply IH1 in Hi.
        destruct Hi as (w1 & a1 & cs1 & Ea & R1 & Hi). simpl in Hi.
        destruct (Nat.ltb (length a1) (length (after st))) eqn:Hlt;
          [ | discriminate].
        apply IHf in Hi. destruct Hi as (w2 & a2 & cs2 & Ea2 & R2 & Hi).
        simpl in Ea2, R2. subst a1.
        exists (w1 ++ w2), a2, cs2. repeat split.
        - now rewrite <- app_assoc.
        - apply rm_star_cons; auto.
          intros ->. apply Nat.ltb_lt in Hlt. rewrite Ea in Hlt. simpl in Hlt.
          lia.
        - now rewrite rev_app_distr, <- app_assoc. }
      assert (Hk :
        k st = Some res ->
          exists w a' cs,
            after st = w ++ a' /\ rm ic (RStar g r1) (before st) w a' /\
            k (MState (rev w ++ before st) a' cs) = Some res).
      { intros Hk. destruct st as [b a cs]. exists [], a, cs.
        simpl in *. repeat split; auto. constructor. }
      destruct g; apply orelse_some in H; destruct H as [H | [_ H]]; auto.
  - simpl in H. apply IH1 in H. destruct H as (w & a' & cs & ? & ? & H).
    unfold set_cap in H. simpl in H.
    exists w, a', ((n, (length (before st), length (rev w ++ before st))) :: cs).
    repeat split; auto. now constructor.
  - simpl in H. destruct (rmatch ic r1 st Some) as [st1 | ] eqn:Hm.
    + destruct neg; [discriminate | ].
      apply IH1 in Hm. destruct Hm as (w & a' & cs & Ea & R & _).
      exists [], (after st), (caps st1). repeat split; auto.
      rewrite Ea. now constructor.
    + destruct neg; [ | discriminate].
      destruct st as [b a cs]. exists [], a, cs. simpl in *.
      repeat split; auto. constructor.
  - simpl in H.
    destruct (xorb neg match before st with
                       | [] => false
                       | c :: _ => in_class ic rs c
                       end) eqn:Hx; [ | discriminate].
    destruct st as [b a cs]. exists [], a, cs. simpl in *.
    repeat split; auto. now constructor.
  - destruct st as [b a cs]. simpl in H. destruct b; [ | discriminate].
    exists [], a, cs. simpl. repeat split; auto. constructor.
  - destruct st as [b a cs]. simpl in H. destruct a; [ | discriminate].
    exists [], [], cs. simpl. repeat split; auto. constructor.
  - simpl in H.
    destruct (xorb (word_at (before st)) (word_at (after st))) eqn:Hx;
      [ | discriminate].
    destruct st as [b a cs]. exists [], a, cs. simpl in *.
    repeat split; auto. now constructor.
Qed.

Lemma match_at_sound ic r b a st :
  match_at ic r b a = Some st ->
  exists w a', a = w ++ a' /\ rm ic r b w a' /\
               before st = rev w ++ b /\ after st = a'.
Proof.
  unfold match_at. intros H. apply rmatch_sound in H.
  destruct H as (w & a' & cs & Ea & R & H). simpl in *.
  injection H as <-. exists w, a'. auto.
Qed.

Lemma search_sound ic r : forall a b i st,
  search ic r b a = Some (i, st) ->
  exists p w a', a = p ++ w ++ a' /\ i = length b + length p /\
                 rm ic r (rev p ++ b) w a' /\
                 before st = rev w ++ rev p ++ b /\ after st = a'.
Proof.
  induction a as [ | c a IH]; intros b i st H; simpl in H.
  - destruct (match_at ic r b []) as [st' | ] eqn:Hm; [ | discriminate].
    injection H as <- <-. apply match_at_sound in Hm.
    destruct Hm as (w & a' & Ea & R & Hb & Ha).
    exists [], w, a'. simpl. repeat split; auto.
  - destruct (match_at ic r b (c :: a)) as [st' | ] eqn:Hm.
    + injection H as <- <-. apply match_at_sound in Hm.
      destruct Hm as (w & a' & Ea & R & Hb & Ha).
      exists [], w, a'. simpl. repeat split; auto.
    + apply IH in H. destruct H as (p & w & a' & Ea & Hi & R & Hb & Ha).
      exists (c :: p), w, a'. simpl in *. rewrite <- !app_assoc in *.
      simpl in *. repeat split; auto; try congruence; try lia.
Qed.

(** The search fails when no position has a match. *)
Lemma search_none ic r : forall a b,
  (forall p s, a = p ++ s -> match_at ic r (rev p ++ b) s = None) ->
  search ic r b a = None.
Proof.
  induction a as [ | c a IH]; intros b H; simpl.
  - pose proof (H [] [] eq_refl) as H0. simpl in H0. now rewrite H0.
  - pose proof (H [] (c :: a) eq_refl) as H0. simpl in H0. rewrite H0.
    apply IH. intros p s E.
    specialize (H (c :: p) s). simpl in H. rewrite <- app_assoc in H.
    apply H. now rewrite E.
Qed.

(** The search skips a prefix in which no position has a match. *)
Lemma search_skip ic r : forall pre b a,
  (forall p1 c p2, pre = p1 ++ c :: p2 ->
                   match_at ic r (rev p1 ++ b) (c :: p2 ++ a) = None) ->
  search ic r b (pre ++ a) = search ic r (rev pre ++ b) a.
Proof.
  induction pre as [ | c pre IH]; intros b a H; simpl; [reflexivity | ].
  pose proof (H [] c pre eq_refl) as H0. simpl in H0. rewrite H0.
  rewrite <- app_assoc. simpl. apply IH. intros p1 c' p2 E. specialize (H (c :: p1) c' p2). simpl in H.
  rewrite <- app_assoc in H. apply H. now rewrite E.
Qed.

(** A match at some position is enough for the search to succeed. *)
Lemma search_some ic r : forall pre b a st,
  match_at ic r (rev pre ++ b) a = Some st ->
  search ic r b (pre ++ a) <> None.
Proof.
  induction pre as [ | c pre IH]; intros b a st H; simpl in *.
  - destruct a; simpl; rewrite H; discriminate.
  - destruct (match_at ic r b (c :: pre ++ a)); [discriminate | ].
    rewrite <- app_assoc in H. simpl in H. eapply IH; eauto.
Qed.

Lemma test_true ic r pre a st :
  match_at ic r (rev pre) a = Some st -> test ic r (pre ++ a) = true.
Proof.
  intros H. unfold test.
  destruct (search ic r [] (pre ++ a)) eqn:E; auto.
  exfalso. eapply search_some; [ | exact E]. rewrite app_nil_r. exact H.
Qed.

(** Inversion of [rm], one constructor of the pattern at a time; a star is
    left alone. *)
Ltac inv_rm :=
  repeat match goal with
    | H : rm _ (RSeq _ _) _ _ _ |- _ => inversion H; subst; clear H
    | H : rm _ (RChr _) _ _ _ |- _ => inversion H; subst; clear H
    | H : rm _ (RSet _ _) _ _ _ |- _ => inversion H; subst; clear H
    | H : rm _ (RGrp _ _) _ _ _ |- _ => inversion H; subst; clear H
    | H : rm _ REps _ _ _ |- _ => inversion H; subst; clear H
    | H : rm _ RBol _ _ _ |- _ => inversion H; subst; clear H
    | H : rm _ REol _ _ _ |- _ => inversion H; subst; clear H
    | H : rm _ RWordB _ _ _ |- _ => inversion H; subst; clear H
    | H : rm _ (RBehind _ _) _ _ _ |- _ => inversion H; subst; clear H
    | H : rm _ (RAlt _ _) _ _ _ |- _ => inversion H; subst; clear H
    end.

(** *** Letter case *)

Lemma chr_eq_upper x c :
  is_upper c = true -> chr_eq true x c = true -> upper_char x = c.
Proof.
  unfold chr_eq, upper_char, swapcase, is_upper, is_lower. intros Hc H.
  apply andb_prop in Hc. destruct Hc as [H1 H2].
  apply N.leb_le in H1. apply N.leb_le in H2. revert H.
  destruct (N.leb_spec 97 x), (N.leb_spec x 122), (N.leb_spec 65 x),
    (N.leb_spec x 90); simpl;
    intros Hx; apply orb_prop in Hx; destruct Hx as [Hx | Hx];
    apply N.eqb_eq in Hx; lia.
Qed.

Lemma contains_ci_app p : forall pre w a,
  starts_with_ci p (w ++ a) = true -> contains_ci p (pre ++ w ++ a) = true.
Proof.
  induction pre as [ | c pre IH]; intros w a H; simpl.
  - destruct (w ++ a); simpl in *; rewrite H; reflexivity.
  - rewrite IH; auto. apply orb_true_r.
Qed.

(** *** The [WITH] test of [parseCTEs] *)

Lemma rx_with_starts b w a :
  rm true rx_with b w a -> starts_with_ci (lit "WITH") (w ++ a) = true.
Proof.
  intros H. vm_compute in H. inv_rm. simpl.
  repeat match goal with
         | H : chr_eq true _ _ = true |- _ =>
             apply chr_eq_upper in H; [ | reflexivity]
         end.
  repeat match goal with H : upper_char _ = _ |- _ => rewrite H end.
  reflexivity.
Qed.

Lemma parseCTEs_without_with text :
  contains_ci (lit "WITH") text = false -> parseCTEs text = [].
Proof.
  intros H. unfold parseCTEs, str_match.
  destruct (search true rx_with [] text) as [[i st] | ] eqn:E; auto.
  apply search_sound in E. destruct E as (p & w & a' & Ea & _ & R & _).
  apply rx_with_starts in R.
  rewrite Ea, (contains_ci_app _ p w a' R) in H. discriminate.
Qed.

(** *** The star *)

Lemma rmatch_star ic g r st k :
  rmatch ic (RStar g r) st k = star_loop ic r g k (length (after st)) st.
Proof. reflexivity. Qed.

(** The matcher only depends on the values of its continuation. *)
Lemma rmatch_ext ic r : forall st k1 k2,
  (forall s, k1 s = k2 s) -> rmatch ic r st k1 = rmatch ic r st k2.
Proof.
  induction r as [ | c | neg rs | r1 IH1 r2 IH2 | r1 IH1 r2 IH2 | g r1 IH1
                 | n r1 IH1 | neg r1 IH1 | neg rs | | | ];
    intros st k1 k2 H; simpl.
  - apply H.
  - destruct (after st); auto. destruct (chr_eq ic c0 c); auto.
  - destruct (after st); auto. destruct (xorb neg (in_class ic rs c)); auto.
  - apply IH1. intros s. now apply IH2.
  - rewrite (IH1 st k1 k2 H), (IH2 st k1 k2 H). reflexivity.
  - change (star_loop ic r1 g k1 (length (after st)) st
            = star_loop ic r1 g k2 (length (after st)) st).
    generalize (length (after st)) as fuel. intros fuel. revert st.
    induction fuel as [ | fuel IHf]; intros st; [apply H | ].
    simpl. rewrite (H st).
    rewrite (IH1 st _
               (fun st1 =>
                  if Nat.ltb (length (after st1)) (length (after st))
                  then star_loop ic r1 g k2 fuel st1 else None));
      [reflexivity | ].
    intros s. destruct (Nat.ltb (length (after s)) (length (after st))); auto.
  - apply IH1. intros s. apply H.
  - destruct (rmatch ic r1 st Some); destruct neg; auto.
  - destruct (xorb neg match before st with
                       | [] => false
                       | c :: _ => in_class ic rs c
                       end); auto.
  - destruct (before st); auto.
  - destruct (after st); auto.
  - destruct (xorb (word_at (before st)) (word_at (after st))); auto.
Qed.

(** More fuel than characters left changes nothing. *)
Lemma star_loop_fuel ic r g k : forall f1 f2 st,
  length (after st) <= f1 -> length (after st) <= f2 ->
  star_loop ic r g k f1 st = star_loop ic r g k f2 st.
Proof.
  induction f1 as [ | f1 IH]; intros f2 st H1 H2.
  - destruct f2; simpl; auto.
    assert (E : rmatch ic r st
                  (fun st1 =>
                     if Nat.ltb (length (after st1)) (length (after st))
                     then star_loop ic r g k f2 st1 else None)
                = rmatch ic r st (fun _ => None)).
    { apply rmatch_ext. intros s.
      destruct (Nat.ltb_spec (length (after s)) (length (after st))); auto.
      lia. }
    rewrite E.
    assert (N : forall st', rmatch ic r st' (fun _ => None) = None).
    { intros st'. destruct (rmatch ic r st' (fun _ => None)) eqn:Er; auto.
      apply rmatch_sound in Er. destruct Er as (? & ? & ? & _ & _ & Er).
      discriminate. }
    rewrite N. destruct g; simpl; auto. destruct (k st); auto.
  - destruct f2 as [ | f2].
    + simpl.
      assert (E : rmatch ic r st
                    (fun st1 =>
                       if Nat.ltb (length (after st1)) (length (after st))
                       then star_loop ic r g k f1 st1 else None)
                  = rmatch ic r st (fun _ => None)).
      { apply rmatch_ext. intros s.
        destruct (Nat.ltb_spec (length (after s)) (length (after st))); auto.
        lia. }
      rewrite E.
      assert (N : forall st', rmatch ic r st' (fun _ => None) = None).
      { intros st'. destruct (rmatch ic r st' (fun _ => None)) eqn:Er; auto.
        apply rmatch_sound in Er. destruct Er as (? & ? & ? & _ & _ & Er).
        discriminate. }
      rewrite N. destruct g; simpl; auto. destruct (k st); auto.
    + simpl.
      assert (E : rmatch ic r st
                    (fun st1 =>
                       if Nat.ltb (length (after st1)) (length (after st))
                       then star_loop ic r g k f1 st1 else None)
                  = rmatch ic r st
                      (fun st1 =>
                         if Nat.ltb (length (after st1)) (length (after st))
                         then star_loop ic r g k f2 st1 else None)).
      { apply rmatch_ext. intros s.
        destruct (Nat.ltb_spec (length (after s)) (length (after st))); auto.
        apply IH; lia. }
      now rewrite E.
Qed.

Lemma star_loop_S ic r g k fuel st0 :
  star_loop ic r g k (S fuel) st0 =
  let iter :=
    rmatch ic r st0
      (fun st1 =>
         if Nat.ltb (length (after st1)) (length (after st0))
         then star_loop ic r g k fuel st1 else None) in
  if g then orelse iter (k st0) else orelse (k st0) iter.
Proof. reflexivity. Qed.

(** The equation of the star: one iteration that consumes something, then
    the star again; before the continuation when the star is greedy, after
    it otherwise. *)
Lemma rmatch_star_eq ic g r st k :
  rmatch ic (RStar g r) st k =
  match after st with
  | [] => k st
  | _ :: _ =>
      let iter :=
        rmatch ic r st
          (fun st1 =>
             if Nat.ltb (length (after st1)) (length (after st))
             then rmatch ic (RStar g r) st1 k else None) in
      if g then orelse iter (k st) else orelse (k st) iter
  end.
Proof.
  rewrite rmatch_star. destruct st as [b [ | c a] cs]; [reflexivity | ].
  cbn [after length]. rewrite star_loop_S. cbv zeta. cbn [after length].
  match goal with
  | |- context [rmatch ic r ?s ?kk] =>
      rewrite (rmatch_ext ic r s kk
                 (fun st1 =>
                    if Nat.ltb (length (after st1)) (S (length a))
                    then rmatch ic (RStar g r) st1 k else None))
  end; [reflexivity | ].
  intros s. rewrite rmatch_star.
  destruct (Nat.ltb_spec (length (after s)) (S (length a))); auto.
  apply star_loop_fuel; lia.
Qed.

Lemma rmatch_set ic neg rs b x rest cs k :
  rmatch ic (RSet neg rs) (MState b (x :: rest) cs) k =
  if xorb neg (in_class ic rs x) then k (MState (x :: b) rest cs) else None.
Proof. reflexivity. Qed.

(** A greedy star of a class runs to the end of the run of characters of
    the class, when the continuation succeeds there. *)
Lemma rmatch_star_class ic neg rs k res : forall w b rest cs,
  Forall (fun c => xorb neg (in_class ic rs c) = true) w ->
  match rest with
  | [] => True
  | x :: _ => xorb neg (in_class ic rs x) = false
  end ->
  k (MState (rev w ++ b) rest cs) = Some res ->
  rmatch ic (RStar true (RSet neg rs)) (MState b (w ++ rest) cs) k = Some res.
Proof.
  induction w as [ | c w IH]; intros b rest cs Hw Hr Hk.
  - simpl app in *. rewrite rmatch_star_eq. cbn [after].
    destruct rest as [ | x rest]; [exact Hk | ].
    cbv zeta. rewrite rmatch_set, Hr. exact Hk.
  - inversion Hw as [ | c' w' Hc Hw']; subst.
    rewrite rmatch_star_eq. cbn [app after]. cbv zeta.
    rewrite rmatch_set, Hc. cbn [after].
    assert (L : Nat.ltb (length (w ++ rest)) (length (c :: w ++ rest)) = true).
    { apply Nat.ltb_lt. simpl. lia. }
    rewrite L. rewrite (IH (c :: b) rest cs Hw' Hr).
    + reflexivity.
    + simpl in Hk. now rewrite <- app_assoc in Hk.
Qed.

(** *** The counters of the loops *)

(** The loops over the matches of a pattern count down from the length of
    the text; a larger counter gives the same result, so the counter never
    cuts a loop short. *)
Lemma exec_loop_fuel ic r text : forall f1 f2 bef aft,
  length aft < f1 -> length aft < f2 ->
  exec_loop f1 ic r text bef aft = exec_loop f2 ic r text bef aft.
Proof.
  induction f1 as [ | f1 IH]; intros f2 bef aft H1 H2; [lia | ].
  destruct f2 as [ | f2]; [lia | ]. simpl.
  destruct (search ic r bef aft) as [[i st] | ]; [ | reflexivity].
  destruct (Nat.ltb_spec (length (after st)) (length aft)); [ | reflexivity].
  f_equal. apply IH; lia.
Qed.

Lemma replace_loop_fuel ic r f : forall f1 f2 bef aft,
  length aft < f1 -> length aft < f2 ->
  replace_loop f1 ic r f bef aft = replace_loop f2 ic r f bef aft.
Proof.
  induction f1 as [ | f1 IH]; intros f2 bef aft H1 H2; [lia | ].
  destruct f2 as [ | f2]; [lia | ]. simpl.
  destruct (search ic r bef aft) as [[i st] | ] eqn:Hs; [ | reflexivity].
  apply search_sound in Hs.
  destruct Hs as (p & w & a' & Ea & Ei & _ & Hb & _).
  assert (Hl : length aft = length p + length w + length a')
    by (rewrite Ea, !length_app; lia).
  assert (Hm : length (before st) - i = length w)
    by (rewrite Hb, Ei, !length_app, !length_rev; lia).
  assert (Hk : i - length bef = length p) by lia.
  rewrite Hm, Hk.
  assert (Hr : length (skipn (length p + length w) aft) = length a')
    by (rewrite length_skipn; lia).
  do 2 f_equal.
  destruct (Nat.eqb_spec (length w) 0) as [E | E].
  - destruct (skipn (length p + length w) aft) as [ | c rest'];
      [reflexivity | ].
    f_equal. simpl in Hr. apply IH; lia.
  - apply IH; rewrite Hr; lia.
Qed.

(** *** Length of the sanitized text *)

Lemma blank_length m : length (blank m) = length m.
Proof. unfold blank, spaces. apply repeat_length. Qed.

Lemma blank_keep_newlines_length m : length (blank_keep_newlines m) = length m.
Proof. unfold blank_keep_newlines. apply length_map. Qed.

Lemma replace_loop_length ic r f :
  (forall m, length (f m) = length m) ->
  forall fuel bef aft, length (replace_loop fuel ic r f bef aft) = length aft.
Proof.
  intros Hf. induction fuel as [ | fuel IH]; intros bef aft; simpl; auto.
  destruct (search ic r bef aft) as [[i st] | ]; auto.
  set (skip := i - length bef). set (mlen := length (before st) - i).
  rewrite !length_app, Hf.
  assert (Hrest :
    length (if Nat.eqb mlen 0
            then match skipn (skip + mlen) aft with
                 | [] => []
                 | c :: rest' =>
                     c :: replace_loop fuel ic r f (c :: before st) rest'
                 end
            else replace_loop fuel ic r f (before st) (skipn (skip + mlen) aft))
    = length (skipn (skip + mlen) aft)).
  { destruct (Nat.eqb mlen 0).
    - destruct (skipn (skip + mlen) aft); simpl; auto.
    - apply IH. }
  rewrite Hrest.
  rewrite <- (firstn_skipn skip aft) at 4.
  rewrite <- (firstn_skipn mlen (skipn skip aft)) at 2.
  rewrite !length_app, skipn_skipn, (Nat.add_comm mlen skip). lia.
Qed.

Lemma replace_all_length ic r f text :
  (forall m, length (f m) = length m) ->
  length (replace_all ic r f text) = length text.
Proof. intros Hf. unfold replace_all. now apply replace_loop_length. Qed.

(** C4.  The sanitizer [stripCommentsAndStrings] returns a string of the
    length of its input, for every input. *)
Theorem stripCommentsAndStrings_length (expr : str) :
  length (stripCommentsAndStrings expr) = length expr.
Proof.
  unfold stripCommentsAndStrings.
  rewrite !replace_all_length;
    auto using blank_length, blank_keep_newlines_length.
Qed.

(** *** The examples of the validator *)

(** C1.  On [WITH A AS (SELECT EMP_ID FROM EMPLOYEES) SELECT A.NAME FROM A]
    and the schema with the table EMPLOYEES (EMP_ID, NAME) the validator
    returns one diagnostic: a warning at NAME that the column is unknown in
    the CTE A, whose message lists the columns of A (EMP_ID).  The CTE is
    looked up first: a schema table named A that has a column NAME changes
    nothing. *)
Theorem validate_unknown_column_of_cte :
  validateDB2SQL
    (lit "WITH A AS (SELECT EMP_ID FROM EMPLOYEES) SELECT A.NAME FROM A")
    (Some employees_schema)
  = [mkDiag 1 51 1 55
       (lit "Unknown column " ++ quoted "NAME" ++ lit " in CTE " ++ quoted "A"
        ++ lit ". Available columns: EMP_ID") warning]
  /\
  validateDB2SQL
    (lit "WITH A AS (SELECT EMP_ID FROM EMPLOYEES) SELECT A.NAME FROM A")
    (Some employees_and_a_schema)
  = [mkDiag 1 51 1 55
       (lit "Unknown column " ++ quoted "NAME" ++ lit " in CTE " ++ quoted "A"
        ++ lit ". Available columns: EMP_ID") warning].
Proof. split; vm_compute; reflexivity. Qed.

(** C8.  With the schema of the table EMPLOYEES (EMP_ID, NAME):
    [SELECT * FROM DEPTS] gives one warning, that the table DEPTS is
    unknown; [SELECT * FROM EMPLOYEES] gives no diagnostic;
    [SELECT E.SALARY FROM EMPLOYEES E] gives one warning, that the column
    SALARY is unknown in the table EMPLOYEES, which the alias E stands for. *)
Theorem validate_schema_examples :
  validateDB2SQL (lit "SELECT * FROM DEPTS") (Some employees_schema)
  = [mkDiag 1 15 1 20 (lit "Unknown table: DEPTS") warning]
  /\
  validateDB2SQL (lit "SELECT * FROM EMPLOYEES") (Some employees_schema) = []
  /\
  validateDB2SQL (lit "SELECT E.SALARY FROM EMPLOYEES E") (Some employees_schema)
  = [mkDiag 1 10 1 16
       (lit "Unknown column " ++ quoted "SALARY" ++ lit " in table " ++
        quoted "EMPLOYEES") warning].
Proof. repeat split; vm_compute; reflexivity. Qed.

(** C3.  The scan for an unclosed string does not toggle on a quote that
    follows a quote: in [SELECT 'a''b' FROM t] the second quote of the pair
    is skipped, the last quote opens a string again, and the validator
    reports an unclosed string literal at it. *)
Theorem validate_doubled_quote_reported :
  validateDB2SQL (lit "SELECT 'a''b' FROM t") None
  = [mkDiag 1 13 1 14 (lit "Unclosed string literal") error].
Proof. vm_compute; reflexivity. Qed.

(** The same with the empty string literal. *)
Lemma validate_empty_string_reported :
  validateDB2SQL (lit "SELECT '' FROM t") None
  = [mkDiag 1 8 1 9 (lit "Unclosed string literal") error].
Proof. vm_compute; reflexivity. Qed.

(** The two examples of the parenthesis check. *)
Lemma validate_paren_examples :
  validateDB2SQL (lit "SELECT * FROM (T") None
  = [mkDiag 1 15 1 16 (lit "Unclosed parenthesis") error]
  /\
  validateDB2SQL (lit "SELECT * FROM T)") None
  = [mkDiag 1 16 1 17 (lit "Unexpected closing parenthesis") error].
Proof. split; vm_compute; reflexivity. Qed.

(** C6.  The parenthesis check starts every line outside a string: a
    closing parenthesis on the second line of a string literal is counted.
    [SELECT '] / [)' FROM t] is reported an unexpected closing parenthesis,
    although the scan for unclosed strings of the same function finds the
    literal closed; the same literal on one line is not reported. *)
Theorem validate_paren_in_multiline_string :
  validateDB2SQL (lit "SELECT '" ++ [c_nl] ++ lit ")' FROM t") None
  = [mkDiag 2 1 2 2 (lit "Unexpected closing parenthesis") error]
  /\
  validateDB2SQL (lit "SELECT ')' FROM t") None = [].
Proof. split; vm_compute; reflexivity. Qed.

(** *** Severities *)

Section Severity.

Variable P : DB2SQLDiagnostic -> Prop.

Lemma Forall_map_intro {A : Type} (f : A -> DB2SQLDiagnostic) (l : list A) :
  (forall x, P (f x)) -> Forall P (map f l).
Proof. intros H. induction l; simpl; constructor; auto. Qed.

Lemma Forall_flat_map_intro {A : Type} (f : A -> list DB2SQLDiagnostic)
  (l : list A) :
  (forall x, Forall P (f x)) -> Forall P (flat_map f l).
Proof.
  intros H. induction l; simpl; [constructor | ].
  apply Forall_app. auto.
Qed.

End Severity.

Ltac split_cases :=
  repeat match goal with
    | |- Forall _ (_ ++ _) => apply Forall_app; split
    | |- Forall _ (map _ _) => apply Forall_map_intro; intros
    | |- Forall _ (flat_map _ _) => apply Forall_flat_map_intro; intros
    | |- Forall _ [] => constructor
    | |- Forall _ (_ :: _) => constructor
    | |- Forall _ (if ?c then _ else _) => destruct c
    | |- Forall _ (match ?x with _ => _ end) => destruct x
    | |- Forall _ (let _ := _ in _) => cbv zeta
    end.

Lemma paren_scan_line_structural : forall l pCol pLineNum inStr st,
  Forall structural_finding (parenDiags st) ->
  Forall structural_finding
    (parenDiags (paren_scan_line l pCol pLineNum inStr st)).
Proof.
  induction l as [ | c l IH]; intros pCol pLineNum inStr st H; simpl; auto.
  repeat match goal with
         | |- context [if ?c then _ else _] => destruct c
         end; apply IH; simpl; auto.
  apply Forall_app. split; auto. constructor; [ | constructor].
  split; reflexivity.
Qed.

Lemma paren_scan_structural : forall lines pLineNum st,
  Forall structural_finding (parenDiags st) ->
  Forall structural_finding (parenDiags (paren_scan lines pLineNum st)).
Proof.
  induction lines as [ | l lines IH]; intros pLineNum st H; simpl; auto.
  apply IH. now apply paren_scan_line_structural.
Qed.

Lemma structural_diagnostics_structural text :
  Forall structural_finding (structural_diagnostics text).
Proof.
  unfold structural_diagnostics, check_unclosed_string, check_trailing_comma,
    check_parens, check_empty_select, check_double_comma, check_missing_comma,
    check_incomplete_dot, missing_comma_diag.
  split_cases; try (split; reflexivity).
  apply paren_scan_structural. constructor.
Qed.

Lemma schema_diagnostics_schema text cfg :
  Forall schema_finding (schema_diagnostics text cfg).
Proof.
  unfold schema_diagnostics, unknown_table_diag, column_ref_diag,
    unknown_cte_column_diag, unknown_table_column_diag, cte_body_diags,
    main_query_diags.
  split_cases; try (split; reflexivity).
Qed.

(** C7.  Without a schema every diagnostic of the validator is a structural
    one, of severity error, and none is a finding about an unknown table or
    column; with a schema the validator returns the same diagnostics,
    followed by the findings about the schema, and every one of these is a
    warning about an unknown table or column. *)
Theorem validate_severities (text : str) :
  Forall (fun d => severity d = error /\ is_unknown_finding d = false)
    (validateDB2SQL text None)
  /\
  forall cfg,
    validateDB2SQL text (Some cfg)
    = validateDB2SQL text None ++ schema_diagnostics text cfg
    /\
    Forall (fun d => severity d = warning /\ is_unknown_finding d = true)
      (schema_diagnostics text cfg)
    /\
    Forall (fun d => if is_unknown_finding d then severity d = warning
                     else severity d = error)
      (validateDB2SQL text (Some cfg)).
Proof.
  pose proof (structural_diagnostics_structural text) as Hs.
  split.
  - unfold validateDB2SQL. rewrite app_nil_r. exact Hs.
  - intros cfg. pose proof (schema_diagnostics_schema text cfg) as Hc.
    repeat split.
    + unfold validateDB2SQL. now rewrite app_nil_r.
    + exact Hc.
    + unfold validateDB2SQL. apply Forall_app. split.
      * eapply Forall_impl; [ | exact Hs]. intros d [H1 H2]. now rewrite H2.
      * eapply Forall_impl; [ | exact Hc]. intros d [H1 H2]. now rewrite H2.
Qed.

(** *** The parenthesis counter *)

Lemma removelast_length {A : Type} (l : list A) :
  length (removelast l) = length l - 1.
Proof.
  destruct l as [ | x l]; [reflexivity | ].
  destruct (exists_last (l := x :: l)) as (l' & y & ->); [discriminate | ].
  rewrite removelast_last, length_app. simpl. lia.
Qed.

(** The counter of the parenthesis check is the size of its stack: the
    parentheses reported unclosed at the end are as many as the depth. *)
Lemma paren_scan_line_depth : forall l pCol pLineNum inStr st,
  parenDepth st = Z.of_nat (length (parenStack st)) ->
  parenDepth (paren_scan_line l pCol pLineNum inStr st)
  = Z.of_nat (length (parenStack (paren_scan_line l pCol pLineNum inStr st))).
Proof.
  induction l as [ | c l IH]; intros pCol pLineNum inStr st H; simpl; auto.
  repeat match goal with
         | |- context [if ?c then _ else _] => destruct c eqn:?
         end; apply IH; simpl; auto.
  - rewrite length_app. simpl. lia.
  - match goal with
    | Hlt : Z.ltb _ 0 = true |- _ => apply Z.ltb_lt in Hlt
    end.
    destruct (parenStack st); simpl in *; lia.
  - match goal with
    | Hlt : Z.ltb _ 0 = false |- _ => apply Z.ltb_ge in Hlt
    end.
    rewrite removelast_length. lia.
Qed.

Lemma paren_scan_depth : forall lines pLineNum st,
  parenDepth st = Z.of_nat (length (parenStack st)) ->
  parenDepth (paren_scan lines pLineNum st)
  = Z.of_nat (length (parenStack (paren_scan lines pLineNum st))).
Proof.
  induction lines as [ | l lines IH]; intros pLineNum st H; simpl; auto.
  apply IH. now apply paren_scan_line_depth.
Qed.

(** *** Suppression of the suggestions inside comments *)

(** When one of the two tests of the provider finds the cursor in a
    comment, no suggestion is returned. *)
Lemma provider_suppressed catalogs gw schemaConfig model position :
  (in_line_comment model position || in_block_comment model position)%bool
  = true ->
  provideCompletionItems catalogs gw schemaConfig model position = [].
Proof.
  unfold provideCompletionItems. intros H.
  destruct (in_line_comment model position); [reflexivity | ].
  simpl in H. now rewrite H.
Qed.

Lemma catalog_items_length catalogs rg :
  43 <= length (catalog_items catalogs rg).
Proof.
  unfold catalog_items. rewrite !length_app, !length_map.
  change (length SQL_SNIPPETS) with 43. lia.
Qed.

(** C10.  The test for a line comment looks at the first [--] of the line
    only.  On the line [SELECT '--' -- x] with the cursor at its end, the
    first [--] is inside a string literal, the second one starts a comment
    that the cursor is in; the provider does not return the empty list: it
    goes on to the word lists and the snippet templates, 43 suggestions at
    least. *)
Theorem provider_after_quoted_dashes catalogs gw :
  let model := [lit "SELECT '--' -- x"] in
  let position := Monaco.mkPosition 1 17 in
  text_before_cursor model position = lit "SELECT '--' -- x" /\
  in_line_comment model position = false /\
  provideCompletionItems catalogs gw None model position
  = catalog_items catalogs
      (mkRange 1 1 (fst (gw model position)) (snd (gw model position))) /\
  43 <= length (provideCompletionItems catalogs gw None model position).
Proof.
  intros model position.
  assert (E : provideCompletionItems catalogs gw None model position
              = catalog_items catalogs
                  (mkRange 1 1 (fst (gw model position))
                     (snd (gw model position)))).
  { unfold provideCompletionItems.
    replace (in_line_comment model position) with false
      by (vm_compute; reflexivity).
    replace (in_block_comment model position) with false
      by (vm_compute; reflexivity).
    cbv zeta.
    replace (parseCTEs (Monaco.getValue model)) with
      (@nil ParsedCTEWithContext) by (vm_compute; reflexivity).
    reflexivity. }
  split; [vm_compute; reflexivity | ].
  split; [vm_compute; reflexivity | ].
  split; [exact E | rewrite E; apply catalog_items_length].
Qed.

(** *** Unterminated comments *)




Lemma contains_second x y : forall text,
  ~ In y text -> contains [x; y] text = false.
Proof.
  induction text as [ | c text IH]; intros H; [reflexivity | ].
  cbn [contains]. rewrite IH by (intros Hi; apply H; now right).
  rewrite orb_false_r. cbn [starts_with].
  destruct text as [ | d text]; [apply andb_false_r | ].
  destruct (N.eqb_spec y d) as [-> | Hd].
  - exfalso. apply H. right. now left.
  - cbn [andb]. apply andb_false_r.
Qed.

Lemma contains_first x : forall text, ~ In x text -> contains [x] text = false.
Proof.
  induction text as [ | c text IH]; intros H; [reflexivity | ].
  cbn [contains]. rewrite IH by (intros Hi; apply H; now right).
  rewrite orb_false_r. cbn [starts_with].
  destruct (N.eqb_spec x c) as [-> | Hd]; auto.
  exfalso. apply H. now left.
Qed.

Lemma chr_eq_exact x c : chr_eq false x c = true -> x = c.
Proof.
  unfold chr_eq. rewrite orb_false_r. apply N.eqb_eq.
Qed.

Ltac exact_chars :=
  repeat match goal with
         | H : chr_eq false _ _ = true |- _ => apply chr_eq_exact in H; subst
         end.







Lemma neq_eqb_false (x y : N) : x <> y -> N.eqb x y = false.
Proof. apply N.eqb_neq. Qed.


(** The first match is at the first position that has one. *)
Lemma search_at ic r pre b a st :
  (forall p1 c p2, pre = p1 ++ c :: p2 ->
                   match_at ic r (rev p1 ++ b) (c :: p2 ++ a) = None) ->
  match_at ic r (rev pre ++ b) a = Some st ->
  search ic r b (pre ++ a) = Some (length b + length pre, st).
Proof.
  intros Hn Hm. rewrite search_skip by exact Hn.
  assert (E : length (rev pre ++ b) = length b + length pre).
  { rewrite length_app, length_rev. lia. }
  destruct a; simpl; rewrite Hm, E; reflexivity.
Qed.



(** *** White space at the end of a text *)

Lemma not_space_between x : (33 <= x <= 159)%N -> is_space x = false.
Proof.
  intros H. unfold is_space, in_ranges, cls_space. cbn [existsb fst snd].
  repeat match goal with
         | |- context [N.leb ?a ?b] =>
             first [ replace (N.leb a b) with false
                       by (symmetry; apply N.leb_gt; lia)
                   | replace (N.leb a b) with true
                       by (symmetry; apply N.leb_le; lia) ]
         end.
  reflexivity.
Qed.

(** With or without the [i] flag, [\s] matches the white space. *)
Lemma in_class_space ic c : in_class ic cls_space c = is_space c.
Proof.
  unfold in_class. destruct ic; [ | apply orb_false_r].
  cbn [andb]. fold (is_space c). fold (is_space (swapcase c)).
  unfold swapcase.
  destruct (is_lower c) eqn:L; [ | destruct (is_upper c) eqn:U].
  - unfold is_lower in L. apply andb_prop in L. destruct L as [L1 L2].
    apply N.leb_le in L1. apply N.leb_le in L2.
    rewrite (@not_space_between c) by lia.
    rewrite (@not_space_between (c - 32)%N) by lia. reflexivity.
  - unfold is_upper in U. apply andb_prop in U. destruct U as [U1 U2].
    apply N.leb_le in U1. apply N.leb_le in U2.
    rewrite (@not_space_between c) by lia.
    rewrite (@not_space_between (c + 32)%N) by lia. reflexivity.
  - apply orb_diag.
Qed.

Lemma trim_start_spaces : forall ws d rest,
  Forall (fun c => is_space c = true) ws -> is_space d = false ->
  trim_start (ws ++ d :: rest) = d :: rest.
Proof.
  induction ws as [ | c ws IH]; intros d rest Hw Hd; simpl.
  - now rewrite Hd.
  - inversion Hw; subst. rewrite H1. now apply IH.
Qed.

Lemma trim_end_spaces l d ws :
  Forall (fun c => is_space c = true) ws -> is_space d = false ->
  trim_end (l ++ d :: ws) = l ++ [d].
Proof.
  intros Hw Hd. unfold trim_end.
  assert (E : rev (l ++ d :: ws) = rev ws ++ d :: rev l).
  { rewrite rev_app_distr. simpl. now rewrite <- app_assoc. }
  rewrite E, trim_start_spaces; auto.
  - simpl. now rewrite rev_involutive.
  - now apply Forall_rev.
Qed.

(** The last character of a text that is not white space is where it is. *)
Lemma last_nonspace_unique l1 d s1 l2 c s2 :
  l1 ++ d :: s1 = l2 ++ c :: s2 ->
  Forall (fun x => is_space x = true) s1 ->
  Forall (fun x => is_space x = true) s2 ->
  is_space d = false -> is_space c = false ->
  l1 = l2 /\ d = c /\ s1 = s2.
Proof.
  intros E H1 H2 Hd Hc.
  pose proof (f_equal trim_end E) as Et.
  rewrite !trim_end_spaces in Et by assumption.
  apply app_inj_tail in Et. destruct Et as [-> ->].
  repeat split. apply app_inv_head in E. now injection E.
Qed.

(** A text that is all white space has no last character of another kind. *)
Lemma all_space_no_last l d s :
  Forall (fun x => is_space x = true) (l ++ d :: s) -> is_space d = false ->
  False.
Proof.
  intros H Hd. apply Forall_app in H. destruct H as [_ H].
  inversion H; subst. congruence.
Qed.

(** What a star of a class consumes is in the class. *)
Lemma rm_star_class ic g neg rs b w a :
  rm ic (RStar g (RSet neg rs)) b w a ->
  Forall (fun c => xorb neg (in_class ic rs c) = true) w.
Proof.
  intros H. remember (RStar g (RSet neg rs)) as r eqn:Er.
  induction H; try discriminate; injection Er as -> ->.
  - constructor.
  - apply Forall_app. split; auto.
    match goal with
    | H : rm _ (RSet _ _) _ _ _ |- _ => inversion H; subst
    end.
    constructor; auto.
Qed.

Lemma rm_star_space ic g b w a :
  rm ic (RStar g (RSet false cls_space)) b w a ->
  Forall (fun c => is_space c = true) w.
Proof.
  intros H. apply rm_star_class in H.
  eapply Forall_impl; [ | exact H]. intros c Hc. simpl in Hc.
  now rewrite in_class_space in Hc.
Qed.

(** *** The patterns of [getSQLContext] *)

(** The pattern for an identifier and a dot at the end of the line has no
    match when the last character of the line that is not white space is
    not a dot. *)
Lemma dot_before_none X c ws :
  is_space c = false -> c <> c_dot ->
  Forall (fun x => is_space x = true) ws ->
  str_match false rx_dot_before (X ++ c :: ws) = None.
Proof.
  intros Hc Hd Hw. unfold str_match.
  destruct (search false rx_dot_before [] (X ++ c :: ws)) as [[i st] | ] eqn:E;
    [exfalso | reflexivity].
  apply search_sound in E. destruct E as (p & w & a' & Ea & _ & R & _).
  cbv [rx_dot_before RCat rx_idchars RPlus rx_sp_star RSp] in R.
  inv_rm. exact_chars.
  match goal with
  | H : rm _ (RStar _ (RSet false cls_space)) _ _ _ |- _ =>
      apply rm_star_space in H; rename H into Hsp
  end.
  rewrite !app_nil_r in Ea.
  match type of Ea with
  | _ = p ++ (?u ++ [c_dot] ++ ?v) =>
      replace (p ++ (u ++ [c_dot] ++ v)) with ((p ++ u) ++ c_dot :: v) in Ea
        by (now rewrite <- app_assoc)
  end.
  apply last_nonspace_unique in Ea; auto.
  destruct Ea as (_ & Ec & _). now apply Hd.
Qed.

Lemma rmatch_seq ic r1 r2 st k :
  rmatch ic (RSeq r1 r2) st k = rmatch ic r1 st (fun st1 => rmatch ic r2 st1 k).
Proof. reflexivity. Qed.

Lemma rmatch_chr ic c b x rest cs k :
  rmatch ic (RChr c) (MState b (x :: rest) cs) k =
  if chr_eq ic x c then k (MState (x :: b) rest cs) else None.
Proof. reflexivity. Qed.

Lemma rmatch_grp ic n r st k :
  rmatch ic (RGrp n r) st k =
  rmatch ic r st
    (fun st1 => k (set_cap n (length (before st)) (length (before st1)) st1)).
Proof. reflexivity. Qed.

Lemma trailing_space_match b ws :
  ws <> [] -> Forall (fun x => is_space x = true) ws ->
  match_at false rx_trailing_space b ws = Some (MState (rev ws ++ b) [] []).
Proof.
  intros Hn Hw. destruct ws as [ | s0 ws]; [congruence | ].
  inversion Hw as [ | s0' ws' Hs0 Hws]; subst.
  unfold match_at. cbv [rx_trailing_space rx_sp_plus RPlus RSp].
  rewrite !rmatch_seq, rmatch_set. cbn [xorb].
  rewrite in_class_space, Hs0.
  rewrite <- (app_nil_r ws) at 1.
  rewrite (@rmatch_star_class false false cls_space _
             (MState (rev ws ++ s0 :: b) [] [])).
  - simpl. now rewrite <- app_assoc.
  - eapply Forall_impl; [ | exact Hws]. intros x Hx. simpl.
    now rewrite in_class_space.
  - exact I.
  - reflexivity.
Qed.

Lemma trailing_space_none_at b s c ws :
  is_space c = false ->
  match_at false rx_trailing_space b (s ++ c :: ws) = None.
Proof.
  intros Hc.
  destruct (match_at false rx_trailing_space b (s ++ c :: ws)) as [st | ] eqn:E;
    [exfalso | reflexivity].
  apply match_at_sound in E. destruct E as (w & a' & Ea & R & _).
  cbv [rx_trailing_space rx_sp_plus RPlus RSp] in R. inv_rm.
  match goal with
  | H : rm _ (RStar _ (RSet false cls_space)) _ _ _ |- _ =>
      apply rm_star_space in H; rename H into Hsp
  end.
  match goal with
  | H : xorb false (in_class false cls_space ?x) = true |- _ =>
      simpl in H; rewrite in_class_space in H; rename H into Hx
  end.
  rewrite !app_nil_r in Ea.
  assert (Hall : Forall (fun x => is_space x = true) (s ++ c :: ws)).
  { rewrite Ea. constructor; auto. }
  eapply all_space_no_last; eauto.
Qed.

(** [s.replace(/\s+$/, '')] removes the white space at the end. *)
Lemma trim_trailing_spec X c ws :
  is_space c = false -> Forall (fun x => is_space x = true) ws ->
  trim_trailing (X ++ c :: ws) = X ++ [c].
Proof.
  intros Hc Hw. unfold trim_trailing, replace_first, str_match.
  destruct ws as [ | s0 ws].
  - rewrite search_none; [reflexivity | ].
    intros p s E. rewrite app_nil_r.
    destruct s as [ | x s]; [reflexivity | ].
    assert (Es : exists s', x :: s = s' ++ [c]).
    { destruct (exists_last (l := x :: s)) as (s' & y & Ey); [discriminate | ].
      exists s'. rewrite Ey in E. rewrite Ey.
      rewrite app_assoc in E. apply app_inj_tail in E. now destruct E as [_ ->]. }
    destruct Es as (s' & ->). now apply trailing_space_none_at.
  - replace (X ++ c :: s0 :: ws) with ((X ++ [c]) ++ s0 :: ws)
      by (now rewrite <- app_assoc).
    rewrite (@search_at false rx_trailing_space (X ++ [c]) [] (s0 :: ws)
               (MState (rev (s0 :: ws) ++ rev (X ++ [c]) ++ []) [] [])).
    + cbn [mk_match m_index m_end before length Nat.add].
      rewrite firstn_app, firstn_all, Nat.sub_diag. cbn [firstn].
      rewrite app_nil_r. cbn [app].
      rewrite skipn_all2; [now rewrite app_nil_r | ].
      rewrite !length_app, !length_rev, !length_app. simpl. lia.
    + intros p1 c' p2 E.
      assert (Es : exists s', c' :: p2 = s' ++ [c]).
      { destruct (exists_last (l := c' :: p2)) as (s' & y & Ey);
          [discriminate | ].
        exists s'. rewrite Ey in E. rewrite Ey.
        rewrite app_assoc in E. apply app_inj_tail in E.
        now destruct E as [_ ->]. }
      destruct Es as (s' & Es).
      replace (c' :: p2 ++ s0 :: ws) with (s' ++ c :: s0 :: ws).
      * now apply trailing_space_none_at.
      * change (c' :: p2 ++ s0 :: ws) with ((c' :: p2) ++ s0 :: ws).
        rewrite Es. now rewrite <- app_assoc.
    + apply trailing_space_match; [discriminate | assumption].
Qed.

(** *** The statement and the line of the cursor *)

Lemma lastIndexOf_from_absent c : forall s i acc,
  ~ In c s -> lastIndexOf_from c s i acc = acc.
Proof.
  induction s as [ | x s IH]; intros i acc H; simpl; auto.
  rewrite IH by (intros Hi; apply H; now right).
  destruct (N.eqb_spec x c) as [-> | ]; auto.
  exfalso. apply H. now left.
Qed.

Lemma lastIndexOf_from_app c t : forall Y i acc,
  ~ In c t ->
  lastIndexOf_from c (Y ++ t) i acc = lastIndexOf_from c Y i acc.
Proof.
  induction Y as [ | x Y IH]; intros i acc H; simpl.
  - now apply lastIndexOf_from_absent.
  - now apply IH.
Qed.

Lemma lastIndexOf_from_bound c : forall s i acc j,
  lastIndexOf_from c s i acc = Some j ->
  acc = Some j \/ (i <= j < i + length s).
Proof.
  induction s as [ | x s IH]; intros i acc j H; simpl in *; auto.
  apply IH in H. destruct H as [H | H]; [ | right; lia].
  destruct (N.eqb x c); auto. injection H as <-. right. lia.
Qed.

(** The statement of the cursor ends with the text before the cursor, as
    far back as this has no semicolon. *)
Lemma current_statement_suffix Y t :
  ~ In c_semi t -> exists Z, current_statement (Y ++ t) = Z ++ t.
Proof.
  intros H. unfold current_statement, lastIndexOf.
  rewrite lastIndexOf_from_app by assumption.
  destruct (lastIndexOf_from c_semi Y 0 None) as [j | ] eqn:E.
  - apply lastIndexOf_from_bound in E. destruct E as [E | E]; [discriminate | ].
    exists (skipn (j + 1) Y). unfold substring_from.
    rewrite skipn_app. replace (j + 1 - length Y) with 0 by lia. reflexivity.
  - now exists Y.
Qed.

Lemma substring_0 s n : substring s 0 n = firstn n s.
Proof. unfold substring. simpl. now rewrite Nat.sub_0_r. Qed.

Lemma join_snoc sep : forall ls L, exists P, join sep (ls ++ [L]) = P ++ L.
Proof.
  induction ls as [ | x ls IH]; intros L.
  - now exists [].
  - destruct (IH L) as (P & E). simpl app.
    destruct (ls ++ [L]) as [ | y rest] eqn:El in *.
    + destruct ls; discriminate.
    + exists (x ++ sep ++ P).
      change (join sep (x :: y :: rest)) with (x ++ sep ++ join sep (y :: rest)).
      rewrite E. now rewrite <- !app_assoc.
Qed.

(** The text up to the cursor ends with the part of the cursor's line that
    is before the cursor. *)
Lemma getValueUntil_line model position :
  exists P,
    Monaco.getValueUntil model position
    = P ++ text_before_cursor model position.
Proof.
  unfold Monaco.getValueUntil, text_before_cursor. rewrite substring_0.
  apply join_snoc.
Qed.

Lemma current_statement_line model position t X :
  text_before_cursor model position = X ++ t -> ~ In c_semi t ->
  exists Z,
    current_statement (Monaco.getValueUntil model position) = Z ++ t.
Proof.
  intros E H. destruct (getValueUntil_line model position) as (P & ->).
  rewrite E, app_assoc. now apply current_statement_suffix.
Qed.

(** *** The completion context *)

Lemma table_keyword_from Z :
  test true tableKeywords (Z ++ lit "FROM ") = true.
Proof.
  apply (@test_true true tableKeywords Z (lit "FROM ")
           (MState (rev (lit "FROM ") ++ rev Z) [] [])).
  vm_compute. reflexivity.
Qed.

(** The cursor after [FROM] and a space: a table is expected. *)
Lemma context_after_from model position X :
  text_before_cursor model position = X ++ lit "FROM " ->
  context (getSQLContext model position) = ctx_table.
Proof.
  intros H. unfold getSQLContext. cbv zeta.
  assert (Hdot : str_match false rx_dot_before
                   (text_before_cursor model position) = None).
  { rewrite H.
    change (X ++ lit "FROM ") with (X ++ lit "FRO" ++ 77%N :: [c_space]).
    rewrite app_assoc.
    apply dot_before_none; [reflexivity | discriminate | repeat constructor]. }
  rewrite Hdot.
  destruct (@current_statement_line model position (lit "FROM ") X H)
    as (Z & ->).
  { vm_compute. intuition discriminate. }
  assert (Ht : trim_trailing (Z ++ lit "FROM ") = Z ++ lit "FROM").
  { change (Z ++ lit "FROM ") with (Z ++ lit "FRO" ++ 77%N :: [c_space]).
    rewrite app_assoc, trim_trailing_spec;
      [now rewrite <- app_assoc | reflexivity | repeat constructor]. }
  rewrite Ht, <- app_assoc.
  change (lit "FROM" ++ [c_space]) with (lit "FROM ").
  rewrite table_keyword_from. reflexivity.
Qed.

(** The last character of a match of a word of the pattern. *)
Lemma rm_RStr_last ic c : forall s b w a,
  rm ic (RStr (s ++ [c])) b w a ->
  exists u x, w = u ++ [x] /\ chr_eq ic x c = true.
Proof.
  unfold RStr. induction s as [ | y s IH]; intros b w a H.
  - simpl in H. inversion H; subst. now exists [], x.
  - assert (E : RCat (map RChr ((y :: s) ++ [c]))
                = RSeq (RChr y) (RCat (map RChr (s ++ [c])))).
    { simpl. destruct (map RChr (s ++ [c])) eqn:El; [ | reflexivity].
      destruct s; discriminate. }
    rewrite E in H.
    inversion H as [ | | | r1 r2 b0 w1 w2 a0 R1 R2 | | | | | | | | | | | ];
      subst.
    apply IH in R2. destruct R2 as (u & x & -> & Hx).
    exists (w1 ++ u), x. split; auto. now rewrite <- app_assoc.
Qed.

Lemma chr_eq_not_space x c :
  is_upper c = true -> chr_eq true x c = true -> is_space x = false.
Proof.
  unfold chr_eq, swapcase, is_upper, is_lower. intros Hc H.
  apply andb_prop in Hc. destruct Hc as [H1 H2].
  apply N.leb_le in H1. apply N.leb_le in H2.
  apply not_space_between. revert H.
  destruct (N.leb_spec 97 x), (N.leb_spec x 122), (N.leb_spec 65 x),
    (N.leb_spec x 90); simpl;
    intros Hx; apply orb_prop in Hx; destruct Hx as [Hx | Hx];
    apply N.eqb_eq in Hx; lia.
Qed.

(** A match of [tableKeywords] runs to the end of the text, and is a word
    that ends with M, N, O or E, in either case, and white space. *)
Lemma table_keyword_last b w a :
  rm true tableKeywords b w a ->
  a = [] /\
  exists u x ws, w = u ++ x :: ws /\ Forall (fun c => is_space c = true) ws /\
                 is_space x = false /\ table_keyword_end x = true.
Proof.
  intros R. cbv [tableKeywords RCat rx_kw ROr map rx_sp_star RSp] in R.
  inversion R as [ | | | r1 r2 b0 w1 w2 a0 R1 R2 | | | | | | | | | | | ]; subst.
  inversion R2 as [ | | | r1 r2 b0 w3 w4 a0 R3 R4 | | | | | | | | | | | ]; subst.
  inversion R4; subst. apply rm_star_space in R3.
  split; [reflexivity | ].
  assert (Hk : exists u x, w1 = u ++ [x] /\ is_space x = false /\
                           table_keyword_end x = true).
  { unfold table_keyword_end.
    repeat match goal with
           | H : rm _ (RAlt _ _) _ _ _ |- _ => inversion H; subst; clear H
           end;
      match goal with
      | H : rm _ (RLit ?s) _ _ _ |- _ =>
          let l := eval vm_compute in (removelast (lit s)) in
          let c := eval vm_compute in (last (lit s) 0%N) in
          change (RLit s) with (RStr (l ++ [c])) in H;
          apply rm_RStr_last in H; destruct H as (u & x & -> & Hx);
          exists u, x; split; [reflexivity | ];
          split; [eapply chr_eq_not_space; [ | exact Hx]; reflexivity | ];
          rewrite Hx; repeat rewrite orb_true_r; reflexivity
      end. }
  destruct Hk as (u & x & -> & Hs & Hx).
  exists u, x, w3. rewrite app_nil_r, <- app_assoc. auto.
Qed.

Lemma table_keyword_none Z c ws :
  is_space c = false -> table_keyword_end c = false ->
  Forall (fun x => is_space x = true) ws ->
  test true tableKeywords (Z ++ c :: ws) = false.
Proof.
  intros Hc Hk Hw. unfold test.
  destruct (search true tableKeywords [] (Z ++ c :: ws)) as [[i st] | ] eqn:E;
    [exfalso | reflexivity].
  apply search_sound in E. destruct E as (p & w & a' & Ea & _ & R & _).
  apply table_keyword_last in R.
  destruct R as (-> & u & x & ws' & -> & Hws & Hs & Hx).
  rewrite app_nil_r, app_assoc in Ea.
  apply last_nonspace_unique in Ea; auto.
  destruct Ea as (_ & -> & _). congruence.
Qed.

Lemma column_keyword_select Z :
  test true columnKeywords (Z ++ lit "SELECT ") = true.
Proof.
  apply (@test_true true columnKeywords Z (lit "SELECT ")
           (MState (rev (lit "SELECT ") ++ rev Z) [] [])).
  vm_compute. reflexivity.
Qed.

(** The cursor after [SELECT] and a space: a column is expected, unless
    the word before [SELECT] asks for a table. *)
Lemma context_after_select model position X :
  text_before_cursor model position = X ++ lit "SELECT " ->
  (test true tableKeywords
     (trim_trailing (text_before_word (text_before_cursor model position))
      ++ [c_space]) = false ->
   context (getSQLContext model position) = ctx_column /\
   tableAlias (getSQLContext model position) = None)
  /\
  (test true tableKeywords
     (trim_trailing (text_before_word (text_before_cursor model position))
      ++ [c_space]) = true ->
   context (getSQLContext model position) = ctx_table).
Proof.
  intros H. unfold getSQLContext. cbv zeta.
  assert (Hdot : str_match false rx_dot_before
                   (text_before_cursor model position) = None).
  { rewrite H.
    change (X ++ lit "SELECT ") with (X ++ lit "SELEC" ++ 84%N :: [c_space]).
    rewrite app_assoc.
    apply dot_before_none; [reflexivity | discriminate | repeat constructor]. }
  rewrite Hdot.
  destruct (@current_statement_line model position (lit "SELECT ") X H)
    as (Z & ->).
  { vm_compute. intuition discriminate. }
  assert (Ht : trim_trailing (Z ++ lit "SELECT ") = Z ++ lit "SELECT").
  { change (Z ++ lit "SELECT ") with (Z ++ lit "SELEC" ++ 84%N :: [c_space]).
    rewrite app_assoc, trim_trailing_spec;
      [now rewrite <- app_assoc | reflexivity | repeat constructor]. }
  rewrite Ht, <- app_assoc.
  change (lit "SELECT" ++ [c_space]) with (lit "SELECT ").
  assert (Hn : test true tableKeywords (Z ++ lit "SELECT ") = false).
  { change (Z ++ lit "SELECT ") with (Z ++ lit "SELEC" ++ 84%N :: [c_space]).
    rewrite app_assoc.
    apply table_keyword_none; [reflexivity | reflexivity | repeat constructor]. }
  rewrite Hn, column_keyword_select. split; intros Hw; rewrite Hw; auto.
Qed.

Lemma in_class_plain rs c : in_class false rs c = in_ranges rs c.
Proof. unfold in_class. apply orb_false_r. Qed.

Lemma substring_middle (X m rest : str) :
  substring (X ++ m ++ rest) (length X) (length X + length m) = m.
Proof.
  unfold substring.
  rewrite Nat.min_l, Nat.max_r by lia.
  replace (length X + length m - length X) with (length m) by lia.
  rewrite skipn_app, skipn_all, Nat.sub_diag. cbn [skipn app].
  rewrite firstn_app, firstn_all, Nat.sub_diag. cbn [firstn].
  apply app_nil_r.
Qed.

Lemma last_default (c : char) : forall l d d',
  last (c :: l) d = last (c :: l) d'.
Proof.
  intros l. revert c. induction l as [ | x l IH]; intros c d d'; [reflexivity | ].
  change (last (c :: x :: l) d) with (last (x :: l) d).
  change (last (c :: x :: l) d') with (last (x :: l) d'). apply IH.
Qed.

Lemma last_app_cons (c : char) l2 : forall l1 d d',
  last (l1 ++ c :: l2) d = last (c :: l2) d'.
Proof.
  induction l1 as [ | x l1 IH]; intros d d'; [apply last_default | ].
  simpl app. destruct (l1 ++ c :: l2) eqn:E; [destruct l1; discriminate | ].
  change (last (x :: c0 :: l) d) with (last (c0 :: l) d). apply IH.
Qed.

(** The match of the pattern for an identifier and a dot, at the start of
    the identifier. *)
Lemma dot_before_match b ident ws :
  ident <> [] ->
  Forall (fun c => in_ranges cls_id c = true) ident ->
  Forall (fun c => is_space c = true) ws ->
  match_at false rx_dot_before b (ident ++ [c_dot] ++ ws)
  = Some (MState (rev ws ++ c_dot :: rev ident ++ b) []
            [(1, (length b, length (rev ident ++ b)))]).
Proof.
  intros Hn Hi Hw. destruct ident as [ | i0 ident]; [congruence | ].
  inversion Hi as [ | i0' ident' Hi0 Hid]; subst.
  unfold match_at.
  cbv [rx_dot_before RCat rx_idchars RPlus rx_sp_star RSp].
  rewrite rmatch_seq, rmatch_grp, rmatch_seq. cbn [app].
  rewrite rmatch_set. cbn [xorb]. rewrite in_class_plain, Hi0.
  apply rmatch_star_class.
  - eapply Forall_impl; [ | exact Hid]. intros c Hc. simpl.
    now rewrite in_class_plain.
  - reflexivity.
  - cbn [before]. unfold set_cap. cbn [before after caps].
    rewrite rmatch_seq. cbn [app]. rewrite rmatch_chr.
    replace (chr_eq false c_dot c_dot) with true by reflexivity.
    rewrite rmatch_seq.
    rewrite <- (app_nil_r ws) at 1.
    apply rmatch_star_class.
    + eapply Forall_impl; [ | exact Hw]. intros c Hc. simpl.
      now rewrite in_class_space.
    + exact I.
    + cbn [rmatch after].
      replace (rev (i0 :: ident) ++ b) with (rev ident ++ i0 :: b)
        by (simpl; now rewrite <- app_assoc).
      reflexivity.
Qed.

(** Before the identifier the pattern has no match, when the character
    before the identifier cannot be part of one. *)
Lemma dot_before_none_at b p2 c ident ws :
  in_ranges cls_id (last (c :: p2) c) = false ->
  Forall (fun x => is_space x = true) ws ->
  match_at false rx_dot_before b (c :: p2 ++ ident ++ [c_dot] ++ ws) = None.
Proof.
  intros Hl Hw.
  destruct (match_at false rx_dot_before b (c :: p2 ++ ident ++ [c_dot] ++ ws))
    as [st | ] eqn:E; [exfalso | reflexivity].
  apply match_at_sound in E. destruct E as (w & a' & Ea & R & _).
  cbv [rx_dot_before RCat rx_idchars RPlus rx_sp_star RSp] in R.
  inv_rm. exact_chars.
  match goal with
  | H : rm _ (RStar _ (RSet false cls_space)) _ _ _ |- _ =>
      apply rm_star_space in H; rename H into Hsp
  end.
  match goal with
  | H : rm _ (RStar _ (RSet false cls_id)) _ _ _ |- _ =>
      apply rm_star_class in H; rename H into Hid
  end.
  match goal with
  | H : xorb false (in_class false cls_id ?x) = true |- _ =>
      simpl in H; rewrite in_class_plain in H; rename H into Hx
  end.
  rewrite !app_nil_r in Ea.
  match type of Ea with
  | _ = (?u ++ [c_dot] ++ ?v) =>
      replace (c :: p2 ++ ident ++ [c_dot] ++ ws)
        with (((c :: p2) ++ ident) ++ c_dot :: ws) in Ea
        by (now rewrite <- !app_assoc);
      change (u ++ [c_dot] ++ v) with (u ++ c_dot :: v) in Ea
  end.
  apply last_nonspace_unique in Ea; auto.
  destruct Ea as (Ea & _ & _).
  assert (Hall : Forall (fun x => in_ranges cls_id x = true)
                   ((c :: p2) ++ ident)).
  { rewrite Ea. constructor; auto.
    eapply Forall_impl; [ | exact Hid]. intros y Hy. simpl in Hy.
    now rewrite in_class_plain in Hy. }
  apply Forall_app in Hall. destruct Hall as [Hall _].
  rewrite Forall_forall in Hall.
  assert (Hin : In (last (c :: p2) c) (c :: p2)).
  { destruct (exists_last (l := c :: p2)) as (l' & y & Ey); [discriminate | ].
    rewrite Ey, last_last. apply in_or_app. right. now left. }
  apply Hall in Hin. congruence.
Qed.

(** The cursor after an identifier and a dot: a column of what the
    identifier names is expected. *)
Lemma context_after_dot model position X ident ws :
  text_before_cursor model position = X ++ ident ++ [c_dot] ++ ws ->
  ident <> [] ->
  Forall (fun c => in_ranges cls_id c = true) ident ->
  match X with
  | [] => True
  | c :: _ => in_ranges cls_id (last X c) = false
  end ->
  Forall (fun c => is_space c = true) ws ->
  context (getSQLContext model position) = ctx_column /\
  tableAlias (getSQLContext model position) = Some (toUpperCase ident).
Proof.
  intros H Hn Hi Hx Hw. unfold getSQLContext. cbv zeta.
  assert (Hm : str_match false rx_dot_before
                 (text_before_cursor model position)
               = Some (mk_match (X ++ ident ++ [c_dot] ++ ws) (length X)
                         (MState (rev ws ++ c_dot :: rev ident ++ rev X) []
                            [(1, (length (rev X),
                                  length (rev ident ++ rev X)))]))).
  { rewrite H. unfold str_match.
    rewrite (@search_at false rx_dot_before X [] (ident ++ [c_dot] ++ ws)
               (MState (rev ws ++ c_dot :: rev ident ++ rev X) []
                  [(1, (length (rev X), length (rev ident ++ rev X)))])).
    - reflexivity.
    - intros p1 c p2 E. apply dot_before_none_at; auto.
      destruct X as [ | x0 X']; [destruct p1; discriminate | ].
      rewrite E in Hx.
      now rewrite (last_app_cons c p2 p1 x0 c) in Hx.
    - rewrite app_nil_r. now apply dot_before_match. }
  rewrite Hm.
  assert (Hg : group_or_empty
                 (mk_match (X ++ ident ++ [c_dot] ++ ws) (length X)
                    (MState (rev ws ++ c_dot :: rev ident ++ rev X) []
                       [(1, (length (rev X), length (rev ident ++ rev X)))]))
                 1 = ident).
  { unfold group_or_empty, group, mk_match. cbn [m_groups caps map fst snd].
    cbn [Nat.eqb]. rewrite length_app, !length_rev.
    rewrite (Nat.add_comm (length ident)). apply substring_middle. }
  rewrite Hg. split; reflexivity.
Qed.

(** C9, as the claim has it, fails.  After [INSERT INTO SELECT ] the cursor
    is right after [SELECT] and a space and the statement has no [FROM], but
    the context is a table, not a column; and after [SELECT e.] the alias is
    [E], not the identifier as it was typed. *)
Lemma getSQLContext_select_after_into :
  let model := [lit "INSERT INTO SELECT "] in
  let position := Monaco.mkPosition 1 20 in
  text_before_cursor model position = lit "INSERT INTO " ++ lit "SELECT " /\
  test true (rx_word "FROM")
    (current_statement (Monaco.getValueUntil model position)) = false /\
  context (getSQLContext model position) = ctx_table /\
  context (getSQLContext model position) <> ctx_column /\
  tableAlias (getSQLContext [lit "SELECT e."] (Monaco.mkPosition 1 10))
  <> Some (lit "e").
Proof.
  intros model position.
  split; [reflexivity | ]. split; [reflexivity | ].
  split; [vm_compute; reflexivity | ].
  split; vm_compute; discriminate.
Qed.

(** *** The keyword WITH *)

Lemma in_ranges_cases rs x :
  in_ranges rs x = true ->
  Exists (fun r => (fst r <= x <= snd r)%N) rs.
Proof.
  unfold in_ranges. intros H. apply existsb_exists in H.
  destruct H as (r & Hin & Hr). apply Exists_exists. exists r.
  split; [exact Hin | ]. apply andb_prop in Hr. destruct Hr as [H1 H2].
  apply N.leb_le in H1. apply N.leb_le in H2. lia.
Qed.

Lemma keyword_in_app w : forall p b rest,
  keyword_in w (rev p ++ b) rest = true -> keyword_in w b (p ++ rest) = true.
Proof.
  induction p as [ | c p IH]; intros b rest H; [exact H | ].
  cbn [app keyword_in]. rewrite IH; [apply orb_true_r | ].
  cbn [rev] in H. now rewrite <- app_assoc in H.
Qed.

Lemma keyword_in_here w b s :
  word_at b = false -> starts_with_ci w s = true ->
  word_at (skipn (length w) s) = false ->
  keyword_in w b s = true.
Proof.
  intros Hb Hs Ha. destruct s; cbn [keyword_in]; now rewrite Hb, Hs, Ha.
Qed.

Lemma space_not_word x : is_space x = true -> in_ranges cls_word x = false.
Proof.
  intros H. destruct (in_ranges cls_word x) eqn:E; [ | reflexivity].
  apply in_ranges_cases in E. unfold cls_word in E.
  repeat match goal with
         | Hx : Exists _ (_ :: _) |- _ => inversion Hx; subst; clear Hx
         | Hx : Exists _ [] |- _ => inversion Hx
         end; cbn [fst snd] in *;
    rewrite not_space_between in H by lia; discriminate.
Qed.

(** A match of [/\bWITH\s+/i] is at an occurrence of the word WITH. *)
Lemma rx_with_keyword b w a :
  rm true rx_with b w a -> keyword_in (lit "WITH") b (w ++ a) = true.
Proof.
  intros H. pose proof (rx_with_starts H) as Hs.
  vm_compute in H. inv_rm.
  repeat match goal with
         | H : chr_eq true _ _ = true |- _ =>
             apply chr_eq_upper in H; [ | reflexivity]
         end.
  apply keyword_in_here; [ | exact Hs | ].
  - match goal with
    | Hx : xorb (word_at ?b) (word_at ?t) = true |- _ =>
        assert (Hw : word_at t = true); [ | rewrite Hw in Hx;
          now destruct (word_at b)]
    end.
    cbn [app word_at].
    match goal with
    | Hx : upper_char ?x = _ |- in_ranges cls_word ?x = true =>
        revert Hx; unfold upper_char, is_lower, in_ranges, cls_word;
        cbn [existsb fst snd];
        destruct (N.leb_spec 97 x), (N.leb_spec x 122), (N.leb_spec 48 x),
          (N.leb_spec x 57), (N.leb_spec 65 x), (N.leb_spec x 90),
          (N.leb_spec 95 x), (N.leb_spec x 95); cbn; intros; try reflexivity;
          lia
    end.
  - cbn [app length lit skipn]. cbn.
    match goal with
    | Hx : xorb false (in_class true _ ?x) = true |- _ =>
        change (in_class true cls_space x = true) in Hx;
        rewrite in_class_space in Hx; now apply space_not_word
    end.
Qed.

Lemma parseCTEs_without_keyword text :
  has_keyword (lit "WITH") text = false -> parseCTEs text = [].
Proof.
  intros H. unfold parseCTEs, str_match.
  destruct (search true rx_with [] text) as [[i st] | ] eqn:E; auto.
  apply search_sound in E. destruct E as (p & w & a' & Ea & _ & R & _).
  apply rx_with_keyword in R.
  apply keyword_in_app in R. unfold has_keyword in H.
  rewrite Ea, R in H. discriminate.
Qed.

(** C2.  [parseCTEs] on [WITH A AS (SELECT X, Y FROM T)] returns one CTE,
    named A, with the columns X and Y in this order and the source table T;
    and it returns the empty list for every text without the keyword WITH:
    a text in which WITH, in any letter case, occurs only inside longer
    words, if at all. *)
Theorem parseCTEs_with_clause :
  parseCTEs (lit "WITH A AS (SELECT X, Y FROM T)")
  = [mkCTE (lit "A")
       [mkCTEColumn (lit "X") None None (Some (lit "X"));
        mkCTEColumn (lit "Y") None None (Some (lit "Y"))]
       5 30 11 29 [lit "T"]]
  /\
  forall text, has_keyword (lit "WITH") text = false -> parseCTEs text = [].
Proof.
  split; [vm_compute; reflexivity | apply parseCTEs_without_keyword].
Qed.

Lemma parseCTEs_with_clause_witness :
  (has_keyword (lit "WITH") (lit "SELECT X, Y FROM T") = false /\
   parseCTEs (lit "SELECT X, Y FROM T") = []) /\
  (has_keyword (lit "WITH") (lit "WITHOUT A AS (SELECT 1 FROM T)") = false /\
   parseCTEs (lit "WITHOUT A AS (SELECT 1 FROM T)") = []).
Proof.
  split; (split; [reflexivity | apply (proj2 parseCTEs_with_clause);
                                reflexivity]).
Defined.

(** ** The completion context, from the text before the cursor *)

Lemma upper_char_idem c : upper_char (upper_char c) = upper_char c.
Proof.
  unfold upper_char. destruct (is_lower c) eqn:L; [ | now rewrite L].
  assert (E : is_lower (c - 32)%N = false).
  { unfold is_lower in *. apply andb_prop in L. destruct L as [L1 L2].
    apply N.leb_le in L1. apply N.leb_le in L2.
    replace (N.leb 97 (c - 32)%N) with false
      by (symmetry; apply N.leb_gt; lia).
    reflexivity. }
  now rewrite E.
Qed.

(** *** The word before the cursor *)

Lemma last_word_match b w0 W S :
  is_space w0 = false ->
  Forall (fun c => is_space c = false) W ->
  Forall (fun c => is_space c = true) S ->
  match_at false rx_last_word b (w0 :: W ++ S)
  = Some (MState (rev S ++ rev (w0 :: W) ++ b) []
            [(1, (length b, length (rev (w0 :: W) ++ b)))]).
Proof.
  intros H0 HW HS. unfold match_at.
  cbv [rx_last_word RCat RPlus rx_sp_star RSp RNsp].
  rewrite rmatch_seq, rmatch_grp, rmatch_seq.
  rewrite rmatch_set. cbn [xorb]. rewrite in_class_space, H0. cbn [negb].
  apply rmatch_star_class.
  - eapply Forall_impl; [ | exact HW]. intros c Hc. cbn [xorb].
    now rewrite in_class_space, Hc.
  - destruct S as [ | s0 S]; [exact I | ]. inversion HS; subst.
    cbn [xorb]. rewrite in_class_space.
    match goal with Hx : is_space s0 = true |- _ => now rewrite Hx end.
  - cbn [before]. unfold set_cap. cbn [before after caps].
    rewrite rmatch_seq. rewrite <- (app_nil_r S) at 1.
    apply rmatch_star_class.
    + eapply Forall_impl; [ | exact HS]. intros c Hc. simpl.
      now rewrite in_class_space.
    + exact I.
    + cbn [rmatch after].
      replace (rev (w0 :: W) ++ b) with (rev W ++ w0 :: b)
        by (simpl; now rewrite <- app_assoc).
      reflexivity.
Qed.

Lemma nonspace_snoc : forall (x : char) (u : str),
  is_space x = false -> Forall (fun c => is_space c = false) u ->
  exists u' d, x :: u = u' ++ [d] /\ is_space d = false /\
               Forall (fun c => is_space c = false) u'.
Proof.
  intros x u Hx Hu.
  destruct (@exists_last _ (x :: u)) as (u' & d & E); [discriminate | ].
  exists u', d. split; [exact E | ].
  assert (Hall : Forall (fun c => is_space c = false) (u' ++ [d])).
  { rewrite <- E. now constructor. }
  apply Forall_app in Hall. destruct Hall as [H1 H2].
  inversion H2; subst. auto.
Qed.

(** Before a blank the pattern for the last word has no match, when a
    word follows the blank. *)
Lemma last_word_none_at b c p2 w0 W S :
  is_space (last (c :: p2) c) = true ->
  is_space w0 = false ->
  Forall (fun x => is_space x = false) W ->
  Forall (fun x => is_space x = true) S ->
  match_at false rx_last_word b (c :: p2 ++ w0 :: W ++ S) = None.
Proof.
  intros Hl H0 HW HS.
  destruct (match_at false rx_last_word b (c :: p2 ++ w0 :: W ++ S))
    as [st | ] eqn:E; [exfalso | reflexivity].
  apply match_at_sound in E. destruct E as (w & a' & Ea & R & _).
  cbv [rx_last_word RCat RPlus rx_sp_star RSp RNsp] in R.
  inv_rm.
  match goal with
  | H : rm _ (RStar _ (RSet false cls_space)) _ _ _ |- _ =>
      apply rm_star_space in H; rename H into Hsp
  end.
  match goal with
  | H : rm _ (RStar _ (RSet true cls_space)) _ _ _ |- _ =>
      apply rm_star_class in H; rename H into Hns
  end.
  match goal with
  | H : xorb true (in_class false cls_space ?x) = true |- _ =>
      cbn [xorb] in H; rewrite in_class_space in H;
      apply negb_true_iff in H; rename H into Hx
  end.
  match type of Hns with
  | Forall _ ?u => rename u into run
  end.
  match type of Hsp with
  | Forall _ ?u => rename u into blanks
  end.
  assert (Hns' : Forall (fun c => is_space c = false) run).
  { eapply Forall_impl; [ | exact Hns]. intros y Hy. cbn [xorb] in Hy.
    rewrite in_class_space in Hy. now apply negb_true_iff in Hy. }
  destruct (@nonspace_snoc x run Hx Hns') as (u' & d & Eu & Hd & Hu').
  destruct (@nonspace_snoc w0 W H0 HW) as (W' & e & EW & He & HW').
  rewrite !app_nil_r in Ea. cbn [app] in Ea.
  assert (E1 : ((c :: p2) ++ W') ++ e :: S = u' ++ d :: blanks).
  { transitivity (c :: p2 ++ w0 :: W ++ S).
    - rewrite <- app_assoc. cbn [app]. do 2 f_equal.
      change (w0 :: W ++ S) with ((w0 :: W) ++ S). rewrite EW.
      now rewrite <- app_assoc.
    - rewrite Ea. change (x :: run ++ blanks) with ((x :: run) ++ blanks).
      rewrite Eu. now rewrite <- app_assoc. }
  apply last_nonspace_unique in E1; auto.
  destruct E1 as (E1 & _ & _).
  assert (Hin : In (last (c :: p2) c) u').
  { rewrite <- E1. apply in_or_app. left.
    destruct (@exists_last _ (c :: p2)) as (l' & y & Ey); [discriminate | ].
    rewrite Ey, last_last. apply in_or_app. right. now left. }
  rewrite Forall_forall in Hu'. apply Hu' in Hin. congruence.
Qed.

(** The text before the last word of a text that ends with a word and
    blanks. *)
Lemma text_before_word_spec (B : str) w0 (W S : str) :
  match B with
  | [] => True
  | c :: _ => is_space (last B c) = true
  end ->
  is_space w0 = false ->
  Forall (fun c => is_space c = false) W ->
  Forall (fun c => is_space c = true) S ->
  text_before_word (B ++ w0 :: W ++ S) = B.
Proof.
  intros HB H0 HW HS. unfold text_before_word, str_match.
  rewrite (@search_at false rx_last_word B [] (w0 :: W ++ S)
             (MState (rev S ++ rev (w0 :: W) ++ rev B ++ []) []
                [(1, (length (rev B ++ []),
                      length (rev (w0 :: W) ++ rev B ++ [])))])).
  - unfold mk_match. cbn [m_text before length Nat.add].
    rewrite substring_0.
    assert (El : length (B ++ w0 :: W ++ S)
                 - length (substring (B ++ w0 :: W ++ S) (length B)
                             (length (rev S ++ rev (w0 :: W) ++ rev B ++ [])))
                 = length B).
    { unfold substring. rewrite length_firstn, length_skipn.
      rewrite !length_app, !length_rev. simpl. rewrite !length_app.
      simpl. lia. }
    rewrite El, firstn_app, firstn_all, Nat.sub_diag. cbn [firstn].
    apply app_nil_r.
  - intros p1 c p2 E. rewrite app_nil_r. apply last_word_none_at; auto.
    destruct B as [ | b0 B']; [destruct p1; discriminate | ].
    rewrite E in HB. now rewrite (last_app_cons c p2 p1 b0 c) in HB.
  - now apply last_word_match.
Qed.

(** *** White space at the end, by the pattern and by hand *)

Lemma last_nonspace_split : forall B : str,
  Forall (fun c => is_space c = true) B \/
  exists X c ws, B = X ++ c :: ws /\ is_space c = false /\
                 Forall (fun x => is_space x = true) ws.
Proof.
  induction B as [ | b B IH]; [left; constructor | ].
  destruct IH as [Hall | (X & c & ws & -> & Hc & Hws)].
  - destruct (is_space b) eqn:Eb.
    + left. now constructor.
    + right. exists [], b, B. auto.
  - right. exists (b :: X), c, ws. auto.
Qed.

Lemma trim_start_all_space : forall ws,
  Forall (fun c => is_space c = true) ws -> trim_start ws = [].
Proof.
  induction ws as [ | c ws IH]; intros H; [reflexivity | ].
  inversion H; subst. simpl.
  match goal with Hx : is_space c = true |- _ => rewrite Hx end. auto.
Qed.

Lemma trim_trailing_all_space ws :
  Forall (fun c => is_space c = true) ws -> trim_trailing ws = [].
Proof.
  intros H. unfold trim_trailing, replace_first, str_match.
  destruct ws as [ | s0 ws]; [reflexivity | ].
  rewrite <- (app_nil_l (s0 :: ws)) at 1.
  rewrite (@search_at false rx_trailing_space [] [] (s0 :: ws)
             (MState (rev (s0 :: ws) ++ []) [] [])).
  - unfold mk_match. cbn [m_index m_end before firstn app].
    rewrite app_nil_r, length_rev. now rewrite skipn_all.
  - intros p1 c p2 E. destruct p1; discriminate.
  - apply trailing_space_match; [discriminate | exact H].
Qed.

Lemma trim_trailing_trim_end (B : str) : trim_trailing B = trim_end B.
Proof.
  destruct (last_nonspace_split B) as [Hall | (X & c & ws & -> & Hc & Hws)].
  - rewrite trim_trailing_all_space by exact Hall.
    unfold trim_end. rewrite trim_start_all_space; [reflexivity | ].
    now apply Forall_rev.
  - rewrite trim_trailing_spec, trim_end_spaces; auto.
Qed.

Lemma trim_end_shape (B : str) :
  trim_end B = [] \/
  exists X c, trim_end B = X ++ [c] /\ is_space c = false.
Proof.
  destruct (last_nonspace_split B) as [Hall | (X & c & ws & -> & Hc & Hws)].
  - left. unfold trim_end. rewrite trim_start_all_space; [reflexivity | ].
    now apply Forall_rev.
  - right. exists X, c. rewrite trim_end_spaces; auto.
Qed.

(** *** The table keywords at the end of a text *)

Lemma starts_with_ci_map : forall (s r : str),
  starts_with_ci (map upper_char s) (s ++ r) = true.
Proof.
  induction s as [ | c s IH]; intros r; [reflexivity | ].
  cbn [map app starts_with_ci].
  now rewrite upper_char_idem, N.eqb_refl, IH.
Qed.

Lemma starts_with_ci_split : forall (p s : str),
  starts_with_ci p s = true ->
  exists s1 s2, s = s1 ++ s2 /\ map upper_char s1 = map upper_char p.
Proof.
  induction p as [ | x p IH]; intros s H; [now exists [], s | ].
  destruct s as [ | y s]; [discriminate | ].
  cbn [starts_with_ci] in H. apply andb_prop in H. destruct H as [H1 H2].
  apply N.eqb_eq in H1. destruct (IH s H2) as (s1 & s2 & -> & E).
  exists (y :: s1), s2. split; [reflexivity | ].
  cbn [map]. now rewrite H1, E.
Qed.

Lemma ends_with_ci_app (kw p : str) :
  ends_with_ci (toUpperCase kw) (p ++ kw) = true.
Proof.
  unfold ends_with_ci, toUpperCase.
  rewrite rev_app_distr, <- map_rev. apply starts_with_ci_map.
Qed.

Lemma ends_with_ci_split (k q : str) :
  ends_with_ci k q = true ->
  exists z kw, q = z ++ kw /\ map upper_char kw = map upper_char k.
Proof.
  unfold ends_with_ci. intros H.
  apply starts_with_ci_split in H. destruct H as (s1 & s2 & E & Hm).
  exists (rev s2), (rev s1). split.
  - rewrite <- rev_app_distr, <- E. now rewrite rev_involutive.
  - rewrite !map_rev, Hm. now rewrite <- map_rev, rev_involutive.
Qed.

Lemma upper_char_inv (x k : char) :
  is_upper k = true -> upper_char x = k -> x = k \/ x = (k + 32)%N.
Proof.
  unfold upper_char, is_upper, is_lower. intros Hk.
  apply andb_prop in Hk. destruct Hk as [H1 H2].
  apply N.leb_le in H1. apply N.leb_le in H2.
  destruct (N.leb_spec 97 x), (N.leb_spec x 122); cbn [andb]; intros E;
    [right | left | left | left]; lia.
Qed.

(** What a match of [tableKeywords] consumes: one of its words, in any
    letter case, and the blanks at the end of the text. *)
Lemma rm_table_keywords b w a :
  rm true tableKeywords b w a ->
  a = [] /\
  exists kw x ws,
    w = (kw ++ [x]) ++ ws /\ Forall (fun c => is_space c = true) ws /\
    is_space x = false /\ In (toUpperCase (kw ++ [x])) table_keywords.
Proof.
  intros R. cbv [tableKeywords RCat rx_kw ROr map rx_sp_star RSp] in R.
  inversion R as [ | | | r1 r2 b0 w1 w2 a0 R1 R2 | | | | | | | | | | | ]; subst.
  inversion R2 as [ | | | r1 r2 b0 w3 w4 a0 R3 R4 | | | | | | | | | | | ]; subst.
  inversion R4; subst. apply rm_star_space in R3.
  split; [reflexivity | ]. clear R2 R4 R.
  repeat match goal with
         | H : rm _ (RAlt _ _) _ _ _ |- _ => inversion H; subst; clear H
         end;
    match goal with
    | H : rm _ (RLit _) _ _ _ |- _ => vm_compute in H; inv_rm
    end;
    repeat match goal with
           | H : chr_eq true ?y _ = true |- _ =>
               assert (is_space y = false)
                 by (eapply chr_eq_not_space; [ | exact H]; reflexivity);
               apply chr_eq_upper in H; [ | reflexivity]
           end;
    match goal with
    | |- exists kw x ws, (?l ++ [?y]) ++ ?v ++ [] = _ /\ _ =>
        exists l, y, v
    | |- exists kw x ws, ([?y1] ++ [?y2] ++ [?y3] ++ [?y4]) ++ ?v ++ [] = _ /\ _ =>
        exists [y1; y2; y3], y4, v
    | |- exists kw x ws, ([?y1] ++ [?y2] ++ [?y3] ++ [?y4] ++ [?y5]) ++ ?v ++ [] = _ /\ _ =>
        exists [y1; y2; y3; y4], y5, v
    | |- exists kw x ws, ([?y1] ++ [?y2] ++ [?y3] ++ [?y4] ++ [?y5] ++ [?y6]) ++ ?v ++ [] = _ /\ _ =>
        exists [y1; y2; y3; y4; y5], y6, v
    | |- exists kw x ws, ([?y1] ++ [?y2] ++ [?y3] ++ [?y4] ++ [?y5] ++ [?y6] ++ [?y7] ++ [?y8]) ++ ?v ++ [] = _ /\ _ =>
        exists [y1; y2; y3; y4; y5; y6; y7], y8, v
    end;
    (split; [now rewrite app_nil_r | ]);
    (split; [assumption | ]);
    (split; [assumption | ]);
    unfold toUpperCase; cbn [map app];
    repeat match goal with Hu : upper_char _ = _ |- _ => rewrite Hu; clear Hu end;
    vm_compute; tauto.
Qed.

Lemma table_keyword_test_sound (Q : str) :
  Q = [] \/ (exists X c, Q = X ++ [c] /\ is_space c = false) ->
  test true tableKeywords (Q ++ [c_space]) = true ->
  ends_with_table_keyword Q = true.
Proof.
  intros HQ H. unfold test in H.
  destruct (search true tableKeywords [] (Q ++ [c_space])) as [[i st] | ] eqn:E;
    [ | discriminate].
  apply search_sound in E. destruct E as (p & w & a' & Ea & _ & R & _).
  apply rm_table_keywords in R.
  destruct R as (-> & kw & x & ws & -> & Hws & Hx & Hin).
  rewrite app_nil_r in Ea.
  assert (Eq : Q = p ++ kw ++ [x]).
  { destruct HQ as [-> | (X & c & -> & Hc)].
    - exfalso. cbn [app] in Ea.
      assert (Hall : Forall (fun y => is_space y = true)
                       ((p ++ kw) ++ x :: ws)).
      { rewrite <- !app_assoc. cbn [app].
        rewrite <- !app_assoc in Ea. cbn [app] in Ea. rewrite <- Ea.
        repeat constructor. }
      now apply all_space_no_last in Hall.
    - assert (E1 : X ++ c :: [c_space] = (p ++ kw) ++ x :: ws).
      { rewrite <- !app_assoc in *. cbn [app] in *. exact Ea. }
      apply last_nonspace_unique in E1; auto; try (repeat constructor).
      destruct E1 as (-> & -> & _). now rewrite <- app_assoc. }
  unfold ends_with_table_keyword. apply existsb_exists.
  exists (toUpperCase (kw ++ [x])). split; [exact Hin | ].
  rewrite Eq. apply ends_with_ci_app.
Qed.

Lemma chr_eq_of_upper x c :
  is_upper c = true -> upper_char x = c -> chr_eq true x c = true.
Proof.
  intros Hc Hx. destruct (upper_char_inv x Hc Hx) as [-> | ->].
  - unfold chr_eq. now rewrite N.eqb_refl.
  - unfold chr_eq, swapcase, is_upper, is_lower in *.
    apply andb_prop in Hc. destruct Hc as [H1 H2].
    apply N.leb_le in H1. apply N.leb_le in H2.
    replace (N.leb 65 (c + 32)) with true by (symmetry; apply N.leb_le; lia).
    replace (N.leb (c + 32) 90) with false
      by (symmetry; apply N.leb_gt; lia).
    replace (N.leb 97 (c + 32)) with true by (symmetry; apply N.leb_le; lia).
    replace (N.leb (c + 32) 122) with true
      by (symmetry; apply N.leb_le; lia).
    cbn [andb]. replace (c + 32 - 32)%N with c by lia.
    rewrite N.eqb_refl. apply orb_true_r.
Qed.

Lemma Forall2_chr_eq : forall (k kw : str),
  forallb is_upper k = true -> map upper_char kw = k ->
  Forall2 (fun x c => chr_eq true x c = true) kw k.
Proof.
  induction k as [ | c k IH]; intros kw Hk Hm; destruct kw as [ | x kw];
    try discriminate; constructor.
  - cbn [forallb] in Hk. apply andb_prop in Hk. destruct Hk as [Hc _].
    injection Hm as Hx _. now apply chr_eq_of_upper.
  - cbn [forallb] in Hk. apply andb_prop in Hk. destruct Hk as [_ Hk].
    injection Hm as _ Hm. now apply IH.
Qed.

(** A word of a pattern matches the same word in any letter case. *)
Lemma rmatch_str_ci : forall (k kw : str) b rest cs cont,
  k <> [] ->
  Forall2 (fun x c => chr_eq true x c = true) kw k ->
  rmatch true (RStr k) (MState b (kw ++ rest) cs) cont
  = cont (MState (rev kw ++ b) rest cs).
Proof.
  induction k as [ | c k IH]; intros kw b rest cs cont Hn H; [congruence | ].
  inversion H as [ | x c' kw' k' Hx Hrest]; subst.
  destruct k as [ | c2 k].
  - inversion Hrest; subst.
    change (RStr [c]) with (RChr c). cbn [app].
    rewrite rmatch_chr, Hx. reflexivity.
  - change (RStr (c :: c2 :: k)) with (RSeq (RChr c) (RStr (c2 :: k))).
    rewrite rmatch_seq. cbn [app]. rewrite rmatch_chr, Hx.
    rewrite IH; [ | discriminate | exact Hrest].
    cbn [rev]. now rewrite <- app_assoc.
Qed.

Lemma orelse_ex_l {A : Type} (x y : option A) :
  (exists v, x = Some v) -> exists v, orelse x y = Some v.
Proof. intros (v & ->). now exists v. Qed.

Lemma orelse_ex_r {A : Type} (x y : option A) :
  (exists v, y = Some v) -> exists v, orelse x y = Some v.
Proof. intros (v & ->). destruct x as [u | ]; simpl; eauto. Qed.

Lemma test_true_ex ic r (Z s : str) :
  (exists st, match_at ic r (rev Z) s = Some st) ->
  test ic r (Z ++ s) = true.
Proof. intros (st & H). eapply test_true; eauto. Qed.

Lemma rmatch_alt ic r1 r2 st k :
  rmatch ic (RAlt r1 r2) st k = orelse (rmatch ic r1 st k) (rmatch ic r2 st k).
Proof. reflexivity. Qed.

Ltac keyword_here H :=
  unfold RLit; rewrite rmatch_str_ci; [ | discriminate | exact H];
  eexists; vm_compute; reflexivity.

Ltac keyword_alt H :=
  first [ solve [keyword_here H]
        | rewrite rmatch_alt;
          first [ solve [apply orelse_ex_l; keyword_here H]
                | apply orelse_ex_r; keyword_alt H ] ].

Lemma table_keyword_test_complete (Q : str) :
  ends_with_table_keyword Q = true ->
  test true tableKeywords (Q ++ [c_space]) = true.
Proof.
  unfold ends_with_table_keyword. intros H.
  apply existsb_exists in H. destruct H as (k & Hin & Hk).
  apply ends_with_ci_split in Hk. destruct Hk as (z & kw & -> & Hm).
  rewrite <- app_assoc. apply test_true_ex. unfold match_at.
  cbv [tableKeywords RCat rx_kw ROr map]. rewrite rmatch_seq.
  unfold table_keywords in Hin. cbn [In] in Hin.
  repeat (destruct Hin as [<- | Hin]; [ | ]); try contradiction;
    match type of Hm with
    | _ = map upper_char ?k =>
        change (map upper_char k) with k in Hm
    end;
    apply Forall2_chr_eq in Hm; try reflexivity;
    keyword_alt Hm.
Qed.

Lemma table_keyword_test (Q : str) :
  Q = [] \/ (exists X c, Q = X ++ [c] /\ is_space c = false) ->
  test true tableKeywords (Q ++ [c_space]) = ends_with_table_keyword Q.
Proof.
  intros HQ.
  destruct (ends_with_table_keyword Q) eqn:E.
  - now apply table_keyword_test_complete.
  - destruct (test true tableKeywords (Q ++ [c_space])) eqn:T;
      [ | reflexivity].
    apply table_keyword_test_sound in T; [congruence | exact HQ].
Qed.

(** The cursor after [SELECT] and a space, from the text before the run
    of characters that ends with [SELECT]. *)
Lemma context_after_select_run model position (B G : str) :
  text_before_cursor model position = B ++ G ++ lit "SELECT " ->
  Forall (fun c => is_space c = false) G ->
  match B with
  | [] => True
  | c :: _ => is_space (last B c) = true
  end ->
  context (getSQLContext model position)
  = if ends_with_table_keyword (trim_end B) then ctx_table else ctx_column.
Proof.
  intros H HG HB.
  assert (Hw : text_before_word (text_before_cursor model position) = B).
  { rewrite H.
    destruct G as [ | g0 G'].
    - change ([] ++ lit "SELECT ") with (83%N :: lit "ELECT" ++ [c_space]).
      apply text_before_word_spec; auto; repeat constructor.
    - inversion HG; subst.
      replace ((g0 :: G') ++ lit "SELECT ")
        with (g0 :: (G' ++ lit "SELECT") ++ [c_space])
        by (cbn [app]; now rewrite <- app_assoc).
      apply text_before_word_spec; auto;
        try (apply Forall_app; split; [assumption | ]);
        repeat constructor. }
  assert (Ht : test true tableKeywords
                 (trim_trailing
                    (text_before_word (text_before_cursor model position))
                  ++ [c_space])
               = ends_with_table_keyword (trim_end B)).
  { rewrite Hw, trim_trailing_trim_end. apply table_keyword_test.
    destruct (trim_end_shape B) as [E | (X & c & E & Hc)]; [now left | ].
    right. now exists X, c. }
  rewrite app_assoc in H.
  destruct (context_after_select model position (B ++ G) H) as [H1 H2].
  rewrite Ht in H1, H2.
  destruct (ends_with_table_keyword (trim_end B)).
  - now apply H2.
  - now apply H1.
Qed.

(** C9, as the code has it.  The cursor after [FROM] and a space: a table.
    The cursor after [SELECT] and a space: the run of characters without
    a blank that ends with this [SELECT] is set aside, and the blanks
    before it; when what is left of the line ends with one of FROM, JOIN,
    INTO, UPDATE, TABLE and TRUNCATE, in any letter case, a table, and a
    column otherwise.  The cursor after an identifier, a dot and white
    space: a column, with the identifier in upper case for [tableAlias]. *)
Theorem getSQLContext_classification model position :
  (forall X,
     text_before_cursor model position = X ++ lit "FROM " ->
     context (getSQLContext model position) = ctx_table)
  /\
  (forall B G : str,
     text_before_cursor model position = B ++ G ++ lit "SELECT " ->
     Forall (fun c => is_space c = false) G ->
     match B with
     | [] => True
     | c :: _ => is_space (last B c) = true
     end ->
     context (getSQLContext model position)
     = if ends_with_table_keyword (trim_end B) then ctx_table
       else ctx_column)
  /\
  (forall X ident ws,
     text_before_cursor model position = X ++ ident ++ [c_dot] ++ ws ->
     ident <> [] ->
     Forall (fun c => in_ranges cls_id c = true) ident ->
     match X with
     | [] => True
     | c :: _ => in_ranges cls_id (last X c) = false
     end ->
     Forall (fun c => is_space c = true) ws ->
     context (getSQLContext model position) = ctx_column /\
     tableAlias (getSQLContext model position) = Some (toUpperCase ident)).
Proof.
  split; [ | split].
  - intros X H. eapply context_after_from; eauto.
  - intros B G. apply context_after_select_run.
  - intros X ident ws. apply context_after_dot.
Qed.

Lemma getSQLContext_classification_witness :
  context (getSQLContext [lit "SELECT * FROM "] (Monaco.mkPosition 1 15))
  = ctx_table
  /\
  context (getSQLContext [lit "SELECT "] (Monaco.mkPosition 1 8)) = ctx_column
  /\
  context (getSQLContext [lit "INSERT INTO SELECT "] (Monaco.mkPosition 1 20))
  = ctx_table
  /\
  context (getSQLContext [lit "UPDATE (SELECT "] (Monaco.mkPosition 1 16))
  = ctx_table
  /\
  context (getSQLContext [lit "WHERE X IN (SELECT "] (Monaco.mkPosition 1 20))
  = ctx_column
  /\
  tableAlias (getSQLContext [lit "SELECT e."] (Monaco.mkPosition 1 10))
  = Some (lit "E").
Proof.
  split; [ | split; [ | split; [ | split; [ | split]]]].
  - apply (proj1 (getSQLContext_classification [lit "SELECT * FROM "]
                    (Monaco.mkPosition 1 15)) (lit "SELECT * ")).
    reflexivity.
  - apply (proj1 (proj2 (getSQLContext_classification [lit "SELECT "]
                           (Monaco.mkPosition 1 8))) [] []);
      [reflexivity | constructor | exact I].
  - apply (proj1 (proj2 (getSQLContext_classification
                           [lit "INSERT INTO SELECT "]
                           (Monaco.mkPosition 1 20)))
             (lit "INSERT INTO ") []);
      [reflexivity | constructor | reflexivity].
  - apply (proj1 (proj2 (getSQLContext_classification
                           [lit "UPDATE (SELECT "]
                           (Monaco.mkPosition 1 16)))
             (lit "UPDATE ") (lit "("));
      [reflexivity | repeat constructor | reflexivity].
  - apply (proj1 (proj2 (getSQLContext_classification
                           [lit "WHERE X IN (SELECT "]
                           (Monaco.mkPosition 1 20)))
             (lit "WHERE X IN ") (lit "("));
      [reflexivity | repeat constructor | reflexivity].
  - apply (proj2 (proj2 (getSQLContext_classification
                           [lit "SELECT e."]
                           (Monaco.mkPosition 1 10)))
             (lit "SELECT ") (lit "e") []).
    + reflexivity.
    + discriminate.
    + repeat constructor.
    + reflexivity.
    + constructor.
Defined.

(** ** Positions and offsets *)

Lemma split_on_not_nil c s : split_on c s <> [].
Proof.
  destruct s as [ | x s]; simpl; [discriminate | ].
  destruct (N.eqb x c); [discriminate | ].
  destruct (split_on c s); discriminate.
Qed.

Lemma split_on_cons c x s :
  split_on c (x :: s) =
  if N.eqb x c then [] :: split_on c s
  else (x :: hd [] (split_on c s)) :: tl (split_on c s).
Proof.
  simpl. destruct (N.eqb x c); [reflexivity | ].
  destruct (split_on c s) eqn:E; [ | reflexivity].
  now apply split_on_not_nil in E.
Qed.

Lemma position_loop_clamp : forall s offset ln col,
  length s <= offset ->
  position_loop s offset ln col = position_loop s (length s) ln col.
Proof.
  induction s as [ | c s IH]; intros offset ln col H; simpl in *.
  - now destruct offset.
  - destruct offset as [ | offset]; [lia | ]. simpl.
    destruct (N.eqb c c_nl); apply IH; lia.
Qed.

(** The loop of [getPositionFromOffset] in terms of the lines of the text
    before the offset. *)
Lemma position_loop_lines : forall s offset ln col,
  position_loop s offset ln col =
  let ls := split_on c_nl (firstn offset s) in
  Position (ln + length ls - 1)
    ((if Nat.eqb (length ls) 1 then col else 1) + length (last ls [])).
Proof.
  induction s as [ | c s IH]; intros offset ln col.
  - destruct offset; simpl; f_equal; lia.
  - destruct offset as [ | offset]; [simpl; f_equal; lia | ].
    cbn [position_loop firstn]. rewrite split_on_cons.
    pose proof (@split_on_not_nil c_nl (firstn offset s)) as Hn.
    destruct (N.eqb c c_nl); rewrite IH; cbv zeta;
      destruct (split_on c_nl (firstn offset s)) as [ | l0 ls];
      try congruence; cbn [length last hd tl].
    + f_equal; [lia | ]. destruct ls as [ | l1 ls]; simpl; lia.
    + destruct ls as [ | l1 ls]; cbn [length Nat.eqb last]; f_equal;
        simpl; lia.
Qed.

(** [getPositionFromOffset] counts the lines of the text before the offset:
    the line is their number, the column is one more than the length of
    the last of them. *)
Lemma getPositionFromOffset_lines text offset :
  getPositionFromOffset text offset =
  Position (length (lines_of (firstn offset text)))
    (1 + length (last (lines_of (firstn offset text)) [])).
Proof.
  unfold getPositionFromOffset, lines_of. rewrite position_loop_lines.
  cbv zeta.
  pose proof (@split_on_not_nil c_nl (firstn offset text)) as Hn.
  destruct (split_on c_nl (firstn offset text)) as [ | l0 ls];
    [congruence | ].
  cbn [length]. destruct (Nat.eqb (S (length ls)) 1); f_equal; lia.
Qed.

Lemma split_on_app c : forall p q,
  split_on c (p ++ q) =
  removelast (split_on c p) ++
  (last (split_on c p) [] ++ hd [] (split_on c q)) :: tl (split_on c q).
Proof.
  induction p as [ | x p IH]; intros q.
  - simpl. pose proof (@split_on_not_nil c q).
    destruct (split_on c q); [congruence | reflexivity].
  - rewrite <- app_comm_cons, !split_on_cons, IH.
    pose proof (@split_on_not_nil c p) as Hn.
    destruct (split_on c p) as [ | l0 ls]; [congruence | ].
    destruct (N.eqb x c).
    + reflexivity.
    + destruct ls as [ | l1 ls]; reflexivity.
Qed.

Lemma length_removelast_S {A : Type} (l : list A) :
  l <> [] -> S (length (removelast l)) = length l.
Proof.
  intros H. rewrite removelast_length. destruct l; [congruence | ].
  cbn [length]. lia.
Qed.

Lemma inside_prefix p q :
  inside (p ++ q) (length (lines_of p)) (1 + length (last (lines_of p) [])).
Proof.
  unfold inside, lines_of. rewrite split_on_app.
  pose proof (@split_on_not_nil c_nl p) as Hn.
  pose proof (length_removelast_S Hn) as Hl.
  set (ls := split_on c_nl p) in *.
  rewrite length_app. cbn [length].
  replace (length ls - 1) with (length (removelast ls)) by lia.
  rewrite nth_middle, length_app. lia.
Qed.

(** The position [getPositionFromOffset] returns is a place of the text,
    whatever the offset. *)
Lemma getPositionFromOffset_inside text offset :
  inside text (line (getPositionFromOffset text offset))
    (column (getPositionFromOffset text offset)).
Proof.
  rewrite getPositionFromOffset_lines. cbn [line column].
  pose proof (inside_prefix (firstn offset text) (skipn offset text)) as H.
  now rewrite firstn_skipn in H.
Qed.

Lemma nth_error_split (text : str) : forall offset c,
  nth_error text offset = Some c ->
  text = firstn offset text ++ c :: skipn (S offset) text /\
  length (firstn offset text) = offset.
Proof.
  induction text as [ | x text IH]; intros [ | offset] c H; simpl in *;
    try discriminate.
  - injection H as ->. auto.
  - destruct (IH _ _ H) as [E L]. split; [now rewrite <- E | now rewrite L].
Qed.

Lemma position_of_char p c q :
  let ln := length (lines_of p) in
  let col := 1 + length (last (lines_of p) []) in
  (c <> c_nl ->
   nth_error (nth (ln - 1) (lines_of (p ++ c :: q)) []) (col - 1) = Some c)
  /\
  (c = c_nl -> col = length (nth (ln - 1) (lines_of (p ++ c :: q)) []) + 1).
Proof.
  intros ln col. unfold ln, col, lines_of. rewrite split_on_app.
  pose proof (@split_on_not_nil c_nl p) as Hn.
  pose proof (length_removelast_S Hn) as Hl.
  set (ls := split_on c_nl p) in *.
  replace (length ls - 1) with (length (removelast ls)) by lia.
  rewrite nth_middle, split_on_cons.
  replace (1 + length (last ls []) - 1) with (length (last ls []) + 0) by lia.
  split; intros Hc.
  - rewrite (neq_eqb_false Hc). cbn [hd].
    rewrite nth_error_app2 by lia.
    replace (length (last ls []) + 0 - length (last ls [])) with 0 by lia.
    reflexivity.
  - subst c. rewrite N.eqb_refl. cbn [hd]. rewrite app_nil_r. lia.
Qed.

(** X2.  The position of an offset designates the character at that offset:
    it is the character of the returned line at the returned column; for a
    line feed, the column is the one after the end of the line it closes. *)
Theorem getPositionFromOffset_char text offset c :
  nth_error text offset = Some c ->
  let p := getPositionFromOffset text offset in
  (c <> c_nl ->
   nth_error (nth (line p - 1) (lines_of text) []) (column p - 1) = Some c)
  /\
  (c = c_nl -> column p = length (nth (line p - 1) (lines_of text) []) + 1).
Proof.
  intros H. destruct (nth_error_split _ _ H) as [E L].
  rewrite getPositionFromOffset_lines. cbn [line column].
  pose proof (position_of_char (firstn offset text) c
                (skipn (S offset) text)) as Hp.
  cbv zeta in Hp. now rewrite <- E in Hp.
Qed.

Lemma getPositionFromOffset_char_witness :
  nth_error (lit "ab" ++ [c_nl] ++ lit "cd") 4 = Some 100%N /\
  nth_error (nth (2 - 1) (lines_of (lit "ab" ++ [c_nl] ++ lit "cd")) [])
    (2 - 1) = Some 100%N.
Proof.
  split; [reflexivity | ].
  apply (getPositionFromOffset_char (lit "ab" ++ [c_nl] ++ lit "cd") 4
           (c := 100%N)); [reflexivity | discriminate].
Defined.

(** X1.  [getPositionFromOffset] counts the lines of the text before the
    offset: the line is their number and the column is one more than the
    length of the last of them.  An offset past the end of the text gives
    the position of the end, and the position is always a place of the
    text. *)
Theorem getPositionFromOffset_spec text offset :
  getPositionFromOffset text offset =
  Position (length (lines_of (firstn offset text)))
    (1 + length (last (lines_of (firstn offset text)) []))
  /\
  getPositionFromOffset text (length text + offset)
  = getPositionFromOffset text (length text)
  /\
  inside text (line (getPositionFromOffset text offset))
    (column (getPositionFromOffset text offset)).
Proof.
  split; [apply getPositionFromOffset_lines | ].
  split; [ | apply getPositionFromOffset_inside].
  unfold getPositionFromOffset. apply position_loop_clamp. lia.
Qed.

(** ** Offsets in the editor's model *)

Lemma split_on_no_sep c : forall x, ~ In c x -> split_on c x = [x].
Proof.
  induction x as [ | y x IH]; intros H; [reflexivity | ].
  rewrite split_on_cons.
  destruct (N.eqb_spec y c) as [-> | _]; [exfalso; apply H; now left | ].
  rewrite IH; [reflexivity | ]. intros Hi. apply H. now right.
Qed.

Lemma split_on_join c : forall ls,
  ls <> [] -> Forall (fun l => ~ In c l) ls -> split_on c (join [c] ls) = ls.
Proof.
  induction ls as [ | x ls IH]; intros Hn Hf; [congruence | ].
  inversion Hf as [ | ? ? Hx Hls]; subst.
  destruct ls as [ | y ls]; [now apply split_on_no_sep | ].
  change (join [c] (x :: y :: ls)) with (x ++ c :: join [c] (y :: ls)).
  rewrite split_on_app, (@split_on_no_sep c x Hx), split_on_cons, N.eqb_refl.
  cbn [removelast last hd tl app]. rewrite app_nil_r, IH; auto. discriminate.
Qed.

Lemma join_snoc_app sep : forall ls x y,
  join sep (ls ++ [x ++ y]) = join sep (ls ++ [x]) ++ y.
Proof.
  induction ls as [ | l ls IH]; intros x y; [reflexivity | ].
  destruct ls as [ | l' ls].
  - simpl. now rewrite !app_assoc.
  - change (join sep ((l :: l' :: ls) ++ [x ++ y]))
      with (l ++ sep ++ join sep ((l' :: ls) ++ [x ++ y])).
    rewrite IH. change (join sep ((l :: l' :: ls) ++ [x]))
      with (l ++ sep ++ join sep ((l' :: ls) ++ [x])).
    now rewrite <- !app_assoc.
Qed.

Lemma join_split sep : forall ls x rest,
  join sep (ls ++ x :: rest) =
  join sep (ls ++ [x]) ++
  match rest with
  | [] => []
  | _ :: _ => sep ++ join sep rest
  end.
Proof.
  induction ls as [ | l ls IH]; intros x rest.
  - destruct rest; simpl; [now rewrite app_nil_r | reflexivity].
  - destruct ls as [ | l' ls].
    + specialize (IH x rest). simpl in IH. simpl. rewrite IH.
      now rewrite <- !app_assoc.
    + change (join sep ((l :: l' :: ls) ++ x :: rest))
        with (l ++ sep ++ join sep ((l' :: ls) ++ x :: rest)).
      rewrite IH. change (join sep ((l :: l' :: ls) ++ [x]))
        with (l ++ sep ++ join sep ((l' :: ls) ++ [x])).
      now rewrite <- !app_assoc.
Qed.

Lemma length_join_snoc (c : char) : forall ls x,
  length (join [c] (ls ++ [x])) = lines_length ls + length x.
Proof.
  induction ls as [ | l ls IH]; intros x; [reflexivity | ].
  destruct ls as [ | l' ls].
  - simpl. rewrite length_app. simpl. unfold lines_length. simpl. lia.
  - change (join [c] ((l :: l' :: ls) ++ [x]))
      with (l ++ [c] ++ join [c] ((l' :: ls) ++ [x])).
    rewrite !length_app, IH. unfold lines_length. simpl. lia.
Qed.

Lemma cursor_offset_loop (m : Monaco.ITextModel) : forall n start a,
  start + n <= length m ->
  fold_left
    (fun acc cteLineIdx =>
       acc + length (Monaco.getLineContent m (cteLineIdx + 1)) + 1)
    (seq start n) a
  = a + lines_length (firstn n (skipn start m)).
Proof.
  induction n as [ | n IH]; intros start a H;
    [simpl; unfold lines_length; simpl; lia | ].
  cbn [seq fold_left]. rewrite IH by lia. unfold Monaco.getLineContent.
  replace (start + 1 - 1) with start by lia.
  destruct (skipn start m) as [ | l rest] eqn:E.
  - pose proof (length_skipn start m) as Hl. rewrite E in Hl. simpl in Hl.
    lia.
  - assert (El : nth start m [] = l).
    { rewrite <- (firstn_skipn start m), E.
      assert (Hs : length (firstn start m) = start)
        by (apply firstn_length_le; lia).
      rewrite <- Hs at 1. apply nth_middle. }
    assert (Er : skipn (S start) m = rest).
    { replace (S start) with (1 + start) by lia.
      now rewrite <- skipn_skipn, E. }
    rewrite El, Er. unfold lines_length. simpl. lia.
Qed.

Lemma nth_firstn_skipn (m : list str) n :
  n < length m -> m = firstn n m ++ nth n m [] :: skipn (S n) m.
Proof.
  revert n. induction m as [ | l m IH]; intros [ | n] H; simpl in *;
    try lia; [reflexivity | ].
  f_equal. apply IH. lia.
Qed.

Lemma firstn_join_prefix (c : char) (pre : list str) (L : str)
  (post : list str) k :
  k <= length L ->
  firstn (lines_length pre + k) (join [c] (pre ++ L :: post))
  = join [c] (pre ++ [firstn k L]).
Proof.
  intros H. rewrite join_split.
  assert (E : join [c] (pre ++ [L])
              = join [c] (pre ++ [firstn k L]) ++ skipn k L)
    by (now rewrite <- join_snoc_app, firstn_skipn).
  rewrite E.
  rewrite <- app_assoc.
  assert (El : length (join [c] (pre ++ [firstn k L]))
               = lines_length pre + k)
    by (rewrite length_join_snoc, firstn_length_le; lia).
  rewrite <- El, firstn_app, Nat.sub_diag, firstn_all. simpl.
  now rewrite app_nil_r.
Qed.

(** In a document that ends its lines with a line feed, the offset of
    the cursor is the length of the text before the cursor, and
    [getPositionFromOffset] maps it back to the cursor. *)
Lemma cursor_offset_line_feed m p :
  well_formed m -> valid_position m p ->
  cursor_offset m p = length (Monaco.getValueUntil m p) /\
  firstn (cursor_offset m p) (Monaco.getValue m) = Monaco.getValueUntil m p /\
  getPositionFromOffset (Monaco.getValue m) (cursor_offset m p)
  = Position (Monaco.lineNumber p) (Monaco.column p).
Proof.
  intros Hw [[Hl1 Hl2] [Hc1 Hc2]].
  destruct p as [ln col]. cbn [Monaco.lineNumber Monaco.column] in *.
  unfold Monaco.getLineContent in Hc2.
  assert (Eo : cursor_offset m (Monaco.mkPosition ln col)
               = lines_length (firstn (ln - 1) m) + (col - 1)).
  { unfold cursor_offset. cbn [Monaco.lineNumber Monaco.column].
    rewrite cursor_offset_loop by (simpl; lia). now rewrite skipn_O. }
  set (L := nth (ln - 1) m []) in *.
  assert (Eu : Monaco.getValueUntil m (Monaco.mkPosition ln col)
               = join [c_nl] (firstn (ln - 1) m ++ [firstn (col - 1) L])).
  { reflexivity. }
  assert (El : length (Monaco.getValueUntil m (Monaco.mkPosition ln col))
               = lines_length (firstn (ln - 1) m) + (col - 1)).
  { rewrite Eu, length_join_snoc, firstn_length_le; lia. }
  assert (Ef : firstn (cursor_offset m (Monaco.mkPosition ln col))
                 (Monaco.getValue m)
               = Monaco.getValueUntil m (Monaco.mkPosition ln col)).
  { unfold Monaco.getValue. rewrite Eo, Eu.
    rewrite (@nth_firstn_skipn m (ln - 1)) at 2 by lia. fold L.
    apply firstn_join_prefix. lia. }
  split; [now rewrite Eo, El | ]. split; [exact Ef | ].
  rewrite getPositionFromOffset_lines, Ef, Eu. unfold lines_of.
  rewrite split_on_join.
  - rewrite length_app, last_last, firstn_length_le, firstn_length_le by lia.
    simpl. f_equal; lia.
  - now destruct (firstn (ln - 1) m).
  - apply Forall_app. split.
    + unfold well_formed in Hw. rewrite <- (firstn_skipn (ln - 1) m) in Hw.
      now apply Forall_app in Hw.
    + constructor; [ | constructor]. intros Hi.
      assert (Hin : In c_nl L).
      { rewrite <- (firstn_skipn (col - 1) L). apply in_or_app. now left. }
      unfold well_formed in Hw. rewrite Forall_forall in Hw.
      apply (Hw L); [ | exact Hin]. apply nth_In. lia.
Qed.

(** *** The end of line of the document *)

Lemma lines_with_eol_cons x y rest :
  lines_with_eol CRLF (x :: y :: rest)
  = (x ++ [c_cr]) :: lines_with_eol CRLF (y :: rest).
Proof. reflexivity. Qed.

Lemma join_eol eol : forall m,
  join (getEOL eol) m = join [c_nl] (lines_with_eol eol m).
Proof.
  destruct eol; intros m; [now destruct m | ].
  induction m as [ | x m IH]; [reflexivity | ].
  destruct m as [ | y m]; [reflexivity | ].
  rewrite lines_with_eol_cons.
  change (join (getEOL CRLF) (x :: y :: m))
    with (x ++ [c_cr; c_nl] ++ join (getEOL CRLF) (y :: m)).
  rewrite IH. destruct (lines_with_eol CRLF (y :: m)) eqn:E.
  - destruct m; discriminate.
  - change (join [c_nl] ((x ++ [c_cr]) :: s :: l))
      with ((x ++ [c_cr]) ++ [c_nl] ++ join [c_nl] (s :: l)).
    now rewrite <- app_assoc.
Qed.

Lemma lines_with_eol_length eol : forall m,
  length (lines_with_eol eol m) = length m.
Proof.
  destruct eol; intros m; [now destruct m | ].
  induction m as [ | x m IH]; [reflexivity | ].
  destruct m as [ | y m]; [reflexivity | ].
  rewrite lines_with_eol_cons. cbn [length]. now rewrite IH.
Qed.

Lemma lines_with_eol_well_formed eol : forall m,
  well_formed m -> well_formed (lines_with_eol eol m).
Proof.
  unfold well_formed. destruct eol; intros m; [now destruct m | ].
  induction m as [ | x m IH]; intros H; [constructor | ].
  inversion H as [ | ? ? Hx Hm]; subst.
  destruct m as [ | y m]; [now constructor | ].
  rewrite lines_with_eol_cons. constructor; [ | now apply IH].
  intros Hi. apply in_app_or in Hi. destruct Hi as [Hi | [Hi | []]];
    [now apply Hx | discriminate].
Qed.

Lemma lines_with_eol_snoc : forall (ls : list str) (x : str),
  lines_with_eol CRLF (ls ++ [x]) = map (fun l => l ++ [c_cr]) ls ++ [x].
Proof.
  induction ls as [ | l ls IH]; intros x; [reflexivity | ].
  cbn [app map]. rewrite <- IH.
  destruct (ls ++ [x]) as [ | y r] eqn:E; [destruct ls; discriminate | ].
  apply lines_with_eol_cons.
Qed.

(** The lines before a line, and the characters of the line they belong
    to, in the document split at its line feeds. *)
Lemma lines_with_eol_firstn : forall m n,
  n < length m ->
  firstn n (lines_with_eol CRLF m) = map (fun l => l ++ [c_cr]) (firstn n m)
  /\
  exists t, nth n (lines_with_eol CRLF m) [] = nth n m [] ++ t.
Proof.
  induction m as [ | x m IH]; intros n H; [simpl in H; lia | ].
  destruct m as [ | y m].
  - destruct n as [ | n]; [ | simpl in H; lia].
    split; [reflexivity | ]. exists []. simpl. now rewrite app_nil_r.
  - rewrite lines_with_eol_cons. destruct n as [ | n].
    + split; [reflexivity | ]. now exists [c_cr].
    + destruct (IH n) as [E1 E2]; [simpl in *; lia | ].
      split; [ | exact E2].
      cbn [firstn map]. now rewrite E1.
Qed.

Lemma list_sum_cons x l : list_sum (x :: l) = x + list_sum l.
Proof. reflexivity. Qed.

Lemma lines_length_cr : forall ls : list str,
  lines_length (map (fun l => l ++ [c_cr]) ls)
  = lines_length ls + length ls.
Proof.
  unfold lines_length.
  induction ls as [ | l ls IH]; [reflexivity | ].
  cbn [map length]. rewrite !list_sum_cons, IH, length_app. simpl. lia.
Qed.

(** The positions of two offsets of a text are not the same. *)
Lemma position_loop_from : forall s offset ln col,
  ln < line (position_loop s offset ln col) \/
  (line (position_loop s offset ln col) = ln /\
   col <= column (position_loop s offset ln col)).
Proof.
  induction s as [ | c s IH]; intros offset ln col.
  - destruct offset; simpl; right; auto.
  - destruct offset as [ | offset]; [simpl; right; auto | ].
    cbn [position_loop]. destruct (N.eqb c c_nl).
    + destruct (IH offset (S ln) 1) as [H | [H _]]; left; lia.
    + destruct (IH offset ln (S col)) as [H | [H1 H2]];
        [now left | right; split; [exact H1 | lia]].
Qed.

Lemma position_loop_apart : forall s o1 o2 ln col,
  o1 < o2 -> o2 <= length s ->
  position_loop s o1 ln col <> position_loop s o2 ln col.
Proof.
  induction s as [ | c s IH]; intros o1 o2 ln col H1 H2;
    [simpl in H2; lia | ].
  destruct o2 as [ | o2]; [lia | ].
  destruct o1 as [ | o1].
  - cbn [position_loop]. intros E.
    destruct (N.eqb c c_nl).
    + destruct (position_loop_from s o2 (S ln) 1) as [H | [H _]];
        rewrite <- E in H; simpl in H; lia.
    + destruct (position_loop_from s o2 ln (S col)) as [H | [_ H]];
        rewrite <- E in H; simpl in H; lia.
  - cbn [position_loop]. simpl in H2.
    destruct (N.eqb c c_nl); apply IH; lia.
Qed.

(** X3.  The offset of the cursor that the providers compute, line by
    line, counts one character for each end of line.  In a document that
    ends its lines with a line feed it is the length of the text before
    the cursor; in one that ends them with a carriage return and a line
    feed it is short of it by one for each line before the cursor.  The
    length of the text before the cursor is the offset that
    [getPositionFromOffset] maps back to the cursor: after the first line
    of a document with carriage returns, the offset of the providers is
    mapped to another place. *)
Theorem cursor_offset_round_trip eol m p :
  well_formed m -> valid_position m p ->
  cursor_offset m p
  + (length (getEOL eol) - 1) * (Monaco.lineNumber p - 1)
  = length (getValueUntil_eol eol m p)
  /\
  firstn (length (getValueUntil_eol eol m p)) (getValue_eol eol m)
  = getValueUntil_eol eol m p
  /\
  getPositionFromOffset (getValue_eol eol m)
    (length (getValueUntil_eol eol m p))
  = Position (Monaco.lineNumber p) (Monaco.column p)
  /\
  (eol = CRLF -> 1 < Monaco.lineNumber p ->
   getPositionFromOffset (getValue_eol eol m) (cursor_offset m p)
   <> Position (Monaco.lineNumber p) (Monaco.column p)).
Proof.
  intros Hw Hv.
  assert (Hmain :
            cursor_offset m p
            + (length (getEOL eol) - 1) * (Monaco.lineNumber p - 1)
            = length (getValueUntil_eol eol m p)
            /\
            firstn (length (getValueUntil_eol eol m p)) (getValue_eol eol m)
            = getValueUntil_eol eol m p
            /\
            getPositionFromOffset (getValue_eol eol m)
              (length (getValueUntil_eol eol m p))
            = Position (Monaco.lineNumber p) (Monaco.column p)).
  { destruct eol.
    - destruct (cursor_offset_line_feed Hw Hv) as (E1 & E2 & E3).
      change (getValueUntil_eol LF m p) with (Monaco.getValueUntil m p).
      change (getValue_eol LF m) with (Monaco.getValue m).
      cbn [getEOL length]. rewrite Nat.sub_diag, Nat.mul_0_l, Nat.add_0_r.
      rewrite <- E1. auto.
    - pose proof Hv as [[Hl1 Hl2] [Hc1 Hc2]].
      destruct p as [ln col]. cbn [Monaco.lineNumber Monaco.column] in *.
      unfold Monaco.getLineContent in Hc2.
      set (m' := lines_with_eol CRLF m).
      destruct (@lines_with_eol_firstn m (ln - 1)) as [Ef (t & Et)];
        [lia | ].
      fold m' in Ef, Et.
      assert (Hv' : valid_position m' (Monaco.mkPosition ln col)).
      { unfold valid_position, Monaco.getLineContent.
        cbn [Monaco.lineNumber Monaco.column]. unfold m'.
        rewrite lines_with_eol_length. fold m'. rewrite Et, length_app.
        lia. }
      assert (Hw' : well_formed m')
        by (now apply lines_with_eol_well_formed).
      destruct (cursor_offset_line_feed Hw' Hv') as (E1 & E2 & E3).
      assert (Eu : getValueUntil_eol CRLF m (Monaco.mkPosition ln col)
                   = Monaco.getValueUntil m' (Monaco.mkPosition ln col)).
      { unfold getValueUntil_eol, Monaco.getValueUntil,
          Monaco.getLineContent.
        cbn [Monaco.lineNumber Monaco.column].
        rewrite join_eol, lines_with_eol_snoc, Ef, Et.
        rewrite firstn_app.
        replace (col - 1 - length (nth (ln - 1) m [])) with 0 by lia.
        cbn [firstn]. now rewrite app_nil_r. }
      assert (Eg : getValue_eol CRLF m = Monaco.getValue m')
        by (unfold getValue_eol, Monaco.getValue; apply join_eol).
      rewrite Eu, Eg, <- E1.
      split; [ | split; [exact E2 | exact E3]].
      rewrite E1. rewrite <- E1.
      unfold cursor_offset. cbn [Monaco.lineNumber Monaco.column].
      rewrite !cursor_offset_loop
        by (cbn [Nat.add]; unfold m'; rewrite ?lines_with_eol_length; lia).
      rewrite !skipn_O. rewrite Ef, lines_length_cr.
      rewrite firstn_length_le by lia. cbn [getEOL length]. lia. }
  destruct Hmain as (E1 & E2 & E3).
  split; [exact E1 | ]. split; [exact E2 | ]. split; [exact E3 | ].
  intros -> Hln. rewrite <- E3. unfold getPositionFromOffset.
  apply position_loop_apart.
  - rewrite <- E1. cbn [getEOL length]. lia.
  - rewrite <- (firstn_skipn (length (getValueUntil_eol CRLF m p))
                  (getValue_eol CRLF m)), E2, length_app. lia.
Qed.

Lemma cursor_offset_round_trip_witness :
  cursor_offset [lit "SELECT *"; lit "FROM T"] (Monaco.mkPosition 2 3)
  + (length (getEOL CRLF) - 1) * (2 - 1)
  = length (getValueUntil_eol CRLF [lit "SELECT *"; lit "FROM T"]
              (Monaco.mkPosition 2 3))
  /\
  getPositionFromOffset (getValue_eol LF [lit "SELECT *"; lit "FROM T"])
    (length (getValueUntil_eol LF [lit "SELECT *"; lit "FROM T"]
               (Monaco.mkPosition 2 3)))
  = Position 2 3.
Proof.
  split.
  - apply (@cursor_offset_round_trip CRLF [lit "SELECT *"; lit "FROM T"]
             (Monaco.mkPosition 2 3)).
    + repeat constructor; simpl; intros H;
        repeat (destruct H as [H | H]; [discriminate | ]); exact H.
    + unfold valid_position. simpl. lia.
  - apply (@cursor_offset_round_trip LF [lit "SELECT *"; lit "FROM T"]
             (Monaco.mkPosition 2 3)).
    + repeat constructor; simpl; intros H;
        repeat (destruct H as [H | H]; [discriminate | ]); exact H.
    + unfold valid_position. simpl. lia.
Defined.

(** ** The places of the diagnostics *)

Lemma holds_char_inside text c ln col :
  holds_char (lines_of text) c (ln, col) ->
  inside text (ln + 1) (col + 1) /\ char_at text (ln + 1) (col + 1) = Some c.
Proof.
  unfold holds_char, inside, char_at. cbn [fst snd].
  replace (ln + 1 - 1) with ln by lia. replace (col + 1 - 1) with col by lia.
  intros H. split; [ | exact H].
  assert (Hc : col < length (nth ln (lines_of text) [])).
  { apply nth_error_Some. rewrite H. discriminate. }
  assert (Hl : ln < length (lines_of text)).
  { destruct (Nat.lt_ge_cases ln (length (lines_of text))) as [Hlt | Hge];
      [exact Hlt | ].
    rewrite nth_overflow in Hc by exact Hge. simpl in Hc. lia. }
  lia.
Qed.

Lemma holds_char_marks text c ln col msg sev :
  holds_char (lines_of text) c (ln, col) ->
  marks_char text c (mkDiag (ln + 1) (col + 1) (ln + 1) (col + 2) msg sev).
Proof.
  intros H. destruct (@holds_char_inside _ _ _ _ H) as [Hi Hc].
  unfold marks_char, starts_inside. cbn.
  repeat split; try exact Hc; try apply Hi; lia.
Qed.

Lemma quote_scan_line_holds (all : list str) lineNum :
  forall (l pre : str) prev st,
  nth lineNum all [] = pre ++ l ->
  (inString st = true ->
   holds_char all c_quote (stringStartLine st, stringStartCol st)) ->
  inString (quote_scan_line l prev (length pre) lineNum st) = true ->
  holds_char all c_quote
    (stringStartLine (quote_scan_line l prev (length pre) lineNum st),
     stringStartCol (quote_scan_line l prev (length pre) lineNum st)).
Proof.
  induction l as [ | c l IH]; intros pre prev st E I; [exact I | ].
  cbn [quote_scan_line]. cbv zeta.
  replace (S (length pre)) with (length (pre ++ [c]))
    by (rewrite length_app; simpl; lia).
  apply IH; [now rewrite <- app_assoc | ].
  destruct (N.eqb_spec c c_quote) as [-> | _]; cbn [andb]; [ | exact I].
  destruct (match prev with
            | Some p => negb (N.eqb p c_quote)
            | None => true
            end); [ | exact I].
  destruct (inString st); cbn [negb inString]; [discriminate | ].
  intros _. unfold holds_char. cbn [fst snd stringStartLine stringStartCol].
  rewrite E, nth_error_app2, Nat.sub_diag by lia. reflexivity.
Qed.

Lemma quote_scan_holds (all : list str) :
  forall (rest done : list str) st,
  all = done ++ rest ->
  (inString st = true ->
   holds_char all c_quote (stringStartLine st, stringStartCol st)) ->
  inString (quote_scan rest (length done) st) = true ->
  holds_char all c_quote
    (stringStartLine (quote_scan rest (length done) st),
     stringStartCol (quote_scan rest (length done) st)).
Proof.
  induction rest as [ | l rest IH]; intros done st E I; [exact I | ].
  cbn [quote_scan].
  replace (S (length done)) with (length (done ++ [l]))
    by (rewrite length_app; simpl; lia).
  apply IH; [now rewrite <- app_assoc | ].
  apply (@quote_scan_line_holds all (length done) l [] None st);
    [ | exact I].
  subst all. now rewrite nth_middle.
Qed.

Lemma check_unclosed_string_marks text :
  Forall (fun d => message d = lit "Unclosed string literal" /\
                   marks_char text c_quote d)
    (check_unclosed_string (lines_of text)).
Proof.
  unfold check_unclosed_string. cbv zeta.
  destruct (inString (quote_scan (lines_of text) 0 (QuoteState false 0 0)))
    eqn:E; [ | constructor].
  constructor; [ | constructor]. split; [reflexivity | ].
  replace (stringStartCol (quote_scan (lines_of text) 0
                             (QuoteState false 0 0)) + 2)
    with (stringStartCol (quote_scan (lines_of text) 0
                            (QuoteState false 0 0)) + 1 + 1) by lia.
  pose proof (@quote_scan_holds (lines_of text) (lines_of text) []
                (QuoteState false 0 0) eq_refl) as H.
  cbn [length] in H.
  specialize (H (fun Hf => ltac:(discriminate Hf)) E).
  destruct (@holds_char_inside _ _ _ _ H) as [Hi Hc].
  unfold marks_char, starts_inside. cbn.
  repeat split; try exact Hc; try apply Hi; lia.
Qed.

Lemma Forall_removelast {A : Type} (P : A -> Prop) (l : list A) :
  Forall P l -> Forall P (removelast l).
Proof.
  intros H. destruct l as [ | x l]; [constructor | ].
  destruct (exists_last (l := x :: l)) as (l' & y & E); [discriminate | ].
  rewrite E in *. rewrite removelast_last. apply Forall_app in H. tauto.
Qed.

Lemma paren_scan_line_marks text lineNum : forall (l pre : str) inStr st,
  nth lineNum (lines_of text) [] = pre ++ l ->
  Forall (holds_char (lines_of text) c_lparen) (parenStack st) ->
  Forall (fun d => message d = lit "Unexpected closing parenthesis" /\
                   marks_char text c_rparen d) (parenDiags st) ->
  Forall (holds_char (lines_of text) c_lparen)
    (parenStack (paren_scan_line l (length pre) lineNum inStr st)) /\
  Forall (fun d => message d = lit "Unexpected closing parenthesis" /\
                   marks_char text c_rparen d)
    (parenDiags (paren_scan_line l (length pre) lineNum inStr st)).
Proof.
  induction l as [ | c l IH]; intros pre inStr st E Hs Hd; [now split | ].
  assert (El : S (length pre) = length (pre ++ [c]))
    by (rewrite length_app; simpl; lia).
  assert (E' : nth lineNum (lines_of text) [] = (pre ++ [c]) ++ l)
    by (now rewrite <- app_assoc).
  assert (Hc : holds_char (lines_of text) c (lineNum, length pre)).
  { unfold holds_char. cbn [fst snd].
    rewrite E, nth_error_app2, Nat.sub_diag by lia. reflexivity. }
  cbn [paren_scan_line]. rewrite El.
  repeat match goal with
         | |- context [if ?b then _ else _] => destruct b eqn:?
         end; try (apply IH; auto; fail).
  - apply IH; auto. cbn [parenStack].
    apply Forall_app. split; [exact Hs | ]. constructor; [ | constructor].
    match goal with
    | Hq : N.eqb c c_lparen = true |- _ => apply N.eqb_eq in Hq; now subst c
    end.
  - apply IH; auto. cbn [parenDiags].
    apply Forall_app. split; [exact Hd | ]. constructor; [ | constructor].
    split; [reflexivity | ]. apply holds_char_marks.
    match goal with
    | Hq : N.eqb c c_rparen = true |- _ => apply N.eqb_eq in Hq; now subst c
    end.
  - apply IH; auto. cbn [parenStack]. now apply Forall_removelast.
Qed.

Lemma paren_scan_marks text : forall (rest done : list str) st,
  lines_of text = done ++ rest ->
  Forall (holds_char (lines_of text) c_lparen) (parenStack st) ->
  Forall (fun d => message d = lit "Unexpected closing parenthesis" /\
                   marks_char text c_rparen d) (parenDiags st) ->
  Forall (holds_char (lines_of text) c_lparen)
    (parenStack (paren_scan rest (length done) st)) /\
  Forall (fun d => message d = lit "Unexpected closing parenthesis" /\
                   marks_char text c_rparen d)
    (parenDiags (paren_scan rest (length done) st)).
Proof.
  induction rest as [ | l rest IH]; intros done st E Hs Hd; [now split | ].
  cbn [paren_scan].
  replace (S (length done)) with (length (done ++ [l]))
    by (rewrite length_app; simpl; lia).
  assert (En : nth (length done) (lines_of text) [] = [] ++ l)
    by (rewrite E; apply nth_middle).
  destruct (@paren_scan_line_marks text (length done) l [] false st En Hs Hd)
    as [Hs' Hd'].
  apply IH; auto. now rewrite <- app_assoc.
Qed.

Lemma check_parens_marks text :
  Forall (fun d =>
            (message d = lit "Unexpected closing parenthesis" /\
             marks_char text c_rparen d) \/
            (message d = lit "Unclosed parenthesis" /\
             marks_char text c_lparen d))
    (check_parens (lines_of text)).
Proof.
  unfold check_parens. cbv zeta.
  destruct (@paren_scan_marks text (lines_of text) [] (ParenState 0 [] [])
              eq_refl (Forall_nil _) (Forall_nil _)) as [Hs Hd].
  cbn [length] in Hs, Hd.
  apply Forall_app. split.
  - eapply Forall_impl; [ | exact Hd]. intros d H. now left.
  - apply Forall_forall. intros d Hin. apply in_map_iff in Hin.
    destruct Hin as ([ln col] & <- & Hin). right.
    split; [reflexivity | ]. unfold unclosed_diag. cbn [fst snd].
    apply holds_char_marks. rewrite Forall_forall in Hs. now apply Hs.
Qed.

Lemma diag_at_placed text offset len msg sev :
  marked_char_of msg = None ->
  well_placed text (diag_at (getPositionFromOffset text offset) len msg sev).
Proof.
  intros Hm. unfold well_placed, starts_inside, diag_at.
  cbn [startLineNumber startColumn endLineNumber endColumn message].
  rewrite Hm. repeat split; try apply getPositionFromOffset_inside; lia.
Qed.

Lemma marked_placed text msg c d :
  marked_char_of msg = Some c ->
  message d = msg /\ marks_char text c d -> well_placed text d.
Proof.
  intros Hm [E H]. unfold well_placed. rewrite E, Hm.
  split; [apply H | exact H].
Qed.

Lemma structural_diagnostics_placed text :
  Forall (well_placed text) (structural_diagnostics text).
Proof.
  unfold structural_diagnostics. cbv zeta.
  apply Forall_app; split.
  { eapply Forall_impl; [ | apply check_unclosed_string_marks].
    intros d. now apply marked_placed. }
  apply Forall_app; split.
  { unfold check_trailing_comma. split_cases.
    apply diag_at_placed. reflexivity. }
  apply Forall_app; split.
  { eapply Forall_impl; [ | apply check_parens_marks].
    intros d [H | H]; revert H; now apply marked_placed. }
  unfold check_empty_select, check_double_comma, check_missing_comma,
    check_incomplete_dot, missing_comma_diag.
  split_cases; apply diag_at_placed; reflexivity.
Qed.

Lemma schema_diagnostics_placed text cfg :
  Forall (well_placed text) (schema_diagnostics text cfg).
Proof.
  unfold schema_diagnostics, unknown_table_diag, column_ref_diag,
    unknown_cte_column_diag, unknown_table_column_diag, cte_body_diags,
    main_query_diags.
  split_cases; apply diag_at_placed; reflexivity.
Qed.

Lemma validate_diagnostics_placed_all text schemaConfig :
  Forall (well_placed text) (validateDB2SQL text schemaConfig).
Proof.
  unfold validateDB2SQL. apply Forall_app. split.
  - apply structural_diagnostics_placed.
  - destruct schemaConfig as [cfg | ];
      [apply schema_diagnostics_placed | constructor].
Qed.

(** X4.  Every diagnostic of the validator starts at a place of the text
    and ends on the line it starts on, not before its start.  A diagnostic
    about an unclosed string marks a quote of the text, one about an
    unclosed parenthesis an opening parenthesis, and one about an
    unexpected closing parenthesis a closing one. *)
Theorem validate_diagnostics_placed text schemaConfig :
  Forall (fun d =>
            starts_inside text d /\
            (message d = lit "Unclosed string literal" ->
             marks_char text c_quote d) /\
            (message d = lit "Unclosed parenthesis" ->
             marks_char text c_lparen d) /\
            (message d = lit "Unexpected closing parenthesis" ->
             marks_char text c_rparen d))
    (validateDB2SQL text schemaConfig).
Proof.
  eapply Forall_impl; [ | apply validate_diagnostics_placed_all].
  intros d [Hs Hm]. split; [exact Hs | ].
  split; [ | split]; intros E; rewrite E in Hm; exact Hm.
Qed.

(** The diagnostic about the unclosed string of [SELECT 'a FROM T] marks
    the quote at column 8. *)
Lemma validate_diagnostics_placed_witness :
  marks_char (lit "SELECT 'a FROM T") c_quote
    (mkDiag 1 8 1 9 (lit "Unclosed string literal") error).
Proof.
  pose proof (validate_diagnostics_placed (lit "SELECT 'a FROM T") None) as H.
  rewrite Forall_forall in H.
  apply (H (mkDiag 1 8 1 9 (lit "Unclosed string literal") error)).
  - vm_compute. repeat (first [left; reflexivity | right]).
  - reflexivity.
Defined.

(** ** Counting parentheses and quotes *)

Lemma str_eqb_eq : forall a b, str_eqb a b = true -> a = b.
Proof.
  induction a as [ | x a IH]; intros [ | y b] H; simpl in H;
    try discriminate; [reflexivity | ].
  apply andb_prop in H. destruct H as [H1 H2].
  apply N.eqb_eq in H1. subst. f_equal. now apply IH.
Qed.

Lemma str_eqb_refl : forall a, str_eqb a a = true.
Proof.
  induction a as [ | x a IH]; simpl; [reflexivity | ].
  now rewrite N.eqb_refl, IH.
Qed.

Lemma count_char_app c a b :
  count_char c (a ++ b) = count_char c a + count_char c b.
Proof. unfold count_char. now rewrite filter_app, length_app. Qed.

Lemma count_char_cons c x s :
  count_char c (x :: s) = (if N.eqb c x then 1 else 0) + count_char c s.
Proof. unfold count_char. simpl. now destruct (N.eqb c x). Qed.

Lemma count_char_lines c : forall text,
  c <> c_nl ->
  list_sum (map (count_char c) (lines_of text)) = count_char c text.
Proof.
  intros text Hc. unfold lines_of.
  induction text as [ | x text IH]; [reflexivity | ].
  rewrite split_on_cons, count_char_cons.
  pose proof (@split_on_not_nil c_nl text) as Hn.
  destruct (split_on c_nl text) as [ | l0 ls]; [congruence | ].
  destruct (N.eqb_spec x c_nl) as [-> | Hx].
  - rewrite (neq_eqb_false Hc). cbn [map] in *.
    rewrite !list_sum_cons in *. change (count_char c []) with 0. lia.
  - cbn [hd tl map] in *. rewrite !list_sum_cons in *.
    rewrite count_char_cons. destruct (N.eqb c x); lia.
Qed.

Lemma count_message_app msg a b :
  count_message msg (a ++ b) = count_message msg a + count_message msg b.
Proof. unfold count_message. now rewrite filter_app, length_app. Qed.

Lemma count_message_all msg ds :
  Forall (fun d => message d = msg) ds -> count_message msg ds = length ds.
Proof.
  unfold count_message. induction 1 as [ | d ds Hd _ IH]; [reflexivity | ].
  simpl. rewrite Hd, str_eqb_refl. simpl. now rewrite IH.
Qed.

Lemma count_message_none msg ds :
  Forall (fun d => message d <> msg) ds -> count_message msg ds = 0.
Proof.
  unfold count_message. induction 1 as [ | d ds Hd _ IH]; [reflexivity | ].
  simpl. destruct (str_eqb (message d) msg) eqn:E; [ | exact IH].
  now apply str_eqb_eq in E.
Qed.

(** *** Parentheses *)

Lemma paren_scan_line_balance : forall l pCol pLineNum st,
  Forall (fun c => c <> c_quote) l ->
  parenDepth st = Z.of_nat (length (parenStack st)) ->
  let st' := paren_scan_line l pCol pLineNum false st in
  length (parenStack st') + length (parenDiags st) + count_char c_rparen l
  = length (parenStack st) + length (parenDiags st') + count_char c_lparen l.
Proof.
  induction l as [ | c l IH]; intros pCol pLineNum st Hq Hd; cbv zeta;
    [unfold count_char; simpl; lia | ].
  inversion Hq as [ | ? ? Hc Hl]; subst.
  cbn [paren_scan_line]. rewrite (neq_eqb_false Hc). cbn [andb negb].
  rewrite !count_char_cons, (N.eqb_sym c_rparen c), (N.eqb_sym c_lparen c).
  destruct (N.eqb_spec c c_lparen) as [-> | Hlp].
  - change (N.eqb c_lparen c_rparen) with false.
    specialize (IH (S pCol) pLineNum
                  (ParenState (parenDepth st + 1)
                     (parenStack st ++ [(pLineNum, pCol)]) (parenDiags st))
                  Hl).
    cbv zeta in IH. cbn [parenStack parenDiags parenDepth] in IH.
    rewrite length_app in IH. cbn [length] in IH.
    assert (Hd' : (parenDepth st + 1)%Z
                  = Z.of_nat (length (parenStack st) + 1)) by lia.
    specialize (IH Hd'). cbv iota. lia.
  - destruct (N.eqb_spec c c_rparen) as [-> | Hrp].
    + destruct (Z.ltb_spec (parenDepth st - 1) 0) as [Hlt | Hge].
      * specialize (IH (S pCol) pLineNum
                      (ParenState 0 (parenStack st)
                         (parenDiags st ++
                          [mkDiag (pLineNum + 1) (pCol + 1) (pLineNum + 1)
                             (pCol + 2)
                             (lit "Unexpected closing parenthesis") error]))
                      Hl).
        cbv zeta in IH. cbn [parenStack parenDiags parenDepth] in IH.
        rewrite length_app in IH. cbn [length] in IH.
        assert (Hd' : 0%Z = Z.of_nat (length (parenStack st))) by lia.
        specialize (IH Hd'). cbv iota. lia.
      * specialize (IH (S pCol) pLineNum
                      (ParenState (parenDepth st - 1)
                         (removelast (parenStack st)) (parenDiags st)) Hl).
        cbv zeta in IH. cbn [parenStack parenDiags parenDepth] in IH.
        rewrite removelast_length in IH.
        assert (Hd' : (parenDepth st - 1)%Z
                      = Z.of_nat (length (parenStack st) - 1)) by lia.
        specialize (IH Hd'). cbv iota. lia.
    + specialize (IH (S pCol) pLineNum st Hl Hd). cbv zeta in IH.
      cbv iota. lia.
Qed.

Lemma paren_scan_balance : forall lines pLineNum st,
  Forall (Forall (fun c => c <> c_quote)) lines ->
  parenDepth st = Z.of_nat (length (parenStack st)) ->
  let st' := paren_scan lines pLineNum st in
  length (parenStack st') + length (parenDiags st)
  + list_sum (map (count_char c_rparen) lines)
  = length (parenStack st) + length (parenDiags st')
    + list_sum (map (count_char c_lparen) lines).
Proof.
  induction lines as [ | l lines IH]; intros pLineNum st Hq Hd; cbv zeta;
    [simpl; lia | ].
  inversion Hq as [ | ? ? Hl Hls]; subst.
  cbn [paren_scan map]. rewrite !list_sum_cons.
  pose proof (paren_scan_line_balance 0 pLineNum st Hl Hd) as H1.
  pose proof (paren_scan_line_depth l 0 pLineNum false st Hd) as Hd1.
  specialize (IH (S pLineNum) _ Hls Hd1). cbv zeta in H1, IH. lia.
Qed.

Lemma lines_Forall (P : char -> Prop) c : forall text,
  Forall P text -> Forall (Forall P) (split_on c text).
Proof.
  induction text as [ | x text IH]; intros H.
  - repeat constructor.
  - inversion H as [ | ? ? Hx Ht]; subst. specialize (IH Ht).
    rewrite split_on_cons.
    pose proof (@split_on_not_nil c text) as Hn.
    destruct (split_on c text) as [ | l0 ls]; [congruence | ].
    inversion IH; subst.
    destruct (N.eqb x c); cbn [hd tl]; repeat constructor; auto.
Qed.

(** The diagnostics that are not about a quote or a parenthesis. *)
Lemma other_structural_unmarked text :
  Forall (fun d => marked_char_of (message d) = None)
    (check_trailing_comma text ++ check_empty_select text ++
     check_double_comma text ++ check_missing_comma text ++
     check_incomplete_dot text).
Proof.
  unfold check_trailing_comma, check_empty_select, check_double_comma,
    check_missing_comma, check_incomplete_dot, missing_comma_diag.
  split_cases; reflexivity.
Qed.

Lemma schema_diagnostics_unmarked text cfg :
  Forall (fun d => marked_char_of (message d) = None) (schema_diagnostics text cfg).
Proof.
  unfold schema_diagnostics, unknown_table_diag, column_ref_diag,
    unknown_cte_column_diag, unknown_table_column_diag, cte_body_diags,
    main_query_diags.
  split_cases; reflexivity.
Qed.

Lemma count_message_unmarked msg c ds :
  marked_char_of msg = Some c ->
  Forall (fun d => marked_char_of (message d) = None) ds ->
  count_message msg ds = 0.
Proof.
  intros Hm H. apply count_message_none.
  eapply Forall_impl; [ | exact H]. intros d Hd E. congruence.
Qed.

Lemma count_message_other msg msg' (P : DB2SQLDiagnostic -> Prop) ds :
  msg <> msg' ->
  Forall (fun d => message d = msg' /\ P d) ds -> count_message msg ds = 0.
Proof.
  intros Hn H. apply count_message_none.
  eapply Forall_impl; [ | exact H]. intros d [Hd _] E. congruence.
Qed.

(** The diagnostics of the validator with one of the three messages about
    quotes and parentheses are those of the two scans. *)
Lemma count_message_validate msg c text schemaConfig :
  marked_char_of msg = Some c ->
  count_message msg (validateDB2SQL text schemaConfig)
  = count_message msg (check_unclosed_string (lines_of text))
    + count_message msg (check_parens (lines_of text)).
Proof.
  intros Hm. unfold validateDB2SQL, structural_diagnostics. cbv zeta.
  pose proof (other_structural_unmarked text) as Ho.
  rewrite !Forall_app in Ho. destruct Ho as (H1 & H2 & H3 & H4 & H5).
  rewrite !count_message_app.
  rewrite (@count_message_unmarked _ _ _ Hm H1), (@count_message_unmarked _ _ _ Hm H2),
    (@count_message_unmarked _ _ _ Hm H3), (@count_message_unmarked _ _ _ Hm H4),
    (@count_message_unmarked _ _ _ Hm H5).
  assert (Hs : count_message msg
                 match schemaConfig with
                 | Some cfg => schema_diagnostics text cfg
                 | None => []
                 end = 0).
  { destruct schemaConfig as [cfg | ]; [ | reflexivity].
    apply (@count_message_unmarked _ _ _ Hm). apply schema_diagnostics_unmarked. }
  rewrite Hs. unfold lines_of. lia.
Qed.

(** X5.  In a text without quotes the parenthesis check accounts for every
    parenthesis: the opening parentheses and the diagnostics about an
    unexpected closing parenthesis are as many as the closing parentheses
    and the diagnostics about an unclosed parenthesis. *)
Theorem validate_parentheses_balance text schemaConfig :
  Forall (fun c => c <> c_quote) text ->
  count_char c_lparen text
  + count_message (lit "Unexpected closing parenthesis")
      (validateDB2SQL text schemaConfig)
  = count_char c_rparen text
    + count_message (lit "Unclosed parenthesis")
        (validateDB2SQL text schemaConfig).
Proof.
  intros Hq.
  rewrite (@count_message_validate (lit "Unexpected closing parenthesis")
             c_rparen text schemaConfig eq_refl).
  rewrite (@count_message_validate (lit "Unclosed parenthesis")
             c_lparen text schemaConfig eq_refl).
  pose proof (check_unclosed_string_marks text) as Hu.
  rewrite (@count_message_other (lit "Unexpected closing parenthesis")
             (lit "Unclosed string literal") (marks_char text c_quote))
    by (discriminate || exact Hu).
  rewrite (@count_message_other (lit "Unclosed parenthesis")
             (lit "Unclosed string literal") (marks_char text c_quote))
    by (discriminate || exact Hu).
  unfold check_parens. cbv zeta. rewrite !count_message_app.
  destruct (@paren_scan_marks text (lines_of text) [] (ParenState 0 [] [])
              eq_refl (Forall_nil _) (Forall_nil _)) as [_ Hd].
  cbn [length] in Hd.
  set (st := paren_scan (lines_of text) 0 (ParenState 0 [] [])) in *.
  assert (E1 : count_message (lit "Unexpected closing parenthesis")
                 (parenDiags st) = length (parenDiags st)).
  { apply count_message_all. eapply Forall_impl; [ | exact Hd].
    now intros d [E _]. }
  assert (E2 : count_message (lit "Unclosed parenthesis") (parenDiags st) = 0).
  { apply (@count_message_other _ (lit "Unexpected closing parenthesis")
             (marks_char text c_rparen)); [discriminate | exact Hd]. }
  assert (E3 : count_message (lit "Unclosed parenthesis")
                 (map unclosed_diag (parenStack st))
               = length (parenStack st)).
  { rewrite count_message_all; [apply length_map | ].
    apply Forall_forall. intros d Hin. apply in_map_iff in Hin.
    now destruct Hin as (p & <- & _). }
  assert (E4 : count_message (lit "Unexpected closing parenthesis")
                 (map unclosed_diag (parenStack st)) = 0).
  { apply count_message_none. apply Forall_forall. intros d Hin.
    apply in_map_iff in Hin. destruct Hin as (p & <- & _). discriminate. }
  rewrite E1, E2, E3, E4.
  pose proof (@paren_scan_balance (lines_of text) 0 (ParenState 0 [] [])
                (@lines_Forall _ c_nl _ Hq) eq_refl) as Hb.
  cbv zeta in Hb. fold st in Hb. cbn [parenStack parenDiags length] in Hb.
  rewrite !count_char_lines in Hb by discriminate. lia.
Qed.

Lemma validate_parentheses_balance_witness :
  count_char c_lparen (lit "SELECT ((A) FROM T)))")
  + count_message (lit "Unexpected closing parenthesis")
      (validateDB2SQL (lit "SELECT ((A) FROM T)))") None)
  = count_char c_rparen (lit "SELECT ((A) FROM T)))")
    + count_message (lit "Unclosed parenthesis")
        (validateDB2SQL (lit "SELECT ((A) FROM T)))") None).
Proof.
  apply (validate_parentheses_balance (text := lit "SELECT ((A) FROM T)))")).
  repeat constructor; discriminate.
Defined.

(** *** Quotes *)

Lemma contains_cons_false p x s :
  contains p (x :: s) = false ->
  starts_with p (x :: s) = false /\ contains p s = false.
Proof. simpl. intros H. apply orb_false_elim in H. exact H. Qed.

Lemma quote_scan_line_parity : forall (l : str) prev col lineNum st,
  contains [c_quote; c_quote]
    match prev with
    | Some p => p :: l
    | None => l
    end = false ->
  inString (quote_scan_line l prev col lineNum st)
  = xorb (inString st) (Nat.odd (count_char c_quote l)).
Proof.
  induction l as [ | c l IH]; intros prev col lineNum st H.
  - simpl. now rewrite xorb_false_r.
  - cbn [quote_scan_line]. cbv zeta.
    assert (Hc : contains [c_quote; c_quote] (c :: l) = false).
    { destruct prev; [now apply contains_cons_false in H | exact H]. }
    rewrite (IH (Some c) (S col) lineNum _ Hc).
    rewrite count_char_cons, (N.eqb_sym c_quote c).
    destruct (N.eqb_spec c c_quote) as [-> | Hq]; cbn [andb plus];
      [ | reflexivity].
    assert (Hp : match prev with
                 | Some p => negb (N.eqb p c_quote)
                 | None => true
                 end = true).
    { destruct prev as [p | ]; [ | reflexivity].
      apply contains_cons_false in H. destruct H as [H _].
      cbn [starts_with] in H. rewrite N.eqb_refl in H.
      rewrite (N.eqb_sym p c_quote).
      destruct (N.eqb c_quote p); [discriminate | reflexivity]. }
    rewrite Hp, Nat.odd_succ, <- Nat.negb_odd.
    destruct (inString st); cbn [negb inString];
      destruct (Nat.odd (count_char c_quote l)); reflexivity.
Qed.

Lemma quote_scan_parity : forall (lines : list str) lineNum st,
  Forall (fun l => contains [c_quote; c_quote] l = false) lines ->
  inString (quote_scan lines lineNum st)
  = xorb (inString st)
      (Nat.odd (list_sum (map (count_char c_quote) lines))).
Proof.
  induction lines as [ | l lines IH]; intros lineNum st H.
  - simpl. now rewrite xorb_false_r.
  - inversion H as [ | ? ? Hl Hls]; subst. cbn [quote_scan map].
    rewrite list_sum_cons, (IH _ _ Hls).
    rewrite (quote_scan_line_parity l None 0 lineNum st Hl).
    rewrite Nat.odd_add.
    destruct (inString st), (Nat.odd (count_char c_quote l)),
      (Nat.odd (list_sum (map (count_char c_quote) lines))); reflexivity.
Qed.

Lemma split_on_hd_prefix c : forall s,
  exists r, s = hd [] (split_on c s) ++ r.
Proof.
  induction s as [ | x s [r IH]]; [now exists [] | ].
  rewrite split_on_cons. destruct (N.eqb x c); cbn [hd].
  - now exists (x :: s).
  - exists r. simpl. now rewrite <- IH.
Qed.

Lemma lines_no_double : forall text,
  contains [c_quote; c_quote] text = false ->
  Forall (fun l => contains [c_quote; c_quote] l = false) (lines_of text).
Proof.
  unfold lines_of. induction text as [ | x text IH]; intros H.
  - repeat constructor.
  - apply contains_cons_false in H. destruct H as [Hs Ht].
    specialize (IH Ht). rewrite split_on_cons.
    destruct (split_on_hd_prefix c_nl text) as [r Er].
    pose proof (@split_on_not_nil c_nl text) as Hn.
    destruct (split_on c_nl text) as [ | l0 ls]; [congruence | ].
    inversion IH as [ | ? ? Hl0 Hls]; subst. cbn [hd tl] in *.
    destruct (N.eqb x c_nl); constructor; auto.
    cbn [contains]. rewrite Hl0, orb_false_r.
    cbn [starts_with] in *.
    destruct (N.eqb c_quote x); [ | reflexivity]. cbn [andb] in *.
    destruct l0 as [ | y l0]; [reflexivity | ].
    cbn [app starts_with] in *. now destruct (N.eqb c_quote y).
Qed.

(** X6.  In a text where no quote directly follows another, an unclosed
    string is reported when the number of quotes is odd, and only then;
    no more than one such diagnostic is reported. *)
Theorem validate_unclosed_string_parity text schemaConfig :
  contains [c_quote; c_quote] text = false ->
  count_message (lit "Unclosed string literal")
    (validateDB2SQL text schemaConfig)
  = if Nat.even (count_char c_quote text) then 0 else 1.
Proof.
  intros H.
  rewrite (@count_message_validate (lit "Unclosed string literal") c_quote
             text schemaConfig eq_refl).
  assert (Ep : count_message (lit "Unclosed string literal")
                 (check_parens (lines_of text)) = 0).
  { apply count_message_none.
    eapply Forall_impl; [ | apply check_parens_marks].
    intros d [[E _] | [E _]]; rewrite E; discriminate. }
  rewrite Ep, Nat.add_0_r. unfold check_unclosed_string. cbv zeta.
  rewrite (@quote_scan_parity _ 0 (QuoteState false 0 0)
             (@lines_no_double _ H)).
  rewrite count_char_lines by discriminate. cbn [inString xorb].
  rewrite <- Nat.negb_even.
  destruct (Nat.even (count_char c_quote text)); reflexivity.
Qed.

Lemma validate_unclosed_string_parity_witness :
  count_message (lit "Unclosed string literal")
    (validateDB2SQL (lit "SELECT 'a', 'b FROM T") None)
  = if Nat.even (count_char c_quote (lit "SELECT 'a', 'b FROM T")) then 0
    else 1.
Proof.
  apply (@validate_unclosed_string_parity (lit "SELECT 'a', 'b FROM T")
           None).
  reflexivity.
Defined.

(** ** The sanitizer only blanks *)

Lemma Forall2_kept_refl : forall s, Forall2 kept_or_blank s s.
Proof. induction s; constructor; auto. now left. Qed.

Lemma Forall2_kept_trans : forall a b c,
  Forall2 kept_or_blank a b -> Forall2 kept_or_blank b c ->
  Forall2 kept_or_blank a c.
Proof.
  intros a b c H. revert c.
  induction H as [ | x y a b Hxy _ IH]; intros c Hc; inversion Hc; subst;
    constructor; auto.
  unfold kept_or_blank in *.
  match goal with
  | Hy : _ = y \/ _ = c_space |- _ => destruct Hy as [-> | ->]; auto
  end.
Qed.

Lemma blank_kept m : Forall2 kept_or_blank m (blank m).
Proof.
  unfold blank, spaces. induction m; simpl; constructor; auto. now right.
Qed.

Lemma blank_keep_newlines_kept m :
  Forall2 kept_or_blank m (blank_keep_newlines m).
Proof.
  unfold blank_keep_newlines. induction m as [ | c m IH]; simpl;
    constructor; auto.
  destruct (N.eqb_spec c c_nl) as [-> | _]; [now left | now right].
Qed.

Lemma replace_loop_kept ic r f :
  (forall m, Forall2 kept_or_blank m (f m)) ->
  forall fuel bef aft,
    Forall2 kept_or_blank aft (replace_loop fuel ic r f bef aft).
Proof.
  intros Hf. induction fuel as [ | fuel IH]; intros bef aft; simpl;
    [apply Forall2_kept_refl | ].
  destruct (search ic r bef aft) as [[i st] | ]; [ | apply Forall2_kept_refl].
  set (skip := i - length bef). set (mlen := length (before st) - i).
  rewrite <- (firstn_skipn skip aft) at 1.
  apply Forall2_app; [apply Forall2_kept_refl | ].
  rewrite <- (firstn_skipn mlen (skipn skip aft)) at 1.
  apply Forall2_app; [apply Hf | ].
  rewrite skipn_skipn, (Nat.add_comm mlen skip).
  destruct (Nat.eqb mlen 0); [ | apply IH].
  destruct (skipn (skip + mlen) aft); constructor; [now left | apply IH].
Qed.

(** X7.  The sanitizer only blanks: every character of its result is the
    character of the input at the same place, or a space. *)
Theorem stripCommentsAndStrings_blanks (expr : str) :
  Forall2 kept_or_blank expr (stripCommentsAndStrings expr).
Proof.
  unfold stripCommentsAndStrings, replace_all. cbv zeta.
  eapply Forall2_kept_trans;
    [eapply Forall2_kept_trans | ];
    apply replace_loop_kept;
    auto using blank_kept, blank_keep_newlines_kept.
Qed.

(** ** Line comments that run to the end of the text *)












(** ** The markers of the validator *)

Lemma validate_severity_two text schemaConfig :
  Forall (fun d => severity d = error \/ severity d = warning)
    (validateDB2SQL text schemaConfig).
Proof.
  unfold validateDB2SQL. apply Forall_app. split.
  - eapply Forall_impl; [ | apply structural_diagnostics_structural].
    intros d [H _]. now left.
  - destruct schemaConfig as [cfg | ]; [ | constructor].
    eapply Forall_impl; [ | apply schema_diagnostics_schema].
    intros d [H _]. now right.
Qed.

(** X8.  The validator replaces the markers of the owner [db2sql] by one
    marker for each diagnostic of the text of the model, in the same
    order, and leaves the markers of every other owner alone.  Each marker
    is an error or a warning, never an information or a hint; it starts at
    a place of the text and ends on the line it starts on.  Without a
    schema every marker is an error. *)
Theorem validator_markers schemaConfig model store :
  let store' := createDB2SQLValidator schemaConfig model store in
  let text := Monaco.getValue model in
  (forall owner, str_eqb owner (lit "db2sql") = false ->
                 store' owner = store owner)
  /\
  map mk_message (store' (lit "db2sql"))
  = map message (validateDB2SQL text schemaConfig)
  /\
  Forall (fun m =>
            (mk_severity m = MarkerSeverity.Error \/
             mk_severity m = MarkerSeverity.Warning) /\
            marker_inside text m) (store' (lit "db2sql"))
  /\
  Forall (fun m => mk_severity m = MarkerSeverity.Error)
    (createDB2SQLValidator None model store (lit "db2sql")).
Proof.
  cbv zeta. unfold createDB2SQLValidator, setModelMarkers. cbv zeta.
  change (str_eqb (lit "db2sql") (lit "db2sql")) with true. cbv iota.
  split; [intros owner H; now rewrite H | ].
  split; [now rewrite map_map | ].
  split.
  - apply Forall_forall. intros m Hin. apply in_map_iff in Hin.
    destruct Hin as (d & <- & Hin).
    pose proof (validate_severity_two (Monaco.getValue model) schemaConfig)
      as Hs.
    pose proof (validate_diagnostics_placed_all (Monaco.getValue model)
                  schemaConfig) as Hp.
    rewrite Forall_forall in Hs, Hp.
    specialize (Hs d Hin). specialize (Hp d Hin).
    split.
    + unfold marker_of_diagnostic. cbn [mk_severity].
      destruct Hs as [-> | ->]; [now left | now right].
    + destruct Hp as [Hp _]. exact Hp.
  - apply Forall_forall. intros m Hin. apply in_map_iff in Hin.
    destruct Hin as (d & <- & Hin).
    unfold validateDB2SQL in Hin. rewrite app_nil_r in Hin.
    pose proof (structural_diagnostics_structural (Monaco.getValue model))
      as Hs.
    rewrite Forall_forall in Hs. destruct (Hs d Hin) as [E _].
    unfold marker_of_diagnostic. cbn [mk_severity]. now rewrite E.
Qed.

(** The markers of another owner stay when the validator runs. *)
Lemma validator_markers_witness :
  createDB2SQLValidator None [lit "SELECT ("]
    (fun _ => [mkMarker 1 1 1 2 (lit "spelling") MarkerSeverity.Hint])
    (lit "spell")
  = [mkMarker 1 1 1 2 (lit "spelling") MarkerSeverity.Hint].
Proof.
  apply (proj1 (validator_markers None [lit "SELECT ("]
                  (fun _ => [mkMarker 1 1 1 2 (lit "spelling")
                               MarkerSeverity.Hint]))).
  reflexivity.
Defined.

(** ** The hover provider *)

Lemma rx_of_word_ok : forall w,
  forallb word_char_ok w = true -> exists rs, rx_of_word w = Some rs.
Proof.
  induction w as [ | c w IH]; intros H; [now exists [] | ].
  simpl in H. apply andb_prop in H. destruct H as [Hc Hw].
  destruct (IH Hw) as (rs & E). cbn [rx_of_word]. rewrite E.
  unfold word_char_ok in Hc.
  destruct (N.eqb c c_dollar); [eauto | ].
  destruct (N.eqb c c_dot); [eauto | ].
  cbn [orb] in Hc. destruct (existsb (N.eqb c) pattern_chars);
    [discriminate | eauto].
Qed.

Lemma pattern_char_cases y :
  existsb (N.eqb y) pattern_chars = true -> In y pattern_chars.
Proof.
  intros H. apply existsb_exists in H. destruct H as (k & Hin & Hk).
  apply N.eqb_eq in Hk. now subst.
Qed.

Lemma upper_char_cases x :
  upper_char x = x \/ ((65 <= upper_char x <= 90)%N).
Proof.
  unfold upper_char, is_lower.
  destruct (N.leb_spec 97 x), (N.leb_spec x 122); cbn [andb]; auto.
  right. lia.
Qed.

Ltac pattern_char_absurd H :=
  apply pattern_char_cases in H; cbv [pattern_chars lit] in H;
  cbn in H;
  repeat (destruct H as [H | H]; [try lia; try discriminate | ]);
  try contradiction.

(** Upper case keeps a character of a word as plain as it was. *)
Lemma word_char_ok_upper x :
  word_char_ok x = true -> word_char_ok (upper_char x) = true.
Proof.
  intros H. destruct (upper_char_cases x) as [-> | Hu]; [exact H | ].
  unfold word_char_ok.
  destruct (existsb (N.eqb (upper_char x)) pattern_chars) eqn:E;
    [ | now rewrite !orb_true_r].
  exfalso. pattern_char_absurd E.
Qed.

Lemma aliasResolveRegex_some (w : str) :
  forallb word_char_ok w = true ->
  exists rx, aliasResolveRegex (toUpperCase w) = Some rx.
Proof.
  intros H.
  assert (Hu : forallb word_char_ok (toUpperCase w) = true).
  { unfold toUpperCase. induction w as [ | c w IH]; [reflexivity | ].
    cbn [forallb map] in *. apply andb_prop in H. destruct H as [Hc Hw].
    now rewrite (word_char_ok_upper _ Hc), IH. }
  destruct (rx_of_word_ok _ Hu) as (rs & E).
  unfold aliasResolveRegex. rewrite E. now eexists.
Qed.

Section HoverShape.

Variable position : Monaco.Position.
Variable w : IWordAtPosition.

Lemma first_some_shape {A : Type} (f : A -> option Hover) (l : list A) h :
  (forall x h', f x = Some h' -> hover_shape position w h') ->
  first_some f l = Some h -> hover_shape position w h.
Proof.
  intros Hf. induction l as [ | x l IH]; simpl; [discriminate | ].
  destruct (f x) as [h' | ] eqn:E; [ | exact IH].
  intros H. injection H as <-. eapply Hf. exact E.
Qed.

Lemma cte_column_hover_shape wordText cte h :
  cte_column_hover position w wordText cte = Some h ->
  hover_shape position w h.
Proof.
  unfold cte_column_hover.
  destruct (find _ (columns cte)) as [col | ]; [ | discriminate].
  intros H. injection H as <-. eexists. split; reflexivity.
Qed.

Lemma table_column_hover_shape wordText t h :
  table_column_hover position w wordText t = Some h ->
  hover_shape position w h.
Proof.
  unfold table_column_hover.
  destruct (find _ (opt_list (tbl_columns t))) as [col | ];
    [ | discriminate].
  intros H. injection H as <-. eexists. split; reflexivity.
Qed.

Lemma qualified_hover_shape wordText fullText allTables dotBefore h :
  qualified_hover position w wordText fullText allTables dotBefore = Some h ->
  hover_shape position w h.
Proof.
  unfold qualified_hover. cbv zeta.
  destruct (find _ (parseCTEs fullText)) as [cte | ].
  - destruct (cte_column_hover position w wordText cte) eqn:E.
    + intros H. injection H as <-. eapply cte_column_hover_shape, E.
    + destruct (find _ allTables) as [t | ]; [ | discriminate].
      apply table_column_hover_shape.
  - destruct (find _ allTables) as [t | ]; [ | discriminate].
    apply table_column_hover_shape.
Qed.

Lemma table_hover_shape wordText fullText allTables aliasResolve h :
  table_hover position w wordText fullText allTables aliasResolve = Some h ->
  hover_shape position w h.
Proof.
  unfold table_hover. cbv zeta.
  destruct (find _ allTables) as [t | ]; [ | discriminate].
  intros H. injection H as <-. eexists. split; reflexivity.
Qed.

Lemma inside_cte_hover_shape wordText allTables parsedCTEs insideCTE h :
  inside_cte_hover position w wordText allTables parsedCTEs insideCTE
  = Some h ->
  hover_shape position w h.
Proof.
  unfold inside_cte_hover. apply first_some_shape.
  intros fromTableName h'. cbv zeta.
  destruct (find _ parsedCTEs) as [sourceCTE | ].
  - apply cte_column_hover_shape.
  - destruct (table_of_reference _ _ _) as [t | ]; [ | discriminate].
    apply table_column_hover_shape.
Qed.

Lemma outside_cte_hover_shape wordText fullText parsedCTEs h :
  outside_cte_hover position w wordText fullText parsedCTEs = Some h ->
  hover_shape position w h.
Proof.
  unfold outside_cte_hover.
  destruct (find _ parsedCTEs) as [cte | ].
  - intros H. injection H as <-. eexists. split; reflexivity.
  - apply first_some_shape. intros cteRefMatch h'. cbv zeta.
    apply first_some_shape. intros cte h''.
    destruct (str_eqb (name cte) _); [ | discriminate].
    apply cte_column_hover_shape.
Qed.

Lemma unqualified_hover_shape model wordText allTables h :
  unqualified_hover model position w wordText allTables = Some h ->
  hover_shape position w h.
Proof.
  unfold unqualified_hover. cbv zeta.
  destruct (find _ (parseCTEs (Monaco.getValue model))) as [cte | ].
  - destruct (inside_cte_hover _ _ _ _ _ _) eqn:E.
    + intros H. injection H as <-. eapply inside_cte_hover_shape, E.
    + apply first_some_shape. intros t h'. apply table_column_hover_shape.
  - destruct (outside_cte_hover _ _ _ _ _) eqn:E.
    + intros H. injection H as <-. eapply outside_cte_hover_shape, E.
    + apply first_some_shape. intros t h'. apply table_column_hover_shape.
Qed.

End HoverShape.

(** X9.  Every hover the provider returns is over the word at the
    position: its range is the word, on the line of the position, and it
    has one markdown string, which starts with a name in bold. *)
Theorem provideHover_shape gw schemaConfig model position h :
  provideHover gw schemaConfig model position = Returned (Some h) ->
  exists w markdown,
    gw model position = Some w /\
    contents h = [markdown] /\
    starts_with (lit "**") markdown = true /\
    hover_range h
    = mkRange (Monaco.lineNumber position) (Monaco.lineNumber position)
        (word_startColumn w) (word_endColumn w).
Proof.
  unfold provideHover. destruct schemaConfig as [cfg | ]; [ | discriminate].
  cbv zeta. destruct (gw model position) as [w | ]; [ | discriminate].
  intros H.
  assert (Hs : hover_shape position w h).
  { destruct (str_match false rx_dot_before _) as [m | ].
    - destruct (qualified_hover _ _ _ _ _ _) eqn:E.
      + injection H as <-. eapply qualified_hover_shape, E.
      + cbn [negb andb orb] in H.
        destruct (test false rx_dot_follows _); cbn [orb] in H;
          [ | discriminate].
        destruct (aliasResolveRegex _) as [rx | ]; [ | discriminate].
        destruct (table_hover _ _ _ _ _ _) eqn:Et; [ | discriminate].
        injection H as <-. eapply table_hover_shape, Et.
    - cbn [negb andb orb] in H. rewrite orb_true_r in H.
      destruct (aliasResolveRegex _) as [rx | ]; [ | discriminate].
      destruct (table_hover _ _ _ _ _ _) eqn:Et.
      + injection H as <-. eapply table_hover_shape, Et.
      + destruct (test false rx_dot_follows _); cbn [negb] in H;
          [discriminate | ].
        injection H as H. eapply unqualified_hover_shape, H. }
  destruct Hs as (md & -> & Hmd). exists w, md. repeat split; auto.
Qed.

Lemma provideHover_shape_witness :
  exists w markdown,
    employees_word [lit "SELECT * FROM EMPLOYEES"] (Monaco.mkPosition 1 16)
    = Some w /\
    contents (hover_over (Monaco.mkPosition 1 16)
                (mkWord (lit "EMPLOYEES") 15 24)
                (table_markdown
                   (mkTable (lit "EMPLOYEES") None None
                      (Some [plain_column "EMP_ID"; plain_column "NAME"])
                      None)))
    = [markdown] /\
    starts_with (lit "**") markdown = true /\
    hover_range (hover_over (Monaco.mkPosition 1 16)
                   (mkWord (lit "EMPLOYEES") 15 24)
                   (table_markdown
                      (mkTable (lit "EMPLOYEES") None None
                         (Some [plain_column "EMP_ID"; plain_column "NAME"])
                         None)))
    = mkRange 1 1 (word_startColumn w) (word_endColumn w).
Proof.
  apply (@provideHover_shape employees_word (Some employees_schema)
           [lit "SELECT * FROM EMPLOYEES"] (Monaco.mkPosition 1 16)).
  vm_compute. reflexivity.
Defined.

Lemma first_some_nil {A B : Type} (f : A -> option B) (l : list A) :
  (forall x, f x = None) -> first_some f l = None.
Proof.
  intros H. induction l as [ | x l IH]; simpl; [reflexivity | ].
  now rewrite H.
Qed.

Lemma flat_map_nil {A B : Type} (f : A -> list B) (l : list A) :
  (forall x, f x = []) -> flat_map f l = [].
Proof.
  intros H. induction l as [ | x l IH]; simpl; [reflexivity | ].
  now rewrite H, IH.
Qed.

(** X10.  The provider returns no hover when it has no schema, and when
    the editor finds no word at the position.  With a schema that lists no
    table, on a text without the word WITH, it returns no hover either. *)
Theorem provideHover_nothing gw model position :
  provideHover gw None model position = Returned None
  /\
  (forall schemaConfig,
     gw model position = None ->
     provideHover gw schemaConfig model position = Returned None)
  /\
  (forall cfg,
     getAllTablesForValidation cfg = [] ->
     contains_ci (lit "WITH") (Monaco.getValue model) = false ->
     provideHover gw (Some cfg) model position = Returned None \/
     provideHover gw (Some cfg) model position = Unmodelled).
Proof.
  split; [reflexivity | ]. split.
  - intros schemaConfig H. unfold provideHover.
    destruct schemaConfig; [ | reflexivity]. now rewrite H.
  - intros cfg Ht Hw. unfold provideHover. rewrite Ht. cbv zeta.
    destruct (gw model position) as [w | ]; [ | now left].
    pose proof (parseCTEs_without_with _ Hw) as Hp.
    assert (Hq : forall m,
               qualified_hover position w (toUpperCase (word w))
                 (Monaco.getValue model) [] m = None).
    { intros m. unfold qualified_hover. cbv zeta. now rewrite Hp. }
    assert (Hu : unqualified_hover model position w (toUpperCase (word w)) []
                 = None).
    { unfold unqualified_hover, outside_cte_hover, referenced_tables.
      cbv zeta. rewrite Hp. cbn [find existsb table_of_reference].
      rewrite first_some_nil by reflexivity.
      now rewrite flat_map_nil by reflexivity. }
    assert (Ht' : forall rx,
               table_hover position w (toUpperCase (word w))
                 (Monaco.getValue model) [] rx = None) by reflexivity.
    rewrite Hu.
    destruct (str_match false rx_dot_before _) as [m | ];
      [rewrite Hq | ]; cbn [negb andb orb];
      destruct (test false rx_dot_follows _); cbn [negb andb orb];
      try (now left);
      destruct (aliasResolveRegex _); try (now right);
      rewrite Ht'; now left.
Qed.

Lemma provideHover_nothing_witness :
  provideHover employees_word (Some empty_schema)
    [lit "SELECT * FROM EMPLOYEES"] (Monaco.mkPosition 1 16) = Returned None
  \/
  provideHover employees_word (Some empty_schema)
    [lit "SELECT * FROM EMPLOYEES"] (Monaco.mkPosition 1 16) = Unmodelled.
Proof.
  apply (provideHover_nothing employees_word
           [lit "SELECT * FROM EMPLOYEES"] (Monaco.mkPosition 1 16));
    reflexivity.
Defined.

Lemma find_exists {A : Type} (p : A -> bool) (l : list A) x :
  In x l -> p x = true -> exists y, find p l = Some y /\ In y l.
Proof.
  induction l as [ | a l IH]; intros Hin Hp; [contradiction | ].
  simpl. destruct (p a) eqn:E.
  - exists a. split; [reflexivity | now left].
  - destruct Hin as [-> | Hin]; [congruence | ].
    destruct (IH Hin Hp) as (y & Hy & Hi). exists y.
    split; [exact Hy | now right].
Qed.

(** X11.  For a schema and a word of ASCII characters: on a word that is
    the name of a table of the schema, letter case apart, that no [table.]
    precedes and that holds no character with a meaning of its own in a
    pattern but the dot and the dollar sign, the provider returns the
    hover of a table of the schema: of that table when it is the first of
    the schema. *)
Theorem provideHover_table_name gw cfg model position w t :
  ascii_schema cfg = true ->
  is_ascii (word w) = true ->
  forallb word_char_ok (word w) = true ->
  gw model position = Some w ->
  str_match false rx_dot_before
    (substring (Monaco.getLineContent model (Monaco.lineNumber position)) 0
       (word_startColumn w - 1)) = None ->
  In t (getAllTablesForValidation cfg) ->
  toUpperCase (tbl_name t) = toUpperCase (word w) ->
  (exists t',
     In t' (getAllTablesForValidation cfg) /\
     provideHover gw (Some cfg) model position
     = Returned (Some (hover_over position w (table_markdown t'))))
  /\
  (forall rest,
     getAllTablesForValidation cfg = t :: rest ->
     provideHover gw (Some cfg) model position
     = Returned (Some (hover_over position w (table_markdown t)))).
Proof.
  intros _ _ Hok Hw Hd Hin Hn.
  assert (Hr : aliasResolveRegex (toUpperCase (word w)) <> None).
  { destruct (aliasResolveRegex_some _ Hok) as (rx & ->). discriminate. }
  assert (E : forall t',
             table_hover position w (toUpperCase (word w))
               (Monaco.getValue model) (getAllTablesForValidation cfg)
               match aliasResolveRegex (toUpperCase (word w)) with
               | Some rx => rx
               | None => REps
               end
             = Some (hover_over position w (table_markdown t')) ->
             provideHover gw (Some cfg) model position
             = Returned (Some (hover_over position w (table_markdown t')))).
  { intros t' Ht. unfold provideHover. cbv zeta. rewrite Hw, Hd.
    cbn [negb andb orb]. rewrite orb_true_r.
    destruct (aliasResolveRegex (toUpperCase (word w))) as [rx | ];
      [ | congruence].
    now rewrite Ht. }
  split.
  - unfold table_hover in E. cbv zeta in E.
    match type of E with
    | context [find ?p _] =>
        destruct (@find_exists _ p (getAllTablesForValidation cfg) t Hin)
          as (t' & Hf & Hi)
    end.
    { cbv beta. now rewrite Hn, str_eqb_refl. }
    exists t'. split; [exact Hi | ]. apply E. now rewrite Hf.
  - intros rest Hl. apply E. unfold table_hover. cbv zeta. rewrite Hl.
    cbn [find]. now rewrite Hn, str_eqb_refl.
Qed.

Lemma provideHover_table_name_witness :
  provideHover employees_word (Some employees_schema)
    [lit "SELECT * FROM EMPLOYEES"] (Monaco.mkPosition 1 16)
  = Returned
      (Some (hover_over (Monaco.mkPosition 1 16)
               (mkWord (lit "EMPLOYEES") 15 24)
               (table_markdown
                  (mkTable (lit "EMPLOYEES") None None
                     (Some [plain_column "EMP_ID"; plain_column "NAME"])
                     None)))).
Proof.
  apply (@provideHover_table_name employees_word employees_schema
           [lit "SELECT * FROM EMPLOYEES"] (Monaco.mkPosition 1 16)
           (mkWord (lit "EMPLOYEES") 15 24)
           (mkTable (lit "EMPLOYEES") None None
              (Some [plain_column "EMP_ID"; plain_column "NAME"]) None))
    with (rest := []).
  - reflexivity.
  - reflexivity.
  - reflexivity.
  - reflexivity.
  - vm_compute. reflexivity.
  - left. reflexivity.
  - reflexivity.
  - reflexivity.
Defined.

(** ** Registration *)

Lemma registerDB2SQL_registered options e :
  existsb (fun lang => str_eqb (lang_id lang) DB2SQL_LANGUAGE_ID)
    (languages (registerDB2SQL options e)) = true.
Proof.
  unfold registerDB2SQL. cbv zeta. cbn [console_log languages].
  destruct (existsb _ (languages e)) eqn:E; cbn; [exact E | ].
  rewrite existsb_app. cbn. apply orb_true_r.
Qed.

(** X12.  [registerDB2SQL] registers once.  On an editor where no language
    has the id [db2sql] it registers the language and sets the tokenizer,
    the configuration and a completion provider for the schema of its
    options, one of each.  On an editor where the id is taken, and so on
    every later call, it changes nothing but the console: the schema of a
    later call is not used. *)
Theorem registerDB2SQL_once options e :
  (existsb (fun lang => str_eqb (lang_id lang) DB2SQL_LANGUAGE_ID)
     (languages e) = false ->
   let e' := registerDB2SQL options e in
   (exists l, languages e' = languages e ++ [l] /\
              lang_id l = DB2SQL_LANGUAGE_ID) /\
   monarchTokensProviders e'
   = monarchTokensProviders e ++ [(DB2SQL_LANGUAGE_ID, db2sqlMonarchLanguage)]
   /\
   languageConfigurations e'
   = languageConfigurations e ++
     [(DB2SQL_LANGUAGE_ID, db2sqlLanguageConfiguration)] /\
   completionItemProviders e'
   = completionItemProviders e ++
     [(DB2SQL_LANGUAGE_ID,
       createDB2SQLCompletionProvider (schema_of options))])
  /\
  (existsb (fun lang => str_eqb (lang_id lang) DB2SQL_LANGUAGE_ID)
     (languages e) = true ->
   registerDB2SQL options e
   = console_log [lit "DB2SQL already registered, skipping"]
       (console_log [lit "registerDB2SQL called"] e))
  /\
  (forall options',
     registerDB2SQL options' (registerDB2SQL options e)
     = console_log [lit "DB2SQL already registered, skipping"]
         (console_log [lit "registerDB2SQL called"]
            (registerDB2SQL options e))).
Proof.
  assert (Hyes : forall o e0,
             existsb (fun lang => str_eqb (lang_id lang) DB2SQL_LANGUAGE_ID)
               (languages e0) = true ->
             registerDB2SQL o e0
             = console_log [lit "DB2SQL already registered, skipping"]
                 (console_log [lit "registerDB2SQL called"] e0)).
  { intros o e0 H. unfold registerDB2SQL. cbv zeta.
    cbn [console_log languages]. now rewrite H. }
  split; [ | split].
  - intros H. unfold registerDB2SQL. cbv zeta.
    cbn [console_log languages]. rewrite H. cbn.
    split; [ | auto]. eexists. split; reflexivity.
  - apply Hyes.
  - intros options'. apply Hyes. apply registerDB2SQL_registered.
Qed.

(** On an editor with nothing registered, one completion provider is
    registered, for the schema of the options. *)
Lemma registerDB2SQL_once_witness :
  completionItemProviders
    (registerDB2SQL (Some (mkOptions (Some employees_schema))) fresh_editor)
  = completionItemProviders fresh_editor ++
    [(DB2SQL_LANGUAGE_ID,
      createDB2SQLCompletionProvider
        (schema_of (Some (mkOptions (Some employees_schema)))))].
Proof.
  apply (proj1 (registerDB2SQL_once
                  (Some (mkOptions (Some employees_schema))) fresh_editor)).
  reflexivity.
Defined.

(** ** The matches of a global pattern *)

(** What [exec_all] returns are matches of the pattern in the text, each
    with its index and its text. *)
Lemma exec_loop_sound ic r (text : str) m : forall fuel (bef aft : str),
  text = rev bef ++ aft ->
  In m (exec_loop fuel ic r text bef aft) ->
  exists p w a,
    text = p ++ w ++ a /\ m_index m = length p /\ m_text m = w /\
    m_end m = length p + length w /\ length bef <= length p /\
    rm ic r (rev p) w a.
Proof.
  induction fuel as [ | fuel IH]; intros bef aft E H; [contradiction | ].
  simpl in H.
  destruct (search ic r bef aft) as [[i st] | ] eqn:Es; [ | contradiction].
  apply search_sound in Es.
  destruct Es as (p & w & a' & Ea & Ei & R & Hb & Ha).
  assert (Et : text = (rev bef ++ p) ++ w ++ a').
  { rewrite E, Ea. now rewrite <- app_assoc. }
  destruct H as [<- | H].
  - exists (rev bef ++ p), w, a'.
    assert (Hl : length (rev bef ++ p) = i)
      by (rewrite length_app, length_rev; lia).
    assert (Hbl : length (before st) = i + length w)
      by (rewrite Hb, !length_app, !length_rev; lia).
    unfold mk_match. cbn [m_index m_text m_end].
    repeat split; auto.
    + rewrite Hbl, Et, <- Hl. apply substring_middle.
    + lia.
    + lia.
    + now rewrite rev_app_distr, rev_involutive.
  - destruct (Nat.ltb (length (after st)) (length aft)); [ | contradiction].
    apply IH in H.
    + destruct H as (p' & w' & a2 & E2 & Hi2 & Hw2 & He2 & Hl2 & R2).
      exists p', w', a2. repeat split; auto.
      rewrite Hb, !length_app, !length_rev in Hl2. lia.
    + rewrite Hb, Ha, Et, !rev_app_distr, !rev_involutive.
      now rewrite <- !app_assoc.
Qed.

Lemma exec_all_sound ic r (text : str) m :
  In m (exec_all ic r text) ->
  exists p w a,
    text = p ++ w ++ a /\ m_index m = length p /\ m_text m = w /\
    m_end m = length p + length w /\ rm ic r (rev p) w a.
Proof.
  intros H. apply (@exec_loop_sound ic r text m _ [] text eq_refl) in H.
  destruct H as (p & w & a & H1 & H2 & H3 & H4 & _ & H5).
  exists p, w, a. auto.
Qed.
(** ** The words of the language as patterns *)

(** A character of the class [\w], a digit or a minus sign has no meaning
    of its own in a pattern. *)
Lemma word_class_ok x :
  in_ranges cls_word x = true -> word_char_ok x = true.
Proof.
  intros H. unfold word_char_ok.
  destruct (existsb (N.eqb x) pattern_chars) eqn:E;
    [ | now rewrite !orb_true_r].
  exfalso. apply in_ranges_cases in H. unfold cls_word in H.
  repeat match goal with
         | Hx : Exists _ (_ :: _) |- _ => inversion Hx; subst; clear Hx
         | Hx : Exists _ [] |- _ => inversion Hx
         end; cbn [fst snd] in *; pattern_char_absurd E.
Qed.

(** A character that does not end a word is a dollar sign or has no
    meaning of its own in a pattern. *)
Lemma word_end_class_ok x :
  in_ranges cls_word_end x = false -> word_char_ok x = true.
Proof.
  intros H. unfold word_char_ok.
  destruct (N.eqb_spec x c_dollar) as [ | Hd]; [reflexivity | ].
  destruct (N.eqb_spec x c_dot) as [ | Hp]; [reflexivity | ].
  destruct (existsb (N.eqb x) pattern_chars) eqn:E; [ | reflexivity].
  exfalso. apply pattern_char_cases in E.
  cbv [pattern_chars lit] in E. cbn in E.
  repeat (destruct E as [E | E];
          [try (subst x; vm_compute in H; discriminate);
           try (now subst x) | ]).
  contradiction.
Qed.

Lemma digit_class_word x :
  in_ranges cls_digit x = true -> in_ranges cls_word x = true.
Proof.
  intros H. apply in_ranges_cases in H. unfold cls_digit in H.
  inversion H as [r l Hr | r l Hr]; subst; [ | inversion Hr].
  cbn [fst snd] in Hr. unfold in_ranges, cls_word. cbn [existsb fst snd].
  replace (N.leb 48 x) with true by (symmetry; apply N.leb_le; lia).
  replace (N.leb x 57) with true by (symmetry; apply N.leb_le; lia).
  reflexivity.
Qed.

Lemma rm_word_pattern b w a :
  rm false rx_word_pattern b w a ->
  Forall (fun c => word_char_ok c = true) w.
Proof.
  intros R. cbv [rx_word_pattern RCat ROpt RPlus] in R.
  inversion R as [ | | | | r1 r2 b0 w0 a0 R1 | r1 r2 b0 w0 a0 R1
                 | | | | | | | | | ]; subst; clear R.
  - (* a number *)
    inversion R1 as [ | | | | | | | | n r b0 w0 a0 R2 | | | | | | ]; subst.
    inversion R2 as [ | | | r1 r2 b0 w1 w2 a0 Ra Rb | | | | | | | | | | | ];
      subst.
    inversion Rb as [ | | | r1 r2 b0 w3 w4 a0 Rc Rd | | | | | | | | | | | ];
      subst.
    inversion Rd as [ | | | r1 r2 b0 w5 w6 a0 Re Rf | | | | | | | | | | | ];
      subst.
    inversion Rf as [ | | | r1 r2 b0 w7 w8 a0 Rg Rh | | | | | | | | | | | ];
      subst.
    apply rm_star_class in Rc. apply rm_star_class in Rh.
    inversion Re; subst. inversion Rg; subst.
    repeat (apply Forall_app; split).
    + inversion Ra as [ | | | | r1 r2 b0 w0 a0 Ro | r1 r2 b0 w0 a0 Ro
                      | | | | | | | | | ]; subst; inversion Ro; subst;
        [ | constructor].
      constructor; [ | constructor].
      match goal with
      | Hx : chr_eq false _ _ = true |- _ => apply chr_eq_exact in Hx; subst
      end.
      reflexivity.
    + eapply Forall_impl; [ | exact Rc]. intros c Hc.
      change (in_class false cls_digit c = true) in Hc.
      rewrite in_class_plain in Hc.
      now apply word_class_ok, digit_class_word.
    + constructor; [ | constructor].
      match goal with
      | Hx : chr_eq false _ _ = true |- _ => apply chr_eq_exact in Hx; subst
      end.
      reflexivity.
    + constructor; [ | constructor].
      match goal with
      | Hx : xorb false (in_class false cls_digit ?y) = true |- _ =>
          change (in_class false cls_digit y = true) in Hx;
          rewrite in_class_plain in Hx
      end.
      now apply word_class_ok, digit_class_word.
    + eapply Forall_impl; [ | exact Rh]. intros c Hc.
      change (in_class false cls_word c = true) in Hc.
      rewrite in_class_plain in Hc. now apply word_class_ok.
  - (* a run of characters that end no word *)
    inversion R1 as [ | | | | | | | | n r b0 w0 a0 R2 | | | | | | ]; subst.
    inversion R2 as [ | | | r1 r2 b0 w1 w2 a0 Ra Rb | | | | | | | | | | | ];
      subst.
    apply rm_star_class in Rb. inversion Ra; subst.
    apply Forall_app. split.
    + constructor; [ | constructor].
      match goal with
      | Hx : xorb true (in_class false cls_word_end ?y) = true |- _ =>
          change (negb (in_class false cls_word_end y) = true) in Hx;
          rewrite in_class_plain in Hx; apply negb_true_iff in Hx
      end.
      now apply word_end_class_ok.
    + eapply Forall_impl; [ | exact Rb]. intros c Hc.
      change (negb (in_class false cls_word_end c) = true) in Hc.
      rewrite in_class_plain in Hc. apply negb_true_iff in Hc.
      now apply word_end_class_ok.
Qed.

(** X13.  A word that the word pattern of the language finds in a text
    holds none of the characters that open, close or repeat a part of a
    pattern, nor a backslash, a caret or a bar: the only characters of a
    word with a meaning of their own in a pattern are the dot and the
    dollar sign. *)
Theorem word_pattern_words_plain text m :
  In m (exec_all (ignoreCase (wordPattern db2sqlLanguageConfiguration))
          (rx (wordPattern db2sqlLanguageConfiguration)) text) ->
  forallb word_char_ok (m_text m) = true /\
  Forall (fun c => ~ In c (lit "\^|?*+()[]{}")) (m_text m).
Proof.
  intros H. cbn [db2sqlLanguageConfiguration wordPattern rx ignoreCase] in H.
  apply exec_all_sound in H.
  destruct H as (p & w & a & _ & _ & Hw & _ & R).
  rewrite Hw. apply rm_word_pattern in R. split.
  - apply forallb_forall. rewrite Forall_forall in R. exact R.
  - eapply Forall_impl; [ | exact R]. intros c Hc Hin.
    unfold word_char_ok in Hc.
    cbv [lit] in Hin. cbn in Hin.
    repeat (destruct Hin as [<- | Hin]; [vm_compute in Hc; discriminate | ]).
    contradiction.
Qed.

Lemma word_pattern_words_plain_witness :
  forallb word_char_ok
    (m_text (nth 1 (exec_all false rx_word_pattern (lit "FROM T$1 X"))
               (RxMatch 0 0 [] [])))
  = true.
Proof.
  apply (@word_pattern_words_plain (lit "FROM T$1 X")
           (nth 1 (exec_all false rx_word_pattern (lit "FROM T$1 X"))
              (RxMatch 0 0 [] []))).
  vm_compute. right. left. reflexivity.
Defined.

(** ** The folding markers *)

Lemma rm_RStr_exact : forall (s : str) b w a,
  rm false (RStr s) b w a -> w = s.
Proof.
  unfold RStr. induction s as [ | y s IH]; intros b w a H.
  - simpl in H. now inversion H.
  - destruct s as [ | z s].
    + simpl in H. inversion H; subst.
      match goal with
      | Hx : chr_eq false _ _ = true |- _ => apply chr_eq_exact in Hx
      end.
      now subst.
    + change (RCat (map RChr (y :: z :: s)))
        with (RSeq (RChr y) (RCat (map RChr (z :: s)))) in H.
      inversion H as [ | | | r1 r2 b0 w1 w2 a0 R1 R2 | | | | | | | | | | | ];
        subst.
      apply IH in R2. inversion R1; subst.
      match goal with
      | Hx : chr_eq false _ _ = true |- _ => apply chr_eq_exact in Hx
      end.
      now subst.
Qed.

Lemma first_nonspace_unique : forall (ws ws' : str) c c' x x',
  ws ++ c :: x = ws' ++ c' :: x' ->
  Forall (fun y => is_space y = true) ws ->
  Forall (fun y => is_space y = true) ws' ->
  is_space c = false -> is_space c' = false ->
  ws = ws' /\ c = c' /\ x = x'.
Proof.
  induction ws as [ | y ws IH]; intros ws' c c' x x' E H H' Hc Hc'.
  - destruct ws' as [ | y' ws'].
    + injection E as -> ->. auto.
    + injection E as -> _. inversion H'; subst. congruence.
  - destruct ws' as [ | y' ws'].
    + injection E as <- _. inversion H; subst. congruence.
    + injection E as -> E. inversion H; subst. inversion H'; subst.
      destruct (IH _ _ _ _ _ E) as (-> & -> & ->); auto.
Qed.

(** A match of a folding marker: white space, two minus signs, white
    space, an optional number sign and the word. *)
Lemma region_shape (word : string) b w a :
  rm false (rx_region word) b w a ->
  exists ws1 ws2 h,
    b = [] /\ w = ws1 ++ lit "--" ++ ws2 ++ h ++ lit word /\
    Forall (fun y => is_space y = true) ws1 /\
    Forall (fun y => is_space y = true) ws2 /\
    (h = [] \/ h = [35%N]).
Proof.
  intros R. cbv [rx_region RCat rx_sp_star RSp ROpt] in R.
  inversion R as [ | | | r1 r2 b0 w1 w2 a0 R1 R2 | | | | | | | | | | | ]; subst.
  inversion R2 as [ | | | r1 r2 b0 w3 w4 a0 R3 R4 | | | | | | | | | | | ]; subst.
  inversion R4 as [ | | | r1 r2 b0 w5 w6 a0 R5 R6 | | | | | | | | | | | ]; subst.
  inversion R6 as [ | | | r1 r2 b0 w7 w8 a0 R7 R8 | | | | | | | | | | | ]; subst.
  inversion R8 as [ | | | r1 r2 b0 w9 w10 a0 R9 R10 | | | | | | | | | | | ];
    subst.
  inversion R10 as [ | | | r1 r2 b0 w11 w12 a0 R11 R12 | | | | | | | | | | | ];
    subst.
  inversion R1; subst. inversion R12; subst.
  apply rm_star_space in R3. apply rm_star_space in R7.
  apply rm_RStr_exact in R5. apply rm_RStr_exact in R11. subst.
  exists w3, w7, w9. rewrite app_nil_r. cbn [app].
  repeat split; auto.
  inversion R9 as [ | | | | r1 r2 b0 w0 a0 Ro | r1 r2 b0 w0 a0 Ro
                  | | | | | | | | | ]; subst; inversion Ro; subst;
    [right | now left].
  match goal with
  | Hx : chr_eq false _ _ = true |- _ => apply chr_eq_exact in Hx
  end.
  now subst.
Qed.

Lemma matches_region (word : string) line :
  test false (rx_region word) line = true ->
  exists ws1 ws2 h a,
    line = ws1 ++ lit "--" ++ ws2 ++ h ++ lit word ++ a /\
    Forall (fun y => is_space y = true) ws1 /\
    Forall (fun y => is_space y = true) ws2 /\
    (h = [] \/ h = [35%N]).
Proof.
  unfold test. intros H.
  destruct (search false (rx_region word) [] line) as [[i st] | ] eqn:Es;
    [ | discriminate].
  apply search_sound in Es.
  destruct Es as (p & w & a & E & _ & R & _).
  apply region_shape in R.
  destruct R as (ws1 & ws2 & h & Hb & -> & H1 & H2 & Hh).
  rewrite app_nil_r in Hb.
  assert (Hp : p = []).
  { destruct p as [ | c p]; [reflexivity | ].
    simpl in Hb. now destruct (rev p). }
  subst p. exists ws1, ws2, h, a. repeat split; auto.
  rewrite E. cbn [app]. now rewrite <- !app_assoc.
Qed.

(** X14.  No line is both the start and the end of a folding region: the
    two markers of the language configuration never match the same
    line.  A comment that starts with [region] or [#region] is a start,
    one that starts with [endregion] or [#endregion] is an end. *)
Theorem folding_markers_exclusive line :
  (matches (markers_start (folding db2sqlLanguageConfiguration)) line &&
   matches (markers_end (folding db2sqlLanguageConfiguration)) line)%bool
  = false
  /\
  matches (markers_start (folding db2sqlLanguageConfiguration))
    (lit "  -- #region Queries") = true
  /\
  matches (markers_end (folding db2sqlLanguageConfiguration))
    (lit "--endregion") = true
  /\
  matches (markers_start (folding db2sqlLanguageConfiguration))
    (lit "-- regions") = false.
Proof.
  split; [ | repeat split; vm_compute; reflexivity].
  unfold matches. cbn [db2sqlLanguageConfiguration folding markers_start
                       markers_end rx ignoreCase].
  destruct (test false (rx_region "region") line) eqn:Hs; [ | reflexivity].
  destruct (test false (rx_region "endregion") line) eqn:He;
    [ | reflexivity].
  exfalso.
  apply matches_region in Hs. apply matches_region in He.
  destruct Hs as (ws1 & ws2 & h & a & E & H1 & H2 & Hh).
  destruct He as (ws1' & ws2' & h' & a' & E' & H1' & H2' & Hh').
  rewrite E in E'.
  change (lit "--") with [c_minus; c_minus] in E'. cbn [app] in E'.
  apply first_nonspace_unique in E'; try assumption; try reflexivity.
  destruct E' as (_ & _ & E'). injection E' as E'.
  change (lit "region") with (114%N :: lit "egion") in E'.
  change (lit "endregion") with (101%N :: lit "ndregion") in E'.
  destruct Hh as [-> | ->], Hh' as [-> | ->]; cbn [app] in E';
    apply first_nonspace_unique in E'; try assumption; try reflexivity;
    destruct E' as (_ & Hc & Hx); first [discriminate Hc | discriminate Hx].
Qed.

(** ** The suggestions of the completion provider *)

Section Items.

Variable catalogs : Catalogs.
Variable schemaConfig : option DB2SchemaConfig.
Variable r : IRange.

Lemma item_ok_intro l k i rules dt doc ft (d : char) :
  (48 <= d <= 54)%N ->
  item_ok r (mkItem l k i rules r dt doc (d :: l) ft).
Proof. intros H. split; [reflexivity | ]. exists d. auto. Qed.

Lemma Forall_map_items {A : Type} (f : A -> CompletionItem) (l : list A) :
  (forall x, item_ok r (f x)) -> Forall (item_ok r) (map f l).
Proof. intros H. induction l; simpl; constructor; auto. Qed.

Lemma Forall_flat_map_items {A : Type} (f : A -> list CompletionItem)
  (l : list A) :
  (forall x, Forall (item_ok r) (f x)) -> Forall (item_ok r) (flat_map f l).
Proof.
  intros H. induction l; simpl; [constructor | ]. apply Forall_app. auto.
Qed.

Lemma fold_left_items {A : Type}
  (f : list CompletionItem -> A -> list CompletionItem) :
  (forall acc x, Forall (item_ok r) acc -> Forall (item_ok r) (f acc x)) ->
  forall l acc, Forall (item_ok r) acc ->
                Forall (item_ok r) (fold_left f l acc).
Proof.
  intros H. induction l as [ | x l IH]; intros acc Ha; simpl; auto.
Qed.

Ltac items :=
  repeat match goal with
    | |- Forall _ (_ ++ _) => apply Forall_app; split
    | |- Forall _ (map _ _) => apply Forall_map_items; intros
    | |- Forall _ (flat_map _ _) => apply Forall_flat_map_items; intros
    | |- Forall _ [] => constructor
    | |- Forall _ (_ :: _) => constructor
    | |- Forall _ (fold_left _ _ _) => apply fold_left_items; intros
    | |- Forall _ (if ?c then _ else _) => destruct c
    | |- Forall _ (match ?x with _ => _ end) => destruct x
    | |- Forall _ (let _ := _ in _) => cbv zeta
    | |- item_ok _ (mkItem _ _ _ _ _ _ _ ([?d] ++ _) _) =>
        apply (@item_ok_intro _ _ _ _ _ _ _ d); lia
    | |- item_ok _ (mkItem _ _ _ _ _ _ _ (?d :: _) _) =>
        apply (@item_ok_intro _ _ _ _ _ _ _ d); lia
    | |- item_ok _ (word_item _ _ _ _ _) =>
        unfold word_item; apply item_ok_intro; lia
    | |- item_ok _ (cte_column_item _ _ _ _) =>
        unfold cte_column_item; apply (@item_ok_intro _ _ _ _ _ _ _ 48%N);
        lia
    | |- item_ok _ _ => cbv zeta
    end; auto.

Lemma catalog_items_ok : Forall (item_ok r) (catalog_items catalogs r).
Proof. unfold catalog_items. items. Qed.

Lemma wildcard_items_ok fullTextForCTE srcCte suggestions :
  Forall (item_ok r) suggestions ->
  Forall (item_ok r)
    (wildcard_items schemaConfig r fullTextForCTE srcCte suggestions).
Proof. intros H. unfold wildcard_items. items. Qed.

Lemma main_query_items_ok fullTextForCTE parsedCTEs lastEnd cursorOffset l :
  main_query_items r fullTextForCTE parsedCTEs lastEnd cursorOffset = Some l ->
  Forall (item_ok r) l.
Proof.
  unfold main_query_items. cbv zeta.
  repeat match goal with
         | |- context [if ?c then _ else _] => destruct c
         | |- context [match ?x with _ => _ end] => destruct x
         end; try discriminate;
    intros H; injection H as <-; items.
Qed.

Lemma inside_cte_step_ok fullTextForCTE parsedCTEs state fromTableName :
  Forall (item_ok r) (fst state) ->
  Forall (item_ok r)
    (fst (inside_cte_step schemaConfig r fullTextForCTE parsedCTEs state
            fromTableName)).
Proof.
  intros H. unfold inside_cte_step. cbv zeta.
  destruct (find_cte _ parsedCTEs) as [srcCte | ]; cbn [fst snd].
  - apply wildcard_items_ok. items.
  - destruct (negb (snd state) && _)%bool; [ | exact H].
    destruct (find _ (getAllTables schemaConfig)) as [t | ]; [ | exact H].
    cbn [fst]. items.
Qed.

Lemma inside_cte_fold_ok fullTextForCTE parsedCTEs : forall l state,
  Forall (item_ok r) (fst state) ->
  Forall (item_ok r)
    (fst (fold_left
            (inside_cte_step schemaConfig r fullTextForCTE parsedCTEs) l
            state)).
Proof.
  induction l as [ | x l IH]; intros state H; simpl; auto.
  apply IH. now apply inside_cte_step_ok.
Qed.

Lemma inside_cte_items_ok fullTextForCTE parsedCTEs cte cursorOffset ctx l :
  inside_cte_items schemaConfig r fullTextForCTE parsedCTEs cte cursorOffset
    ctx = Some l ->
  Forall (item_ok r) l.
Proof.
  unfold inside_cte_items. cbv zeta.
  destruct (_ && _)%bool; [ | discriminate].
  pose proof (@inside_cte_fold_ok fullTextForCTE parsedCTEs (fromTables cte)
                ([], false) (Forall_nil _)) as Hf.
  match goal with
  | |- (if snd ?x then _ else _) = _ -> _ => destruct (snd x)
  end; [ | discriminate].
  intros H. injection H as <-. items.
Qed.

Lemma schema_items_ok cfg fullTextForCTE ctx :
  Forall (item_ok r) (fst (schema_items schemaConfig r cfg fullTextForCTE ctx)).
Proof.
  unfold schema_items. cbv zeta.
  repeat match goal with
         | |- context [match ?x with _ => _ end] => destruct x; cbn [fst]
         end; items.
Qed.

End Items.

(** X15.  Every suggestion of the completion provider replaces the word
    before the cursor, on the line of the cursor, and sorts by a digit from
    0 to 6 followed by its label. *)
Theorem provideCompletionItems_items catalogs gw schemaConfig model position :
  Forall (item_ok (word_range gw model position))
    (provideCompletionItems catalogs gw schemaConfig model position).
Proof.
  unfold provideCompletionItems, word_range.
  destruct (in_line_comment model position); [constructor | ].
  destruct (in_block_comment model position); [constructor | ].
  cbv zeta.
  set (r := mkRange (Monaco.lineNumber position) (Monaco.lineNumber position)
              (fst (gw model position)) (snd (gw model position))).
  match goal with
  | |- context [if ?c then main_query_items _ _ _ _ _ else None] =>
      destruct (if c then main_query_items r (Monaco.getValue model)
                            (parseCTEs (Monaco.getValue model))
                            (last_cte_end (parseCTEs (Monaco.getValue model)))
                            (cursor_offset model position)
                else None) as [l | ] eqn:Em
  end.
  { destruct (_ && _)%bool; [ | discriminate].
    eapply main_query_items_ok, Em. }
  match goal with
  | |- Forall _ match ?x with _ => _ end => destruct x as [l | ] eqn:Ei
  end.
  { destruct (find _ _) as [cte | ]; [ | discriminate].
    destruct (match truthy _ with Some _ => false | None => true end);
      [ | discriminate].
    eapply inside_cte_items_ok, Ei. }
  destruct schemaConfig as [cfg | ].
  - pose proof (@schema_items_ok (Some cfg) r cfg (Monaco.getValue model)
                  (getSQLContext model position)) as Hs.
    destruct (snd (schema_items (Some cfg) r cfg (Monaco.getValue model)
                     (getSQLContext model position))); [exact Hs | ].
    apply Forall_app. split; [exact Hs | apply catalog_items_ok].
  - cbn [fst snd app]. apply catalog_items_ok.
Qed.

(** X16.  Without a schema, on a text without the word WITH, the
    suggestions do not depend on the place of the cursor in the statement:
    they are the word lists, the functions, the data types and the snippet
    templates, or nothing when one of the two tests finds the cursor in a
    comment. *)
Theorem provideCompletionItems_without_schema catalogs gw model position :
  contains_ci (lit "WITH") (Monaco.getValue model) = false ->
  provideCompletionItems catalogs gw None model position
  = if (in_line_comment model position || in_block_comment model position)%bool
    then []
    else catalog_items catalogs (word_range gw model position).
Proof.
  intros H. unfold provideCompletionItems, word_range.
  destruct (in_line_comment model position); [reflexivity | ].
  destruct (in_block_comment model position); [reflexivity | ].
  cbv zeta. rewrite (parseCTEs_without_with _ H). reflexivity.
Qed.

Lemma provideCompletionItems_without_schema_witness :
  provideCompletionItems (mkCatalogs [] [] [] [] [] [] [] [] [] [])
    (fun _ _ => (8, 8)) None [lit "SELECT "] (Monaco.mkPosition 1 8)
  = if (in_line_comment [lit "SELECT "] (Monaco.mkPosition 1 8) ||
        in_block_comment [lit "SELECT "] (Monaco.mkPosition 1 8))%bool
    then []
    else catalog_items (mkCatalogs [] [] [] [] [] [] [] [] [] [])
           (word_range (fun _ _ => (8, 8)) [lit "SELECT "]
              (Monaco.mkPosition 1 8)).
Proof.
  apply (@provideCompletionItems_without_schema
           (mkCatalogs [] [] [] [] [] [] [] [] [] []) (fun _ _ => (8, 8))
           [lit "SELECT "] (Monaco.mkPosition 1 8)).
  reflexivity.
Defined.

(** ** Suggestions inside comments *)

Lemma quotes_open_none : forall (s : str) b,
  Forall (fun c => c <> c_quote) s ->
  fold_left (fun inString c => if N.eqb c c_quote then negb inString
                               else inString) s b = b.
Proof.
  induction s as [ | c s IH]; intros b H; [reflexivity | ].
  inversion H as [ | ? ? Hc Hs]; subst. simpl.
  rewrite (neq_eqb_false Hc). now apply IH.
Qed.

Lemma indexOf_from_contains p : forall s i,
  contains p s = true -> exists j, indexOf_from p s i = Some j /\ i <= j.
Proof.
  induction s as [ | c s IH]; intros i H; simpl in *.
  - rewrite orb_false_r in H. rewrite H. exists i. auto.
  - destruct (starts_with p (c :: s)); [exists i; auto | ].
    simpl in H. destruct (IH (S i) H) as (j & Hj & Hl).
    exists j. split; [exact Hj | lia].
Qed.

Lemma in_line_comment_plain model position :
  Forall (fun c => c <> c_quote) (text_before_cursor model position) ->
  contains (lit "--") (text_before_cursor model position) = true ->
  in_line_comment model position = true.
Proof.
  intros Hq Hc. unfold in_line_comment. cbv zeta.
  destruct (@indexOf_from_contains (lit "--")
              (text_before_cursor model position) 0 Hc) as (j & Hj & _).
  unfold indexOf. change [c_minus; c_minus] with (lit "--"). rewrite Hj.
  unfold quotes_open. rewrite quotes_open_none; [reflexivity | ].
  rewrite <- (firstn_skipn j (text_before_cursor model position)) in Hq.
  now apply Forall_app in Hq.
Qed.

Lemma starts_with_pair (a b x y : char) (r : str) :
  starts_with [a; b] (x :: y :: r) = true -> a = x /\ b = y.
Proof.
  cbn [starts_with]. intros H. apply andb_prop in H. destruct H as [H1 H2].
  apply andb_prop in H2. destruct H2 as [H2 _].
  apply N.eqb_eq in H1. apply N.eqb_eq in H2. auto.
Qed.

Lemma block_comment_scan_eq ch next rest' d inStr :
  block_comment_scan (ch :: next :: rest') d inStr =
  if (N.eqb ch c_quote && negb inStr)%bool
  then block_comment_scan (next :: rest') d true
  else if (N.eqb ch c_quote && inStr)%bool
  then block_comment_scan (next :: rest') d false
  else if negb inStr then
    if (N.eqb ch c_slash && N.eqb next c_star)%bool
    then block_comment_scan rest' (d + 1)%Z inStr
    else if (N.eqb ch c_star && N.eqb next c_slash)%bool
    then block_comment_scan rest' (d - 1)%Z inStr
    else block_comment_scan (next :: rest') d inStr
  else block_comment_scan (next :: rest') d inStr.
Proof. reflexivity. Qed.

(** The scan for block comments on a text without quotes and without the
    closing delimiter: the counter does not go down, and goes up when the
    text holds an opening delimiter. *)
Lemma block_comment_scan_open : forall n (s : str) d,
  length s <= n ->
  Forall (fun c => c <> c_quote) s ->
  contains (lit "*/") s = false ->
  (d <= block_comment_scan s d false)%Z /\
  (contains (lit "/*") s = true -> (d < block_comment_scan s d false)%Z).
Proof.
  induction n as [ | n IH]; intros s d Hl Hq Hc.
  - destruct s; [ | simpl in Hl; lia]. simpl. split; [lia | discriminate].
  - destruct s as [ | ch rest]; [simpl; split; [lia | discriminate] | ].
    destruct rest as [ | next rest'].
    + cbn [block_comment_scan]. split; [lia | ].
      change (lit "/*") with [c_slash; c_star].
      cbn [contains starts_with]. rewrite !andb_false_r. discriminate.
    + inversion Hq as [ | ? ? Hch Hr]; subst.
      inversion Hr as [ | ? ? Hnx Hr']; subst.
      apply contains_cons_false in Hc. destruct Hc as [Hs Hc].
      rewrite block_comment_scan_eq.
      rewrite (neq_eqb_false Hch). cbn [andb negb].
      assert (Hc' : contains (lit "*/") rest' = false)
        by (now apply contains_cons_false in Hc).
      cbn [length] in Hl.
      destruct (N.eqb_spec ch c_slash) as [-> | Hsl];
        [destruct (N.eqb_spec next c_star) as [-> | Hst] | ]; cbn [andb].
      * destruct (IH rest' (d + 1)%Z) as [H1 _]; auto; [lia | ].
        split; [lia | intros _; lia].
      * assert (Ea : (N.eqb c_slash c_star && N.eqb next c_slash)%bool
                     = false) by reflexivity.
        rewrite Ea.
        destruct (IH (next :: rest') d) as [H1 H2]; auto; [simpl; lia | ].
        split; [exact H1 | ]. intros Hx. apply H2.
        cbn [contains] in Hx. apply orb_prop in Hx.
        destruct Hx as [Hx | Hx]; [ | exact Hx].
        change (lit "/*") with [c_slash; c_star] in Hx.
        apply starts_with_pair in Hx. destruct Hx as [_ Hx]. congruence.
      * assert (Eb : (N.eqb ch c_star && N.eqb next c_slash)%bool = false).
        { destruct (N.eqb_spec ch c_star) as [-> | ]; [ | reflexivity].
          destruct (N.eqb_spec next c_slash) as [-> | ]; [ | reflexivity].
          change (lit "*/") with [c_star; c_slash] in Hs.
          cbn [starts_with] in Hs. rewrite !N.eqb_refl in Hs.
          discriminate Hs. }
        rewrite Eb.
        destruct (IH (next :: rest') d) as [H1 H2]; auto; [simpl; lia | ].
        split; [exact H1 | ]. intros Hx. apply H2.
        cbn [contains] in Hx. apply orb_prop in Hx.
        destruct Hx as [Hx | Hx]; [ | exact Hx].
        change (lit "/*") with [c_slash; c_star] in Hx.
        apply starts_with_pair in Hx. destruct Hx as [Hx _]. congruence.
Qed.

(** X17.  When no quote precedes the cursor, the provider suggests nothing
    after a [--] of the line of the cursor, and nothing after the opening
    delimiter of a block comment that no closing delimiter follows before
    the cursor. *)
Theorem provideCompletionItems_in_comment catalogs gw schemaConfig model
  position :
  (Forall (fun c => c <> c_quote) (text_before_cursor model position) ->
   contains (lit "--") (text_before_cursor model position) = true ->
   provideCompletionItems catalogs gw schemaConfig model position = [])
  /\
  (Forall (fun c => c <> c_quote) (Monaco.getValueUntil model position) ->
   contains (lit "*/") (Monaco.getValueUntil model position) = false ->
   contains (lit "/*") (Monaco.getValueUntil model position) = true ->
   provideCompletionItems catalogs gw schemaConfig model position = []).
Proof.
  split.
  - intros Hq Hc. apply provider_suppressed.
    now rewrite in_line_comment_plain.
  - intros Hq Hc Ho. apply provider_suppressed.
    unfold in_block_comment. cbv zeta.
    destruct (@block_comment_scan_open _ _ 0%Z (le_n _) Hq Hc) as [_ H].
    apply H in Ho. apply Z.ltb_lt in Ho. rewrite Ho. apply orb_true_r.
Qed.

(** Nothing is suggested at the end of [SELECT 1 -- x]. *)
Lemma provideCompletionItems_in_comment_witness :
  provideCompletionItems (mkCatalogs [] [] [] [] [] [] [] [] [] [])
    (fun _ _ => (14, 14)) (Some employees_schema) [lit "SELECT 1 -- x"]
    (Monaco.mkPosition 1 14) = [].
Proof.
  apply (proj1 (provideCompletionItems_in_comment
                  (mkCatalogs [] [] [] [] [] [] [] [] [] [])
                  (fun _ _ => (14, 14)) (Some employees_schema)
                  [lit "SELECT 1 -- x"] (Monaco.mkPosition 1 14))).
  - vm_compute. repeat constructor; discriminate.
  - reflexivity.
Defined.

(** ** The offsets of the parsed CTEs *)

Lemma toUpperCase_idem s : toUpperCase (toUpperCase s) = toUpperCase s.
Proof.
  unfold toUpperCase. rewrite map_map. apply map_ext. apply upper_char_idem.
Qed.

Lemma chr_eq_paren x : chr_eq true x c_lparen = true -> x = c_lparen.
Proof.
  unfold chr_eq, swapcase, is_lower, is_upper, c_lparen. cbn [andb].
  intros Hx. apply orb_prop in Hx. destruct Hx as [Hx | Hx];
    [now apply N.eqb_eq in Hx | ].
  revert Hx.
  destruct (N.leb_spec 97 x), (N.leb_spec x 122), (N.leb_spec 65 x),
    (N.leb_spec x 90); cbn [andb]; intros Hx; apply N.eqb_eq in Hx; lia.
Qed.

(** A match of [ctePattern] ends with the opening parenthesis. *)
Lemma ctePattern_shape b w a :
  rm true ctePattern b w a -> exists u, w = u ++ [c_lparen].
Proof.
  intros R. cbv [ctePattern RCat] in R.
  inversion R as [ | | | r1 r2 b0 w1 w2 a0 R1 R2 | | | | | | | | | | | ]; subst.
  inversion R2 as [ | | | r1 r2 b0 w3 w4 a0 R3 R4 | | | | | | | | | | | ]; subst.
  inversion R4 as [ | | | r1 r2 b0 w5 w6 a0 R5 R6 | | | | | | | | | | | ]; subst.
  inversion R6 as [ | | | r1 r2 b0 w7 w8 a0 R7 R8 | | | | | | | | | | | ]; subst.
  inversion R8; subst.
  match goal with
  | Hx : chr_eq true _ _ = true |- _ => apply chr_eq_paren in Hx; subst
  end.
  exists (w1 ++ w3 ++ w5 ++ w7). now rewrite <- !app_assoc.
Qed.

Lemma find_close_spec (text : str) : forall (s pre : str) pos depth inStr,
  text = pre ++ s -> pos = length pre ->
  (depth = 0 -> nth_error text (pos - 1) = Some c_rparen /\ 0 < pos) ->
  let r := find_close s pos depth inStr in
  pos <= r /\ r <= length text /\
  (r = length text \/ (nth_error text (r - 1) = Some c_rparen /\ 0 < r)).
Proof.
  induction s as [ | c s IH]; intros pre pos depth inStr E Hpos H0; cbv zeta.
  - cbn [find_close]. subst text. rewrite app_nil_r. subst pos. auto.
  - assert (El : S pos = length (pre ++ [c]))
      by (rewrite length_app; simpl; lia).
    assert (E' : text = (pre ++ [c]) ++ s) by (now rewrite <- app_assoc).
    assert (Hlen : pos < length text)
      by (subst text; rewrite length_app; simpl; lia).
    assert (Hc : nth_error text (S pos - 1) = Some c).
    { replace (S pos - 1) with (length pre) by lia.
      subst text. rewrite nth_error_app2, Nat.sub_diag by lia. reflexivity. }
    assert (Hstep : forall depth' inStr',
               (depth' = 0 -> c = c_rparen) ->
               let r := find_close s (S pos) depth' inStr' in
               pos <= r /\ r <= length text /\
               (r = length text \/
                (nth_error text (r - 1) = Some c_rparen /\ 0 < r))).
    { intros depth' inStr' Hd. cbv zeta.
      destruct (IH (pre ++ [c]) (S pos) depth' inStr' E' El)
        as (H1 & H2 & H3).
      - intros Hz. rewrite Hc, (Hd Hz). split; [reflexivity | lia].
      - repeat split; auto; lia. }
    cbn [find_close].
    destruct (Nat.eqb_spec depth 0) as [Hz | Hnz].
    + destruct (H0 Hz) as [Hn Hp]. repeat split; try lia. right.
      split; [exact Hn | exact Hp].
    + repeat match goal with
             | |- context [if ?b then _ else _] => destruct b eqn:?
             end; apply Hstep; intros Hd; try lia.
      match goal with
      | Hq : N.eqb c c_rparen = true |- _ => now apply N.eqb_eq in Hq
      end.
Qed.

Lemma parse_column_upper expr :
  Forall (fun c => toUpperCase (cc_name c) = cc_name c) (parse_column expr).
Proof.
  unfold parse_column. cbv zeta.
  repeat match goal with
         | |- Forall _ (if ?c then _ else _) => destruct c
         | |- Forall _ (match ?x with _ => _ end) => destruct x
         end; repeat constructor; apply toUpperCase_idem.
Qed.

Lemma parse_one_cte_in_text (text : str) m p w a :
  text = p ++ w ++ a -> m_index m = length p -> m_text m = w ->
  rm true ctePattern (rev p) w a ->
  cte_in_text text (parse_one_cte text m).
Proof.
  intros E Hi Hw R. apply ctePattern_shape in R. destruct R as (u & Eu).
  assert (Hlw : length w = length u + 1)
    by (rewrite Eu, length_app; simpl; lia).
  unfold parse_one_cte. cbv zeta. rewrite Hi, Hw.
  replace (length p + length w - 1 + 1) with (length (p ++ w))
    by (rewrite length_app; lia).
  assert (Es : skipn (length (p ++ w)) text = a).
  { rewrite E, app_assoc. rewrite skipn_app, skipn_all, Nat.sub_diag.
    reflexivity. }
  rewrite Es.
  assert (E' : text = (p ++ w) ++ a) by (now rewrite <- app_assoc).
  destruct (@find_close_spec text a (p ++ w) (length (p ++ w)) 1 false E'
              eq_refl) as (H1 & H2 & H3); [intros Hz; discriminate | ].
  set (pos := find_close a (length (p ++ w)) 1 false) in *.
  unfold cte_in_text.
  cbn [startOffset bodyStartOffset endOffset bodyEndOffset name columns
       fromTables].
  rewrite length_app in *.
  repeat split; try lia.
  - replace (length p + length w - 1) with (length (p ++ u))
      by (rewrite length_app; lia).
    rewrite E, Eu, <- !app_assoc. rewrite app_assoc.
    rewrite nth_error_app2, Nat.sub_diag by lia. reflexivity.
  - destruct H3 as [H3 | [H3 _]]; [now left | now right].
  - apply toUpperCase_idem.
  - destruct (str_match true rx_select_clause _); [ | constructor].
    apply Forall_flat_map. apply Forall_forall. intros e _.
    apply parse_column_upper.
  - apply Forall_forall. intros t Ht. apply in_map_iff in Ht.
    destruct Ht as (fm & <- & _). apply toUpperCase_idem.
Qed.

Lemma exec_loop_sorted ic r (text : str) : forall fuel (bef aft : str),
  text = rev bef ++ aft ->
  ForallOrdPairs (fun m1 m2 => m_end m1 <= m_index m2)
    (exec_loop fuel ic r text bef aft).
Proof.
  induction fuel as [ | fuel IH]; intros bef aft E; [constructor | ].
  simpl. destruct (search ic r bef aft) as [[i st] | ] eqn:Es;
    [ | constructor].
  apply search_sound in Es.
  destruct Es as (p & w & a' & Ea & Ei & R & Hb & Ha).
  assert (E' : text = rev (before st) ++ after st).
  { rewrite Hb, Ha, E, Ea, !rev_app_distr, !rev_involutive.
    now rewrite <- !app_assoc. }
  destruct (Nat.ltb (length (after st)) (length aft));
    constructor; try constructor; auto.
  apply Forall_forall. intros m Hm.
  apply (@exec_loop_sound ic r text m _ _ _ E') in Hm.
  destruct Hm as (p' & w' & a2 & _ & Hi & _ & _ & Hl & _).
  unfold mk_match. cbn [m_end]. lia.
Qed.

Lemma ForallOrdPairs_map_in {A B : Type} (R : A -> A -> Prop)
  (R' : B -> B -> Prop) (f : A -> B) : forall l,
  (forall a b, In a l -> In b l -> R a b -> R' (f a) (f b)) ->
  ForallOrdPairs R l -> ForallOrdPairs R' (map f l).
Proof.
  induction l as [ | x l IH]; intros H S; [constructor | ].
  inversion S as [ | ? ? Hx Sl]; subst. simpl. constructor.
  - apply Forall_forall. intros y Hy. apply in_map_iff in Hy.
    destruct Hy as (b & <- & Hb). rewrite Forall_forall in Hx.
    apply H; [now left | now right | now apply Hx].
  - apply IH; auto. intros a b Ha Hb. apply H; now right.
Qed.

(** X18.  The CTEs that [parseCTEs] returns lie in the text: the body of
    each starts just after an opening parenthesis that comes after the
    start of the CTE, and ends at a closing parenthesis or with the text;
    the names of the CTE, of its columns and of its source tables are in
    upper case.  The CTEs are in the order of the text: the body of one
    starts before the next one does. *)
Theorem parseCTEs_in_text text :
  Forall (cte_in_text text) (parseCTEs text)
  /\
  ForallOrdPairs (fun c1 c2 => bodyStartOffset c1 <= startOffset c2)
    (parseCTEs text).
Proof.
  unfold parseCTEs.
  destruct (str_match true rx_with text); [ | split; constructor].
  split.
  - apply Forall_forall. intros cte Hin. apply in_map_iff in Hin.
    destruct Hin as (m & <- & Hm). apply exec_all_sound in Hm.
    destruct Hm as (p & w & a & E & Hi & Hw & _ & R).
    eapply parse_one_cte_in_text; eauto.
  - apply (@ForallOrdPairs_map_in _ _
             (fun m1 m2 => m_end m1 <= m_index m2)).
    + intros m1 m2 H1 _ Hle. apply exec_all_sound in H1.
      destruct H1 as (p & w & a & E & Hi & Hw & He & R).
      apply ctePattern_shape in R. destruct R as (u & Eu).
      unfold parse_one_cte. cbn [bodyStartOffset startOffset].
      rewrite Hi, Hw. rewrite He in Hle.
      assert (length w = length u + 1)
        by (rewrite Eu, length_app; simpl; lia).
      lia.
    + apply exec_loop_sorted. reflexivity.
Qed.

(** ** The tables of the schema *)

Lemma in_toUpperCase_dot (s : str) : In c_dot (toUpperCase s) -> In c_dot s.
Proof.
  unfold toUpperCase. intros H. apply in_map_iff in H.
  destruct H as (c & Hc & Hin).
  assert (c = c_dot); [ | now subst].
  revert Hc. unfold upper_char, is_lower, c_dot.
  destruct (N.leb_spec 97 c), (N.leb_spec c 122); cbn [andb]; intros Hc; lia.
Qed.

Lemma indexOf_from_absent (c : char) : forall (s : str) i,
  ~ In c s -> indexOf_from [c] s i = None.
Proof.
  induction s as [ | x s IH]; intros i H; [reflexivity | ].
  cbn [indexOf_from starts_with].
  destruct (N.eqb_spec c x) as [-> | _]; [exfalso; apply H; now left | ].
  cbn [andb]. apply IH. intros Hi. apply H. now right.
Qed.

Lemma short_name_plain (s : str) : ~ In c_dot s -> short_name s = s.
Proof.
  intros H. unfold short_name, indexOf.
  now rewrite indexOf_from_absent.
Qed.

Lemma str_mem_in x l : In x l -> str_mem x l = true.
Proof.
  intros H. unfold str_mem. apply existsb_exists. exists x.
  split; [exact H | apply str_eqb_refl].
Qed.

(** The test of [schema_diagnostics] for a table, when the completion
    finds columns for its name. *)
Lemma known_to_completion cfg (n : str) :
  Forall (fun t => ~ In c_dot (tbl_name t)) (getAllTables (Some cfg)) ->
  getColumnsForTable n (Some cfg) <> [] ->
  let allTables := getAllTablesForValidation cfg in
  let tableNames := map (fun t => toUpperCase (tbl_name t)) allTables in
  let fullTableNames :=
    map (fun t => match qualified_upper t with
                  | Some q => q
                  | None => toUpperCase (tbl_name t)
                  end) allTables in
  (str_mem (short_name (toUpperCase n)) tableNames ||
   str_mem (toUpperCase n) fullTableNames)%bool = true.
Proof.
  intros Hd Hc. cbv zeta.
  change (getAllTablesForValidation cfg) with (getAllTables (Some cfg)).
  unfold getColumnsForTable in Hc. cbv zeta in Hc.
  destruct (find _ (getAllTables (Some cfg))) as [t | ] eqn:Ef;
    [ | congruence].
  apply find_some in Ef. destruct Ef as [Hin Ht].
  apply orb_prop in Ht. destruct Ht as [Ht | Ht]; apply str_eqb_eq in Ht.
  - apply orb_true_iff. right. apply str_mem_in.
    rewrite <- Ht. apply in_map_iff. exists t. auto.
  - apply orb_true_iff. left. rewrite <- Ht.
    rewrite short_name_plain.
    + apply str_mem_in. apply in_map_iff. exists t. auto.
    + intros Hi. apply in_toUpperCase_dot in Hi.
      rewrite Forall_forall in Hd. now apply (Hd t).
Qed.

Lemma column_findings text cfg :
  let parsedCTEs := parseCTEs text in
  let allTables := getAllTablesForValidation cfg in
  let tableNames := map (fun t => toUpperCase (tbl_name t)) allTables in
  Forall (fun d => starts_with (lit "Unknown column") (message d) = true)
    (flat_map (column_ref_diag text allTables tableNames parsedCTEs)
       (exec_all false columnRefRegex text) ++
     flat_map (cte_body_diags text allTables parsedCTEs) parsedCTEs ++
     main_query_diags text allTables parsedCTEs).
Proof.
  cbv zeta.
  unfold column_ref_diag, unknown_cte_column_diag, unknown_table_column_diag,
    cte_body_diags, main_query_diags.
  split_cases; reflexivity.
Qed.

(** X19.  For a schema and names of ASCII characters: the validator and
    the completion agree on the tables of a schema whose table names hold
    no dot.  A table name for which the completion finds columns is never
    reported as an unknown table, whatever the text and the letter case of
    the name in it. *)
Theorem completion_tables_known cfg (n x text : str) :
  ascii_schema cfg = true ->
  is_ascii n = true ->
  is_ascii x = true ->
  Forall (fun t => ~ In c_dot (tbl_name t)) (getAllTables (Some cfg)) ->
  getColumnsForTable n (Some cfg) <> [] ->
  toUpperCase x = toUpperCase n ->
  count_message (lit "Unknown table: " ++ x)
    (validateDB2SQL text (Some cfg)) = 0.
Proof.
  intros _ _ _ Hd Hc Hx. apply count_message_none.
  unfold validateDB2SQL. apply Forall_app. split.
  - eapply Forall_impl; [ | apply structural_diagnostics_structural].
    intros d [_ Hu] E. unfold is_unknown_finding in Hu. rewrite E in Hu.
    discriminate Hu.
  - unfold schema_diagnostics. cbv zeta. apply Forall_app. split.
    + apply Forall_flat_map_intro. intros m. unfold unknown_table_diag.
      cbv zeta.
      match goal with
      | |- Forall _ (if ?b then _ else _) => destruct b eqn:Eb
      end; constructor; [ | constructor].
      cbn [message diag_at]. intros E. apply app_inv_head in E.
      rewrite E, Hx in Eb.
      pose proof (@known_to_completion cfg n Hd Hc) as Hk. cbv zeta in Hk.
      apply orb_prop in Hk.
      destruct Hk as [Hk | Hk]; rewrite Hk in Eb;
        rewrite ?orb_true_r in Eb; discriminate Eb.
    + eapply Forall_impl; [ | apply column_findings].
      intros d Hs E. cbv beta in Hs. rewrite E in Hs. discriminate Hs.
Qed.

Lemma completion_tables_known_witness :
  count_message (lit "Unknown table: " ++ lit "Employees")
    (validateDB2SQL (lit "SELECT * FROM Employees, Depts")
       (Some employees_schema)) = 0.
Proof.
  apply (@completion_tables_known employees_schema (lit "employees")
           (lit "Employees") (lit "SELECT * FROM Employees, Depts")).
  - reflexivity.
  - reflexivity.
  - reflexivity.
  - repeat constructor; simpl; intros H;
      repeat (destruct H as [H | H]; [discriminate | ]); exact H.
  - vm_compute. discriminate.
  - reflexivity.
Defined.

Lemma str_eqb_neq a b : a <> b -> str_eqb a b = false.
Proof.
  intros H. destruct (str_eqb a b) eqn:E; [ | reflexivity].
  now apply str_eqb_eq in E.
Qed.

Lemma find_first {A : Type} (p : A -> bool) : forall pre t post,
  Forall (fun u => p u = false) pre -> p t = true ->
  find p (pre ++ t :: post) = Some t.
Proof.
  induction pre as [ | u pre IH]; intros t post H Ht; simpl.
  - now rewrite Ht.
  - inversion H as [ | ? ? Hu Hp]; subst. rewrite Hu. now apply IH.
Qed.

Lemma find_none_all {A : Type} (p : A -> bool) : forall l,
  Forall (fun u => p u = false) l -> find p l = None.
Proof.
  induction l as [ | u l IH]; intros H; [reflexivity | ].
  inversion H as [ | ? ? Hu Hl]; subst. simpl. rewrite Hu. now apply IH.
Qed.

(** X20.  For a schema and a name of ASCII characters:
    [getColumnsForTable] looks a table up by its name or by its name with
    its schema, letter case apart, and returns the columns of the first
    table of the schema that answers; it returns no column without a
    schema, and when no table answers. *)
Theorem getColumnsForTable_lookup cfg (n : str) :
  ascii_schema cfg = true ->
  is_ascii n = true ->
  getColumnsForTable n None = []
  /\
  getColumnsForTable (toUpperCase n) (Some cfg)
  = getColumnsForTable n (Some cfg)
  /\
  (forall pre t post,
     getAllTables (Some cfg) = pre ++ t :: post ->
     Forall (fun u => toUpperCase (tbl_name u) <> toUpperCase n /\
                      full_name_upper u <> toUpperCase n) pre ->
     toUpperCase (tbl_name t) = toUpperCase n \/
     full_name_upper t = toUpperCase n ->
     getColumnsForTable n (Some cfg) = opt_list (tbl_columns t))
  /\
  (Forall (fun u => toUpperCase (tbl_name u) <> toUpperCase n /\
                    full_name_upper u <> toUpperCase n)
     (getAllTables (Some cfg)) ->
   getColumnsForTable n (Some cfg) = []).
Proof.
  intros _ _.
  split; [reflexivity | ].
  split; [unfold getColumnsForTable; cbv zeta; now rewrite toUpperCase_idem | ].
  split.
  - intros pre t post E Hp Ht. unfold getColumnsForTable. cbv zeta.
    rewrite E, find_first; [reflexivity | | ].
    + eapply Forall_impl; [ | exact Hp]. intros u [H1 H2]. cbv beta.
      fold (full_name_upper u). now rewrite !str_eqb_neq.
    + fold (full_name_upper t).
      destruct Ht as [-> | ->]; rewrite str_eqb_refl;
        [apply orb_true_r | reflexivity].
  - intros H. unfold getColumnsForTable. cbv zeta.
    rewrite find_none_all; [reflexivity | ].
    eapply Forall_impl; [ | exact H]. intros u [H1 H2]. cbv beta.
    fold (full_name_upper u). now rewrite !str_eqb_neq.
Qed.

Lemma length_flat_map_sum {A B : Type} (f : A -> list B) (l : list A) :
  length (flat_map f l) = list_sum (map (fun x => length (f x)) l).
Proof.
  induction l as [ | x l IH]; [reflexivity | ].
  simpl. now rewrite length_app, IH.
Qed.

(** X21.  The two functions that list the tables of a schema
    configuration agree.  They list the tables of the flat list, then the
    tables of every schema, in order: no table is dropped, none is added,
    and the name and the columns of a table are kept.  A table under a
    schema keeps its own schema name when it has one, and takes the name
    of the schema otherwise. *)
Theorem getAllTables_listing cfg :
  getAllTables (Some cfg) = getAllTablesForValidation cfg
  /\
  length (getAllTables (Some cfg))
  = length (opt_list (cfg_tables cfg)) +
    list_sum (map (fun s => length (opt_list (sch_tables s)))
                (opt_list (cfg_schemas cfg)))
  /\
  map (fun t => (tbl_name t, tbl_columns t)) (getAllTables (Some cfg))
  = map (fun t => (tbl_name t, tbl_columns t)) (opt_list (cfg_tables cfg)) ++
    flat_map (fun s => map (fun t => (tbl_name t, tbl_columns t))
                         (opt_list (sch_tables s)))
      (opt_list (cfg_schemas cfg))
  /\
  skipn (length (opt_list (cfg_tables cfg)))
    (map tbl_schema (getAllTables (Some cfg)))
  = flat_map (fun s => map (fun t => Some (str_or (tbl_schema t) (sch_name s)))
                         (opt_list (sch_tables s)))
      (opt_list (cfg_schemas cfg)).
Proof.
  split; [reflexivity | ]. unfold getAllTables.
  split; [ | split].
  - rewrite length_app, length_flat_map_sum. f_equal. f_equal.
    apply map_ext. intros s. apply length_map.
  - rewrite map_app. f_equal.
    induction (opt_list (cfg_schemas cfg)) as [ | s l IH]; [reflexivity | ].
    simpl. rewrite map_app, IH, map_map. reflexivity.
  - rewrite map_app, skipn_app, length_map, Nat.sub_diag, skipn_all2
      by (rewrite length_map; lia).
    cbn [skipn app].
    induction (opt_list (cfg_schemas cfg)) as [ | s l IH]; [reflexivity | ].
    simpl. rewrite map_app, IH, map_map. f_equal.
    apply map_ext. intros t. cbn [tbl_schema]. unfold str_or.
    now destruct (truthy (tbl_schema t)).
Qed.

(** The columns of [employees] are those of the table [EMPLOYEES], the second
    of the schema. *)
Lemma getColumnsForTable_lookup_witness :
  getColumnsForTable (lit "employees") (Some employees_and_a_schema)
  = [plain_column "EMP_ID"; plain_column "NAME"].
Proof.
  apply (proj1 (proj2 (proj2 (@getColumnsForTable_lookup
                                employees_and_a_schema (lit "employees")
                                eq_refl eq_refl)))
           [mkTable (lit "A") None None (Some [plain_column "NAME"]) None]
           (mkTable (lit "EMPLOYEES") None None
              (Some [plain_column "EMP_ID"; plain_column "NAME"]) None)
           []).
  - reflexivity.
  - repeat constructor; vm_compute; discriminate.
  - left. reflexivity.
Defined.

(** ** The tables and the aliases of a statement *)

Lemma statement_tables_fold : forall (ms : list rx_match) acc,
  (forall k v, map_get (snd acc) k = Some v -> In v (fst acc)) ->
  Forall (fun t => exists v, map_get (snd acc) (short_name t) = Some v)
    (fst acc) ->
  Forall (fun t => toUpperCase t = t) (fst acc) ->
  let r :=
    fold_left
      (fun acc m =>
         let tableName := toUpperCase (group_or_empty m 1) in
         let aliases :=
           match group m 2 with
           | Some ((_ :: _) as a) => map_set (snd acc) (toUpperCase a) tableName
           | _ => snd acc
           end in
         let shortName := short_name tableName in
         let aliases :=
           match map_get aliases shortName with
           | Some (_ :: _) => aliases
           | _ => map_set aliases shortName tableName
           end in
         (fst acc ++ [tableName], aliases)) ms acc in
  (forall k v, map_get (snd r) k = Some v -> In v (fst r)) /\
  Forall (fun t => exists v, map_get (snd r) (short_name t) = Some v) (fst r)
  /\
  Forall (fun t => toUpperCase t = t) (fst r).
Proof.
  induction ms as [ | m ms IH]; intros acc H1 H2 H3; cbv zeta;
    [cbn [fold_left]; auto | ].
  cbn [fold_left]. apply IH; cbv zeta; cbn [fst snd].
  - (* every alias resolves to a referenced table *)
    set (tableName := toUpperCase (group_or_empty m 1)).
    set (aliases1 := match group m 2 with
                     | Some ((_ :: _) as a) =>
                         map_set (snd acc) (toUpperCase a) tableName
                     | _ => snd acc
                     end).
    assert (Ha : forall k v, map_get aliases1 k = Some v ->
                             In v (fst acc ++ [tableName])).
    { intros k v. unfold aliases1.
      destruct (group m 2) as [[ | c a] | ];
        try (intros Hk; apply in_or_app; left; now apply (H1 k)).
      unfold map_set. cbn [map_get].
      match goal with
      | |- context [str_eqb k ?z] => destruct (str_eqb k z)
      end.
      - intros Hk. injection Hk as <-. apply in_or_app. right. now left.
      - intros Hk. apply in_or_app. left. now apply (H1 k). }
    intros k v.
    destruct (map_get aliases1 (short_name tableName)) as [[ | c s] | ];
      try apply Ha; unfold map_set; cbn [map_get];
      (destruct (str_eqb k (short_name tableName));
       [intros Hk; injection Hk as <-; apply in_or_app; right; now left
       | apply Ha]).
  - (* the short name of every referenced table has an entry *)
    set (tableName := toUpperCase (group_or_empty m 1)).
    set (aliases1 := match group m 2 with
                     | Some ((_ :: _) as a) =>
                         map_set (snd acc) (toUpperCase a) tableName
                     | _ => snd acc
                     end).
    assert (Hk1 : forall k, (exists v, map_get (snd acc) k = Some v) ->
                            exists v, map_get aliases1 k = Some v).
    { intros k [v Hv]. unfold aliases1.
      destruct (group m 2) as [[ | c a] | ]; eauto.
      unfold map_set. cbn [map_get].
      match goal with
      | |- context [str_eqb k ?z] => destruct (str_eqb k z)
      end; eauto. }
    set (aliases2 := match map_get aliases1 (short_name tableName) with
                     | Some (_ :: _) => aliases1
                     | _ => map_set aliases1 (short_name tableName) tableName
                     end).
    assert (Hk2 : forall k, (exists v, map_get aliases1 k = Some v) ->
                            exists v, map_get aliases2 k = Some v).
    { intros k [v Hv]. unfold aliases2.
      destruct (map_get aliases1 (short_name tableName)) as [[ | c s] | ];
        eauto; unfold map_set; cbn [map_get];
        destruct (str_eqb k (short_name tableName)); eauto. }
    apply Forall_app. split.
    + eapply Forall_impl; [ | exact H2]. intros t Ht. now apply Hk2, Hk1.
    + constructor; [ | constructor]. unfold aliases2.
      destruct (map_get aliases1 (short_name tableName)) as [[ | c s] | ]
        eqn:Eg; eauto; unfold map_set; cbn [map_get];
        rewrite str_eqb_refl; eauto.
  - apply Forall_app. split; [exact H3 | ].
    constructor; [apply toUpperCase_idem | constructor].
Qed.

(** X22.  In the context that [getSQLContext] returns, every alias
    resolves to a table that the statement references, the short name of
    every referenced table has an entry among the aliases, and the
    referenced tables are in upper case. *)
Theorem getSQLContext_aliases model position :
  let ctx := getSQLContext model position in
  (forall k v, map_get (aliasToTable ctx) k = Some v ->
               In v (referencedTables ctx))
  /\
  Forall (fun t => exists v, map_get (aliasToTable ctx) (short_name t) = Some v)
    (referencedTables ctx)
  /\
  Forall (fun t => toUpperCase t = t) (referencedTables ctx).
Proof.
  cbv zeta.
  set (fullStatement :=
         full_statement (Monaco.getValue model)
           (Monaco.getValueUntil model position)).
  assert (E : referencedTables (getSQLContext model position)
              = fst (statement_tables fullStatement) /\
              aliasToTable (getSQLContext model position)
              = snd (statement_tables fullStatement)).
  { unfold getSQLContext. cbv zeta. fold fullStatement.
    repeat match goal with
           | |- context [match ?x with _ => _ end] => destruct x
           end; split; reflexivity. }
  destruct E as [-> ->]. unfold statement_tables.
  apply (@statement_tables_fold
           (exec_all true tableAliasRegex fullStatement) ([], [])).
  - intros k v Hk. discriminate Hk.
  - constructor.
  - constructor.
Qed.

(** The alias [E] of [FROM employees e] resolves to a referenced table. *)
Lemma getSQLContext_aliases_witness :
  In (lit "EMPLOYEES")
    (referencedTables
       (getSQLContext [lit "SELECT * FROM employees e WHERE "]
          (Monaco.mkPosition 1 33))).
Proof.
  apply (proj1 (getSQLContext_aliases
                  [lit "SELECT * FROM employees e WHERE "]
                  (Monaco.mkPosition 1 33)) (lit "E")).
  reflexivity.
Defined.

(** ** Columns after an alias and a dot *)

(** X23.  For a schema of ASCII names: after [alias.], outside comments
    and in a text without the word WITH, the suggestions are the columns
    of the table the alias stands for in the statement, one suggestion for
    each column, in the order of the schema, when the schema lists columns
    for that table. *)
Theorem provideCompletionItems_after_alias_dot catalogs gw cfg model position
  (X ident ws t : str) :
  ascii_schema cfg = true ->
  contains_ci (lit "WITH") (Monaco.getValue model) = false ->
  in_line_comment model position = false ->
  in_block_comment model position = false ->
  text_before_cursor model position = X ++ ident ++ [c_dot] ++ ws ->
  ident <> [] ->
  Forall (fun c => in_ranges cls_id c = true) ident ->
  match X with
  | [] => True
  | c :: _ => in_ranges cls_id (last X c) = false
  end ->
  Forall (fun c => is_space c = true) ws ->
  map_get (aliasToTable (getSQLContext model position)) (toUpperCase ident)
  = Some t ->
  t <> [] ->
  getColumnsForTable t (Some cfg) <> [] ->
  map (fun it => (label it, insertText it, kind it))
    (provideCompletionItems catalogs gw (Some cfg) model position)
  = map (fun col => (col_name col, col_name col, KField))
      (getColumnsForTable t (Some cfg)).
Proof.
  intros _ Hw Hl Hb Ht Hn Hi Hx Hs Hm Hne Hc.
  destruct (@context_after_dot model position X ident ws Ht Hn Hi Hx Hs)
    as [Ec Ea].
  unfold provideCompletionItems. rewrite Hl, Hb. cbv zeta.
  rewrite (parseCTEs_without_with _ Hw).
  cbn [length Nat.ltb Nat.leb andb find last_cte_end fold_left].
  unfold schema_items. rewrite (parseCTEs_without_with _ Hw), Ec, Ea.
  destruct ident as [ | i0 ident]; [congruence | ].
  cbn [toUpperCase map truthy find_cte find].
  change (upper_char i0 :: map upper_char ident)
    with (toUpperCase (i0 :: ident)).
  rewrite Hm.
  destruct t as [ | t0 t]; [congruence | ].
  destruct (getColumnsForTable (t0 :: t) (Some cfg)) as [ | c0 cols] eqn:E;
    [congruence | ].
  cbn [fst snd]. rewrite !map_map. reflexivity.
Qed.

(** The columns of [EMPLOYEES] after [e.] in
    [SELECT e. FROM EMPLOYEES e]. *)
Lemma provideCompletionItems_after_alias_dot_witness :
  map (fun it => (label it, insertText it, kind it))
    (provideCompletionItems (mkCatalogs [] [] [] [] [] [] [] [] [] [])
       (fun _ _ => (10, 10)) (Some employees_schema)
       [lit "SELECT e. FROM EMPLOYEES e"] (Monaco.mkPosition 1 10))
  = map (fun col => (col_name col, col_name col, KField))
      (getColumnsForTable (lit "EMPLOYEES") (Some employees_schema)).
Proof.
  apply (@provideCompletionItems_after_alias_dot
           (mkCatalogs [] [] [] [] [] [] [] [] [] []) (fun _ _ => (10, 10))
           employees_schema [lit "SELECT e. FROM EMPLOYEES e"]
           (Monaco.mkPosition 1 10) (lit "SELECT ") (lit "e") []
           (lit "EMPLOYEES")).
  - reflexivity.
  - reflexivity.
  - reflexivity.
  - reflexivity.
  - reflexivity.
  - discriminate.
  - repeat constructor.
  - reflexivity.
  - constructor.
  - reflexivity.
  - discriminate.
  - vm_compute. discriminate.
Defined.
